(** * Array execution of tuple-call and LLVM function bodies

    A shallow embedding of
    [source/blender/functions/functions/array_execution.cpp]: the base class
    [ArrayExecution] with its type size table, the boxed strategy
    [TupleCallArrayExecution] and the precompiled strategy
    [LLVMArrayExecution].

    Conventions of the embedding.
    - [uint] is C's 32-bit [unsigned int], carried by [Z]; products wrap
      modulo [2^32] ([uint_mul]).  [void *] is an address, carried by [Z];
      address arithmetic does not wrap.
    - An [ArrayRef<T>] is a pointer and a size (BLI_array_ref.hpp): the
      three arrays of [call] stay in caller memory and are read there when
      the code reads them.  The module [InMemory] embeds the two [call]s
      this way.  The definitions of this part take each array as the list
      of the elements it shows when the call begins, [operator[]] asserting
      the index and [size()] being the length of the list (an [ArrayRef]
      keeps its size in a [uint], so only lists shorter than [2^32] are
      views); they are what [InMemory] comes to as long as no output
      element lies on one of the arrays
      ([TupleCallArrayExecution_call_on_view], [emitted_function_on_view]).
    - Raw buffers live in one byte-addressed [Memory].
    - Code that mutates memory, the execution context or the global LLVM
      context pool runs in the monad [M]: a state monad over [World] whose
      result is an [Outcome].  The world survives a failure, so what was
      written before a failure stays written.  The [ExecutionContext &]
      that [call] receives and hands on is the [context] of the world.
    - [BLI_assert] is the assertion of a debug build: a condition that does
      not hold ends the computation with [AssertionFailed].
    - A callee that fails (the boxed body, code generation, the JIT) ends
      the computation with [Raised]; nothing in this file catches a failure.
    - The IR that [build_function_ir] emits is embedded by its run-time
      meaning: each [CodeBuilder] call stands for the effect of the
      instruction it emits, and the emitted function is a closure.  Names
      given to IR values ([setName]) have no run-time meaning and are left
      out.  What the load and the store of a type do is the type's; in the
      definitions on lists every type is plain bytes of the size of its
      stride, in [InMemory] the IR of a type is a parameter ([TypeIR]).
    - Every step that touches a buffer, calls a body, allocates a frame or
      belongs to code generation appends an [Event] to the [trace] of the
      world; the statements below read the trace. *)

From Stdlib Require Import String.
From Stdlib.Strings Require Import Byte.
From Stdlib Require Import ZArith List Lia Bool.
Import ListNotations.
Local Open Scope Z_scope.

Set Implicit Arguments.

(** ** Machine integers, addresses and memory *)

Definition uint_modulus : Z := 2 ^ 32.

(** [a * b] on two [uint] operands. *)
Definition uint_mul (a b : Z) : Z := (a * b) mod uint_modulus.

(** BLI_utildefines.h: [((void * )((char * )(v) + (ofs)))]. *)
Definition POINTER_OFFSET (v ofs : Z) : Z := v + ofs.

(** The bytes of one element. *)
Definition Value := list byte.

Definition Memory := Z -> byte.

(** The [len] bytes starting at [addr]. *)
Definition mem_read (m : Memory) (addr len : Z) : Value :=
  map (fun j => m (addr + Z.of_nat j)) (seq 0 (Z.to_nat len)).

(** Overwrite exactly the [len] bytes starting at [addr] with the bytes of
    [v]. *)
Definition mem_write (m : Memory) (addr len : Z) (v : Value) : Memory :=
  fun a =>
    if (addr <=? a) && (a <? addr + len)
    then nth (Z.to_nat (a - addr)) v x00
    else m a.

(** [a] lies in the element region [[addr, addr + len)]. *)
Definition in_region (addr len a : Z) : Prop := addr <= a < addr + len.

Section Monad.

(** The execution context is opaque to this layer, and so is whatever a
    body raises when it fails. *)
Context {ExecutionContext Failure : Type}.

(** ** Observable events *)

Inductive FrameKind : Type := InputFrame | OutputFrame.

Inductive Event : Type :=
  (* run time *)
  | EvAllocTuple (kind : FrameKind) (slots : nat)
  | EvRead (slot : nat) (addr len : Z)
  | EvWrite (slot : nat) (addr len : Z)
  | EvBodyCall (args results : list (option Value))
  | EvNativeBodyCall (args results : list Value)
  | EvInvokeCompiled (size : Z) (indices input_buffers output_buffers : list Z)
  | EvInvokeNative (size indices input_buffers output_buffers : Z)
  (* construction time *)
  | EvAquireContext
  | EvNewModule (name : string)
  | EvCreateFunction (name : string)
  | EvBuildBody (name : string)
  | EvFromIR (name : string)
  | EvReleaseContext.

(** ** The world and the monad *)

Record World : Type := {
  memory : Memory;
  context : ExecutionContext;
  (* LLVM contexts handed out by [aquire_llvm_context] and not yet given
     back *)
  llvm_contexts_held : nat;
  (* oldest event first *)
  trace : list Event
}.

Inductive Outcome (A : Type) : Type :=
  | Returned (a : A)
  | AssertionFailed            (* a [BLI_assert] did not hold *)
  | Raised (e : Failure)       (* a callee failed; nobody caught it *)
  | Undefined.                 (* out of bounds access, null reference *)

Arguments AssertionFailed {A}.
Arguments Raised {A} e.
Arguments Undefined {A}.

Definition M (A : Type) : Type := World -> Outcome A * World.

Definition ret {A} (a : A) : M A := fun w => (Returned a, w).

Definition bind {A B} (c : M A) (k : A -> M B) : M B :=
  fun w =>
    match c w with
    | (Returned a, w') => k a w'
    | (AssertionFailed, w') => (AssertionFailed, w')
    | (Raised e, w') => (Raised e, w')
    | (Undefined, w') => (Undefined, w')
    end.

Definition stop {A} (o : Outcome A) : M A := fun w => (o, w).

(** The outcome without its value. *)
Definition forget {A} (o : Outcome A) : Outcome unit :=
  match o with
  | Returned _ => Returned tt
  | AssertionFailed => AssertionFailed
  | Raised e => Raised e
  | Undefined => Undefined
  end.

Definition BLI_assert (b : bool) : M unit :=
  if b then ret tt else stop AssertionFailed.

Definition emit (e : Event) : M unit :=
  fun w => (Returned tt,
            {| memory := memory w; context := context w;
               llvm_contexts_held := llvm_contexts_held w;
               trace := trace w ++ [e] |}).

Definition get_memory : M Memory := fun w => (Returned (memory w), w).

Definition put_memory (m : Memory) : M unit :=
  fun w => (Returned tt,
            {| memory := m; context := context w;
               llvm_contexts_held := llvm_contexts_held w;
               trace := trace w |}).

Definition get_context : M ExecutionContext :=
  fun w => (Returned (context w), w).

Definition put_context (c : ExecutionContext) : M unit :=
  fun w => (Returned tt,
            {| memory := memory w; context := c;
               llvm_contexts_held := llvm_contexts_held w;
               trace := trace w |}).

Definition put_held (n : nat) : M unit :=
  fun w => (Returned tt,
            {| memory := memory w; context := context w;
               llvm_contexts_held := n;
               trace := trace w |}).

(** [for (x : xs) { acc = body(x, acc); }] *)
Fixpoint for_each {A S} (xs : list A) (acc : S) (body : A -> S -> M S) : M S :=
  match xs with
  | [] => ret acc
  | x :: rest => bind (body x acc) (fun acc' => for_each rest acc' body)
  end.

(** [for (uint i = 0; i < n; i++) { acc = body(i, acc); }] *)
Definition for_range {S} (n : nat) (acc : S) (body : nat -> S -> M S) : M S :=
  for_each (seq 0 n) acc body.

(** [ArrayRef<T>::operator[]], [Vector<T>::operator[]]:
    [BLI_assert(index < m_size); return m_start[index];] *)
Definition at_index {A} (xs : list A) (index : nat) : M A :=
  match nth_error xs index with
  | Some x => ret x
  | None => stop AssertionFailed
  end.

End Monad.

Arguments AssertionFailed {Failure A}.
Arguments Raised {Failure A} e.
Arguments Undefined {Failure A}.
Arguments Returned {Failure A} a.

Declare Scope exec_scope.
Delimit Scope exec_scope with exec.
Notation "x <- c ;; k" := (bind c (fun x => k))
  (at level 61, c at next level, right associativity) : exec_scope.
Notation "' pat <- c ;; k" := (bind c (fun x => match x with pat => k end))
  (at level 61, pat pattern, c at next level, right associativity) : exec_scope.
Notation "c ;; k" := (bind c (fun _ => k))
  (at level 61, right associativity) : exec_scope.

Local Open Scope exec_scope.

(** Replace element [index] of [xs]; out of range leaves [xs] as it is. *)
Fixpoint list_set {A} (xs : list A) (index : nat) (x : A) : list A :=
  match xs, index with
  | [], _ => []
  | _ :: rest, O => x :: rest
  | y :: rest, S index' => y :: list_set rest index' x
  end.

(** The values held by a frame; an empty slot has no bytes. *)
Definition tuple_values (slots : list (option Value)) : list Value :=
  map (fun s => match s with Some v => v | None => [] end) slots.

Section Model.

Context {ExecutionContext Failure : Type}.
Local Abbreviation M := (@M ExecutionContext Failure).

(** ** Types and their extensions *)

(** [CPPTypeInfo]: only [size()] is used by this file. *)
Record CPPTypeInfo : Type := { size : Z }.

(** [LLVMTypeInfo]: the load and store hooks are [build_load_ir__copy] and
    [build_store_ir__relocate] below. *)
Record LLVMTypeInfo : Type := { llvm_type_name : string }.

Record Type_ : Type := {
  type_name : string;
  ext_CPPTypeInfo : option CPPTypeInfo;
  ext_LLVMTypeInfo : option LLVMTypeInfo
}.

(** [type->extension<T>()]: the extension has to be there. *)
Definition extension {T} (ext : option T) : M T :=
  match ext with
  | Some info => ret info
  | None => stop AssertionFailed
  end.

(** ** Tuples (call-frames) *)

(** A tuple has one slot per type of its meta; [None] is a slot that holds
    no value ([m_initialized[i] == false]). *)
Record Tuple : Type := {
  tuple_meta : list CPPTypeInfo;
  tuple_slots : list (option Value)
}.

Definition set_slot (t : Tuple) (index : nat) (v : option Value) : Tuple :=
  {| tuple_meta := tuple_meta t;
     tuple_slots := list_set (tuple_slots t) index v |}.

(** Modelled from the spec: the tuple allocation behind
    [FN_TUPLE_CALL_ALLOC_TUPLES] (FN_tuple_call.hpp is not part of the
    sources at hand): "one reusable input call-frame and one reusable output
    call-frame sized exactly for the descriptor's input/output type lists".
    A fresh frame holds no value. *)
Definition alloc_tuple (kind : FrameKind) (types : list Type_) : M Tuple :=
  infos <- for_each types []
             (fun type acc =>
                info <- extension (ext_CPPTypeInfo type) ;;
                ret (acc ++ [info])) ;;
  emit (EvAllocTuple kind (length types)) ;;
  ret {| tuple_meta := infos;
         tuple_slots := repeat None (length types) |}.

(** Modelled from the spec: [Tuple::copy_in__dynamic] (not part of the
    sources at hand): "copy-construct that value into the input call-frame at
    that slot (a value copy, not a move -- the source buffer element must
    remain unmodified)".  The element read has the size of the slot's type. *)
Definition copy_in__dynamic (t : Tuple) (index : nat) (src : Z) : M Tuple :=
  info <- at_index (tuple_meta t) index ;;
  m <- get_memory ;;
  emit (EvRead index src (size info)) ;;
  ret (set_slot t index (Some (mem_read m src (size info)))).

(** Modelled from the spec: [Tuple::relocate_out__dynamic] (not part of the
    sources at hand): "relocate (move-out, destructive read) the value from
    the output call-frame into that destination -- the call-frame slot is left
    empty/owning-nothing afterward".  Moving out of a slot that holds nothing
    is a contract violation. *)
Definition relocate_out__dynamic (t : Tuple) (index : nat) (dst : Z) : M Tuple :=
  info <- at_index (tuple_meta t) index ;;
  slot <- at_index (tuple_slots t) index ;;
  match slot with
  | None => stop AssertionFailed
  | Some v =>
      m <- get_memory ;;
      put_memory (mem_write m dst (size info) v) ;;
      emit (EvWrite index dst (size info)) ;;
      ret (set_slot t index None)
  end.

(** ** Function descriptors *)

(** What a boxed body does with the two frames and the context: it returns,
    having possibly changed the values in the slots of both frames and the
    context, or it fails.  The meta of a frame is not the body's to change. *)
Inductive BodyResult : Type :=
  | BodyReturned (in_slots out_slots : list (option Value))
      (ctx : ExecutionContext)
  | BodyFailed (e : Failure) (ctx : ExecutionContext).

Record TupleCallBody : Type := {
  tuple_call : Tuple -> Tuple -> ExecutionContext -> BodyResult
}.

(** The meaning of the [llvm::Function] a body builds: all inputs and the
    context pointer in, the aggregate of all outputs out. *)
Definition NativeBody : Type :=
  list Value -> ExecutionContext -> list Value * ExecutionContext.

Inductive BuildResult : Type :=
  | Built (f : NativeBody)
  | BuildFailed (e : Failure).

Record LLVMBuildIRBody : Type := {
  build_function : BuildResult
}.

Record Function : Type := {
  name : string;
  input_types : list Type_;
  output_types : list Type_;
  body_TupleCall : option TupleCallBody;
  body_LLVMBuildIR : option LLVMBuildIRBody
}.

Definition input_amount (fn : Function) : nat := length (input_types fn).
Definition output_amount (fn : Function) : nat := length (output_types fn).

Definition has_body {B} (body : option B) : bool :=
  match body with Some _ => true | None => false end.

(** [m_function->body<B>()] returns a reference; there is nothing to refer to
    when the body is absent. *)
Definition body {B} (b : option B) : M B :=
  match b with
  | Some x => ret x
  | None => stop Undefined
  end.

(** [body.call(fn_in, fn_out, execution_context)] *)
Definition TupleCallBody_call (b : TupleCallBody) (fn_in fn_out : Tuple)
  : M (Tuple * Tuple) :=
  ctx <- get_context ;;
  match tuple_call b fn_in fn_out ctx with
  | BodyReturned in_slots out_slots ctx' =>
      put_context ctx' ;;
      emit (EvBodyCall (tuple_slots fn_in) out_slots) ;;
      ret ({| tuple_meta := tuple_meta fn_in; tuple_slots := in_slots |},
           {| tuple_meta := tuple_meta fn_out; tuple_slots := out_slots |})
  | BodyFailed e ctx' =>
      put_context ctx' ;;
      emit (EvBodyCall (tuple_slots fn_in) []) ;;
      stop (Raised e)
  end.

(** The boxed body is the pure function [f]: it leaves the input frame and
    the context alone and fills every output slot with the value [f] gives. *)
Definition TupleCallBody_computes (b : TupleCallBody)
    (f : list Value -> list Value) : Prop :=
  forall fn_in fn_out ctx,
    tuple_call b fn_in fn_out ctx =
    BodyReturned (tuple_slots fn_in)
      (map Some (f (tuple_values (tuple_slots fn_in)))) ctx.

(** The compilable body is the pure function [f]. *)
Definition LLVMBuildIRBody_computes (b : LLVMBuildIRBody)
    (f : list Value -> list Value) : Prop :=
  exists native,
    build_function b = Built native /\
    forall values ctx, native values ctx = (f values, ctx).

(** ** ArrayExecution *)

(** The two size tables hold [uint]s: [get_input_buffers] reads them with
    [uint element_size = m_input_sizes[i]]. *)
Record ArrayExecution : Type := {
  m_function : Function;
  m_input_sizes : list Z;
  m_output_sizes : list Z
}.

(** The loop of the constructor:
    [for (Type *type : types) sizes.append(type->extension<CPPTypeInfo>().size());] *)
Definition append_sizes (types : list Type_) : M (list Z) :=
  for_each types []
    (fun type sizes =>
       info <- extension (ext_CPPTypeInfo type) ;;
       ret (sizes ++ [size info])).

(** [ArrayExecution::ArrayExecution(SharedFunction function)] *)
Definition ArrayExecution_new (function : Function) : M ArrayExecution :=
  input_sizes <- append_sizes (input_types function) ;;
  output_sizes <- append_sizes (output_types function) ;;
  ret {| m_function := function;
         m_input_sizes := input_sizes;
         m_output_sizes := output_sizes |}.

(** ** Tuple Call Array Execution *)

(** [TupleCallArrayExecution::TupleCallArrayExecution] *)
Definition TupleCallArrayExecution_new (function : Function) : M ArrayExecution :=
  self <- ArrayExecution_new function ;;
  BLI_assert (has_body (body_TupleCall (m_function self))) ;;
  ret self.

(** The first inner loop of [call]: copy the inputs of [index] in.  Both
    factors of [index * m_input_sizes[i]] are [uint]s, so the offset is their
    product modulo [2^32]. *)
Definition copy_inputs (self : ArrayExecution) (input_buffers : list Z)
    (index : Z) (fn_in : Tuple) : M Tuple :=
  for_range (input_amount (m_function self)) fn_in
    (fun i fn_in =>
       buffer <- at_index input_buffers i ;;
       element_size <- at_index (m_input_sizes self) i ;;
       let ptr := POINTER_OFFSET buffer (uint_mul index element_size) in
       copy_in__dynamic fn_in i ptr).

(** The second inner loop of [call]: relocate the outputs of [index] out. *)
Definition relocate_outputs (self : ArrayExecution) (output_buffers : list Z)
    (index : Z) (fn_out : Tuple) : M Tuple :=
  for_range (output_amount (m_function self)) fn_out
    (fun i fn_out =>
       buffer <- at_index output_buffers i ;;
       element_size <- at_index (m_output_sizes self) i ;;
       let ptr := POINTER_OFFSET buffer (uint_mul index element_size) in
       relocate_out__dynamic fn_out i ptr).

(** The body of [for (uint index : indices)]. *)
Definition tuple_call_index (self : ArrayExecution) (b : TupleCallBody)
    (input_buffers output_buffers : list Z)
    (index : Z) (frames : Tuple * Tuple) : M (Tuple * Tuple) :=
  let '(fn_in, fn_out) := frames in
  fn_in <- copy_inputs self input_buffers index fn_in ;;
  '(fn_in, fn_out) <- TupleCallBody_call b fn_in fn_out ;;
  fn_out <- relocate_outputs self output_buffers index fn_out ;;
  ret (fn_in, fn_out).

(** [TupleCallArrayExecution::call], on the lists the three arrays show when
    the call begins; [InMemory.TupleCallArrayExecution_call] reads them
    from memory. *)
Definition TupleCallArrayExecution_call (self : ArrayExecution)
    (indices : list Z) (input_buffers output_buffers : list Z) : M unit :=
  let input_amount := input_amount (m_function self) in
  let output_amount := output_amount (m_function self) in
  BLI_assert (Nat.eqb input_amount (length input_buffers)) ;;
  BLI_assert (Nat.eqb output_amount (length output_buffers)) ;;
  b <- body (body_TupleCall (m_function self)) ;;
  fn_in <- alloc_tuple InputFrame (input_types (m_function self)) ;;
  fn_out <- alloc_tuple OutputFrame (output_types (m_function self)) ;;
  for_each indices (fn_in, fn_out)
    (tuple_call_index self b input_buffers output_buffers) ;;
  ret tt.

(** ** LLVM Array Execution *)

(** The meaning of machine code with the signature
    [void(uint size, const uint *indices, void *const *input_buffers,
          void **output_buffers, void *context_ptr)].
    An array pointer is carried by the list the array shows when the function
    is invoked; loading past its end is [Undefined].  The context pointer
    always points to the world's [context].
    [InMemory.CompiledFunctionSignature] takes the addresses. *)
Definition CompiledFunctionSignature : Type :=
  Z -> list Z -> list Z -> list Z -> M unit.

Record CompiledLLVM : Type := {
  function_ptr : CompiledFunctionSignature
}.

Record LLVMArrayExecution : Type := {
  base : ArrayExecution;
  m_input_type_infos : list LLVMTypeInfo;
  m_output_type_infos : list LLVMTypeInfo;
  m_compiled_function : option CompiledLLVM
}.

(** A buffer pointer cast to "pointer to elements of [stride] bytes". *)
Record StridedPointer : Type := {
  address : Z;
  stride : Z
}.

(** Modelled from the spec: the global LLVM context pool behind
    [aquire_llvm_context] and [release_llvm_context] (not part of the sources
    at hand): "Global JIT context acquire/release around compilation". *)
Definition aquire_llvm_context : M nat :=
  fun w =>
    bind (put_held (S (llvm_contexts_held w)))
         (fun _ => bind (emit EvAquireContext)
                        (fun _ => ret (llvm_contexts_held w))) w.

Definition release_llvm_context (context : nat) : M unit :=
  fun w =>
    bind (put_held (pred (llvm_contexts_held w)))
         (fun _ => emit EvReleaseContext) w.

(** [new llvm::Module(name, *context)]; a module is known by its name. *)
Definition new_Module (module_name : string) (context : nat) : M string :=
  emit (EvNewModule module_name) ;;
  ret module_name.

(** Modelled from the spec: [CodeBuilder::CreateLoadAtIndex] (the code
    builder is not part of the sources at hand): load element [index] of an
    array. *)
Definition CreateLoadAtIndex (array : list Z) (index : nat) : M Z :=
  match nth_error array index with
  | Some x => ret x
  | None => stop Undefined
  end.

(** Modelled from the spec: [CodeBuilder::CastToPointerWithStride]:
    "reinterpret each raw input buffer pointer as a strided pointer whose
    element stride equals that input's byte size". *)
Definition CastToPointerWithStride (addr element_size : Z) : StridedPointer :=
  {| address := addr; stride := element_size |}.

(** Modelled from the spec: [CodeBuilder::CreateGEP] on a strided pointer:
    "compute its element address via strided pointer arithmetic at that
    logical index". *)
Definition CreateGEP (p : StridedPointer) (index : Z) : StridedPointer :=
  {| address := address p + index * stride p; stride := stride p |}.

(** Modelled from the spec: [LLVMTypeInfo::build_load_ir__copy]: "emit a
    type-specific load", for a type of plain bytes: it loads the bytes of
    the element the pointer points to.
    [InMemory.build_load_ir__copy] is the load of any type. *)
Definition build_load_ir__copy (info : LLVMTypeInfo) (slot : nat)
    (addr : StridedPointer) : M Value :=
  m <- get_memory ;;
  emit (EvRead slot (address addr) (stride addr)) ;;
  ret (mem_read m (address addr) (stride addr)).

(** Modelled from the spec: [LLVMTypeInfo::build_store_ir__relocate]: "emit a
    type-specific store to the strided output address", for a type of plain
    bytes.  [InMemory.build_store_ir__relocate] is the store of any type. *)
Definition build_store_ir__relocate (info : LLVMTypeInfo) (slot : nat)
    (value : Value) (addr : StridedPointer) : M unit :=
  m <- get_memory ;;
  put_memory (mem_write m (address addr) (stride addr) value) ;;
  emit (EvWrite slot (address addr) (stride addr)).

(** Modelled from the spec: [CodeBuilder::CreateExtractValue]: "extract the
    corresponding field from the aggregate result". *)
Definition CreateExtractValue (aggregate : list Value) (i : nat) : M Value :=
  match nth_error aggregate i with
  | Some v => ret v
  | None => stop Undefined
  end.

(** Modelled from the spec: [CodeBuilder::CreateCall] of the body's function
    with "all loaded input values plus the opaque context pointer". *)
Definition CreateCall (actual_function : NativeBody) (input_values : list Value)
  : M (list Value) :=
  ctx <- get_context ;;
  let '(result, ctx') := actual_function input_values ctx in
  put_context ctx' ;;
  emit (EvNativeBodyCall input_values result) ;;
  ret result.

(** Modelled from the spec: [CodeBuilder::CreateNIterationsLoop] with
    [current_iteration()] and [finalize]: "a single loop constructed to run
    exactly [count] times", the iteration counting up from zero. *)
Definition CreateNIterationsLoop (count : Z) (loop_body : nat -> M unit) : M unit :=
  for_range (Z.to_nat count) tt (fun iteration _ => loop_body iteration).

(** [LLVMArrayExecution::get_input_buffers] *)
Definition get_input_buffers (self : ArrayExecution) (input_buffers_arg : list Z)
  : M (list StridedPointer) :=
  for_range (input_amount (m_function self)) []
    (fun i input_buffers =>
       element_size <- at_index (m_input_sizes self) i ;;
       input_buffer <- CreateLoadAtIndex input_buffers_arg i ;;
       let typed_input_buffer :=
         CastToPointerWithStride input_buffer element_size in
       ret (input_buffers ++ [typed_input_buffer])).

(** [LLVMArrayExecution::get_output_buffers] *)
Definition get_output_buffers (self : ArrayExecution) (output_buffers_arg : list Z)
  : M (list StridedPointer) :=
  for_range (output_amount (m_function self)) []
    (fun i output_buffers =>
       element_size <- at_index (m_output_sizes self) i ;;
       output_buffer <- CreateLoadAtIndex output_buffers_arg i ;;
       let typed_output_buffer :=
         CastToPointerWithStride output_buffer element_size in
       ret (output_buffers ++ [typed_output_buffer])).

(** [LLVMArrayExecution::get_input_values] *)
Definition get_input_values (self : ArrayExecution)
    (input_type_infos : list LLVMTypeInfo)
    (input_buffers : list StridedPointer) (index_to_process : Z)
  : M (list Value) :=
  for_range (input_amount (m_function self)) []
    (fun i input_values =>
       buffer <- at_index input_buffers i ;;
       let addr := CreateGEP buffer index_to_process in
       info <- at_index input_type_infos i ;;
       value <- build_load_ir__copy info i addr ;;
       ret (input_values ++ [value])).

(** [LLVMArrayExecution::store_output_values] *)
Definition store_output_values (self : ArrayExecution)
    (output_type_infos : list LLVMTypeInfo)
    (output_buffers : list StridedPointer) (index_to_process : Z)
    (computed_results : list Value) : M unit :=
  for_range (output_amount (m_function self)) tt
    (fun i _ =>
       buffer <- at_index output_buffers i ;;
       let addr := CreateGEP buffer index_to_process in
       value <- CreateExtractValue computed_results i ;;
       info <- at_index output_type_infos i ;;
       build_store_ir__relocate info i value addr).

(** The body of the emitted loop. *)
Definition loop_body (self : ArrayExecution)
    (input_type_infos output_type_infos : list LLVMTypeInfo)
    (actual_function : NativeBody)
    (indices : list Z) (input_buffers output_buffers : list StridedPointer)
    (iteration : nat) : M unit :=
  index_to_process <- CreateLoadAtIndex indices iteration ;;
  input_values <- get_input_values self input_type_infos input_buffers
                    index_to_process ;;
  result <- CreateCall actual_function input_values ;;
  store_output_values self output_type_infos output_buffers
    index_to_process result.

(** The function [build_function_ir] emits, given the function the body
    built. *)
Definition emitted_function (self : ArrayExecution)
    (input_type_infos output_type_infos : list LLVMTypeInfo)
    (actual_function : NativeBody) : CompiledFunctionSignature :=
  fun size indices input_buffers_arg output_buffers_arg =>
    input_buffers <- get_input_buffers self input_buffers_arg ;;
    output_buffers <- get_output_buffers self output_buffers_arg ;;
    CreateNIterationsLoop size
      (loop_body self input_type_infos output_type_infos actual_function
         indices input_buffers output_buffers).

(** [body.build_function(module, name, settings, function_cache)] *)
Definition LLVMBuildIRBody_build_function (b : LLVMBuildIRBody)
    (function_name : string) : M NativeBody :=
  emit (EvBuildBody function_name) ;;
  match build_function b with
  | Built f => ret f
  | BuildFailed e => stop (Raised e)
  end.

(** [LLVMArrayExecution::build_function_ir] *)
Definition build_function_ir (self : LLVMArrayExecution) (module : string)
  : M CompiledFunctionSignature :=
  b <- body (body_LLVMBuildIR (m_function (base self))) ;;
  emit (EvCreateFunction module) ;;
  actual_function <-
    LLVMBuildIRBody_build_function b (name (m_function (base self))) ;;
  ret (emitted_function (base self) (m_input_type_infos self)
         (m_output_type_infos self) actual_function).

(** The JIT backend is a black box: for the module of a given name it either
    produces machine code or fails. *)
Variable jit_fault : string -> option Failure.

(** Modelled from the spec: [CompiledLLVM::FromIR] (not part of the sources
    at hand): "the resulting function is compiled to executable machine code
    immediately"; a compilation failure "propagate[s] as a construction
    failure". *)
Definition CompiledLLVM_FromIR (module : string)
    (function : CompiledFunctionSignature) : M CompiledLLVM :=
  emit (EvFromIR module) ;;
  match jit_fault module with
  | None => ret {| function_ptr := function |}
  | Some e => stop (Raised e)
  end.

(** [LLVMArrayExecution::compile] *)
Definition compile (self : LLVMArrayExecution) : M LLVMArrayExecution :=
  context <- aquire_llvm_context ;;
  module <- new_Module
              (name (m_function (base self)) ++ " (Array Execution)")%string
              context ;;
  function <- build_function_ir self module ;;
  compiled <- CompiledLLVM_FromIR module function ;;
  release_llvm_context context ;;
  ret {| base := base self;
         m_input_type_infos := m_input_type_infos self;
         m_output_type_infos := m_output_type_infos self;
         m_compiled_function := Some compiled |}.

(** [m_function->input_extensions<LLVMTypeInfo>()] *)
Definition extensions_LLVMTypeInfo (types : list Type_) : M (list LLVMTypeInfo) :=
  for_each types []
    (fun type infos =>
       info <- extension (ext_LLVMTypeInfo type) ;;
       ret (infos ++ [info])).

(** [LLVMArrayExecution::LLVMArrayExecution] *)
Definition LLVMArrayExecution_new (function : Function) : M LLVMArrayExecution :=
  self <- ArrayExecution_new function ;;
  BLI_assert (has_body (body_LLVMBuildIR (m_function self))) ;;
  input_type_infos <- extensions_LLVMTypeInfo (input_types (m_function self)) ;;
  output_type_infos <- extensions_LLVMTypeInfo (output_types (m_function self)) ;;
  compile {| base := self;
             m_input_type_infos := input_type_infos;
             m_output_type_infos := output_type_infos;
             m_compiled_function := None |}.

(** [LLVMArrayExecution::call], on the lists the three arrays show when the
    call begins; [InMemory.LLVMArrayExecution_call] passes the addresses. *)
Definition LLVMArrayExecution_call (self : LLVMArrayExecution)
    (indices : list Z) (input_buffers output_buffers : list Z) : M unit :=
  compiled <- body (m_compiled_function self) ;;
  let function := function_ptr compiled in
  let size := Z.of_nat (length indices) in
  emit (EvInvokeCompiled size indices input_buffers output_buffers) ;;
  function size indices input_buffers output_buffers.

End Model.

(** ** Reference descriptions used by the statements *)

Section Reference.

Context {ExecutionContext Failure : Type}.

(** The address [call] computes for element [index] of buffer [k]:
    [POINTER_OFFSET(buffers[k], index * sizes[k])], the product being a
    [uint]. *)
Definition element_ptr (buffers sizes : list Z) (index : Z) (k : nat) : Z :=
  POINTER_OFFSET (nth k buffers 0) (uint_mul index (nth k sizes 0)).

(** The address the specification names: byte offset [index * sizes[k]]
    inside [buffers[k]]. *)
Definition spec_element_ptr (buffers sizes : list Z) (index : Z) (k : nat) : Z :=
  nth k buffers 0 + index * nth k sizes 0.

(** One read per input slot, slot 0 first. *)
Definition element_reads (ptr : nat -> Z) (sizes : list Z) (n : nat) : list Event :=
  map (fun k => EvRead k (ptr k) (nth k sizes 0)) (seq 0 n).

(** One write per output slot, slot 0 first. *)
Definition element_writes (ptr : nat -> Z) (sizes : list Z) (n : nat) : list Event :=
  map (fun k => EvWrite k (ptr k) (nth k sizes 0)) (seq 0 n).

(** Memory after the elements of slots [0 .. n-1] have been written, slot 0
    first. *)
Definition write_elements (m : Memory) (ptr : nat -> Z) (sizes : list Z)
    (values : list Value) (n : nat) : Memory :=
  fold_left (fun m k => mem_write m (ptr k) (nth k sizes 0) (nth k values []))
    (seq 0 n) m.

(** What the boxed strategy logs for one index, given the slots the body was
    called with and the slots it left. *)
Definition tuple_call_events (self : @ArrayExecution ExecutionContext Failure)
    (input_buffers output_buffers : list Z) (index : Z)
    (call : list (option Value) * list (option Value)) : list Event :=
  element_reads (element_ptr input_buffers (m_input_sizes self) index)
    (m_input_sizes self) (input_amount (m_function self))
  ++ [EvBodyCall (fst call) (snd call)]
  ++ element_writes (element_ptr output_buffers (m_output_sizes self) index)
       (m_output_sizes self) (output_amount (m_function self)).

(** The buffer accesses of one index at the addresses [call] computes: every
    input element read, then every output element written. *)
Definition element_accesses (self : @ArrayExecution ExecutionContext Failure)
    (input_buffers output_buffers : list Z) (index : Z) : list Event :=
  element_reads (element_ptr input_buffers (m_input_sizes self) index)
    (m_input_sizes self) (input_amount (m_function self))
  ++ element_writes (element_ptr output_buffers (m_output_sizes self) index)
       (m_output_sizes self) (output_amount (m_function self)).

(** The buffer accesses of one index as the specification words them: the
    element at byte offset [index * size] of every buffer. *)
Definition spec_element_accesses
    (self : @ArrayExecution ExecutionContext Failure)
    (input_buffers output_buffers : list Z) (index : Z) : list Event :=
  element_reads (spec_element_ptr input_buffers (m_input_sizes self) index)
    (m_input_sizes self) (input_amount (m_function self))
  ++ element_writes (spec_element_ptr output_buffers (m_output_sizes self) index)
       (m_output_sizes self) (output_amount (m_function self)).

(** [a] is inside an output element of one of the [indices]. *)
Definition in_output_element (self : @ArrayExecution ExecutionContext Failure)
    (output_buffers : list Z) (indices : list Z) (a : Z) : Prop :=
  exists index k,
    In index indices /\ (k < output_amount (m_function self))%nat /\
    in_region (element_ptr output_buffers (m_output_sizes self) index k)
      (nth k (m_output_sizes self) 0) a.

Definition prefix {A} (xs ys : list A) : Prop := exists rest, ys = xs ++ rest.

(** The buffer pointers of a strategy, each cast to its element stride. *)
Definition strided_buffers (buffers sizes : list Z) (n : nat)
  : list StridedPointer :=
  map (fun k => {| address := nth k buffers 0; stride := nth k sizes 0 |})
    (seq 0 n).

(** What the emitted loop body logs for one index, given the values the
    body's function was called with and the values it returned. *)
Definition native_call_events (self : @ArrayExecution ExecutionContext Failure)
    (input_buffers output_buffers : list Z) (index : Z)
    (call : list Value * list Value) : list Event :=
  element_reads (spec_element_ptr input_buffers (m_input_sizes self) index)
    (m_input_sizes self) (input_amount (m_function self))
  ++ [EvNativeBodyCall (fst call) (snd call)]
  ++ element_writes (spec_element_ptr output_buffers (m_output_sizes self) index)
       (m_output_sizes self) (output_amount (m_function self)).

(** Memory after one index has been processed with the pure function [f]:
    the inputs are read at [in_ptr], the outputs of [f] written at
    [out_ptr]. *)
Definition index_memory (self : @ArrayExecution ExecutionContext Failure)
    (f : list Value -> list Value) (in_ptr out_ptr : nat -> Z) (m : Memory)
  : Memory :=
  write_elements m out_ptr (m_output_sizes self)
    (f (map (fun k => mem_read m (in_ptr k) (nth k (m_input_sizes self) 0))
          (seq 0 (input_amount (m_function self)))))
    (output_amount (m_function self)).

(** Memory after the indices have been processed in order, at the addresses
    the boxed strategy computes. *)
Definition boxed_memory (self : @ArrayExecution ExecutionContext Failure)
    (f : list Value -> list Value) (input_buffers output_buffers : list Z)
    (indices : list Z) (m : Memory) : Memory :=
  fold_left
    (fun m index =>
       index_memory self f
         (element_ptr input_buffers (m_input_sizes self) index)
         (element_ptr output_buffers (m_output_sizes self) index) m)
    indices m.

(** The same at the addresses of the strided pointers of the compiled
    strategy. *)
Definition compiled_memory (self : @ArrayExecution ExecutionContext Failure)
    (f : list Value -> list Value) (input_buffers output_buffers : list Z)
    (indices : list Z) (m : Memory) : Memory :=
  fold_left
    (fun m index =>
       index_memory self f
         (spec_element_ptr input_buffers (m_input_sizes self) index)
         (spec_element_ptr output_buffers (m_output_sizes self) index) m)
    indices m.

(** The [len] bytes a write of the value [v] puts into memory. *)
Definition element_bytes (len : Z) (v : Value) : Value :=
  map (fun j => nth j v x00) (seq 0 (Z.to_nat len)).

Definition is_access (e : Event) : bool :=
  match e with
  | EvRead _ _ _ | EvWrite _ _ _ => true
  | _ => false
  end.

(** The buffer accesses recorded in a trace, in order. *)
Definition accesses (t : list Event) : list Event := filter is_access t.

(** The events of the emitted machine code: element loads, the call of the
    body's function, element stores. *)
Definition is_emitted_event (e : Event) : bool :=
  match e with
  | EvRead _ _ _ | EvWrite _ _ _ | EvNativeBodyCall _ _ => true
  | _ => false
  end.

(** The events of code generation and compilation. *)
Definition is_construction_event (e : Event) : bool :=
  match e with
  | EvAquireContext | EvNewModule _ | EvCreateFunction _ | EvBuildBody _
  | EvFromIR _ | EvReleaseContext => true
  | _ => false
  end.


(** [c] changes the trace only by appending events that satisfy [ok],
    however it ends. *)
Definition logs_only (ok : Event -> bool) {A}
    (c : @M ExecutionContext Failure A) : Prop :=
  forall w o w',
    c w = (o, w') ->
    exists l, trace w' = trace w ++ l /\ forallb ok l = true.

(** All extensions of a type list, when every type has one. *)
Fixpoint all_extensions {T} (ext : Type_ -> option T) (types : list Type_)
  : option (list T) :=
  match types with
  | [] => Some []
  | type :: rest =>
      match ext type, all_extensions ext rest with
      | Some info, Some infos => Some (info :: infos)
      | _, _ => None
      end
  end.

(** The size table of [self] is, position by position, the element size of
    the types of its function. *)
Definition sizes_recorded (self : @ArrayExecution ExecutionContext Failure) : Prop :=
  option_map (map size)
    (all_extensions ext_CPPTypeInfo (input_types (m_function self)))
    = Some (m_input_sizes self) /\
  option_map (map size)
    (all_extensions ext_CPPTypeInfo (output_types (m_function self)))
    = Some (m_output_sizes self).

End Reference.

(** ** A concrete descriptor

    One 4-byte input, one 4-byte output; the body reverses the bytes of its
    input.  The context counts the calls of the boxed body; a failure is a
    message. *)

Module Example.

Definition int32 : Type_ :=
  {| type_name := "Integer";
     ext_CPPTypeInfo := Some {| size := 4 |};
     ext_LLVMTypeInfo := Some {| llvm_type_name := "i32" |} |}.

Definition swap (values : list Value) : list Value :=
  [rev (nth 0%nat values [])].

Definition swap_tuple_body : @TupleCallBody nat string :=
  {| tuple_call := fun fn_in fn_out ctx =>
       BodyReturned (tuple_slots fn_in)
         (map Some (swap (tuple_values (tuple_slots fn_in)))) ctx |}.

Definition swap_llvm_body : @LLVMBuildIRBody nat string :=
  {| build_function := Built (fun values ctx => (swap values, ctx)) |}.

Definition swap_fn : @Function nat string :=
  {| name := "Swap";
     input_types := [int32];
     output_types := [int32];
     body_TupleCall := Some swap_tuple_body;
     body_LLVMBuildIR := Some swap_llvm_body |}.

(** A boxed body that counts its calls in the context and refuses an input
    whose first byte is zero. *)
Definition picky_tuple_body : @TupleCallBody nat string :=
  {| tuple_call := fun fn_in fn_out ctx =>
       match nth 0%nat (tuple_values (tuple_slots fn_in)) [] with
       | x00 :: _ => BodyFailed "zero"%string (S ctx)
       | _ => BodyReturned (tuple_slots fn_in)
                (map Some (swap (tuple_values (tuple_slots fn_in)))) (S ctx)
       end |}.

Definition picky_fn : @Function nat string :=
  {| name := "Picky";
     input_types := [int32];
     output_types := [int32];
     body_TupleCall := Some picky_tuple_body;
     body_LLVMBuildIR := None |}.


(** A compilable body whose code generation fails. *)
Definition broken_fn : @Function nat string :=
  {| name := "Broken";
     input_types := [int32];
     output_types := [int32];
     body_TupleCall := None;
     body_LLVMBuildIR := Some {| build_function := BuildFailed "no code"%string |} |}.

(** The strategy objects the constructors give for [swap_fn]. *)
Definition swap_sizes : @ArrayExecution nat string :=
  {| m_function := swap_fn; m_input_sizes := [4]; m_output_sizes := [4] |}.

(** The strategy object the constructor of the compiled strategy gives for
    [swap_fn]. *)
Definition swap_compiled : @LLVMArrayExecution nat string :=
  {| base := swap_sizes;
     m_input_type_infos := [{| llvm_type_name := "i32" |}];
     m_output_type_infos := [{| llvm_type_name := "i32" |}];
     m_compiled_function :=
       Some {| function_ptr :=
                 emitted_function swap_sizes
                   [{| llvm_type_name := "i32" |}]
                   [{| llvm_type_name := "i32" |}]
                   (fun values ctx => (swap values, ctx)) |} |}.

(** The compiled strategy object for [swap_fn] as [compile] receives it. *)
Definition swap_uncompiled : @LLVMArrayExecution nat string :=
  {| base := swap_sizes;
     m_input_type_infos := [{| llvm_type_name := "i32" |}];
     m_output_type_infos := [{| llvm_type_name := "i32" |}];
     m_compiled_function := None |}.

(** Bytes 1, 2, 3, ... at addresses 1000, 1001, 1002, ...: an input buffer
    of five 4-byte elements at 1000; everything else is zero.  The output
    buffer is at 2000. *)
Definition memory0 : Memory :=
  fun a =>
    if (1000 <=? a) && (a <? 1020)
    then nth (Z.to_nat (a - 1000))
           [x01; x02; x03; x04; x05; x06; x07; x08; x09; x0a;
            x0b; x0c; x0d; x0e; x0f; x10; x11; x12; x13; x14] x00
    else x00.

Definition world0 : @World nat :=
  {| memory := memory0; context := 0%nat;
     llvm_contexts_held := 0%nat; trace := [] |}.


(** A JIT backend that never fails, and one that always does. *)
Definition jit_ok : string -> option string := fun _ => None.
Definition jit_broken : string -> option string := fun _ => Some "jit"%string.

End Example.

(** ** Further descriptors

    A type whose size is not known, and a descriptor that uses it. *)

Module FurtherExample.

Definition opaque_type : Type_ :=
  {| type_name := "Opaque";
     ext_CPPTypeInfo := None;
     ext_LLVMTypeInfo := Some {| llvm_type_name := "i8*" |} |}.

Definition unsized_fn : @Function nat string :=
  {| name := "Unsized";
     input_types := [Example.int32];
     output_types := [opaque_type];
     body_TupleCall := Some Example.swap_tuple_body;
     body_LLVMBuildIR := Some Example.swap_llvm_body |}.

End FurtherExample.

(** * Array views (BLI_array_ref.hpp)

    An [ArrayRef<T>] is a pointer to the first element and a [uint] count;
    it owns nothing.  An object of the element type [T] takes [sizeof_T]
    bytes of the byte-addressed memory and is carried by these bytes;
    [equal] is [T]'s [operator==].  Pointers are addresses, so [p + n] on a
    [T *] is [p + n * sizeof_T].  The functions that copy between buffers
    ([copy_to], [copy_from]) rest on BLI_memory.hpp, which is not at hand,
    and are left out, as are [cast] (a compile-time check) and
    [print_as_lines] (output only). *)

(** [a + b] and [a - b] on two [uint] operands. *)
Definition uint_add (a b : Z) : Z := (a + b) mod uint_modulus.
Definition uint_sub (a b : Z) : Z := (a - b) mod uint_modulus.

(** A value a [uint] variable can hold. *)
Definition is_uint (a : Z) : Prop := 0 <= a < uint_modulus.

Module ArrayRef.

Record t : Type := { m_start : Z; m_size : Z }.

Section ArrayRef.

Context {ExecutionContext Failure : Type}.
Local Abbreviation M := (@M ExecutionContext Failure).

Variable sizeof_T : Z.
Variable equal : Value -> Value -> bool.

(** [ArrayRef(const T *start, uint size)] *)
Definition make (start size : Z) : t := {| m_start := start; m_size := size |}.

(** [*p] for a [const T *p]. *)
Definition deref (p : Z) : M Value :=
  m <- get_memory ;;
  ret (mem_read m p sizeof_T).

Definition size (self : t) : Z := m_size self.

Definition begin_ (self : t) : Z := m_start self.

Definition end_ (self : t) : Z := m_start self + m_size self * sizeof_T.

Definition data (self : t) : Z := m_start self.

(** [sizeof(T) * m_size], returned as a [uint]. *)
Definition byte_size (self : t) : Z := uint_mul sizeof_T (m_size self).

Definition slice (self : t) (start length : Z) : M t :=
  BLI_assert (uint_add start length <=? size self) ;;
  ret (make (m_start self + start * sizeof_T) length).

Definition drop_front (self : t) (n : Z) : M t :=
  BLI_assert (n <=? size self) ;;
  slice self n (uint_sub (size self) n).

Definition drop_back (self : t) (n : Z) : M t :=
  BLI_assert (n <=? size self) ;;
  slice self 0 (uint_sub (size self) n).

Definition take_front (self : t) (n : Z) : M t :=
  BLI_assert (n <=? size self) ;;
  slice self 0 n.

Definition take_back (self : t) (n : Z) : M t :=
  BLI_assert (n <=? size self) ;;
  slice self (uint_sub (size self) n) n.

(** [operator[]] *)
Definition subscript (self : t) (index : Z) : M Value :=
  BLI_assert (index <? m_size self) ;;
  deref (m_start self + index * sizeof_T).

(** [for (const T &element : *this) { if (element == value) return true; }
    return false;] with [remaining] elements to go from [it]. *)
Fixpoint contains_from (m : Memory) (it : Z) (remaining : nat) (value : Value)
  : bool :=
  match remaining with
  | O => false
  | S remaining' =>
      if equal (mem_read m it sizeof_T) value then true
      else contains_from m (it + sizeof_T) remaining' value
  end.

Definition contains (self : t) (value : Value) : M bool :=
  m <- get_memory ;;
  ret (contains_from m (begin_ self) (Z.to_nat (m_size self)) value).

Definition contains_ptr (self : t) (ptr : Z) : bool :=
  (begin_ self <=? ptr) && (ptr <? end_ self).

(** [for (const T &element : *this) { if (element == value) counter++; }]
    with [remaining] elements to go from [it]. *)
Fixpoint count_from (m : Memory) (it : Z) (remaining : nat) (value : Value)
    (counter : Z) : Z :=
  match remaining with
  | O => counter
  | S remaining' =>
      count_from m (it + sizeof_T) remaining' value
        (if equal (mem_read m it sizeof_T) value then uint_add counter 1
         else counter)
  end.

Definition count (self : t) (value : Value) : M Z :=
  m <- get_memory ;;
  ret (count_from m (begin_ self) (Z.to_nat (m_size self)) value 0).

Definition first (self : t) : M Value :=
  BLI_assert (0 <? m_size self) ;;
  deref (m_start self + 0 * sizeof_T).

Definition last (self : t) : M Value :=
  BLI_assert (0 <? m_size self) ;;
  deref (m_start self + uint_sub (m_size self) 1 * sizeof_T).

Definition get (self : t) (index : Z) (fallback : Value) : M Value :=
  if index <? m_size self
  then deref (m_start self + index * sizeof_T)
  else ret fallback.

End ArrayRef.

End ArrayRef.

(** [ref_c_array] *)
Definition ref_c_array (array size : Z) : ArrayRef.t := ArrayRef.make array size.

Module MutableArrayRef.

Record t : Type := { m_start : Z; m_size : Z }.

Section MutableArrayRef.

Context {ExecutionContext Failure : Type}.
Local Abbreviation M := (@M ExecutionContext Failure).

Variable sizeof_T : Z.

(** The [uint] that four bytes of memory stand for. *)
Variable uint_of_bytes : Value -> Z.

(** [MutableArrayRef(T *start, uint size)] *)
Definition make (start size : Z) : t := {| m_start := start; m_size := size |}.

Definition data (self : t) : Z := m_start self.

Definition size (self : t) : Z := m_size self.

(** [operator ArrayRef<T>()] *)
Definition to_ArrayRef (self : t) : ArrayRef.t :=
  ArrayRef.make (data self) (size self).

(** [*p = element] for a [T *p]. *)
Definition assign (p : Z) (element : Value) : M unit :=
  m <- get_memory ;;
  put_memory (mem_write m p sizeof_T element).

(** [std::fill_n(first, n, element)] *)
Fixpoint fill_n (first : Z) (n : nat) (element : Value) : M unit :=
  match n with
  | O => ret tt
  | S n' => assign first element ;; fill_n (first + sizeof_T) n' element
  end.

Definition fill (self : t) (element : Value) : M unit :=
  fill_n (m_start self) (Z.to_nat (m_size self)) element.

(** [for (uint i : indices) { m_start[i] = element; }] with [remaining]
    indices to go from [it]. *)
Fixpoint fill_indices_from (self : t) (it : Z) (remaining : nat)
    (element : Value) : M unit :=
  match remaining with
  | O => ret tt
  | S remaining' =>
      m <- get_memory ;;
      let i := uint_of_bytes (mem_read m it 4) in
      assign (m_start self + i * sizeof_T) element ;;
      fill_indices_from self (it + 4) remaining' element
  end.

Definition fill_indices (self : t) (indices : ArrayRef.t) (element : Value)
  : M unit :=
  fill_indices_from self (ArrayRef.begin_ indices)
    (Z.to_nat (ArrayRef.m_size indices)) element.

Definition begin_ (self : t) : Z := m_start self.

Definition end_ (self : t) : Z := m_start self + m_size self * sizeof_T.

(** [operator[]]; the reference it returns is read here. *)
Definition subscript (self : t) (index : Z) : M Value :=
  BLI_assert (index <? size self) ;;
  m <- get_memory ;;
  ret (mem_read m (m_start self + index * sizeof_T) sizeof_T).

Definition slice (self : t) (start length : Z) : M t :=
  BLI_assert (uint_add start length <=? size self) ;;
  ret (make (m_start self + start * sizeof_T) length).

Definition drop_front (self : t) (n : Z) : M t :=
  BLI_assert (n <=? size self) ;;
  slice self n (uint_sub (size self) n).

Definition drop_back (self : t) (n : Z) : M t :=
  BLI_assert (n <=? size self) ;;
  slice self 0 (uint_sub (size self) n).

Definition take_front (self : t) (n : Z) : M t :=
  BLI_assert (n <=? size self) ;;
  slice self 0 n.

Definition take_back (self : t) (n : Z) : M t :=
  BLI_assert (n <=? size self) ;;
  slice self (uint_sub (size self) n) n.

End MutableArrayRef.

End MutableArrayRef.

(** ** Reference descriptions of a view *)

(** The elements a view shows in a memory, first to last. *)
Definition elements (sizeof_T : Z) (self : ArrayRef.t) (m : Memory)
  : list Value :=
  map (fun i => mem_read m (ArrayRef.m_start self + Z.of_nat i * sizeof_T)
                  sizeof_T)
    (seq 0 (Z.to_nat (ArrayRef.m_size self))).

(** [sub] shows nothing that [self] does not show. *)
Definition within (sizeof_T : Z) (sub self : ArrayRef.t) : Prop :=
  ArrayRef.begin_ self <= ArrayRef.begin_ sub /\
  ArrayRef.end_ sizeof_T sub <= ArrayRef.end_ sizeof_T self.

(** [front] and [back] split [self] in two adjoining parts. *)
Definition splits (sizeof_T : Z) (self front back : ArrayRef.t) : Prop :=
  ArrayRef.begin_ front = ArrayRef.begin_ self /\
  ArrayRef.end_ sizeof_T front = ArrayRef.begin_ back /\
  ArrayRef.end_ sizeof_T back = ArrayRef.end_ sizeof_T self /\
  ArrayRef.size front + ArrayRef.size back = ArrayRef.size self.

(** [g] under an outcome. *)
Definition map_outcome {Failure A B} (g : A -> B) (o : @Outcome Failure A)
  : @Outcome Failure B :=
  match o with
  | Returned a => Returned (g a)
  | AssertionFailed => AssertionFailed
  | Raised e => Raised e
  | Undefined => Undefined
  end.

(** The memory after [element] has been assigned to the elements
    [indices] of the array at [start], in this order. *)
Definition assign_elements (sizeof_T start : Z) (element : Value)
    (indices : list Z) (m : Memory) : Memory :=
  fold_left (fun m i => mem_write m (start + i * sizeof_T) sizeof_T element)
    indices m.

(** ** Concrete views

    Five [uint]s at 1000 (little endian), as in [Example.memory0], and a
    buffer of [uint] indices at 3000. *)

Module ArrayRefExample.

(** Little endian. *)
Definition uint_of_bytes (v : Value) : Z :=
  fold_right (fun b acc => Z.of_N (Byte.to_N b) + 256 * acc) 0 v.

Definition bytes_eq (a b : Value) : bool :=
  if list_eq_dec Byte.byte_eq_dec a b then true else false.

Definition five : ArrayRef.t := ArrayRef.make 1000 5.

Definition five_mutable : MutableArrayRef.t := MutableArrayRef.make 1000 5.

(** The indices 3, 1, 3 at 3000. *)
Definition memory_with_indices : Memory :=
  mem_write Example.memory0 3000 12
    [x03; x00; x00; x00; x01; x00; x00; x00; x03; x00; x00; x00].

Definition indices_313 : ArrayRef.t := ArrayRef.make 3000 3.

Definition world_with_indices : @World nat :=
  {| memory := memory_with_indices; context := 0%nat;
     llvm_contexts_held := 0%nat; trace := [] |}.

End ArrayRefExample.

(** * Armature drawing: the colouring API (drawarmature.c)

    The functions that choose the colour a bone is drawn with.  What they
    do to the GPU state and the theme is embedded as the list of the colour
    calls they make, in order.  A colour channel is an [unsigned char],
    carried by a [Z] from 0 to 255; [int] arithmetic that overflows is
    undefined, so a function that adds [int]s returns an [option].  The bit
    masks come from DNA and UI headers that are not at hand and are
    parameters of the model ([Masks]); so are the theme colour ids, which
    are only passed on.  The global [bcolor] is an argument. *)

Module DrawArmature.

Definition INT_MIN : Z := - 2 ^ 31.
Definition INT_MAX : Z := 2 ^ 31 - 1.

(** [a + b] on two [int] operands. *)
Definition int_add (a b : Z) : option Z :=
  let r := a + b in
  if (INT_MIN <=? r) && (r <=? INT_MAX) then Some r else None.

(** BLI_utildefines.h:
    [if ((a) < (b)) (a) = (b); else if ((a) > (c)) (a) = (c);] *)
Definition CLAMP (a b c : Z) : Z :=
  if a <? b then b else if c <? a then c else a.

(** Conversion of an [int] to [unsigned char]. *)
Definition to_uchar (a : Z) : Z := a mod 256.

Definition is_uchar (a : Z) : Prop := 0 <= a <= 255.

(** [unsigned char cp[3]] *)
Definition uchar3 : Type := (Z * Z * Z)%type.

Definition is_uchar3 (cp : uchar3) : Prop :=
  let '(cp0, cp1, cp2) := cp in is_uchar cp0 /\ is_uchar cp1 /\ is_uchar cp2.

(** The fields of a colour set that this file reads. *)
Record ThemeWireColor : Type := {
  solid : uchar3;
  select : uchar3;
  active : uchar3;
  flag : Z
}.

Record Masks : Type := {
  BONE_DRAW_ACTIVE : Z;
  BONE_SELECTED : Z;
  PCHAN_HAS_TARGET : Z;
  PCHAN_HAS_IK : Z;
  PCHAN_HAS_SPLINEIK : Z;
  PCHAN_HAS_CONST : Z;
  TH_WIRECOLOR_CONSTCOLS : Z
}.

Inductive ThemeColorId : Type :=
  | TH_WIRE
  | TH_WIRE_EDIT
  | TH_EDGE_SELECT
  | TH_BACK
  | TH_BONE_POSE
  | TH_BONE_POSE_ACTIVE
  | TH_BONE_SOLID.

(** The calls that set the current colour.  The factor of
    [UI_ThemeColorBlend] is [0.15f] at each of its calls and is left out. *)
Inductive ColorCall : Type :=
  | gpuCurrentColor3ubv (cp : uchar3)
  | gpuCurrentColor3ub (r g b : Z)
  | gpuCurrentColor4ub (r g b a : Z)
  | UI_ThemeColor (id : ThemeColorId)
  | UI_ThemeColorBlend (id1 id2 : ThemeColorId)
  | UI_ThemeColorShade (id : ThemeColorId) (offset : Z).

(** values of colCode for set_pchan_gpuCurrentColor *)
Definition PCHAN_COLOR_NORMAL : Z := 0.
Definition PCHAN_COLOR_SOLID : Z := 1.
Definition PCHAN_COLOR_CONSTS : Z := 2.
Definition PCHAN_COLOR_SPHEREBONE_BASE : Z := 3.
Definition PCHAN_COLOR_SPHEREBONE_END : Z := 4.
Definition PCHAN_COLOR_LINEBONE : Z := 5.

(** [flags & mask] as a condition. *)
Definition has (flags mask : Z) : bool := negb (Z.land flags mask =? 0).

Definition cp_shade_color3ub (cp : uchar3) (offset : Z) : option uchar3 :=
  let '(cp0, cp1, cp2) := cp in
  match int_add offset cp0 with
  | None => None
  | Some r =>
      let r := CLAMP r 0 255 in
      match int_add offset cp1 with
      | None => None
      | Some g =>
          let g := CLAMP g 0 255 in
          match int_add offset cp2 with
          | None => None
          | Some b =>
              let b := CLAMP b 0 255 in
              Some (to_uchar r, to_uchar g, to_uchar b)
          end
      end
  end.

(** [gpuCurrentColor3ubv(cp); return result;] for a [cp] that could be
    computed. *)
Definition current_color3ubv (cp : option uchar3) (result : bool)
  : option (list ColorCall * bool) :=
  match cp with
  | Some cp => Some ([gpuCurrentColor3ubv cp], result)
  | None => None
  end.

(** The four-way choice by constraint that [PCHAN_COLOR_CONSTS] and
    [PCHAN_COLOR_LINEBONE] make, with the call that sets the colour and what
    happens when no bit is set. *)
Definition constraint_color (k : Masks) (constflag : Z)
    (color : Z -> Z -> Z -> ColorCall) (otherwise : list ColorCall)
  : list ColorCall :=
  if has constflag (PCHAN_HAS_TARGET k) then [color 255 150 0]
  else if has constflag (PCHAN_HAS_IK k) then [color 255 255 0]
  else if has constflag (PCHAN_HAS_SPLINEIK k) then [color 200 255 0]
  else if has constflag (PCHAN_HAS_CONST k) then [color 0 255 120]
  else otherwise.

Definition set_pchan_gpuCurrentColor (k : Masks)
    (bcolor : option ThemeWireColor) (colCode boneflag constflag : Z)
  : option (list ColorCall * bool) :=
  if colCode =? PCHAN_COLOR_NORMAL then
    match bcolor with
    | Some bcolor =>
        if has boneflag (BONE_DRAW_ACTIVE k) then
          if negb (has boneflag (BONE_SELECTED k))
          then current_color3ubv (cp_shade_color3ub (active bcolor) (-80)) true
          else current_color3ubv (Some (active bcolor)) true
        else if has boneflag (BONE_SELECTED k) then
          current_color3ubv (Some (select bcolor)) true
        else
          current_color3ubv (cp_shade_color3ub (solid bcolor) (-50)) true
    | None =>
        if has boneflag (BONE_DRAW_ACTIVE k)
           && has boneflag (BONE_SELECTED k)
        then Some ([UI_ThemeColor TH_BONE_POSE_ACTIVE], true)
        else if has boneflag (BONE_DRAW_ACTIVE k)
        then Some ([UI_ThemeColorBlend TH_WIRE TH_BONE_POSE], true)
        else if has boneflag (BONE_SELECTED k)
        then Some ([UI_ThemeColor TH_BONE_POSE], true)
        else Some ([UI_ThemeColor TH_WIRE], true)
    end
  else if colCode =? PCHAN_COLOR_SOLID then
    match bcolor with
    | Some bcolor => Some ([gpuCurrentColor3ubv (solid bcolor)], true)
    | None => Some ([UI_ThemeColor TH_BONE_SOLID], true)
    end
  else if colCode =? PCHAN_COLOR_CONSTS then
    if match bcolor with
       | None => true
       | Some bcolor => has (flag bcolor) (TH_WIRECOLOR_CONSTCOLS k)
       end
    then Some (constraint_color k constflag
                 (fun r g b => gpuCurrentColor4ub r g b 80) [], true)
    else Some ([], false)
  else if colCode =? PCHAN_COLOR_SPHEREBONE_BASE then
    match bcolor with
    | Some bcolor =>
        if has boneflag (BONE_DRAW_ACTIVE k)
        then current_color3ubv (Some (active bcolor)) true
        else if has boneflag (BONE_SELECTED k)
        then current_color3ubv (Some (select bcolor)) true
        else current_color3ubv (Some (solid bcolor)) true
    | None =>
        if has boneflag (BONE_DRAW_ACTIVE k)
        then Some ([UI_ThemeColorShade TH_BONE_POSE 40], true)
        else if has boneflag (BONE_SELECTED k)
        then Some ([UI_ThemeColor TH_BONE_POSE], true)
        else Some ([UI_ThemeColor TH_BONE_SOLID], true)
    end
  else if colCode =? PCHAN_COLOR_SPHEREBONE_END then
    (* no [return] in this case: the [break] leads to [return false] *)
    match bcolor with
    | Some bcolor =>
        if has boneflag (BONE_DRAW_ACTIVE k)
        then current_color3ubv (cp_shade_color3ub (active bcolor) 10) false
        else if has boneflag (BONE_SELECTED k)
        then current_color3ubv (cp_shade_color3ub (select bcolor) (-30)) false
        else current_color3ubv (cp_shade_color3ub (solid bcolor) (-30)) false
    | None =>
        if has boneflag (BONE_DRAW_ACTIVE k)
        then Some ([UI_ThemeColorShade TH_BONE_POSE 10], false)
        else if has boneflag (BONE_SELECTED k)
        then Some ([UI_ThemeColorShade TH_BONE_POSE (-30)], false)
        else Some ([UI_ThemeColorShade TH_BONE_SOLID (-30)], false)
    end
  else if colCode =? PCHAN_COLOR_LINEBONE then
    if negb (constflag =? 0)
       && match bcolor with
          | None => true
          | Some bcolor => has (flag bcolor) (TH_WIRECOLOR_CONSTCOLS k)
          end
    then Some (constraint_color k constflag gpuCurrentColor3ub
                 [UI_ThemeColor TH_BONE_POSE], true)
    else
      match bcolor with
      | Some bcolor =>
          let '(cp0, cp1, cp2) := solid bcolor in
          Some ([gpuCurrentColor4ub cp0 cp1 cp2 204], true)
      | None => Some ([UI_ThemeColorShade TH_BACK (-30)], true)
      end
  else Some ([], false).

Definition set_ebone_gpuCurrentColor (k : Masks) (boneflag : Z)
  : list ColorCall :=
  if has boneflag (BONE_DRAW_ACTIVE k) && has boneflag (BONE_SELECTED k)
  then [UI_ThemeColor TH_EDGE_SELECT]
  else if has boneflag (BONE_DRAW_ACTIVE k)
  then [UI_ThemeColorBlend TH_WIRE_EDIT TH_EDGE_SELECT]
  else if has boneflag (BONE_SELECTED k)
  then [UI_ThemeColorShade TH_EDGE_SELECT (-20)]
  else [UI_ThemeColor TH_WIRE_EDIT].

(** The channels a colour call hands to the GPU. *)
Definition channels (call : ColorCall) : list Z :=
  match call with
  | gpuCurrentColor3ubv (cp0, cp1, cp2) => [cp0; cp1; cp2]
  | gpuCurrentColor3ub r g b => [r; g; b]
  | gpuCurrentColor4ub r g b a => [r; g; b; a]
  | _ => []
  end.

(** The four constraint bits of [constflag]. *)
Definition constraint_bits (k : Masks) (constflag : Z) : bool :=
  has constflag (PCHAN_HAS_TARGET k) || has constflag (PCHAN_HAS_IK k)
  || has constflag (PCHAN_HAS_SPLINEIK k) || has constflag (PCHAN_HAS_CONST k).

(** Constraint colours are not suppressed: there is no colour set, or the
    colour set asks for them. *)
Definition constraint_colors_shown (k : Masks)
    (bcolor : option ThemeWireColor) : bool :=
  match bcolor with
  | None => true
  | Some bcolor => has (flag bcolor) (TH_WIRECOLOR_CONSTCOLS k)
  end.

(** Every channel of the colour set is an [unsigned char]. *)
Definition is_color_set (bcolor : option ThemeWireColor) : Prop :=
  match bcolor with
  | None => True
  | Some bcolor =>
      is_uchar3 (solid bcolor) /\ is_uchar3 (select bcolor) /\
      is_uchar3 (active bcolor)
  end.

(** [x] limited to the range of a channel. *)
Definition limited (x : Z) : Z := Z.max 0 (Z.min 255 x).

(** Masks and a colour set for the concrete runs. *)
Definition example_masks : Masks :=
  {| BONE_DRAW_ACTIVE := 2; BONE_SELECTED := 1;
     PCHAN_HAS_TARGET := 4; PCHAN_HAS_IK := 1; PCHAN_HAS_SPLINEIK := 16;
     PCHAN_HAS_CONST := 2; TH_WIRECOLOR_CONSTCOLS := 1 |}.

Definition example_colors : ThemeWireColor :=
  {| solid := (154, 0, 0); select := (189, 17, 17); active := (247, 10, 10);
     flag := 0 |}.

End DrawArmature.

(** * Array execution on arrays in memory

    The three arrays of [call] are views of caller memory
    (BLI_array_ref.hpp): [call] receives a pointer and a size for each, and
    reads an index or a buffer pointer from memory at the moment it uses
    it.  A store to an output element that lies on one of the arrays
    therefore changes what the rest of the call processes.  This part
    embeds the two [call]s on views; the definitions on lists above are
    what they come to as long as no output element lies on the arrays.

    How a [uint] and a [void *] are laid out in memory is the platform's
    ([Layout]).  What the IR does that a type builds for its load and its
    store is the type's ([TypeIR]). *)

Record Layout : Type := {
  (* the [uint] four bytes stand for *)
  uint_of_bytes : Value -> Z;
  (* [sizeof(void * )] *)
  sizeof_pointer : Z;
  (* the address [sizeof_pointer] bytes stand for *)
  pointer_of_bytes : Value -> Z
}.

(** Modelled from the spec: what the instructions do that
    [LLVMTypeInfo::build_load_ir__copy] and
    [LLVMTypeInfo::build_store_ir__relocate] emit (the type infos are not
    part of the sources at hand): "each type supplies its own [...] logic --
    sizes/representations vary by type and are not uniform byte copies". *)
Record TypeIR : Type := {
  (* the value loaded from an address *)
  load_copy : Memory -> Z -> Value;
  (* the memory after a value has been stored to an address *)
  store_relocate : Memory -> Z -> Value -> Memory
}.

(** The IR of a type whose values are [size] plain bytes. *)
Definition plain_bytes (size : Z) : TypeIR :=
  {| load_copy := fun m p => mem_read m p size;
     store_relocate := fun m p v => mem_write m p size v |}.

Module InMemory.

Section InMemory.

Context {ExecutionContext Failure : Type}.
Local Abbreviation M := (@M ExecutionContext Failure).
Local Abbreviation ArrayExecution := (@ArrayExecution ExecutionContext Failure).
Local Abbreviation TupleCallBody := (@TupleCallBody ExecutionContext Failure).
Local Abbreviation NativeBody := (@NativeBody ExecutionContext).

Variable layout : Layout.

(** ** Tuple Call Array Execution *)

(** [input_buffers[i]] on an [ArrayRef<void *>]. *)
Definition pointer_at (buffers : ArrayRef.t) (i : nat) : M Z :=
  bytes <- ArrayRef.subscript (sizeof_pointer layout) buffers (Z.of_nat i) ;;
  ret (pointer_of_bytes layout bytes).

(** [output_buffers[i]] on a [MutableArrayRef<void *>]. *)
Definition mutable_pointer_at (buffers : MutableArrayRef.t) (i : nat) : M Z :=
  bytes <- MutableArrayRef.subscript (sizeof_pointer layout) buffers
             (Z.of_nat i) ;;
  ret (pointer_of_bytes layout bytes).

(** The first inner loop of [call]. *)
Definition copy_inputs (self : ArrayExecution) (input_buffers : ArrayRef.t)
    (index : Z) (fn_in : Tuple) : M Tuple :=
  for_range (input_amount (m_function self)) fn_in
    (fun i fn_in =>
       buffer <- pointer_at input_buffers i ;;
       element_size <- at_index (m_input_sizes self) i ;;
       let ptr := POINTER_OFFSET buffer (uint_mul index element_size) in
       copy_in__dynamic fn_in i ptr).

(** The second inner loop of [call]. *)
Definition relocate_outputs (self : ArrayExecution)
    (output_buffers : MutableArrayRef.t) (index : Z) (fn_out : Tuple)
  : M Tuple :=
  for_range (output_amount (m_function self)) fn_out
    (fun i fn_out =>
       buffer <- mutable_pointer_at output_buffers i ;;
       element_size <- at_index (m_output_sizes self) i ;;
       let ptr := POINTER_OFFSET buffer (uint_mul index element_size) in
       relocate_out__dynamic fn_out i ptr).

(** The body of [for (uint index : indices)]. *)
Definition tuple_call_index (self : ArrayExecution) (b : TupleCallBody)
    (input_buffers : ArrayRef.t) (output_buffers : MutableArrayRef.t)
    (index : Z) (frames : Tuple * Tuple) : M (Tuple * Tuple) :=
  let '(fn_in, fn_out) := frames in
  fn_in <- copy_inputs self input_buffers index fn_in ;;
  '(fn_in, fn_out) <- TupleCallBody_call b fn_in fn_out ;;
  fn_out <- relocate_outputs self output_buffers index fn_out ;;
  ret (fn_in, fn_out).

(** [for (uint index : indices) { acc = body(index, acc); }] with
    [remaining] indices to go from [it]: an index is read when its turn
    comes. *)
Fixpoint for_each_index {S} (it : Z) (remaining : nat) (acc : S)
    (body : Z -> S -> M S) : M S :=
  match remaining with
  | O => ret acc
  | S remaining' =>
      bytes <- ArrayRef.deref 4 it ;;
      acc <- body (uint_of_bytes layout bytes) acc ;;
      for_each_index (it + 4) remaining' acc body
  end.

(** [TupleCallArrayExecution::call] *)
Definition TupleCallArrayExecution_call (self : ArrayExecution)
    (indices input_buffers : ArrayRef.t) (output_buffers : MutableArrayRef.t)
  : M unit :=
  let input_amount := input_amount (m_function self) in
  let output_amount := output_amount (m_function self) in
  BLI_assert (Z.of_nat input_amount =? ArrayRef.size input_buffers) ;;
  BLI_assert (Z.of_nat output_amount =? MutableArrayRef.size output_buffers) ;;
  b <- body (body_TupleCall (m_function self)) ;;
  fn_in <- alloc_tuple InputFrame (input_types (m_function self)) ;;
  fn_out <- alloc_tuple OutputFrame (output_types (m_function self)) ;;
  for_each_index (ArrayRef.begin_ indices) (Z.to_nat (ArrayRef.size indices))
    (fn_in, fn_out)
    (tuple_call_index self b input_buffers output_buffers) ;;
  ret tt.

(** ** LLVM Array Execution *)

(** The meaning of machine code with the signature
    [void(uint size, const uint *indices, void *const *input_buffers,
          void **output_buffers, void *context_ptr)]: the three arrays are
    addresses.  The context pointer always points to the world's
    [context]. *)
Definition CompiledFunctionSignature : Type := Z -> Z -> Z -> Z -> M unit.

Record CompiledLLVM : Type := {
  function_ptr : CompiledFunctionSignature
}.

Record LLVMArrayExecution : Type := {
  base : ArrayExecution;
  m_input_type_infos : list LLVMTypeInfo;
  m_output_type_infos : list LLVMTypeInfo;
  m_compiled_function : option CompiledLLVM
}.

Variable type_ir : LLVMTypeInfo -> TypeIR.

(** Modelled from the spec: [CodeBuilder::CreateLoadAtIndex] (the code
    builder is not part of the sources at hand): load element [index] of the
    array at [array], whose elements take [sizeof_T] bytes. *)
Definition CreateLoadAtIndex (sizeof_T : Z) (of_bytes : Value -> Z)
    (array : Z) (index : nat) : M Z :=
  bytes <- ArrayRef.deref sizeof_T (array + Z.of_nat index * sizeof_T) ;;
  ret (of_bytes bytes).

(** Modelled from the spec: [LLVMTypeInfo::build_load_ir__copy]: "emit a
    type-specific load". *)
Definition build_load_ir__copy (info : LLVMTypeInfo) (slot : nat)
    (addr : StridedPointer) : M Value :=
  m <- get_memory ;;
  emit (EvRead slot (address addr) (stride addr)) ;;
  ret (load_copy (type_ir info) m (address addr)).

(** Modelled from the spec: [LLVMTypeInfo::build_store_ir__relocate]: "emit
    a type-specific store to the strided output address". *)
Definition build_store_ir__relocate (info : LLVMTypeInfo) (slot : nat)
    (value : Value) (addr : StridedPointer) : M unit :=
  m <- get_memory ;;
  put_memory (store_relocate (type_ir info) m (address addr) value) ;;
  emit (EvWrite slot (address addr) (stride addr)).

(** [LLVMArrayExecution::get_input_buffers] *)
Definition get_input_buffers (self : ArrayExecution) (input_buffers_arg : Z)
  : M (list StridedPointer) :=
  for_range (input_amount (m_function self)) []
    (fun i input_buffers =>
       element_size <- at_index (m_input_sizes self) i ;;
       input_buffer <- CreateLoadAtIndex (sizeof_pointer layout)
                         (pointer_of_bytes layout) input_buffers_arg i ;;
       let typed_input_buffer :=
         CastToPointerWithStride input_buffer element_size in
       ret (input_buffers ++ [typed_input_buffer])).

(** [LLVMArrayExecution::get_output_buffers] *)
Definition get_output_buffers (self : ArrayExecution) (output_buffers_arg : Z)
  : M (list StridedPointer) :=
  for_range (output_amount (m_function self)) []
    (fun i output_buffers =>
       element_size <- at_index (m_output_sizes self) i ;;
       output_buffer <- CreateLoadAtIndex (sizeof_pointer layout)
                          (pointer_of_bytes layout) output_buffers_arg i ;;
       let typed_output_buffer :=
         CastToPointerWithStride output_buffer element_size in
       ret (output_buffers ++ [typed_output_buffer])).

(** [LLVMArrayExecution::get_input_values] *)
Definition get_input_values (self : ArrayExecution)
    (input_type_infos : list LLVMTypeInfo)
    (input_buffers : list StridedPointer) (index_to_process : Z)
  : M (list Value) :=
  for_range (input_amount (m_function self)) []
    (fun i input_values =>
       buffer <- at_index input_buffers i ;;
       let addr := CreateGEP buffer index_to_process in
       info <- at_index input_type_infos i ;;
       value <- build_load_ir__copy info i addr ;;
       ret (input_values ++ [value])).

(** [LLVMArrayExecution::store_output_values] *)
Definition store_output_values (self : ArrayExecution)
    (output_type_infos : list LLVMTypeInfo)
    (output_buffers : list StridedPointer) (index_to_process : Z)
    (computed_results : list Value) : M unit :=
  for_range (output_amount (m_function self)) tt
    (fun i _ =>
       buffer <- at_index output_buffers i ;;
       let addr := CreateGEP buffer index_to_process in
       value <- CreateExtractValue computed_results i ;;
       info <- at_index output_type_infos i ;;
       build_store_ir__relocate info i value addr).

(** The body of the emitted loop: the index of the iteration is loaded from
    the index array when the iteration runs. *)
Definition loop_body (self : ArrayExecution)
    (input_type_infos output_type_infos : list LLVMTypeInfo)
    (actual_function : NativeBody)
    (indices : Z) (input_buffers output_buffers : list StridedPointer)
    (iteration : nat) : M unit :=
  index_to_process <- CreateLoadAtIndex 4 (uint_of_bytes layout) indices
                        iteration ;;
  input_values <- get_input_values self input_type_infos input_buffers
                    index_to_process ;;
  result <- CreateCall actual_function input_values ;;
  store_output_values self output_type_infos output_buffers
    index_to_process result.

(** The function [build_function_ir] emits, given the function the body
    built: the buffer pointers are loaded once, before the loop. *)
Definition emitted_function (self : ArrayExecution)
    (input_type_infos output_type_infos : list LLVMTypeInfo)
    (actual_function : NativeBody) : CompiledFunctionSignature :=
  fun size indices input_buffers_arg output_buffers_arg =>
    input_buffers <- get_input_buffers self input_buffers_arg ;;
    output_buffers <- get_output_buffers self output_buffers_arg ;;
    CreateNIterationsLoop size
      (loop_body self input_type_infos output_type_infos actual_function
         indices input_buffers output_buffers).

(** [LLVMArrayExecution::build_function_ir] *)
Definition build_function_ir (self : LLVMArrayExecution) (module : string)
  : M CompiledFunctionSignature :=
  b <- body (body_LLVMBuildIR (m_function (base self))) ;;
  emit (EvCreateFunction module) ;;
  actual_function <-
    LLVMBuildIRBody_build_function b (name (m_function (base self))) ;;
  ret (emitted_function (base self) (m_input_type_infos self)
         (m_output_type_infos self) actual_function).

Variable jit_fault : string -> option Failure.

(** Modelled from the spec: [CompiledLLVM::FromIR] (not part of the sources
    at hand): "the resulting function is compiled to executable machine code
    immediately"; a compilation failure "propagate[s] as a construction
    failure". *)
Definition CompiledLLVM_FromIR (module : string)
    (function : CompiledFunctionSignature) : M CompiledLLVM :=
  emit (EvFromIR module) ;;
  match jit_fault module with
  | None => ret {| function_ptr := function |}
  | Some e => stop (Raised e)
  end.

(** [LLVMArrayExecution::compile] *)
Definition compile (self : LLVMArrayExecution) : M LLVMArrayExecution :=
  context <- aquire_llvm_context ;;
  module <- new_Module
              (name (m_function (base self)) ++ " (Array Execution)")%string
              context ;;
  function <- build_function_ir self module ;;
  compiled <- CompiledLLVM_FromIR module function ;;
  release_llvm_context context ;;
  ret {| base := base self;
         m_input_type_infos := m_input_type_infos self;
         m_output_type_infos := m_output_type_infos self;
         m_compiled_function := Some compiled |}.

(** [LLVMArrayExecution::LLVMArrayExecution] *)
Definition LLVMArrayExecution_new (function : @Function ExecutionContext Failure)
  : M LLVMArrayExecution :=
  self <- ArrayExecution_new function ;;
  BLI_assert (has_body (body_LLVMBuildIR (m_function self))) ;;
  input_type_infos <- extensions_LLVMTypeInfo (input_types (m_function self)) ;;
  output_type_infos <- extensions_LLVMTypeInfo (output_types (m_function self)) ;;
  compile {| base := self;
             m_input_type_infos := input_type_infos;
             m_output_type_infos := output_type_infos;
             m_compiled_function := None |}.

(** [LLVMArrayExecution::call] *)
Definition LLVMArrayExecution_call (self : LLVMArrayExecution)
    (indices input_buffers : ArrayRef.t) (output_buffers : MutableArrayRef.t)
  : M unit :=
  compiled <- body (m_compiled_function self) ;;
  let function := function_ptr compiled in
  emit (EvInvokeNative (ArrayRef.size indices) (ArrayRef.begin_ indices)
          (ArrayRef.begin_ input_buffers)
          (MutableArrayRef.begin_ output_buffers)) ;;
  function (ArrayRef.size indices) (ArrayRef.begin_ indices)
    (ArrayRef.begin_ input_buffers) (MutableArrayRef.begin_ output_buffers).

End InMemory.

End InMemory.

(** ** Reference descriptions of the arrays in memory *)

(** The indices a view shows in a memory, first to last. *)
Definition view_uints (layout : Layout) (view : ArrayRef.t) (m : Memory)
  : list Z :=
  map (uint_of_bytes layout) (elements 4 view m).

(** The buffer pointers a view shows in a memory, first to last. *)
Definition view_pointers (layout : Layout) (view : ArrayRef.t) (m : Memory)
  : list Z :=
  map (pointer_of_bytes layout) (elements (sizeof_pointer layout) view m).

(** The size of a view is a [uint]. *)
Definition is_view (view : ArrayRef.t) : Prop := is_uint (ArrayRef.size view).

(** [a] is a byte of the array a view of [sizeof_T]-byte elements shows. *)
Definition in_view (sizeof_T : Z) (view : ArrayRef.t) (a : Z) : Prop :=
  in_region (ArrayRef.begin_ view) (ArrayRef.size view * sizeof_T) a.

(** No output element of the [indices] (element [k] of [index] being the
    [nth k sizes 0] bytes at [ptr index k]) lies on the index array. *)
Definition indices_kept (indices_view : ArrayRef.t)
    (ptr : Z -> nat -> Z) (sizes : list Z) (n : nat) (indices : list Z)
  : Prop :=
  forall index k a,
    In index indices -> (k < n)%nat ->
    in_region (ptr index k) (nth k sizes 0) a ->
    ~ in_view 4 indices_view a.

(** No output element of the [indices] lies on one of the two arrays of
    buffer pointers. *)
Definition pointers_kept (layout : Layout) (input_buffers : ArrayRef.t)
    (output_buffers : MutableArrayRef.t)
    (ptr : Z -> nat -> Z) (sizes : list Z) (n : nat) (indices : list Z)
  : Prop :=
  forall index k a,
    In index indices -> (k < n)%nat ->
    in_region (ptr index k) (nth k sizes 0) a ->
    ~ in_view (sizeof_pointer layout) input_buffers a /\
    ~ in_view (sizeof_pointer layout)
        (MutableArrayRef.to_ArrayRef output_buffers) a.

(** No output element of the [indices] lies on the array of output buffer
    pointers. *)
Definition output_pointers_kept (layout : Layout)
    (output_buffers : MutableArrayRef.t)
    (ptr : Z -> nat -> Z) (sizes : list Z) (n : nat) (indices : list Z)
  : Prop :=
  forall index k a,
    In index indices -> (k < n)%nat ->
    in_region (ptr index k) (nth k sizes 0) a ->
    ~ in_view (sizeof_pointer layout)
        (MutableArrayRef.to_ArrayRef output_buffers) a.

(** The IR of every type of the list is that of plain bytes of the size
    recorded for the type. *)
Definition plain_types (type_ir : LLVMTypeInfo -> TypeIR)
    (infos : list LLVMTypeInfo) (sizes : list Z) : Prop :=
  forall k info m p v,
    nth_error infos k = Some info ->
    load_copy (type_ir info) m p = mem_read m p (nth k sizes 0) /\
    store_relocate (type_ir info) m p v = mem_write m p (nth k sizes 0) v.



Section ConstructionReference.

Context {ExecutionContext Failure : Type}.

(** The world of the constructor of the compiled strategy when
    [build_function_ir] begins: the context is acquired and the module
    made. *)
Definition world_at_build_function_ir
    (function : @Function ExecutionContext Failure)
    (w : @World ExecutionContext) : @World ExecutionContext :=
  {| memory := memory w; context := context w;
     llvm_contexts_held := S (llvm_contexts_held w);
     trace := trace w
       ++ [EvAquireContext;
           EvNewModule (name function ++ " (Array Execution)")%string] |}.

(** The world of the constructor when [CompiledLLVM::FromIR] begins: the
    function is emitted. *)
Definition world_at_FromIR
    (function : @Function ExecutionContext Failure)
    (w : @World ExecutionContext) : @World ExecutionContext :=
  {| memory := memory w; context := context w;
     llvm_contexts_held := S (llvm_contexts_held w);
     trace := trace w
       ++ [EvAquireContext;
           EvNewModule (name function ++ " (Array Execution)")%string;
           EvCreateFunction (name function ++ " (Array Execution)")%string;
           EvBuildBody (name function)] |}.

End ConstructionReference.

(** ** Concrete arrays in memory

    A little-endian machine with 8-byte pointers.  The index array is at
    3000, the array of the one input buffer pointer at 4000, the array of
    the one output buffer pointer at 4008; the input buffer is the one of
    [Example.memory0]. *)

Module InMemoryExample.

Definition layout : Layout :=
  {| uint_of_bytes := ArrayRefExample.uint_of_bytes;
     sizeof_pointer := 8;
     pointer_of_bytes := ArrayRefExample.uint_of_bytes |}.

(** The one type of [Example.swap_fn] is four plain bytes. *)
Definition type_ir (info : LLVMTypeInfo) : TypeIR := plain_bytes 4.

Definition byte_of (x : Z) : byte :=
  match Byte.of_N (Z.to_N x) with
  | Some b => b
  | None => x00
  end.

(** The [width] bytes of [x], little endian. *)
Fixpoint bytes_of (width : nat) (x : Z) : Value :=
  match width with
  | O => []
  | S width' => byte_of (x mod 256) :: bytes_of width' (x / 256)
  end.

(** Memory with the numbers [xs], [width] bytes each, stored from [addr]
    on. *)
Definition store_array (width : nat) (addr : Z) (xs : list Z) (m : Memory)
  : Memory :=
  mem_write m addr (Z.of_nat (width * length xs)) (flat_map (bytes_of width) xs).

Definition indices_view (n : Z) : ArrayRef.t := ArrayRef.make 3000 n.

Definition input_buffers : ArrayRef.t := ArrayRef.make 4000 1.

Definition output_buffers : MutableArrayRef.t := MutableArrayRef.make 4008 1.

(** The memory of a caller that put the [indices] into the index array and
    the addresses of its input and its output buffer into the two arrays
    of buffer pointers. *)
Definition memory_of (indices : list Z) (input output : Z) : Memory :=
  store_array 8 4008 [output]
    (store_array 8 4000 [input]
       (store_array 4 3000 indices Example.memory0)).

Definition world_of (indices : list Z) (input output : Z) : @World nat :=
  {| memory := memory_of indices input output; context := 0%nat;
     llvm_contexts_held := 0%nat; trace := [] |}.

(** The strategy object the constructor of the compiled strategy gives for
    [Example.swap_fn]. *)
Definition swap_compiled : @InMemory.LLVMArrayExecution nat string :=
  {| InMemory.base := Example.swap_sizes;
     InMemory.m_input_type_infos := [{| llvm_type_name := "i32" |}];
     InMemory.m_output_type_infos := [{| llvm_type_name := "i32" |}];
     InMemory.m_compiled_function :=
       Some {| InMemory.function_ptr :=
                 InMemory.emitted_function layout type_ir Example.swap_sizes
                   [{| llvm_type_name := "i32" |}]
                   [{| llvm_type_name := "i32" |}]
                   (fun values ctx => (Example.swap values, ctx)) |} |}.

End InMemoryExample.

(** * Properties *)

Unset Implicit Arguments.

Section Properties.

Context {ExecutionContext Failure : Type}.
Local Abbreviation M := (@M ExecutionContext Failure).
Local Abbreviation World := (@World ExecutionContext).
Local Abbreviation Outcome := (@Outcome Failure).
Local Abbreviation Function := (@Function ExecutionContext Failure).
Local Abbreviation ArrayExecution := (@ArrayExecution ExecutionContext Failure).
Local Abbreviation LLVMArrayExecution :=
  (@LLVMArrayExecution ExecutionContext Failure).
Local Abbreviation TupleCallBody := (@TupleCallBody ExecutionContext Failure).
Local Abbreviation LLVMBuildIRBody :=
  (@LLVMBuildIRBody ExecutionContext Failure).

(** ** The monad *)

Lemma bind_Returned {A B} (c : M A) (k : A -> M B) w a w' :
  c w = (Returned a, w') -> bind c k w = k a w'.
Proof. intros H. unfold bind. rewrite H. reflexivity. Qed.

Lemma bind_inv_Returned {A B} (c : M A) (k : A -> M B) w b w' :
  bind c k w = (Returned b, w') ->
  exists a w1, c w = (Returned a, w1) /\ k a w1 = (Returned b, w').
Proof.
  unfold bind. destruct (c w) as [[a| |e|] w1]; intros H; try discriminate.
  exists a, w1. split; [reflexivity | exact H].
Qed.

Lemma for_each_cons {A S} (x : A) xs (acc : S) (body : A -> S -> M S) w :
  for_each (x :: xs) acc body w
  = bind (body x acc) (fun acc' => for_each xs acc' body) w.
Proof. reflexivity. Qed.


Lemma for_each_rule {A S} (body : A -> S -> M S)
    (P : list A -> S -> World -> Prop) (Q : Outcome unit -> World -> Prop) xs :
  (forall pre x post acc w o w',
      xs = pre ++ x :: post ->
      P pre acc w -> body x acc w = (o, w') ->
      match o with
      | Returned acc' => P (pre ++ [x]) acc' w'
      | _ => Q (forget o) w'
      end) ->
  forall acc w o w',
    P [] acc w -> for_each xs acc body w = (o, w') ->
    match o with
    | Returned acc' => P xs acc' w'
    | _ => Q (forget o) w'
    end.
Proof.
  intros Hstep.
  assert (H : forall ys pre acc w o w',
             xs = pre ++ ys -> P pre acc w ->
             for_each ys acc body w = (o, w') ->
             match o with
             | Returned acc' => P xs acc' w'
             | _ => Q (forget o) w'
             end).
  { induction ys as [|x ys IH]; intros pre acc w o w' Hxs HP Hrun.
    - simpl in Hrun. inversion Hrun; subst. rewrite app_nil_r. exact HP.
    - simpl in Hrun. unfold bind in Hrun.
      destruct (body x acc w) as [o1 w1] eqn:Hb.
      specialize (Hstep pre x ys acc w o1 w1 Hxs HP Hb).
      destruct o1 as [acc1| |e|]; try (inversion Hrun; subst; exact Hstep).
      apply (IH (pre ++ [x]) acc1 w1 o w'); auto.
      rewrite <- app_assoc. exact Hxs. }
  intros acc w o w' HP Hrun. apply (H xs [] acc w o w'); auto.
Qed.

Lemma for_range_rule {S} (body : nat -> S -> M S)
    (P : nat -> S -> World -> Prop) (Q : Outcome unit -> World -> Prop) n :
  (forall i acc w o w',
      (i < n)%nat -> P i acc w -> body i acc w = (o, w') ->
      match o with
      | Returned acc' => P (Datatypes.S i) acc' w'
      | _ => Q (forget o) w'
      end) ->
  forall acc w o w',
    P 0%nat acc w -> for_range n acc body w = (o, w') ->
    match o with
    | Returned acc' => P n acc' w'
    | _ => Q (forget o) w'
    end.
Proof.
  intros Hstep acc w o w' HP Hrun. unfold for_range in Hrun.
  assert (H : forall m k acc w,
             (k + m = n)%nat -> P k acc w ->
             for_each (seq k m) acc body w = (o, w') ->
             match o with
             | Returned acc' => P n acc' w'
             | _ => Q (forget o) w'
             end).
  { clear acc w HP Hrun.
    induction m as [|m IH]; intros k acc w Hk HP Hrun; simpl in Hrun.
    - inversion Hrun; subst. replace (k + 0)%nat with k by lia. exact HP.
    - unfold bind in Hrun. destruct (body k acc w) as [o1 w1] eqn:Hb.
      assert (Hlt : (k < n)%nat) by lia.
      specialize (Hstep k acc w o1 w1 Hlt HP Hb).
      destruct o1 as [acc1| |e|]; try (inversion Hrun; subst; exact Hstep).
      apply (IH (Datatypes.S k) acc1 w1); [lia | exact Hstep | exact Hrun]. }
  apply (H n 0%nat acc w); auto.
Qed.

(** When no step of a loop can fail, the loop returns. *)
Lemma for_range_total {S} (body : nat -> S -> M S)
    (P : nat -> S -> World -> Prop) n :
  (forall i acc w,
      (i < n)%nat -> P i acc w ->
      exists acc' w', body i acc w = (Returned acc', w') /\
                      P (Datatypes.S i) acc' w') ->
  forall acc w,
    P 0%nat acc w ->
    exists acc' w', for_range n acc body w = (Returned acc', w') /\ P n acc' w'.
Proof.
  intros Hstep acc w HP.
  destruct (for_range n acc body w) as [o w'] eqn:Hrun.
  pose proof (@for_range_rule S body P (fun _ _ => False) n) as R.
  assert (H : match o with Returned acc' => P n acc' w' | _ => False end).
  { apply (R) with (acc := acc) (w := w); auto.
    intros i acc0 w0 o0 w0' Hi HP0 Hb.
    destruct (Hstep i acc0 w0 Hi HP0) as (acc1 & w1 & Hb1 & HP1).
    rewrite Hb1 in Hb. inversion Hb; subst. exact HP1. }
  destruct o as [acc'| |e|]; try contradiction.
  exists acc', w'. split; [reflexivity | exact H].
Qed.

(** ** Collecting the extensions of a type list *)

Lemma all_extensions_length {T} (ext : Type_ -> option T) types infos :
  all_extensions ext types = Some infos -> length infos = length types.
Proof.
  revert infos. induction types as [|ty types IH]; intros infos H; simpl in H.
  - inversion H. reflexivity.
  - destruct (ext ty); [|discriminate].
    destruct (all_extensions ext types); [|discriminate].
    inversion H. simpl. f_equal. apply IH. reflexivity.
Qed.

Lemma collect_loop {T X} (ext : Type_ -> option T) (g : T -> X) types acc
    (w : World) :
  for_each types acc
    (fun type acc => bind (extension (ext type))
                          (fun info => ret (acc ++ [g info]))) w
  = match all_extensions ext types return Outcome (list X) * World with
    | Some infos => (Returned (acc ++ map g infos), w)
    | None => (AssertionFailed, w)
    end.
Proof.
  revert acc. induction types as [|ty types IH]; intros acc; simpl.
  - rewrite app_nil_r. reflexivity.
  - unfold bind at 1. unfold bind at 1. unfold extension.
    destruct (ext ty) as [info|]; simpl; [|reflexivity].
    rewrite IH. destruct (all_extensions ext types) as [infos|]; [|reflexivity].
    simpl. rewrite <- app_assoc. reflexivity.
Qed.

Lemma append_sizes_eq types (w : World) :
  append_sizes types w
  = match all_extensions ext_CPPTypeInfo types
      return Outcome (list Z) * World with
    | Some infos => (Returned (map size infos), w)
    | None => (AssertionFailed, w)
    end.
Proof. unfold append_sizes. rewrite collect_loop. reflexivity. Qed.

(** What the base constructor establishes. *)
Lemma ArrayExecution_new_inv (function : Function) (w : World) self w' :
  ArrayExecution_new function w = (Returned self, w') ->
  w' = w /\ m_function self = function /\ sizes_recorded self.
Proof.
  unfold ArrayExecution_new, bind. rewrite append_sizes_eq.
  destruct (all_extensions ext_CPPTypeInfo (input_types function))
    as [ins|] eqn:Hin; [|discriminate].
  rewrite append_sizes_eq.
  destruct (all_extensions ext_CPPTypeInfo (output_types function))
    as [outs|] eqn:Hout; [|discriminate].
  unfold ret. intros H. inversion H; subst. split; [reflexivity|].
  split; [reflexivity|]. unfold sizes_recorded. simpl.
  rewrite Hin, Hout. split; reflexivity.
Qed.

Lemma TupleCallArrayExecution_new_inv (function : Function) (w : World) self w' :
  TupleCallArrayExecution_new function w = (Returned self, w') ->
  w' = w /\ m_function self = function /\ sizes_recorded self /\
  has_body (body_TupleCall function) = true.
Proof.
  unfold TupleCallArrayExecution_new. intros H.
  apply bind_inv_Returned in H. destruct H as (self0 & w1 & Hnew & H).
  apply ArrayExecution_new_inv in Hnew. destruct Hnew as (-> & Hfn & Hsz).
  unfold bind, BLI_assert in H. rewrite Hfn in H.
  destruct (has_body (body_TupleCall function)) eqn:Hb; simpl in H;
    [|discriminate].
  inversion H; subst. auto.
Qed.

(** ** Lists updated by index *)

Lemma length_list_set {A} (xs : list A) i x :
  length (list_set xs i x) = length xs.
Proof.
  revert i. induction xs as [|y xs IH]; intros [|i]; simpl; auto.
Qed.

Lemma nth_error_list_set_eq {A} (xs : list A) i x :
  (i < length xs)%nat -> nth_error (list_set xs i x) i = Some x.
Proof.
  revert i. induction xs as [|y xs IH]; intros [|i] H; simpl in *;
    try lia; auto. apply IH. lia.
Qed.

Lemma nth_error_list_set_neq {A} (xs : list A) i j x :
  i <> j -> nth_error (list_set xs i x) j = nth_error xs j.
Proof.
  revert i j. induction xs as [|y xs IH]; intros [|i] [|j] H; simpl;
    auto; try congruence.
Qed.

Lemma at_index_nth {A} (xs : list A) i d (w : World) :
  (i < length xs)%nat ->
  at_index xs i w = ((Returned (nth i xs d), w) : Outcome A * World).
Proof.
  intros H. unfold at_index. rewrite (nth_error_nth' xs d H). reflexivity.
Qed.

Lemma nth_error_all {A} (xs : list A) (g : nat -> A) :
  (forall j, (j < length xs)%nat -> nth_error xs j = Some (g j)) ->
  xs = map g (seq 0 (length xs)).
Proof.
  intros H. apply nth_error_ext. intros j.
  destruct (Nat.lt_ge_cases j (length xs)) as [Hlt|Hge].
  - rewrite (H j Hlt). rewrite nth_error_map, nth_error_seq.
    destruct (Nat.ltb_spec j (length xs)); [reflexivity | lia].
  - rewrite (proj2 (nth_error_None _ _)) by exact Hge.
    rewrite (proj2 (nth_error_None _ _)); [reflexivity|].
    rewrite length_map, length_seq. exact Hge.
Qed.

Lemma element_reads_S ptr sizes n :
  element_reads ptr sizes (S n)
  = element_reads ptr sizes n ++ [EvRead n (ptr n) (nth n sizes 0)].
Proof. unfold element_reads. rewrite seq_S, map_app. reflexivity. Qed.

Lemma element_writes_S ptr sizes n :
  element_writes ptr sizes (S n)
  = element_writes ptr sizes n ++ [EvWrite n (ptr n) (nth n sizes 0)].
Proof. unfold element_writes. rewrite seq_S, map_app. reflexivity. Qed.

Lemma size_nth_meta (meta : list CPPTypeInfo) sizes i :
  map size meta = sizes ->
  size (nth i meta {| size := 0 |}) = nth i sizes 0.
Proof.
  intros <-. symmetry. apply (map_nth size meta {| size := 0 |}).
Qed.

(** ** The boxed strategy, one index *)

(** Copying the inputs of one index in: one read per input slot at the
    address [call] computes, memory untouched, the frame filled. *)
Lemma copy_inputs_spec (self : ArrayExecution) input_buffers index fn_in
    (w : World) :
  let sizes := m_input_sizes self in
  let n := input_amount (m_function self) in
  let ptr := element_ptr input_buffers sizes index in
  length input_buffers = n ->
  length sizes = n ->
  map size (tuple_meta fn_in) = sizes ->
  exists slots,
    copy_inputs self input_buffers index fn_in w
    = (Returned {| tuple_meta := tuple_meta fn_in; tuple_slots := slots |},
       {| memory := memory w; context := context w;
          llvm_contexts_held := llvm_contexts_held w;
          trace := trace w ++ element_reads ptr sizes n |}) /\
    (length (tuple_slots fn_in) = n ->
     slots = map (fun k => Some (mem_read (memory w) (ptr k) (nth k sizes 0)))
               (seq 0 n)).
Proof.
  intros sizes n ptr Hbufs Hsizes Hmeta.
  pose (P := fun (i : nat) (t : Tuple) (w' : World) =>
    tuple_meta t = tuple_meta fn_in /\
    w' = {| memory := memory w; context := context w;
            llvm_contexts_held := llvm_contexts_held w;
            trace := trace w ++ element_reads ptr sizes i |} /\
    length (tuple_slots t) = length (tuple_slots fn_in) /\
    (forall j, (j < i)%nat -> (j < length (tuple_slots fn_in))%nat ->
       nth_error (tuple_slots t) j
       = Some (Some (mem_read (memory w) (ptr j) (nth j sizes 0))))).
  destruct (@for_range_total Tuple
              (fun i fn_in =>
                 bind (at_index input_buffers i) (fun buffer =>
                 bind (at_index (m_input_sizes self) i) (fun element_size =>
                 copy_in__dynamic fn_in i
                   (POINTER_OFFSET buffer (uint_mul index element_size)))))
              P n) with (acc := fn_in) (w := w)
    as (t' & w' & Hrun & Hmeta' & Hw' & Hlen & Hslots).
  - intros i t w1 Hi (Hm & Hw1 & Hl & Hs).
    erewrite bind_Returned by (apply at_index_nth with (d := 0); lia).
    erewrite bind_Returned
      by (apply at_index_nth with (d := 0); fold sizes; lia).
    unfold copy_in__dynamic.
    erewrite bind_Returned
      by (apply at_index_nth with (d := {| size := 0 |});
          rewrite Hm, <- (length_map size), Hmeta; lia).
    rewrite Hm, (size_nth_meta _ _ i Hmeta).
    unfold bind, get_memory, emit, ret. simpl.
    eexists _, _. split; [reflexivity|].
    subst w1. unfold set_slot. simpl. repeat split; simpl.
    + exact Hm.
    + rewrite element_reads_S, <- app_assoc. reflexivity.
    + rewrite length_list_set. exact Hl.
    + intros j Hj Hjl. destruct (Nat.eq_dec j i) as [->|Hne].
      * rewrite nth_error_list_set_eq by lia. reflexivity.
      * rewrite nth_error_list_set_neq by auto. apply Hs; lia.
  - unfold P. repeat split.
    + destruct w. simpl. unfold element_reads. simpl.
      rewrite app_nil_r. reflexivity.
    + intros j Hj. lia.
  - destruct t' as [meta' slots']. simpl in *. subst meta'.
    exists slots'. split.
    + unfold copy_inputs. fold n. rewrite Hrun, Hw'. reflexivity.
    + intros Hn. rewrite Hn in *.
      rewrite (nth_error_all slots'
                 (fun k => Some (mem_read (memory w) (ptr k) (nth k sizes 0)))).
      * rewrite Hlen. reflexivity.
      * intros j Hj. apply Hslots; lia.
Qed.

Lemma write_elements_S m ptr sizes values n :
  write_elements m ptr sizes values (S n)
  = mem_write (write_elements m ptr sizes values n)
      (ptr n) (nth n sizes 0) (nth n values []).
Proof.
  unfold write_elements. rewrite seq_S, fold_left_app. reflexivity.
Qed.

Lemma nth_tuple_values slots j v :
  nth_error slots j = Some (Some v) -> nth j (tuple_values slots) [] = v.
Proof.
  intros H. unfold tuple_values.
  change (@nil byte) with ((fun s : option Value =>
                              match s with Some v => v | None => [] end) None).
  rewrite map_nth. rewrite (nth_error_nth _ _ _ H). reflexivity.
Qed.

(** Relocating the outputs of one index out: one write per output slot at
    the address [call] computes, each slot left empty.  The loop stops, by
    assertion, at the first slot that holds nothing. *)
Lemma relocate_outputs_spec (self : ArrayExecution) output_buffers index fn_out
    (w : World) o w' :
  let sizes := m_output_sizes self in
  let n := output_amount (m_function self) in
  let ptr := element_ptr output_buffers sizes index in
  let values := tuple_values (tuple_slots fn_out) in
  let world k :=
    {| memory := write_elements (memory w) ptr sizes values k;
       context := context w;
       llvm_contexts_held := llvm_contexts_held w;
       trace := trace w ++ element_writes ptr sizes k |} in
  length output_buffers = n ->
  length sizes = n ->
  map size (tuple_meta fn_out) = sizes ->
  relocate_outputs self output_buffers index fn_out w = (o, w') ->
  match o with
  | Returned t' =>
      tuple_meta t' = tuple_meta fn_out /\ w' = world n /\
      length (tuple_slots t') = length (tuple_slots fn_out) /\
      (forall j, (j < n)%nat -> nth_error (tuple_slots t') j = Some None) /\
      (n <= length (tuple_slots fn_out))%nat
  | _ =>
      forget o = AssertionFailed /\
      exists k, (k < n)%nat /\ w' = world k /\
                (nth_error (tuple_slots fn_out) k = None \/
                 nth_error (tuple_slots fn_out) k = Some None)
  end.
Proof.
  intros sizes n ptr values world Hbufs Hsizes Hmeta Hrun.
  pose (P := fun (i : nat) (t : Tuple) (w1 : World) =>
    tuple_meta t = tuple_meta fn_out /\ w1 = world i /\
    length (tuple_slots t) = length (tuple_slots fn_out) /\
    (forall j, (j < i)%nat -> nth_error (tuple_slots t) j = Some None) /\
    (forall j, (i <= j)%nat ->
       nth_error (tuple_slots t) j = nth_error (tuple_slots fn_out) j) /\
    (i <= length (tuple_slots fn_out))%nat).
  pose (Q := fun (o : Outcome unit) (w1 : World) =>
    o = AssertionFailed /\
    exists k, (k < n)%nat /\ w1 = world k /\
              (nth_error (tuple_slots fn_out) k = None \/
               nth_error (tuple_slots fn_out) k = Some None)).
  pose proof (@for_range_rule Tuple
     (fun i fn_out =>
        bind (at_index output_buffers i) (fun buffer =>
        bind (at_index (m_output_sizes self) i) (fun element_size =>
        relocate_out__dynamic fn_out i
          (POINTER_OFFSET buffer (uint_mul index element_size)))))
     P Q n) as R.
  assert (H : match o with
              | Returned t' => P n t' w'
              | _ => Q (forget o) w'
              end).
  { apply R with (acc := fn_out) (w := w); [| | exact Hrun].
    - clear Hrun o w'. intros i t w1 o w' Hi (Hm & Hw1 & Hl & Hdone & Hrest & Hle).
      erewrite bind_Returned by (apply at_index_nth with (d := 0); lia).
      erewrite bind_Returned
        by (apply at_index_nth with (d := 0); fold sizes; lia).
      unfold relocate_out__dynamic.
      erewrite bind_Returned
        by (apply at_index_nth with (d := {| size := 0 |});
            rewrite Hm, <- (length_map size), Hmeta; lia).
      rewrite Hm, (size_nth_meta _ _ i Hmeta).
      unfold bind at 1. unfold at_index.
      rewrite (Hrest i) by lia.
      destruct (nth_error (tuple_slots fn_out) i) as [[v|]|] eqn:Hslot.
      + unfold bind, get_memory, put_memory, emit, ret, stop. simpl.
        intros Hb. inversion Hb; subst o w'. clear Hb.
        assert (Hlt : (i < length (tuple_slots fn_out))%nat).
        { apply nth_error_Some. rewrite Hslot. discriminate. }
        unfold P, set_slot. simpl. repeat split; simpl.
        * exact Hm.
        * subst w1. unfold world. simpl.
          rewrite write_elements_S, element_writes_S, <- app_assoc.
          unfold values. rewrite (nth_tuple_values _ _ _ Hslot). reflexivity.
        * rewrite length_list_set. exact Hl.
        * intros j Hj. destruct (Nat.eq_dec j i) as [->|Hne].
          -- rewrite nth_error_list_set_eq by lia. reflexivity.
          -- rewrite nth_error_list_set_neq by auto. apply Hdone. lia.
        * intros j Hj. rewrite nth_error_list_set_neq by lia.
          apply Hrest. lia.
        * lia.
      + unfold stop. simpl. intros Hb. inversion Hb; subst o w'. simpl.
        split; [reflexivity|]. exists i. auto.
      + unfold stop. simpl. intros Hb. inversion Hb; subst o w'. simpl.
        split; [reflexivity|]. exists i. auto.
    - unfold P. repeat split; auto; try lia.
      unfold world, write_elements, element_writes. simpl.
      destruct w. simpl. rewrite app_nil_r. reflexivity. }
  destruct o as [t'| |e|]; try exact H.
  destruct H as (Hm & Hw' & Hl & Hdone & _ & Hle). auto.
Qed.

Lemma TupleCallBody_call_eq (b : TupleCallBody) fn_in fn_out (w : World) :
  TupleCallBody_call b fn_in fn_out w
  = match tuple_call b fn_in fn_out (context w)
      return Outcome (Tuple * Tuple) * World with
    | BodyReturned in_slots out_slots ctx =>
        (Returned ({| tuple_meta := tuple_meta fn_in; tuple_slots := in_slots |},
                   {| tuple_meta := tuple_meta fn_out; tuple_slots := out_slots |}),
         {| memory := memory w; context := ctx;
            llvm_contexts_held := llvm_contexts_held w;
            trace := trace w ++ [EvBodyCall (tuple_slots fn_in) out_slots] |})
    | BodyFailed e ctx =>
        (Raised e,
         {| memory := memory w; context := ctx;
            llvm_contexts_held := llvm_contexts_held w;
            trace := trace w ++ [EvBodyCall (tuple_slots fn_in) []] |})
    end.
Proof.
  unfold TupleCallBody_call, bind, get_context.
  destruct (tuple_call b fn_in fn_out (context w)); reflexivity.
Qed.

(** The boxed strategy on one index, whatever the body does. *)
Lemma tuple_call_index_spec (self : ArrayExecution) (b : TupleCallBody)
    input_buffers output_buffers index fn_in fn_out (w : World) o w' :
  let in_sizes := m_input_sizes self in
  let out_sizes := m_output_sizes self in
  let n_in := input_amount (m_function self) in
  let n_out := output_amount (m_function self) in
  let in_ptr := element_ptr input_buffers in_sizes index in
  let out_ptr := element_ptr output_buffers out_sizes index in
  length input_buffers = n_in -> length in_sizes = n_in ->
  length output_buffers = n_out -> length out_sizes = n_out ->
  map size (tuple_meta fn_in) = in_sizes ->
  map size (tuple_meta fn_out) = out_sizes ->
  tuple_call_index self b input_buffers output_buffers index (fn_in, fn_out) w
  = (o, w') ->
  exists args,
    (length (tuple_slots fn_in) = n_in ->
     args = map (fun k => Some (mem_read (memory w) (in_ptr k)
                                  (nth k in_sizes 0))) (seq 0 n_in)) /\
    match tuple_call b {| tuple_meta := tuple_meta fn_in;
                          tuple_slots := args |} fn_out (context w) with
    | BodyFailed e ctx =>
        o = Raised e /\
        w' = {| memory := memory w; context := ctx;
                llvm_contexts_held := llvm_contexts_held w;
                trace := trace w ++ element_reads in_ptr in_sizes n_in
                           ++ [EvBodyCall args []] |}
    | BodyReturned in_slots out_slots ctx =>
        exists k,
          w' = {| memory := write_elements (memory w) out_ptr out_sizes
                              (tuple_values out_slots) k;
                  context := ctx;
                  llvm_contexts_held := llvm_contexts_held w;
                  trace := trace w ++ element_reads in_ptr in_sizes n_in
                             ++ [EvBodyCall args out_slots]
                             ++ element_writes out_ptr out_sizes k |} /\
          match o with
          | Returned (fn_in', fn_out') =>
              k = n_out /\
              fn_in' = {| tuple_meta := tuple_meta fn_in;
                          tuple_slots := in_slots |} /\
              tuple_meta fn_out' = tuple_meta fn_out /\
              length (tuple_slots fn_out') = length out_slots /\
              (forall j, (j < n_out)%nat ->
                         nth_error (tuple_slots fn_out') j = Some None) /\
              (n_out <= length out_slots)%nat
          | _ =>
              forget o = AssertionFailed /\ (k < n_out)%nat /\
              (nth_error out_slots k = None \/
               nth_error out_slots k = Some None)
          end
    end.
Proof.
  intros in_sizes out_sizes n_in n_out in_ptr out_ptr
         Hib His Hob Hos Hmi Hmo Hrun.
  unfold tuple_call_index in Hrun.
  destruct (copy_inputs_spec self input_buffers index fn_in w Hib His Hmi)
    as (args & Hcopy & Hargs).
  exists args. split; [exact Hargs|].
  rewrite (bind_Returned _ _ _ _ _ Hcopy) in Hrun.
  unfold bind at 1 in Hrun. rewrite TupleCallBody_call_eq in Hrun.
  simpl in Hrun.
  destruct (tuple_call b {| tuple_meta := tuple_meta fn_in;
                            tuple_slots := args |} fn_out (context w))
    as [in_slots out_slots ctx | e ctx].
  - match type of Hrun with
    | context [relocate_outputs ?s ?ob ?ix ?fo] =>
        match type of Hrun with
        | bind _ _ ?w1 = _ =>
            destruct (relocate_outputs s ob ix fo w1) as [o2 w2] eqn:Hrel
        end
    end.
    pose proof (relocate_outputs_spec self output_buffers index
                  {| tuple_meta := tuple_meta fn_out;
                     tuple_slots := out_slots |} _ _ _
                  Hob Hos Hmo Hrel) as Hspec.
    simpl in Hspec.
    unfold bind in Hrun. rewrite Hrel in Hrun.
    destruct o2 as [t'| |e|].
    + destruct Hspec as (Hm & Hw2 & Hl & Hdone & Hle).
      unfold ret in Hrun. inversion Hrun; subst o w'. clear Hrun.
      exists n_out. split.
      * rewrite Hw2. f_equal. rewrite <- !app_assoc. reflexivity.
      * repeat split; auto.
    + destruct Hspec as (_ & k & Hk & Hw2 & Hslot).
      inversion Hrun; subst o w'. clear Hrun.
      exists k. split.
      * rewrite Hw2. f_equal. rewrite <- !app_assoc. reflexivity.
      * simpl. auto.
    + destruct Hspec as (Hf & _). discriminate Hf.
    + destruct Hspec as (Hf & _). discriminate Hf.
  - inversion Hrun; subst o w'. split; [reflexivity|].
    f_equal. rewrite <- app_assoc. reflexivity.
Qed.

(** ** The boxed strategy, the whole call *)

Lemma alloc_tuple_eq kind types (w : World) :
  alloc_tuple kind types w
  = match all_extensions ext_CPPTypeInfo types
      return Outcome Tuple * World with
    | Some infos =>
        (Returned {| tuple_meta := infos;
                     tuple_slots := repeat None (length types) |},
         {| memory := memory w; context := context w;
            llvm_contexts_held := llvm_contexts_held w;
            trace := trace w ++ [EvAllocTuple kind (length types)] |})
    | None => (AssertionFailed, w)
    end.
Proof.
  unfold alloc_tuple. unfold bind at 1.
  rewrite (collect_loop ext_CPPTypeInfo (fun info => info)).
  destruct (all_extensions ext_CPPTypeInfo types) as [infos|]; [|reflexivity].
  simpl. rewrite map_id. reflexivity.
Qed.

Lemma sizes_recorded_inv (self : ArrayExecution) :
  sizes_recorded self ->
  exists in_infos out_infos,
    all_extensions ext_CPPTypeInfo (input_types (m_function self))
      = Some in_infos /\
    all_extensions ext_CPPTypeInfo (output_types (m_function self))
      = Some out_infos /\
    map size in_infos = m_input_sizes self /\
    map size out_infos = m_output_sizes self /\
    length (m_input_sizes self) = input_amount (m_function self) /\
    length (m_output_sizes self) = output_amount (m_function self).
Proof.
  intros [Hin Hout].
  destruct (all_extensions ext_CPPTypeInfo (input_types (m_function self)))
    as [in_infos|] eqn:Ei; [|discriminate].
  destruct (all_extensions ext_CPPTypeInfo (output_types (m_function self)))
    as [out_infos|] eqn:Eo; [|discriminate].
  simpl in Hin, Hout. inversion Hin as [Hi]. inversion Hout as [Ho].
  exists in_infos, out_infos. repeat split; auto.
  - rewrite length_map. apply (all_extensions_length _ _ _ Ei).
  - rewrite length_map. apply (all_extensions_length _ _ _ Eo).
Qed.

(** After its assertions [call] allocates the two frames, once, and runs
    the loop over the indices on them. *)
Lemma TupleCallArrayExecution_call_unfold (self : ArrayExecution)
    (b : TupleCallBody) in_infos out_infos input_buffers output_buffers :
  all_extensions ext_CPPTypeInfo (input_types (m_function self))
    = Some in_infos ->
  all_extensions ext_CPPTypeInfo (output_types (m_function self))
    = Some out_infos ->
  body_TupleCall (m_function self) = Some b ->
  length input_buffers = input_amount (m_function self) ->
  length output_buffers = output_amount (m_function self) ->
  forall indices (w : World),
    TupleCallArrayExecution_call self indices input_buffers output_buffers w
    = bind (for_each indices
              ({| tuple_meta := in_infos;
                  tuple_slots := repeat None (input_amount (m_function self)) |},
               {| tuple_meta := out_infos;
                  tuple_slots := repeat None (output_amount (m_function self)) |})
              (tuple_call_index self b input_buffers output_buffers))
           (fun _ => ret tt)
           {| memory := memory w; context := context w;
              llvm_contexts_held := llvm_contexts_held w;
              trace := trace w
                ++ [EvAllocTuple InputFrame (input_amount (m_function self));
                    EvAllocTuple OutputFrame (output_amount (m_function self))] |}.
Proof.
  intros Ei Eo Hb Hib Hob indices w.
  unfold TupleCallArrayExecution_call.
  rewrite <- Hib, <- Hob, !Nat.eqb_refl. simpl BLI_assert.
  rewrite Hb. unfold body.
  unfold bind at 1. unfold ret at 1.
  unfold bind at 1. unfold ret at 1.
  unfold bind at 1. unfold ret at 1.
  unfold bind at 1. rewrite alloc_tuple_eq, Ei.
  unfold bind at 1. rewrite alloc_tuple_eq, Eo. simpl.
  rewrite <- app_assoc. rewrite Hib, Hob. reflexivity.
Qed.

Lemma combine_app_eq {A B} (xs xs' : list A) (ys ys' : list B) :
  length xs = length ys ->
  combine (xs ++ xs') (ys ++ ys') = combine xs ys ++ combine xs' ys'.
Proof.
  revert ys. induction xs as [|x xs IH]; intros [|y ys] H; simpl in *;
    try discriminate; auto.
  f_equal. apply IH. lia.
Qed.

Lemma mem_write_outside m addr len v a :
  ~ in_region addr len a -> mem_write m addr len v a = m a.
Proof.
  unfold in_region, mem_write. intros H.
  destruct (Z.leb_spec addr a); destruct (Z.ltb_spec a (addr + len));
    simpl; auto. lia.
Qed.

Lemma write_elements_outside m ptr sizes values n a :
  (forall j, (j < n)%nat -> ~ in_region (ptr j) (nth j sizes 0) a) ->
  write_elements m ptr sizes values n a = m a.
Proof.
  induction n as [|n IH]; intros H.
  - reflexivity.
  - rewrite write_elements_S, mem_write_outside by (apply H; lia).
    apply IH. intros j Hj. apply H. lia.
Qed.

Lemma element_writes_prefix ptr sizes k n :
  (k <= n)%nat ->
  exists rest, element_writes ptr sizes n = element_writes ptr sizes k ++ rest.
Proof.
  intros H. unfold element_writes.
  replace n with (k + (n - k))%nat by lia.
  rewrite seq_app, map_app. eexists. reflexivity.
Qed.

(** The loop of [call] over the indices, whatever the body does: the log is
    one block per index, in the order of the indices; only output elements
    of the indices change; a failure cuts the log inside one block. *)
Lemma tuple_loop_spec (self : ArrayExecution) (b : TupleCallBody)
    input_buffers output_buffers indices fn_in0 fn_out0 (w0 : World) o w' :
  length input_buffers = input_amount (m_function self) ->
  length (m_input_sizes self) = input_amount (m_function self) ->
  length output_buffers = output_amount (m_function self) ->
  length (m_output_sizes self) = output_amount (m_function self) ->
  map size (tuple_meta fn_in0) = m_input_sizes self ->
  map size (tuple_meta fn_out0) = m_output_sizes self ->
  for_each indices (fn_in0, fn_out0)
    (tuple_call_index self b input_buffers output_buffers) w0 = (o, w') ->
  llvm_contexts_held w' = llvm_contexts_held w0 /\
  (forall a, ~ in_output_element self output_buffers indices a ->
             memory w' a = memory w0 a) /\
  match o with
  | Returned frames =>
      map size (tuple_meta (fst frames)) = m_input_sizes self /\
      map size (tuple_meta (snd frames)) = m_output_sizes self /\
      exists calls,
        length calls = length indices /\
        trace w' = trace w0
          ++ flat_map (fun ic => tuple_call_events self input_buffers
                                   output_buffers (fst ic) (snd ic))
               (combine indices calls)
  | _ =>
      exists pre x post calls partial rest call,
        indices = pre ++ x :: post /\
        length calls = length pre /\
        trace w' = trace w0
          ++ flat_map (fun ic => tuple_call_events self input_buffers
                                   output_buffers (fst ic) (snd ic))
               (combine pre calls)
          ++ partial /\
        tuple_call_events self input_buffers output_buffers x call
        = partial ++ rest
  end.
Proof.
  intros Hib His Hob Hos Hmi Hmo Hrun.
  set (block := fun ic : Z * (list (option Value) * list (option Value)) =>
                  tuple_call_events self input_buffers output_buffers
                    (fst ic) (snd ic)).
  pose (P := fun (pre : list Z) (frames : Tuple * Tuple) (w1 : World) =>
    map size (tuple_meta (fst frames)) = m_input_sizes self /\
    map size (tuple_meta (snd frames)) = m_output_sizes self /\
    llvm_contexts_held w1 = llvm_contexts_held w0 /\
    (forall a, ~ in_output_element self output_buffers pre a ->
               memory w1 a = memory w0 a) /\
    exists calls,
      length calls = length pre /\
      trace w1 = trace w0 ++ flat_map block (combine pre calls)).
  pose (Q := fun (_ : Outcome unit) (w1 : World) =>
    llvm_contexts_held w1 = llvm_contexts_held w0 /\
    (forall a, ~ in_output_element self output_buffers indices a ->
               memory w1 a = memory w0 a) /\
    exists pre x post calls partial rest call,
      indices = pre ++ x :: post /\
      length calls = length pre /\
      trace w1 = trace w0 ++ flat_map block (combine pre calls) ++ partial /\
      tuple_call_events self input_buffers output_buffers x call
      = partial ++ rest).
  assert (Hmono : forall pre x post a,
            indices = pre ++ x :: post ->
            ~ in_output_element self output_buffers indices a ->
            ~ in_output_element self output_buffers (pre ++ [x]) a).
  { intros pre x post a Hxs Hn (index & k & Hin & Hk & Hreg). apply Hn.
    exists index, k. repeat split; auto; try apply Hreg.
    rewrite Hxs. apply in_app_or in Hin. apply in_or_app.
    destruct Hin as [Hin|[->|[]]]; [left; auto | right; left; auto]. }
  assert (H : match o with
              | Returned frames => P indices frames w'
              | _ => Q (forget o) w'
              end).
  { apply (for_each_rule
             (tuple_call_index self b input_buffers output_buffers) P Q indices)
      with (acc := (fn_in0, fn_out0)) (w := w0); [| | exact Hrun].
    - clear Hrun o w'.
      intros pre x post [fn_in fn_out] w o w' Hxs
             (Hi & Ho & Hheld & Hframe & calls & Hlen & Htrace) Hstep.
      simpl in Hi, Ho.
      destruct (tuple_call_index_spec self b input_buffers output_buffers x
                  fn_in fn_out w o w' Hib His Hob Hos Hi Ho Hstep)
        as (args & _ & Hcase).
      destruct (tuple_call b _ fn_out (context w))
        as [in_slots out_slots ctx | e ctx].
      + destruct Hcase as (k & Hw' & Ho').
        assert (Hk : (k <= output_amount (m_function self))%nat).
        { destruct o as [[fi fo]| | |]; [destruct Ho' as [-> _]; lia | | |];
            destruct Ho' as (_ & Hlt & _); lia. }
        assert (Hmem : forall a,
                  ~ in_output_element self output_buffers (pre ++ [x]) a ->
                  memory w' a = memory w0 a).
        { intros a Ha. rewrite Hw'. simpl.
          rewrite write_elements_outside.
          - apply Hframe. intros (index & j & Hin & Hj & Hreg). apply Ha.
            exists index, j. repeat split; auto; try apply Hreg.
            apply in_or_app. left. exact Hin.
          - intros j Hj Hreg. apply Ha. exists x, j.
            repeat split; try apply Hreg; try lia.
            apply in_or_app. right. left. reflexivity. }
        destruct o as [[fi fo]| |e|].
        * destruct Ho' as (-> & -> & Hmeta & _).
          unfold P. simpl. repeat split.
          -- exact Hi.
          -- rewrite Hmeta. exact Ho.
          -- rewrite Hw'. simpl. exact Hheld.
          -- exact Hmem.
          -- exists (calls ++ [(args, out_slots)]). split.
             ++ rewrite !length_app. simpl. lia.
             ++ rewrite Hw'. simpl. rewrite Htrace.
                rewrite combine_app_eq by (symmetry; exact Hlen).
                rewrite flat_map_app. simpl. rewrite app_nil_r.
                unfold block at 3. unfold tuple_call_events. simpl.
                rewrite <- !app_assoc. reflexivity.
        * simpl. unfold Q. split; [rewrite Hw'; exact Hheld|]. split.
          -- intros a Ha. apply Hmem. apply (Hmono pre x post a Hxs Ha).
          -- destruct (element_writes_prefix
                         (element_ptr output_buffers (m_output_sizes self) x)
                         (m_output_sizes self) k _ Hk) as (rest & Hrest).
             exists pre, x, post, calls,
               (element_reads
                  (element_ptr input_buffers (m_input_sizes self) x)
                  (m_input_sizes self) (input_amount (m_function self))
                ++ [EvBodyCall args out_slots]
                ++ element_writes
                     (element_ptr output_buffers (m_output_sizes self) x)
                     (m_output_sizes self) k),
               rest, (args, out_slots).
             repeat split; auto.
             ++ rewrite Hw'. simpl. rewrite Htrace.
                rewrite <- !app_assoc. reflexivity.
             ++ unfold tuple_call_events. simpl. rewrite Hrest.
                rewrite <- !app_assoc. reflexivity.
        * destruct Ho' as (Hf & _). discriminate Hf.
        * destruct Ho' as (Hf & _). discriminate Hf.
      + destruct Hcase as (-> & Hw'). simpl. unfold Q.
        split; [rewrite Hw'; exact Hheld|]. split.
        * intros a Ha. rewrite Hw'. simpl. apply Hframe.
          intros (index & j & Hin & Hj & Hreg).
          apply (Hmono pre x post a Hxs Ha).
          exists index, j. repeat split; auto; try apply Hreg.
          apply in_or_app. left. exact Hin.
        * exists pre, x, post, calls,
            (element_reads
               (element_ptr input_buffers (m_input_sizes self) x)
               (m_input_sizes self) (input_amount (m_function self))
             ++ [EvBodyCall args []]),
            (element_writes
               (element_ptr output_buffers (m_output_sizes self) x)
               (m_output_sizes self) (output_amount (m_function self))),
            (args, []).
          repeat split; auto.
          -- rewrite Hw'. simpl. rewrite Htrace.
             rewrite <- !app_assoc. reflexivity.
          -- unfold tuple_call_events. simpl.
             rewrite <- !app_assoc. reflexivity.
    - unfold P. simpl. repeat split; auto.
      exists []. simpl. rewrite app_nil_r. auto. }
  destruct o as [frames| |e|]; simpl in H.
  - destruct H as (Hmi' & Hmo' & Hheld & Hframe & Hcalls). auto.
  - destruct H as (Hheld & Hframe & Hrest). auto.
  - destruct H as (Hheld & Hframe & Hrest). auto.
  - destruct H as (Hheld & Hframe & Hrest). auto.
Qed.

(** ** Construction of the compiled strategy *)

(** [compile], path by path. *)
Lemma compile_eq (jit_fault : string -> option Failure)
    (self : LLVMArrayExecution) (w : World) :
  let fn := m_function (base self) in
  let module := (name fn ++ " (Array Execution)")%string in
  let world held events :=
    {| memory := memory w; context := context w;
       llvm_contexts_held := held;
       trace := trace w ++ events |} in
  compile jit_fault self w
  = match body_LLVMBuildIR fn return Outcome LLVMArrayExecution * World with
    | None =>
        (Undefined,
         world (S (llvm_contexts_held w)) [EvAquireContext; EvNewModule module])
    | Some b =>
        match build_function b with
        | BuildFailed e =>
            (Raised e,
             world (S (llvm_contexts_held w))
               [EvAquireContext; EvNewModule module; EvCreateFunction module;
                EvBuildBody (name fn)])
        | Built native =>
            match jit_fault module with
            | Some e =>
                (Raised e,
                 world (S (llvm_contexts_held w))
                   [EvAquireContext; EvNewModule module;
                    EvCreateFunction module; EvBuildBody (name fn);
                    EvFromIR module])
            | None =>
                (Returned
                   {| base := base self;
                      m_input_type_infos := m_input_type_infos self;
                      m_output_type_infos := m_output_type_infos self;
                      m_compiled_function :=
                        Some {| function_ptr :=
                                  emitted_function (base self)
                                    (m_input_type_infos self)
                                    (m_output_type_infos self) native |} |},
                 world (llvm_contexts_held w)
                   [EvAquireContext; EvNewModule module;
                    EvCreateFunction module; EvBuildBody (name fn);
                    EvFromIR module; EvReleaseContext])
            end
        end
    end.
Proof.
  intros fn m world. unfold world. clear world.
  unfold compile. fold fn. fold m. clearbody m.
  unfold aquire_llvm_context, new_Module, build_function_ir,
    LLVMBuildIRBody_build_function, CompiledLLVM_FromIR, release_llvm_context,
    body.
  fold fn.
  destruct (body_LLVMBuildIR fn) as [b|].
  - destruct (build_function b) as [native|e] eqn:Hb.
    + destruct (jit_fault m) as [e|] eqn:Hj;
        unfold bind, put_held, emit, ret, stop; simpl; rewrite Hb, Hj; simpl;
        rewrite <- ?app_assoc; reflexivity.
    + unfold bind, put_held, emit, ret, stop. simpl. rewrite Hb. simpl.
      rewrite <- ?app_assoc. reflexivity.
  - unfold bind, put_held, emit, ret, stop. simpl.
    rewrite <- ?app_assoc. reflexivity.
Qed.

Lemma extensions_LLVMTypeInfo_eq types (w : World) :
  extensions_LLVMTypeInfo types w
  = match all_extensions ext_LLVMTypeInfo types
      return Outcome (list LLVMTypeInfo) * World with
    | Some infos => (Returned infos, w)
    | None => (AssertionFailed, w)
    end.
Proof.
  unfold extensions_LLVMTypeInfo.
  rewrite (collect_loop ext_LLVMTypeInfo (fun info => info)).
  destruct (all_extensions ext_LLVMTypeInfo types); [|reflexivity].
  simpl. rewrite map_id. reflexivity.
Qed.

(** What the constructor of the compiled strategy establishes: the size
    table, the type infos, and the one function emitted and compiled while
    constructing. *)
Lemma LLVMArrayExecution_new_inv (jit_fault : string -> option Failure)
    (function : Function) (w : World) self w' :
  LLVMArrayExecution_new jit_fault function w = (Returned self, w') ->
  let module := (name function ++ " (Array Execution)")%string in
  m_function (base self) = function /\
  sizes_recorded (base self) /\
  all_extensions ext_LLVMTypeInfo (input_types function)
    = Some (m_input_type_infos self) /\
  all_extensions ext_LLVMTypeInfo (output_types function)
    = Some (m_output_type_infos self) /\
  (exists b native,
      body_LLVMBuildIR function = Some b /\
      build_function b = Built native /\
      m_compiled_function self
      = Some {| function_ptr :=
                  emitted_function (base self) (m_input_type_infos self)
                    (m_output_type_infos self) native |}) /\
  w' = {| memory := memory w; context := context w;
          llvm_contexts_held := llvm_contexts_held w;
          trace := trace w ++
            [EvAquireContext; EvNewModule module; EvCreateFunction module;
             EvBuildBody (name function); EvFromIR module;
             EvReleaseContext] |}.
Proof.
  unfold LLVMArrayExecution_new. intros H.
  apply bind_inv_Returned in H. destruct H as (self0 & w1 & Hnew & H).
  apply ArrayExecution_new_inv in Hnew. destruct Hnew as (-> & Hfn & Hsz).
  unfold bind at 1 in H. unfold BLI_assert in H. rewrite Hfn in H.
  destruct (has_body (body_LLVMBuildIR function)) eqn:Hb; simpl in H;
    [|discriminate].
  unfold bind at 1 in H. rewrite extensions_LLVMTypeInfo_eq in H.
  destruct (all_extensions ext_LLVMTypeInfo (input_types function))
    as [ins|] eqn:Hin; [|discriminate].
  unfold bind at 1 in H. rewrite extensions_LLVMTypeInfo_eq in H.
  destruct (all_extensions ext_LLVMTypeInfo (output_types function))
    as [outs|] eqn:Hout; [|discriminate].
  rewrite compile_eq in H. simpl in H. rewrite Hfn in H.
  destruct (body_LLVMBuildIR function) as [b|] eqn:Hbody; [|discriminate].
  destruct (build_function b) as [native|e] eqn:Hbuild; [|discriminate].
  destruct (jit_fault (name function ++ " (Array Execution)")%string);
    [discriminate|].
  inversion H; subst self w'. simpl. repeat split; auto;
    try apply Hsz.
  exists b, native. auto.
Qed.

(** ** The emitted function *)

Lemma nth_strided_buffers buffers sizes n i d :
  (i < n)%nat ->
  nth i (strided_buffers buffers sizes n) d
  = {| address := nth i buffers 0; stride := nth i sizes 0 |}.
Proof.
  intros H. unfold strided_buffers.
  rewrite (nth_indep _ d {| address := nth 0 buffers 0;
                            stride := nth 0 sizes 0 |})
    by (rewrite length_map, length_seq; exact H).
  rewrite (map_nth (fun k => {| address := nth k buffers 0;
                                stride := nth k sizes 0 |}) (seq 0 n) 0%nat i).
  rewrite seq_nth by exact H. reflexivity.
Qed.

Lemma CreateLoadAtIndex_nth (array : list Z) i d (w : World) :
  (i < length array)%nat ->
  CreateLoadAtIndex array i w
  = ((Returned (nth i array d), w) : Outcome Z * World).
Proof.
  intros H. unfold CreateLoadAtIndex. rewrite (nth_error_nth' array d H).
  reflexivity.
Qed.

(** The loop shared by [get_input_buffers] and [get_output_buffers]. *)
Lemma typed_buffers_loop (sizes buffers_arg : list Z) n (w : World) :
  length buffers_arg = n -> length sizes = n ->
  for_range n []
    (fun i buffers =>
       bind (at_index sizes i) (fun element_size =>
       bind (CreateLoadAtIndex buffers_arg i) (fun buffer =>
       ret (buffers ++ [CastToPointerWithStride buffer element_size])))) w
  = ((Returned (strided_buffers buffers_arg sizes n), w)
     : Outcome (list StridedPointer) * World).
Proof.
  intros Hb Hs.
  destruct (for_range_total
    (fun i buffers =>
       bind (at_index sizes i) (fun element_size =>
       bind (CreateLoadAtIndex buffers_arg i) (fun buffer =>
       ret (buffers ++ [CastToPointerWithStride buffer element_size]))))
    (fun i acc w' => w' = w /\ acc = strided_buffers buffers_arg sizes i) n)
    with (acc := @nil StridedPointer) (w := w) as (acc & w' & Hrun & -> & ->).
  - intros i acc w1 Hi (-> & ->).
    erewrite bind_Returned by (apply at_index_nth with (d := 0); lia).
    erewrite bind_Returned
      by (apply CreateLoadAtIndex_nth with (d := 0); lia).
    eexists _, _. split; [reflexivity|]. split; [reflexivity|].
    unfold strided_buffers. rewrite seq_S, map_app. reflexivity.
  - split; reflexivity.
  - exact Hrun.
Qed.

Lemma get_input_buffers_spec (self : ArrayExecution) input_buffers_arg
    (w : World) :
  length input_buffers_arg = input_amount (m_function self) ->
  length (m_input_sizes self) = input_amount (m_function self) ->
  get_input_buffers self input_buffers_arg w
  = (Returned (strided_buffers input_buffers_arg (m_input_sizes self)
                 (input_amount (m_function self))), w).
Proof. intros Hb Hs. apply typed_buffers_loop; assumption. Qed.

Lemma get_output_buffers_spec (self : ArrayExecution) output_buffers_arg
    (w : World) :
  length output_buffers_arg = output_amount (m_function self) ->
  length (m_output_sizes self) = output_amount (m_function self) ->
  get_output_buffers self output_buffers_arg w
  = (Returned (strided_buffers output_buffers_arg (m_output_sizes self)
                 (output_amount (m_function self))), w).
Proof. intros Hb Hs. apply typed_buffers_loop; assumption. Qed.

(** Loading the inputs of one index: one read per input, at the strided
    address. *)
Lemma get_input_values_spec (self : ArrayExecution) infos input_buffers
    index (w : World) :
  let sizes := m_input_sizes self in
  let n := input_amount (m_function self) in
  let ptr := spec_element_ptr input_buffers sizes index in
  length infos = n ->
  get_input_values self infos (strided_buffers input_buffers sizes n) index w
  = (Returned (map (fun k => mem_read (memory w) (ptr k) (nth k sizes 0))
                 (seq 0 n)),
     {| memory := memory w; context := context w;
        llvm_contexts_held := llvm_contexts_held w;
        trace := trace w ++ element_reads ptr sizes n |}).
Proof.
  intros sizes n ptr Hinfos.
  destruct (for_range_total
    (fun i input_values =>
       bind (at_index (strided_buffers input_buffers sizes n) i) (fun buffer =>
       bind (at_index infos i) (fun info =>
       bind (build_load_ir__copy info i (CreateGEP buffer index)) (fun value =>
       ret (input_values ++ [value])))))
    (fun i acc w' =>
       acc = map (fun k => mem_read (memory w) (ptr k) (nth k sizes 0))
               (seq 0 i) /\
       w' = {| memory := memory w; context := context w;
               llvm_contexts_held := llvm_contexts_held w;
               trace := trace w ++ element_reads ptr sizes i |}) n)
    with (acc := @nil Value) (w := w) as (acc & w' & Hrun & -> & ->).
  - intros i acc w1 Hi (-> & ->).
    erewrite bind_Returned
      by (apply at_index_nth with (d := {| address := 0; stride := 0 |});
          unfold strided_buffers; rewrite length_map, length_seq; exact Hi).
    rewrite nth_strided_buffers by exact Hi.
    erewrite bind_Returned
      by (apply at_index_nth with (d := {| llvm_type_name := "" |}); lia).
    unfold build_load_ir__copy, bind, get_memory, emit, ret, CreateGEP.
    cbn [memory context llvm_contexts_held trace address stride].
    eexists _, _. split; [reflexivity|]. split.
    + rewrite seq_S, map_app. reflexivity.
    + rewrite element_reads_S, <- app_assoc. reflexivity.
  - split; [reflexivity|]. destruct w. simpl. unfold element_reads. simpl.
    rewrite app_nil_r. reflexivity.
  - exact Hrun.
Qed.

(** Storing the outputs of one index: one write per output, at the strided
    address, of the field extracted from the aggregate. *)
Lemma store_output_values_spec (self : ArrayExecution) infos output_buffers
    index results (w : World) :
  let sizes := m_output_sizes self in
  let n := output_amount (m_function self) in
  let ptr := spec_element_ptr output_buffers sizes index in
  length infos = n -> length results = n ->
  store_output_values self infos (strided_buffers output_buffers sizes n)
    index results w
  = (Returned tt,
     {| memory := write_elements (memory w) ptr sizes results n;
        context := context w;
        llvm_contexts_held := llvm_contexts_held w;
        trace := trace w ++ element_writes ptr sizes n |}).
Proof.
  intros sizes n ptr Hinfos Hres.
  destruct (for_range_total
    (fun i (_ : unit) =>
       bind (at_index (strided_buffers output_buffers sizes n) i) (fun buffer =>
       bind (CreateExtractValue results i) (fun value =>
       bind (at_index infos i) (fun info =>
       build_store_ir__relocate info i value (CreateGEP buffer index)))))
    (fun i (_ : unit) w' =>
       w' = {| memory := write_elements (memory w) ptr sizes results i;
               context := context w;
               llvm_contexts_held := llvm_contexts_held w;
               trace := trace w ++ element_writes ptr sizes i |}) n)
    with (acc := tt) (w := w) as ([] & w' & Hrun & ->).
  - intros i [] w1 Hi ->.
    erewrite bind_Returned
      by (apply at_index_nth with (d := {| address := 0; stride := 0 |});
          unfold strided_buffers; rewrite length_map, length_seq; exact Hi).
    rewrite nth_strided_buffers by exact Hi.
    unfold bind at 1. unfold CreateExtractValue.
    rewrite (nth_error_nth' results []) by lia.
    unfold ret at 1.
    erewrite bind_Returned
      by (apply at_index_nth with (d := {| llvm_type_name := "" |}); lia).
    unfold build_store_ir__relocate, bind, get_memory, put_memory, emit,
      CreateGEP.
    cbn [memory context llvm_contexts_held trace address stride].
    eexists _, _. split; [reflexivity|].
    rewrite write_elements_S, element_writes_S, <- app_assoc. reflexivity.
  - destruct w. simpl. unfold element_writes, write_elements. simpl.
    rewrite app_nil_r. reflexivity.
  - exact Hrun.
Qed.

Lemma firstn_S_nth {A} (xs : list A) i d :
  (i < length xs)%nat -> firstn (S i) xs = firstn i xs ++ [nth i xs d].
Proof.
  revert i. induction xs as [|x xs IH]; intros [|i] H; simpl in *;
    try lia; auto.
  f_equal. apply IH. lia.
Qed.

Lemma CreateCall_eq (actual_function : NativeBody) input_values (w : World) :
  CreateCall actual_function input_values w
  = ((Returned (fst (actual_function input_values (context w))),
      {| memory := memory w;
         context := snd (actual_function input_values (context w));
         llvm_contexts_held := llvm_contexts_held w;
         trace := trace w
           ++ [EvNativeBodyCall input_values
                 (fst (actual_function input_values (context w)))] |})
     : Outcome (list Value) * World).
Proof.
  unfold CreateCall, bind, get_context.
  destruct (actual_function input_values (context w)) as [result ctx'].
  reflexivity.
Qed.

(** The emitted function on [count] indices: it returns after [count]
    iterations, iteration [i] processing [indices[i]]. *)
Lemma emitted_function_spec (self : ArrayExecution) in_infos out_infos
    (native : NativeBody) count indices input_buffers output_buffers
    (w : World) :
  length input_buffers = input_amount (m_function self) ->
  length (m_input_sizes self) = input_amount (m_function self) ->
  length output_buffers = output_amount (m_function self) ->
  length (m_output_sizes self) = output_amount (m_function self) ->
  length in_infos = input_amount (m_function self) ->
  length out_infos = output_amount (m_function self) ->
  (forall values ctx,
      length (fst (native values ctx)) = output_amount (m_function self)) ->
  (Z.to_nat count <= length indices)%nat ->
  exists w',
    emitted_function self in_infos out_infos native count indices
      input_buffers output_buffers w = (Returned tt, w') /\
    llvm_contexts_held w' = llvm_contexts_held w /\
    (exists calls,
        length calls = Z.to_nat count /\
        trace w' = trace w
          ++ flat_map (fun ic => native_call_events self input_buffers
                                   output_buffers (fst ic) (snd ic))
               (combine (firstn (Z.to_nat count) indices) calls)) /\
    (forall f,
        (forall values ctx, native values ctx = (f values, ctx)) ->
        memory w' = compiled_memory self f input_buffers output_buffers
                      (firstn (Z.to_nat count) indices) (memory w) /\
        context w' = context w).
Proof.
  intros Hib His Hob Hos Hii Hoi Hty Hcount.
  unfold emitted_function.
  rewrite (bind_Returned _ _ _ _ _
             (get_input_buffers_spec self input_buffers w Hib His)).
  rewrite (bind_Returned _ _ _ _ _
             (get_output_buffers_spec self output_buffers w Hob Hos)).
  unfold CreateNIterationsLoop.
  set (block := fun ic : Z * (list Value * list Value) =>
                  native_call_events self input_buffers output_buffers
                    (fst ic) (snd ic)).
  destruct (for_range_total
    (fun iteration (_ : unit) =>
       loop_body self in_infos out_infos native indices
         (strided_buffers input_buffers (m_input_sizes self)
            (input_amount (m_function self)))
         (strided_buffers output_buffers (m_output_sizes self)
            (output_amount (m_function self))) iteration)
    (fun i (_ : unit) w1 =>
       llvm_contexts_held w1 = llvm_contexts_held w /\
       (exists calls,
           length calls = i /\
           trace w1 = trace w
             ++ flat_map block (combine (firstn i indices) calls)) /\
       (forall f,
           (forall values ctx, native values ctx = (f values, ctx)) ->
           memory w1 = compiled_memory self f input_buffers output_buffers
                         (firstn i indices) (memory w) /\
           context w1 = context w)) (Z.to_nat count))
    with (acc := tt) (w := w) as ([] & w' & Hrun & Hheld & Hcalls & Hpure).
  - intros i [] w1 Hi (Hheld & (calls & Hlen & Htrace) & Hpure).
    unfold loop_body.
    erewrite bind_Returned
      by (apply CreateLoadAtIndex_nth with (d := 0); lia).
    rewrite (bind_Returned _ _ _ _ _
               (get_input_values_spec self in_infos input_buffers
                  (nth i indices 0) w1 Hii)).
    unfold bind at 1. rewrite CreateCall_eq.
    cbn [memory context llvm_contexts_held trace].
    set (values := map _ (seq 0 (input_amount (m_function self)))).
    rewrite store_output_values_spec by (auto; apply Hty).
    cbn [memory context llvm_contexts_held trace].
    eexists _, _. split; [reflexivity|].
    cbn [memory context llvm_contexts_held trace].
    rewrite (firstn_S_nth indices i 0) by lia.
    split; [exact Hheld|]. split.
    + exists (calls ++ [(values, fst (native values (context w1)))]). split.
      * rewrite length_app. simpl. lia.
      * rewrite combine_app_eq
          by (rewrite length_firstn, Hlen; lia).
        rewrite flat_map_app. simpl. rewrite app_nil_r.
        unfold block at 2. unfold native_call_events. simpl.
        rewrite Htrace, <- !app_assoc. reflexivity.
    + intros f Hf. destruct (Hpure f Hf) as (Hmem & Hctx).
      rewrite Hf. simpl. split; [|exact Hctx].
      unfold compiled_memory. rewrite fold_left_app. simpl.
      fold (compiled_memory self f input_buffers output_buffers
              (firstn i indices) (memory w)).
      rewrite <- Hmem. unfold index_memory. reflexivity.
  - split; [reflexivity|]. split.
    + exists []. simpl. rewrite app_nil_r. auto.
    + intros f Hf. simpl. auto.
  - exists w'. split; [exact Hrun|]. auto.
Qed.

(** ** Pure bodies *)

Lemma tuple_values_Some (values : list Value) :
  tuple_values (map Some values) = values.
Proof.
  unfold tuple_values. rewrite map_map. apply map_id.
Qed.

(** The loop of [call] with a body that is the pure function [f]: it
    returns, and memory is what processing the indices in order gives. *)
Lemma tuple_loop_pure (self : ArrayExecution) (b : TupleCallBody)
    (f : list Value -> list Value) input_buffers output_buffers indices :
  length input_buffers = input_amount (m_function self) ->
  length (m_input_sizes self) = input_amount (m_function self) ->
  length output_buffers = output_amount (m_function self) ->
  length (m_output_sizes self) = output_amount (m_function self) ->
  TupleCallBody_computes b f ->
  (forall values, length (f values) = output_amount (m_function self)) ->
  forall fn_in fn_out (w : World),
    map size (tuple_meta fn_in) = m_input_sizes self ->
    map size (tuple_meta fn_out) = m_output_sizes self ->
    length (tuple_slots fn_in) = input_amount (m_function self) ->
    exists frames w',
      for_each indices (fn_in, fn_out)
        (tuple_call_index self b input_buffers output_buffers) w
      = (Returned frames, w') /\
      memory w' = boxed_memory self f input_buffers output_buffers indices
                    (memory w) /\
      context w' = context w.
Proof.
  intros Hib His Hob Hos Hcomp Hf.
  induction indices as [|index indices IH]; intros fn_in fn_out w Hmi Hmo Hlen.
  - simpl. eexists _, _. split; [reflexivity|]. auto.
  - rewrite for_each_cons.
    destruct (tuple_call_index self b input_buffers output_buffers index
                (fn_in, fn_out) w) as [o w1] eqn:Hstep.
    destruct (tuple_call_index_spec self b input_buffers output_buffers index
                fn_in fn_out w o w1 Hib His Hob Hos Hmi Hmo Hstep)
      as (args & Hargs & Hcase).
    specialize (Hargs Hlen).
    rewrite Hcomp in Hcase. cbn [tuple_slots] in Hcase.
    destruct Hcase as (k & Hw1 & Ho).
    assert (Hvalues : tuple_values args
                      = map (fun k => mem_read (memory w)
                               (element_ptr input_buffers (m_input_sizes self)
                                  index k)
                               (nth k (m_input_sizes self) 0))
                          (seq 0 (input_amount (m_function self)))).
    { rewrite Hargs, <- (map_map _ Some). apply tuple_values_Some. }
    destruct o as [[fi fo]| |e|].
    + destruct Ho as (-> & -> & Hmeta & _).
      destruct (IH {| tuple_meta := tuple_meta fn_in; tuple_slots := args |}
                  fo w1) as (frames & w' & Hrun & Hmem & Hctx).
      * exact Hmi.
      * rewrite Hmeta. exact Hmo.
      * simpl. rewrite Hargs, length_map, length_seq. reflexivity.
      * exists frames, w'.
        rewrite (bind_Returned _ _ _ _ _ Hstep). split; [exact Hrun|].
        rewrite Hmem, Hctx, Hw1. simpl. split; [|reflexivity].
        rewrite tuple_values_Some, Hvalues. reflexivity.
    + exfalso. destruct Ho as (_ & Hk & Hslot).
      assert (Hsome : nth_error (map Some (f (tuple_values args))) k <> None).
      { apply nth_error_Some. rewrite length_map, Hf. exact Hk. }
      rewrite nth_error_map in Hslot.
      destruct Hslot as [Hn|Hn].
      * rewrite nth_error_map in Hsome. contradiction.
      * destruct (nth_error (f (tuple_values args)) k); discriminate.
    + destruct Ho as (Hfg & _). discriminate.
    + destruct Ho as (Hfg & _). discriminate.
Qed.

Lemma TupleCallArrayExecution_call_pure (self : ArrayExecution)
    (b : TupleCallBody) (f : list Value -> list Value)
    indices input_buffers output_buffers (w : World) :
  sizes_recorded self ->
  body_TupleCall (m_function self) = Some b ->
  TupleCallBody_computes b f ->
  (forall values, length (f values) = output_amount (m_function self)) ->
  length input_buffers = input_amount (m_function self) ->
  length output_buffers = output_amount (m_function self) ->
  exists w',
    TupleCallArrayExecution_call self indices input_buffers output_buffers w
    = (Returned tt, w') /\
    memory w' = boxed_memory self f input_buffers output_buffers indices
                  (memory w) /\
    context w' = context w.
Proof.
  intros Hsz Hb Hcomp Hf Hib Hob.
  destruct (sizes_recorded_inv self Hsz)
    as (in_infos & out_infos & Ei & Eo & Hmi & Hmo & His & Hos).
  rewrite (TupleCallArrayExecution_call_unfold self b in_infos out_infos
             input_buffers output_buffers Ei Eo Hb Hib Hob).
  match goal with
  | |- context [bind (for_each _ (?fi, ?fo) _) _ ?w0] =>
      destruct (tuple_loop_pure self b f input_buffers output_buffers indices
                  Hib His Hob Hos Hcomp Hf fi fo w0)
        as (frames & w' & Hrun & Hmem & Hctx)
  end; auto.
  - simpl. apply repeat_length.
  - exists w'. rewrite (bind_Returned _ _ _ _ _ Hrun). auto.
Qed.


(** ** Wrap-around of the offset product *)

Lemma uint_mul_exact a b :
  0 <= a * b < uint_modulus -> uint_mul a b = a * b.
Proof. intros H. unfold uint_mul. apply Z.mod_small. exact H. Qed.

Lemma element_ptr_exact buffers sizes index k :
  0 <= index * nth k sizes 0 < uint_modulus ->
  element_ptr buffers sizes index k = spec_element_ptr buffers sizes index k.
Proof.
  intros H. unfold element_ptr, spec_element_ptr, POINTER_OFFSET.
  rewrite uint_mul_exact by exact H. reflexivity.
Qed.

Lemma write_elements_ext m ptr ptr' sizes values n :
  (forall k, (k < n)%nat -> ptr k = ptr' k) ->
  write_elements m ptr sizes values n = write_elements m ptr' sizes values n.
Proof.
  induction n as [|n IH]; intros H.
  - reflexivity.
  - rewrite !write_elements_S, IH, (H n) by (intros; try apply H; lia).
    reflexivity.
Qed.

Lemma index_memory_ext (self : ArrayExecution) f in_ptr in_ptr' out_ptr out_ptr' m :
  (forall k, (k < input_amount (m_function self))%nat -> in_ptr k = in_ptr' k) ->
  (forall k, (k < output_amount (m_function self))%nat ->
             out_ptr k = out_ptr' k) ->
  index_memory self f in_ptr out_ptr m = index_memory self f in_ptr' out_ptr' m.
Proof.
  intros Hi Ho. unfold index_memory.
  rewrite (write_elements_ext _ out_ptr out_ptr') by exact Ho.
  f_equal. f_equal. apply map_ext_in. intros k Hk. apply in_seq in Hk.
  rewrite Hi by lia. reflexivity.
Qed.

(** Where no offset product wraps, the boxed strategy and the strided
    pointers address the same elements. *)
Lemma boxed_memory_exact (self : ArrayExecution) f input_buffers output_buffers
    indices m :
  length (m_input_sizes self) = input_amount (m_function self) ->
  length (m_output_sizes self) = output_amount (m_function self) ->
  (forall index element_size,
      In index indices ->
      In element_size (m_input_sizes self ++ m_output_sizes self) ->
      0 <= index * element_size < uint_modulus) ->
  boxed_memory self f input_buffers output_buffers indices m
  = compiled_memory self f input_buffers output_buffers indices m.
Proof.
  intros His Hos. revert m.
  induction indices as [|index indices IH]; intros m H.
  - reflexivity.
  - unfold boxed_memory, compiled_memory. simpl.
    fold (boxed_memory self f input_buffers output_buffers indices).
    fold (compiled_memory self f input_buffers output_buffers indices).
    rewrite (index_memory_ext self f _
               (spec_element_ptr input_buffers (m_input_sizes self) index) _
               (spec_element_ptr output_buffers (m_output_sizes self) index)).
    + apply IH. intros i sz Hi Hsz. apply H; [right|]; assumption.
    + intros k Hk. apply element_ptr_exact. apply H; [left; reflexivity|].
      apply in_or_app. left. apply nth_In. lia.
    + intros k Hk. apply element_ptr_exact. apply H; [left; reflexivity|].
      apply in_or_app. right. apply nth_In. lia.
Qed.

Lemma same_size_table (s1 s2 : ArrayExecution) :
  sizes_recorded s1 -> sizes_recorded s2 ->
  m_function s1 = m_function s2 -> s1 = s2.
Proof.
  intros [Hi1 Ho1] [Hi2 Ho2] Hfn.
  destruct s1 as [fn1 in1 out1], s2 as [fn2 in2 out2]. simpl in *. subst fn2.
  rewrite Hi1 in Hi2. rewrite Ho1 in Ho2.
  inversion Hi2. inversion Ho2. reflexivity.
Qed.

(** ** Repeated execution *)


(** ** Buffer accesses of the boxed strategy *)

Lemma accesses_app t1 t2 : accesses (t1 ++ t2) = accesses t1 ++ accesses t2.
Proof. unfold accesses. apply filter_app. Qed.

Lemma accesses_element_reads ptr sizes n :
  accesses (element_reads ptr sizes n) = element_reads ptr sizes n.
Proof.
  unfold accesses, element_reads.
  induction (seq 0 n) as [|k ks IH]; simpl; [reflexivity|].
  rewrite IH. reflexivity.
Qed.

Lemma accesses_element_writes ptr sizes n :
  accesses (element_writes ptr sizes n) = element_writes ptr sizes n.
Proof.
  unfold accesses, element_writes.
  induction (seq 0 n) as [|k ks IH]; simpl; [reflexivity|].
  rewrite IH. reflexivity.
Qed.

Lemma accesses_tuple_call_events (self : ArrayExecution) input_buffers
    output_buffers index call :
  accesses (tuple_call_events self input_buffers output_buffers index call)
  = element_accesses self input_buffers output_buffers index.
Proof.
  unfold tuple_call_events, element_accesses.
  rewrite !accesses_app, accesses_element_reads, accesses_element_writes.
  reflexivity.
Qed.

Lemma accesses_blocks (self : ArrayExecution) input_buffers output_buffers
    indices calls :
  length calls = length indices ->
  accesses
    (flat_map (fun ic => tuple_call_events self input_buffers output_buffers
                           (fst ic) (snd ic))
       (combine indices calls))
  = flat_map (element_accesses self input_buffers output_buffers) indices.
Proof.
  revert calls. induction indices as [|index indices IH];
    intros [|call calls] H; simpl in *; try discriminate; auto.
  rewrite accesses_app, accesses_tuple_call_events, IH by lia. reflexivity.
Qed.

Lemma element_reads_ext ptr ptr' sizes n :
  (forall k, (k < n)%nat -> ptr k = ptr' k) ->
  element_reads ptr sizes n = element_reads ptr' sizes n.
Proof.
  intros H. unfold element_reads. apply map_ext_in. intros k Hk.
  apply in_seq in Hk. rewrite H by lia. reflexivity.
Qed.

Lemma element_writes_ext ptr ptr' sizes n :
  (forall k, (k < n)%nat -> ptr k = ptr' k) ->
  element_writes ptr sizes n = element_writes ptr' sizes n.
Proof.
  intros H. unfold element_writes. apply map_ext_in. intros k Hk.
  apply in_seq in Hk. rewrite H by lia. reflexivity.
Qed.

Lemma element_accesses_exact (self : ArrayExecution) input_buffers
    output_buffers index :
  length (m_input_sizes self) = input_amount (m_function self) ->
  length (m_output_sizes self) = output_amount (m_function self) ->
  (forall element_size,
      In element_size (m_input_sizes self ++ m_output_sizes self) ->
      0 <= index * element_size < uint_modulus) ->
  element_accesses self input_buffers output_buffers index
  = spec_element_accesses self input_buffers output_buffers index.
Proof.
  intros His Hos H. unfold element_accesses, spec_element_accesses.
  f_equal.
  - apply element_reads_ext. intros k Hk. apply element_ptr_exact.
    apply H. apply in_or_app. left. apply nth_In. lia.
  - apply element_writes_ext. intros k Hk. apply element_ptr_exact.
    apply H. apply in_or_app. right. apply nth_In. lia.
Qed.

Lemma flat_map_agree {A B} (g h : A -> list B) xs :
  (forall x, In x xs -> g x = h x) -> flat_map g xs = flat_map h xs.
Proof.
  induction xs as [|x xs IH]; intros H; simpl; [reflexivity|].
  rewrite (H x) by (left; reflexivity). rewrite IH; [reflexivity|].
  intros y Hy. apply H. right. exact Hy.
Qed.

(** A call with the wrong number of buffers stops at its assertions. *)
Lemma TupleCallArrayExecution_call_arity (self : ArrayExecution) indices
    input_buffers output_buffers (w : World) :
  length input_buffers <> input_amount (m_function self) \/
  length output_buffers <> output_amount (m_function self) ->
  TupleCallArrayExecution_call self indices input_buffers output_buffers w
  = (AssertionFailed, w).
Proof.
  intros H. unfold TupleCallArrayExecution_call.
  destruct (Nat.eqb_spec (input_amount (m_function self))
              (length input_buffers)) as [Hi|Hi].
  - destruct (Nat.eqb_spec (output_amount (m_function self))
                (length output_buffers)) as [Ho|Ho].
    + destruct H as [H|H]; congruence.
    + reflexivity.
  - reflexivity.
Qed.

(** ** Buffer accesses of the compiled strategy *)

Lemma accesses_native_blocks (self : ArrayExecution) input_buffers
    output_buffers indices calls :
  length calls = length indices ->
  accesses
    (flat_map (fun ic => native_call_events self input_buffers output_buffers
                           (fst ic) (snd ic))
       (combine indices calls))
  = flat_map (spec_element_accesses self input_buffers output_buffers) indices.
Proof.
  revert calls. induction indices as [|index indices IH];
    intros [|call calls] H; simpl in *; try discriminate; auto.
  rewrite accesses_app, IH by lia. f_equal.
  unfold native_call_events, spec_element_accesses.
  rewrite !accesses_app, accesses_element_reads, accesses_element_writes.
  reflexivity.
Qed.

(** A call of the compiled strategy with matching buffer counts returns,
    and its buffer accesses are, for each index in order, one load of the
    element at byte offset [index * size] of every input buffer and one
    store of the element at byte offset [index * size] of every output
    buffer. *)
Lemma LLVMArrayExecution_call_accesses
    (jit_fault : string -> option Failure) (function : Function)
    (w0 w0' : World) (self : LLVMArrayExecution)
    (indices input_buffers output_buffers : list Z) (w : World) :
  LLVMArrayExecution_new jit_fault function w0 = (Returned self, w0') ->
  (forall b native values ctx,
      body_LLVMBuildIR function = Some b ->
      build_function b = Built native ->
      length (fst (native values ctx)) = output_amount function) ->
  length input_buffers = input_amount function ->
  length output_buffers = output_amount function ->
  exists w',
    LLVMArrayExecution_call self indices input_buffers output_buffers w
    = (Returned tt, w') /\
    accesses (trace w')
    = accesses (trace w)
      ++ flat_map (spec_element_accesses (base self) input_buffers
                     output_buffers) indices.
Proof.
  intros Hnew Hty Hib Hob.
  apply LLVMArrayExecution_new_inv in Hnew.
  destruct Hnew
    as (Hfn & Hsz & Hii & Hoi & (b & native & Hb & Hbuild & Hptr) & _).
  destruct (sizes_recorded_inv (base self) Hsz)
    as (in_infos & out_infos & Ei & Eo & Hmi & Hmo & His & Hos).
  rewrite <- Hfn in Hib, Hob, Hii, Hoi.
  unfold LLVMArrayExecution_call. rewrite Hptr. unfold body.
  unfold bind at 1. unfold ret at 1. cbn [function_ptr].
  unfold bind at 1. unfold emit at 1.
  match goal with
  | |- context [emitted_function ?s ?ii ?oi ?nf ?c ?ix ?ib ?ob ?wa] =>
      destruct (emitted_function_spec s ii oi nf c ix ib ob wa
                  Hib His Hob Hos)
        as (w' & Hrun & _ & (calls & Hlen & Htrace) & _)
  end.
  - apply (all_extensions_length _ _ _ Hii).
  - apply (all_extensions_length _ _ _ Hoi).
  - intros values ctx. rewrite Hfn. apply (Hty b native); assumption.
  - rewrite Nat2Z.id. lia.
  - exists w'. split; [exact Hrun|].
    rewrite Nat2Z.id in Hlen. rewrite Nat2Z.id, firstn_all in Htrace.
    rewrite Htrace. cbn [trace]. rewrite !accesses_app. simpl.
    rewrite accesses_native_blocks by exact Hlen.
    rewrite app_nil_r. reflexivity.
Qed.

(** On lists.  For a boxed strategy object given by its constructor and
    an index sequence in which no product [index * element size] reaches
    [2^32]: the size table is the positional element sizes of the
    descriptor's types; the buffer accesses of a call that returns are, for
    each index in order, one read of the element at byte offset
    [index * input_size[k]] of every input buffer [k] and then one write of
    the element at byte offset [index * output_size[k]] of every output
    buffer [k], and nothing else; a call that stops early has made a prefix
    of these accesses; memory outside the output elements of the indices is
    unchanged; with no indices a call with matching buffer counts returns
    and leaves memory as it was.  A call of the compiled strategy built from
    the same descriptor, with matching buffer counts and a body that returns
    one value per output, returns with exactly these accesses, whatever the
    indices. *)
Lemma element_accesses_on_lists
    (function : Function) (self : ArrayExecution) (w0 w0' : World)
    (indices input_buffers output_buffers : list Z) (w : World) o w' :
  TupleCallArrayExecution_new function w0 = (Returned self, w0') ->
  (forall index element_size,
      In index indices ->
      In element_size (m_input_sizes self ++ m_output_sizes self) ->
      0 <= index * element_size < uint_modulus) ->
  TupleCallArrayExecution_call self indices input_buffers output_buffers w
  = (o, w') ->
  sizes_recorded self /\
  (exists l,
      accesses (trace w') = accesses (trace w) ++ l /\
      prefix l (flat_map (spec_element_accesses self input_buffers
                            output_buffers) indices) /\
      (o = Returned tt ->
       l = flat_map (spec_element_accesses self input_buffers output_buffers)
             indices)) /\
  (forall a,
      (forall index k,
          In index indices -> (k < output_amount (m_function self))%nat ->
          ~ in_region
              (spec_element_ptr output_buffers (m_output_sizes self) index k)
              (nth k (m_output_sizes self) 0) a) ->
      memory w' a = memory w a) /\
  (indices = [] ->
   length input_buffers = input_amount (m_function self) ->
   length output_buffers = output_amount (m_function self) ->
   o = Returned tt /\ memory w' = memory w /\
   accesses (trace w') = accesses (trace w)) /\
  (forall (jit_fault : string -> option Failure)
          (compiled : LLVMArrayExecution) (wc wc' wx : World),
      LLVMArrayExecution_new jit_fault function wc = (Returned compiled, wc') ->
      (forall b native values ctx,
          body_LLVMBuildIR function = Some b ->
          build_function b = Built native ->
          length (fst (native values ctx)) = output_amount function) ->
      length input_buffers = input_amount function ->
      length output_buffers = output_amount function ->
      exists wx',
        LLVMArrayExecution_call compiled indices input_buffers output_buffers
          wx = (Returned tt, wx') /\
        accesses (trace wx')
        = accesses (trace wx)
          ++ flat_map (spec_element_accesses self input_buffers
                         output_buffers) indices).
Proof.
  intros Hnew Hsmall Hcall.
  apply TupleCallArrayExecution_new_inv in Hnew.
  destruct Hnew as (_ & Hfn & Hsz & Hhas).
  split; [exact Hsz|].
  assert (Hcompiled :
    forall (jit_fault : string -> option Failure)
           (compiled : LLVMArrayExecution) (wc wc' wx : World),
      LLVMArrayExecution_new jit_fault function wc = (Returned compiled, wc') ->
      (forall b native values ctx,
          body_LLVMBuildIR function = Some b ->
          build_function b = Built native ->
          length (fst (native values ctx)) = output_amount function) ->
      length input_buffers = input_amount function ->
      length output_buffers = output_amount function ->
      exists wx',
        LLVMArrayExecution_call compiled indices input_buffers output_buffers
          wx = (Returned tt, wx') /\
        accesses (trace wx')
        = accesses (trace wx)
          ++ flat_map (spec_element_accesses self input_buffers
                         output_buffers) indices).
  { intros jit_fault compiled wc wc' wx Hc Hty Hib Hob.
    destruct (LLVMArrayExecution_call_accesses jit_fault function wc wc'
                compiled indices input_buffers output_buffers wx Hc Hty
                Hib Hob) as (wx' & Hrun & Hacc).
    apply LLVMArrayExecution_new_inv in Hc.
    destruct Hc as (Hfn' & Hsz' & _).
    rewrite (same_size_table (base compiled) self Hsz' Hsz) in Hacc
      by congruence.
    exists wx'. auto. }
  match goal with
  | |- ?B /\ ?C /\ ?D /\ _ =>
      enough (Hmain : B /\ C /\ D)
        by (destruct Hmain as (H1 & H2 & H3);
            split; [exact H1|]; split; [exact H2|];
            split; [exact H3 | exact Hcompiled])
  end.
  clear Hcompiled.
  destruct (sizes_recorded_inv self Hsz)
    as (in_infos & out_infos & Ei & Eo & Hmi & Hmo & His & Hos).
  assert (Hexact : forall xs,
            (forall x, In x xs -> In x indices) ->
            flat_map (element_accesses self input_buffers output_buffers) xs
            = flat_map (spec_element_accesses self input_buffers
                          output_buffers) xs).
  { intros xs Hsub. apply flat_map_agree. intros x Hx.
    apply element_accesses_exact; auto. }
  destruct (Nat.eq_dec (length input_buffers) (input_amount (m_function self)))
    as [Hib|Hib];
    [destruct (Nat.eq_dec (length output_buffers)
                 (output_amount (m_function self))) as [Hob|Hob]|].
  2, 3: rewrite TupleCallArrayExecution_call_arity in Hcall by auto;
    inversion Hcall; subst o w'; repeat split; auto;
    [ exists []; rewrite app_nil_r; repeat split;
      [ eexists; reflexivity | discriminate ]
    | intros; contradiction ].
  rewrite <- Hfn in Hhas.
  destruct (body_TupleCall (m_function self)) as [b|] eqn:Hb; [|discriminate].
  rewrite (TupleCallArrayExecution_call_unfold self b in_infos out_infos
             input_buffers output_buffers Ei Eo Hb Hib Hob) in Hcall.
  unfold bind in Hcall.
  match type of Hcall with
  | context [for_each indices (?fi, ?fo) ?bd ?wa] =>
      destruct (for_each indices (fi, fo) bd wa) as [o1 w1] eqn:Hloop;
      pose proof (tuple_loop_spec self b input_buffers output_buffers indices
                    fi fo wa o1 w1 Hib His Hob Hos Hmi Hmo Hloop)
        as (Hheld & Hframe & Hlog)
  end.
  cbn [memory trace] in Hframe, Hlog.
  assert (Hw' : w' = w1 /\ forget o = forget o1).
  { destruct o1; inversion Hcall; subst; auto. }
  destruct Hw' as (-> & Ho).
  assert (Hallocs : forall t,
            accesses ((trace w ++
                       [EvAllocTuple InputFrame (input_amount (m_function self));
                        EvAllocTuple OutputFrame
                          (output_amount (m_function self))]) ++ t)
            = accesses (trace w) ++ accesses t).
  { intros t. rewrite !accesses_app. simpl. rewrite app_nil_r. reflexivity. }
  split; [|split].
  - destruct o1 as [frames| |e|].
    + destruct Hlog as (_ & _ & calls & Hlen & Htrace).
      exists (flat_map (spec_element_accesses self input_buffers
                          output_buffers) indices).
      rewrite Htrace, Hallocs, accesses_blocks by exact Hlen.
      rewrite Hexact by auto. repeat split. exists []. rewrite app_nil_r.
      reflexivity.
    + destruct Hlog as (pre & x & post & calls & partial & rest & call
                        & Hxs & Hlen & Htrace & Hblock).
      exists (flat_map (spec_element_accesses self input_buffers
                          output_buffers) pre ++ accesses partial).
      rewrite Htrace, Hallocs, accesses_app, accesses_blocks by exact Hlen.
      rewrite Hexact
        by (intros y Hy; rewrite Hxs; apply in_or_app; left; exact Hy).
      repeat split.
      * exists (accesses rest
                ++ flat_map (spec_element_accesses self input_buffers
                               output_buffers) post).
        rewrite Hxs at 1. rewrite flat_map_app. simpl.
        rewrite <- (element_accesses_exact self input_buffers output_buffers x)
          by (auto; intros sz Hsz'; apply Hsmall; auto; rewrite Hxs;
              apply in_or_app; right; left; reflexivity).
        rewrite <- (accesses_tuple_call_events self input_buffers
                      output_buffers x call), Hblock, accesses_app.
        rewrite <- !app_assoc. reflexivity.
      * intros Hr. subst o. discriminate.
    + destruct Hlog as (pre & x & post & calls & partial & rest & call
                        & Hxs & Hlen & Htrace & Hblock).
      exists (flat_map (spec_element_accesses self input_buffers
                          output_buffers) pre ++ accesses partial).
      rewrite Htrace, Hallocs, accesses_app, accesses_blocks by exact Hlen.
      rewrite Hexact
        by (intros y Hy; rewrite Hxs; apply in_or_app; left; exact Hy).
      repeat split.
      * exists (accesses rest
                ++ flat_map (spec_element_accesses self input_buffers
                               output_buffers) post).
        rewrite Hxs at 1. rewrite flat_map_app. simpl.
        rewrite <- (element_accesses_exact self input_buffers output_buffers x)
          by (auto; intros sz Hsz'; apply Hsmall; auto; rewrite Hxs;
              apply in_or_app; right; left; reflexivity).
        rewrite <- (accesses_tuple_call_events self input_buffers
                      output_buffers x call), Hblock, accesses_app.
        rewrite <- !app_assoc. reflexivity.
      * intros Hr. subst o. discriminate.
    + destruct Hlog as (pre & x & post & calls & partial & rest & call
                        & Hxs & Hlen & Htrace & Hblock).
      exists (flat_map (spec_element_accesses self input_buffers
                          output_buffers) pre ++ accesses partial).
      rewrite Htrace, Hallocs, accesses_app, accesses_blocks by exact Hlen.
      rewrite Hexact
        by (intros y Hy; rewrite Hxs; apply in_or_app; left; exact Hy).
      repeat split.
      * exists (accesses rest
                ++ flat_map (spec_element_accesses self input_buffers
                               output_buffers) post).
        rewrite Hxs at 1. rewrite flat_map_app. simpl.
        rewrite <- (element_accesses_exact self input_buffers output_buffers x)
          by (auto; intros sz Hsz'; apply Hsmall; auto; rewrite Hxs;
              apply in_or_app; right; left; reflexivity).
        rewrite <- (accesses_tuple_call_events self input_buffers
                      output_buffers x call), Hblock, accesses_app.
        rewrite <- !app_assoc. reflexivity.
      * intros Hr. subst o. discriminate.
  - intros a Ha. apply Hframe. intros (index & k & Hin & Hk & Hreg).
    apply (Ha index k Hin Hk).
    rewrite <- element_ptr_exact; [exact Hreg|].
    apply Hsmall; [exact Hin|]. apply in_or_app. right. apply nth_In. lia.
  - intros -> _ _. simpl in Hloop. inversion Hloop; subst o1 w1.
    simpl in Ho. destruct o as [[]| | |]; try discriminate.
    repeat split. simpl. rewrite accesses_app. simpl. apply app_nil_r.
Qed.

(** ** Inversions *)

Lemma copy_in__dynamic_inv t slot src (w : World) t' w' :
  copy_in__dynamic t slot src w = ((Returned t', w') : Outcome Tuple * World) ->
  memory w' = memory w /\
  exists info,
    nth_error (tuple_meta t) slot = Some info /\
    t' = set_slot t slot (Some (mem_read (memory w) src (size info))).
Proof.
  unfold copy_in__dynamic, bind, at_index.
  destruct (nth_error (tuple_meta t) slot) as [info|]; [|discriminate].
  unfold ret, get_memory, emit. simpl. intros H. inversion H; subst.
  split; [reflexivity|]. exists info. auto.
Qed.



(** ** Failure of the body *)


(** ** Order of processing *)

Lemma mem_read_ext m m' addr len :
  (forall a, in_region addr len a -> m a = m' a) ->
  mem_read m addr len = mem_read m' addr len.
Proof.
  intros H. unfold mem_read. apply map_ext_in. intros j Hj.
  apply in_seq in Hj. apply H. unfold in_region. lia.
Qed.

Lemma mem_read_write_same m addr len v :
  mem_read (mem_write m addr len v) addr len = element_bytes len v.
Proof.
  unfold mem_read, element_bytes, mem_write. apply map_ext_in. intros j Hj.
  apply in_seq in Hj.
  destruct (Z.leb_spec addr (addr + Z.of_nat j)); [|lia].
  destruct (Z.ltb_spec (addr + Z.of_nat j) (addr + len)); [|lia].
  simpl. replace (addr + Z.of_nat j - addr) with (Z.of_nat j) by lia.
  rewrite Nat2Z.id. reflexivity.
Qed.

(** The element written for slot [k] is still there after the later slots
    have been written, when their elements do not overlap it. *)
Lemma write_elements_read m ptr sizes values n k :
  (k < n)%nat ->
  (forall a k', in_region (ptr k) (nth k sizes 0) a ->
                (k < k' < n)%nat ->
                ~ in_region (ptr k') (nth k' sizes 0) a) ->
  mem_read (write_elements m ptr sizes values n) (ptr k) (nth k sizes 0)
  = element_bytes (nth k sizes 0) (nth k values []).
Proof.
  induction n as [|n IH]; intros Hk Hdisj; [lia|].
  rewrite write_elements_S.
  destruct (Nat.eq_dec k n) as [->|Hne].
  - apply mem_read_write_same.
  - rewrite (mem_read_ext _ (write_elements m ptr sizes values n)).
    + apply IH; [lia|]. intros a k' Ha Hk'. apply Hdisj; [exact Ha | lia].
    + intros a Ha. apply mem_write_outside. apply Hdisj; [exact Ha | lia].
Qed.

(** ** What a computation appends to the trace *)

Lemma logs_only_ret ok {A} (a : A) : logs_only ok (ret a : M A).
Proof.
  intros w o w' H. inversion H; subst. exists []. rewrite app_nil_r. auto.
Qed.

Lemma logs_only_stop ok {A} (o : Outcome A) : logs_only ok (stop o : M A).
Proof.
  intros w o' w' H. inversion H; subst. exists []. rewrite app_nil_r. auto.
Qed.

Lemma logs_only_bind ok {A B} (c : M A) (k : A -> M B) :
  logs_only ok c -> (forall a, logs_only ok (k a)) -> logs_only ok (bind c k).
Proof.
  intros Hc Hk w o w' H. unfold bind in H.
  destruct (c w) as [o1 w1] eqn:Hcw.
  destruct (Hc w o1 w1 Hcw) as (l1 & Ht1 & Hok1).
  destruct o1 as [a| |e|];
    [| inversion H; subst; exists l1; auto ..].
  destruct (Hk a w1 o w' H) as (l2 & Ht2 & Hok2).
  exists (l1 ++ l2). rewrite Ht2, Ht1, <- app_assoc.
  rewrite forallb_app, Hok1, Hok2. auto.
Qed.

Lemma logs_only_emit ok e : ok e = true -> logs_only ok (emit e : M unit).
Proof.
  intros He w o w' H. inversion H; subst. exists [e]. simpl.
  rewrite He. auto.
Qed.

Lemma logs_only_get_memory ok : logs_only ok (get_memory : M Memory).
Proof.
  intros w o w' H. inversion H; subst. exists []. rewrite app_nil_r. auto.
Qed.

Lemma logs_only_put_memory ok m : logs_only ok (put_memory m : M unit).
Proof.
  intros w o w' H. inversion H; subst. exists []. simpl.
  rewrite app_nil_r. auto.
Qed.

Lemma logs_only_get_context ok :
  logs_only ok (get_context : M ExecutionContext).
Proof.
  intros w o w' H. inversion H; subst. exists []. rewrite app_nil_r. auto.
Qed.

Lemma logs_only_put_context ok c : logs_only ok (put_context c : M unit).
Proof.
  intros w o w' H. inversion H; subst. exists []. simpl.
  rewrite app_nil_r. auto.
Qed.

Lemma logs_only_at_index ok {A} (xs : list A) i :
  logs_only ok (at_index xs i : M A).
Proof.
  unfold at_index. destruct (nth_error xs i);
    [apply logs_only_ret | apply logs_only_stop].
Qed.

Lemma logs_only_for_each ok {A S} (xs : list A) (body : A -> S -> M S) :
  (forall x acc, logs_only ok (body x acc)) ->
  forall acc, logs_only ok (for_each xs acc body).
Proof.
  intros Hbody. induction xs as [|x xs IH]; intros acc; simpl.
  - apply logs_only_ret.
  - apply logs_only_bind; [apply Hbody | exact IH].
Qed.

(** ** Construction and invocation of the compiled strategy *)






(** C8 (amended).  [compile] gives the LLVM context it acquired back when
    code generation and JIT compilation succeed and it returns; when either
    fails, the failure leaves [compile] before the release and the context
    stays acquired. *)
Theorem C8_context_released_when_compile_returns
    (jit_fault : string -> option Failure) (self : LLVMArrayExecution)
    (w : World) :
  match compile jit_fault self w with
  | (Returned _, w') =>
      llvm_contexts_held w' = llvm_contexts_held w /\
      exists events,
        trace w' = trace w ++ [EvAquireContext] ++ events
                     ++ [EvReleaseContext] /\
        ~ In EvReleaseContext events
  | (Raised _, w') =>
      llvm_contexts_held w' = S (llvm_contexts_held w) /\
      exists events,
        trace w' = trace w ++ [EvAquireContext] ++ events /\
        ~ In EvReleaseContext events
  | _ => True
  end.
Proof.
  rewrite compile_eq.
  destruct (body_LLVMBuildIR (m_function (base self))) as [b|]; [|exact I].
  destruct (build_function b) as [native|e].
  - destruct (jit_fault _) as [e|]; simpl; (split; [reflexivity|]).
    + eexists. split; [reflexivity|].
      simpl. intros [H|[H|[H|[H|[]]]]]; discriminate.
    + eexists [_; _; _; _]. split; [reflexivity|].
      simpl. intros [H|[H|[H|[H|[]]]]]; discriminate.
  - simpl. split; [reflexivity|]. eexists. split; [reflexivity|].
    simpl. intros [H|[H|[H|[]]]]; discriminate.
Qed.

End Properties.

(** * Concrete runs *)




(** C8, as stated, fails: when JIT compilation fails, and when code
    generation fails, [compile] is left with the LLVM context still
    acquired. *)
Lemma C8_counterexample :
  let jit_failure :=
    compile Example.jit_broken Example.swap_uncompiled Example.world0 in
  let codegen_failure :=
    LLVMArrayExecution_new Example.jit_ok Example.broken_fn Example.world0 in
  llvm_contexts_held Example.world0 = 0%nat /\
  fst jit_failure = Raised "jit"%string /\
  llvm_contexts_held (snd jit_failure) = 1%nat /\
  ~ In EvReleaseContext (trace (snd jit_failure)) /\
  forget (fst codegen_failure) = Raised "no code"%string /\
  llvm_contexts_held (snd codegen_failure) = 1%nat /\
  ~ In EvReleaseContext (trace (snd codegen_failure)).
Proof.
  cbv zeta. repeat split; try reflexivity.
  - vm_compute. intros [H|[H|[H|[H|[H|[]]]]]]; discriminate.
  - vm_compute. intros [H|[H|[H|[H|[]]]]]; discriminate.
Qed.

(** C3: the compiled strategy does not check the buffer counts.  With no
    input buffer for the one input of the function, [call] of the compiled
    strategy invokes the compiled function, which loads a buffer pointer
    past the end of the empty pointer array; the boxed strategy stops at its
    assertion, before anything else happens. *)
Theorem C3_compiled_call_does_not_assert_arity :
  fst (LLVMArrayExecution_new Example.jit_ok Example.swap_fn Example.world0)
    = Returned Example.swap_compiled /\
  input_amount Example.swap_fn = 1%nat /\
  LLVMArrayExecution_call Example.swap_compiled [0] [] [2000] Example.world0
    = (Undefined,
       {| memory := Example.memory0; context := 0%nat;
          llvm_contexts_held := 0%nat;
          trace := [EvInvokeCompiled 1 [0] [] [2000]] |}) /\
  TupleCallArrayExecution_call Example.swap_sizes [0] [] [2000] Example.world0
    = (AssertionFailed, Example.world0).
Proof.
  repeat split; reflexivity.
Qed.

(** * Further properties *)

Section Further.

Context {ExecutionContext Failure : Type}.
Local Abbreviation M := (@M ExecutionContext Failure).
Local Abbreviation World := (@World ExecutionContext).
Local Abbreviation Outcome := (@Outcome Failure).
Local Abbreviation Function := (@Function ExecutionContext Failure).
Local Abbreviation ArrayExecution := (@ArrayExecution ExecutionContext Failure).
Local Abbreviation LLVMArrayExecution :=
  (@LLVMArrayExecution ExecutionContext Failure).
Local Abbreviation TupleCallBody := (@TupleCallBody ExecutionContext Failure).

(** ** Construction *)

Lemma all_extensions_Some {T} (ext : Type_ -> option T) types :
  Forall (fun t => ext t <> None) types ->
  exists infos,
    all_extensions ext types = Some infos /\
    map ext types = map Some infos.
Proof.
  induction 1 as [|t types Ht _ IH].
  - exists []. auto.
  - destruct IH as (infos & Hall & Hmap). simpl.
    destruct (ext t) as [info|]; [|contradiction Ht; reflexivity].
    rewrite Hall. exists (info :: infos). simpl. rewrite Hmap. auto.
Qed.

Lemma all_extensions_None {T} (ext : Type_ -> option T) types :
  Exists (fun t => ext t = None) types -> all_extensions ext types = None.
Proof.
  induction 1 as [t types Ht | t types _ IH]; simpl.
  - rewrite Ht. reflexivity.
  - rewrite IH. destruct (ext t); reflexivity.
Qed.

Lemma ArrayExecution_new_sized (function : Function) (w : World) :
  Forall (fun t => ext_CPPTypeInfo t <> None)
    (input_types function ++ output_types function) ->
  exists self,
    ArrayExecution_new function w = (Returned self, w) /\
    m_function self = function /\
    map (fun t => option_map size (ext_CPPTypeInfo t)) (input_types function)
    = map Some (m_input_sizes self) /\
    map (fun t => option_map size (ext_CPPTypeInfo t)) (output_types function)
    = map Some (m_output_sizes self).
Proof.
  intros H. apply Forall_app in H. destruct H as [Hin Hout].
  destruct (all_extensions_Some ext_CPPTypeInfo _ Hin)
    as (ins & Hins & Hmi).
  destruct (all_extensions_Some ext_CPPTypeInfo _ Hout)
    as (outs & Houts & Hmo).
  eexists. unfold ArrayExecution_new, bind.
  rewrite append_sizes_eq, Hins, append_sizes_eq, Houts.
  split; [reflexivity|]. cbn [m_function m_input_sizes m_output_sizes].
  split; [reflexivity|].
  rewrite <- (map_map ext_CPPTypeInfo (option_map size)), Hmi.
  rewrite <- (map_map ext_CPPTypeInfo (option_map size)
                (output_types function)), Hmo.
  rewrite !map_map. split; reflexivity.
Qed.

(** X1.  The base constructor returns exactly when every input and every
    output type of the descriptor has a [CPPTypeInfo]; it then leaves the
    world as it found it, keeps the descriptor, and its two size tables
    list, position by position, the [size()] of the types.  When some type
    has no [CPPTypeInfo] it stops by assertion, again without any effect. *)
Theorem X1_base_constructor_outcome (function : Function) (w : World) :
  (Forall (fun t => ext_CPPTypeInfo t <> None)
     (input_types function ++ output_types function) ->
   exists self,
     ArrayExecution_new function w = (Returned self, w) /\
     m_function self = function /\
     map (fun t => option_map size (ext_CPPTypeInfo t)) (input_types function)
     = map Some (m_input_sizes self) /\
     map (fun t => option_map size (ext_CPPTypeInfo t)) (output_types function)
     = map Some (m_output_sizes self)) /\
  (Exists (fun t => ext_CPPTypeInfo t = None)
     (input_types function ++ output_types function) ->
   ArrayExecution_new function w = (AssertionFailed, w)).
Proof.
  split.
  - apply ArrayExecution_new_sized.
  - intros H. apply Exists_app in H.
    unfold ArrayExecution_new, bind. rewrite append_sizes_eq.
    destruct H as [H|H].
    + rewrite (all_extensions_None _ _ H). reflexivity.
    + destruct (all_extensions ext_CPPTypeInfo (input_types function));
        [|reflexivity].
      rewrite append_sizes_eq, (all_extensions_None _ _ H). reflexivity.
Qed.

(** X2.  For a descriptor whose types all have a [CPPTypeInfo], each
    strategy's constructor stops by assertion, without any effect, when the
    descriptor has no body of the kind the strategy needs; the compiled
    strategy does so before it acquires the LLVM context or generates any
    code.  The boxed constructor returns whenever the boxed body is there. *)
Theorem X2_constructors_assert_body_kind
    (jit_fault : string -> option Failure) (function : Function) (w : World) :
  Forall (fun t => ext_CPPTypeInfo t <> None)
    (input_types function ++ output_types function) ->
  (body_TupleCall function = None ->
   TupleCallArrayExecution_new function w = (AssertionFailed, w)) /\
  (body_LLVMBuildIR function = None ->
   LLVMArrayExecution_new jit_fault function w = (AssertionFailed, w)) /\
  (body_TupleCall function <> None ->
   exists self, TupleCallArrayExecution_new function w = (Returned self, w)).
Proof.
  intros Hsized.
  destruct (ArrayExecution_new_sized function w Hsized)
    as (self & Hnew & Hfn & _).
  repeat split.
  - intros Hb. unfold TupleCallArrayExecution_new.
    rewrite (bind_Returned _ _ _ _ _ Hnew). unfold bind.
    rewrite Hfn, Hb. reflexivity.
  - intros Hb. unfold LLVMArrayExecution_new.
    rewrite (bind_Returned _ _ _ _ _ Hnew). unfold bind at 1.
    rewrite Hfn, Hb. reflexivity.
  - intros Hb. exists self. unfold TupleCallArrayExecution_new.
    rewrite (bind_Returned _ _ _ _ _ Hnew). unfold bind.
    rewrite Hfn. destruct (body_TupleCall function); [reflexivity|].
    contradiction Hb. reflexivity.
Qed.

(** X3.  Whatever their outcome, the constructors never touch buffer memory
    or the execution context: the boxed constructor leaves the whole world
    as it found it, the compiled one changes nothing but the trace and the
    count of LLVM contexts held. *)
Theorem X3_constructors_leave_memory_alone
    (jit_fault : string -> option Failure) (function : Function) (w : World) :
  snd (TupleCallArrayExecution_new function w) = w /\
  memory (snd (LLVMArrayExecution_new jit_fault function w)) = memory w /\
  context (snd (LLVMArrayExecution_new jit_fault function w)) = context w.
Proof.
  assert (Hbase : forall o w', ArrayExecution_new function w = (o, w') -> w' = w).
  { intros o w'. unfold ArrayExecution_new, bind. rewrite append_sizes_eq.
    destruct (all_extensions ext_CPPTypeInfo (input_types function));
      [|intros H; inversion H; reflexivity].
    rewrite append_sizes_eq.
    destruct (all_extensions ext_CPPTypeInfo (output_types function));
      intros H; inversion H; reflexivity. }
  destruct (ArrayExecution_new function w) as [o w1] eqn:Hnew.
  pose proof (Hbase o w1 eq_refl) as ->.
  split.
  - unfold TupleCallArrayExecution_new, bind. rewrite Hnew.
    destruct o as [self| |e|]; try reflexivity.
    destruct (has_body (body_TupleCall (m_function self))); reflexivity.
  - assert (H : forall o' w',
               LLVMArrayExecution_new jit_fault function w = (o', w') ->
               memory w' = memory w /\ context w' = context w).
    { intros o' w'. unfold LLVMArrayExecution_new. unfold bind at 1.
      rewrite Hnew.
      destruct o as [self| |e|];
        try (intros H; inversion H; split; reflexivity).
      unfold bind at 1.
      destruct (has_body (body_LLVMBuildIR (m_function self)));
        [|intros H; inversion H; split; reflexivity].
      simpl BLI_assert. unfold ret at 1.
      unfold bind at 1. rewrite extensions_LLVMTypeInfo_eq.
      destruct (all_extensions ext_LLVMTypeInfo
                  (input_types (m_function self)));
        [|intros H; inversion H; split; reflexivity].
      unfold bind at 1. rewrite extensions_LLVMTypeInfo_eq.
      destruct (all_extensions ext_LLVMTypeInfo
                  (output_types (m_function self)));
        [|intros H; inversion H; split; reflexivity].
      rewrite compile_eq. cbn [base].
      destruct (body_LLVMBuildIR (m_function self)) as [b|];
        [|intros H; inversion H; split; reflexivity].
      destruct (build_function b);
        [|intros H; inversion H; split; reflexivity].
      destruct (jit_fault _); intros H; inversion H; split; reflexivity. }
    destruct (LLVMArrayExecution_new jit_fault function w) as [o' w'] eqn:E.
    apply (H o' w' eq_refl).
Qed.

(** ** Buffer counts of a boxed call *)

(** X4.  On a boxed strategy object given by its constructor, a call whose
    buffer counts do not match the descriptor stops by assertion with the
    world untouched: no frame is allocated, no buffer read, the body not
    called.  A call whose counts match gets past the assertions: whatever
    happens later, it has first allocated the two frames. *)
Theorem X4_boxed_call_checks_buffer_counts
    (function : Function) (self : ArrayExecution) (w0 w0' : World)
    (indices input_buffers output_buffers : list Z) (w : World) :
  TupleCallArrayExecution_new function w0 = (Returned self, w0') ->
  (length input_buffers <> input_amount function \/
   length output_buffers <> output_amount function ->
   TupleCallArrayExecution_call self indices input_buffers output_buffers w
   = (AssertionFailed, w)) /\
  (length input_buffers = input_amount function ->
   length output_buffers = output_amount function ->
   exists rest,
     trace (snd (TupleCallArrayExecution_call self indices input_buffers
                   output_buffers w))
     = trace w
       ++ [EvAllocTuple InputFrame (input_amount function);
           EvAllocTuple OutputFrame (output_amount function)]
       ++ rest).
Proof.
  intros Hnew. apply TupleCallArrayExecution_new_inv in Hnew.
  destruct Hnew as (_ & Hfn & Hsz & Hhas). subst function. split.
  - apply TupleCallArrayExecution_call_arity.
  - intros Hib Hob.
    destruct (sizes_recorded_inv self Hsz)
      as (in_infos & out_infos & Ei & Eo & Hmi & Hmo & His & Hos).
    destruct (body_TupleCall (m_function self)) as [b|] eqn:Hb;
      [|discriminate].
    rewrite (TupleCallArrayExecution_call_unfold self b in_infos out_infos
               input_buffers output_buffers Ei Eo Hb Hib Hob).
    unfold bind.
    match goal with
    | |- context [for_each indices (?fi, ?fo) ?bd ?wa] =>
        destruct (for_each indices (fi, fo) bd wa) as [o1 w1] eqn:Hloop;
        pose proof (tuple_loop_spec self b input_buffers output_buffers
                      indices fi fo wa o1 w1 Hib His Hob Hos Hmi Hmo Hloop)
          as (_ & _ & Hlog)
    end.
    cbn [trace] in Hlog.
    destruct o1 as [frames| |e|].
    + destruct Hlog as (_ & _ & calls & _ & Htrace).
      eexists. cbn [snd ret]. rewrite Htrace, <- app_assoc. reflexivity.
    + destruct Hlog as (pre & x & post & calls & partial & rest & call
                        & _ & _ & Htrace & _).
      eexists. cbn [snd]. rewrite Htrace, <- app_assoc. reflexivity.
    + destruct Hlog as (pre & x & post & calls & partial & rest & call
                        & _ & _ & Htrace & _).
      eexists. cbn [snd]. rewrite Htrace, <- app_assoc. reflexivity.
    + destruct Hlog as (pre & x & post & calls & partial & rest & call
                        & _ & _ & Htrace & _).
      eexists. cbn [snd]. rewrite Htrace, <- app_assoc. reflexivity.
Qed.

(** ** Memory after the indices *)

Lemma in_region_dec addr len a : in_region addr len a \/ ~ in_region addr len a.
Proof. unfold in_region. lia. Qed.

Lemma in_some_region_dec (ptr : nat -> Z) sizes n a :
  (exists k, (k < n)%nat /\ in_region (ptr k) (nth k sizes 0) a) \/
  ~ (exists k, (k < n)%nat /\ in_region (ptr k) (nth k sizes 0) a).
Proof.
  induction n as [|n IH].
  - right. intros (k & Hk & _). lia.
  - destruct (in_region_dec (ptr n) (nth n sizes 0) a) as [H|H].
    + left. exists n. split; [lia | exact H].
    + destruct IH as [(k & Hk & Hr)|IH].
      * left. exists k. split; [lia | exact Hr].
      * right. intros (k & Hk & Hr). destruct (Nat.eq_dec k n) as [->|Hne].
        -- contradiction.
        -- apply IH. exists k. split; [lia | exact Hr].
Qed.

Lemma in_some_element_dec (ptr : Z -> nat -> Z) sizes n (l : list Z) a :
  (exists j k, In j l /\ (k < n)%nat /\ in_region (ptr j k) (nth k sizes 0) a)
  \/ ~ (exists j k, In j l /\ (k < n)%nat /\
                    in_region (ptr j k) (nth k sizes 0) a).
Proof.
  induction l as [|x l IH].
  - right. intros (j & k & [] & _).
  - destruct (in_some_region_dec (ptr x) sizes n a) as [(k & Hk & Hr)|H].
    + left. exists x, k. simpl. auto.
    + destruct IH as [(j & k & Hj & Hk & Hr)|IH].
      * left. exists j, k. simpl. auto.
      * right. intros (j & k & [<-|Hj] & Hk & Hr).
        -- apply H. exists k. auto.
        -- apply IH. exists j, k. auto.
Qed.

(** A byte inside one of the regions written takes its value from the
    writes alone. *)
Lemma write_elements_inside m m' ptr sizes values n a :
  (exists k, (k < n)%nat /\ in_region (ptr k) (nth k sizes 0) a) ->
  write_elements m ptr sizes values n a
  = write_elements m' ptr sizes values n a.
Proof.
  induction n as [|n IH]; intros (k & Hk & Hr); [lia|].
  rewrite !write_elements_S.
  destruct (in_region_dec (ptr n) (nth n sizes 0) a) as [H|H].
  - unfold mem_write. unfold in_region in H.
    destruct (Z.leb_spec (ptr n) a); [|lia].
    destruct (Z.ltb_spec a (ptr n + nth n sizes 0)); [|lia].
    reflexivity.
  - rewrite !mem_write_outside by exact H. apply IH.
    exists k. split; [|exact Hr].
    destruct (Nat.eq_dec k n) as [->|Hne]; [contradiction | lia].
Qed.

Lemma fold_memory_outside (self : ArrayExecution) f (ip op : Z -> nat -> Z)
    l m0 a :
  (forall j k, In j l -> (k < output_amount (m_function self))%nat ->
               ~ in_region (op j k) (nth k (m_output_sizes self) 0) a) ->
  fold_left (fun m index => index_memory self f (ip index) (op index) m) l m0 a
  = m0 a.
Proof.
  revert m0. induction l as [|x l IH]; intros m0 H; simpl; [reflexivity|].
  rewrite IH by (intros j k Hj; apply H; right; exact Hj).
  unfold index_memory. apply write_elements_outside.
  intros k Hk. apply H; [left; reflexivity | exact Hk].
Qed.

(** Where no output element overlaps an input element and the output
    elements of different indices do not overlap, a byte of an output
    element of index [j] ends up as processing [j] alone on the initial
    memory leaves it. *)
Lemma fold_memory_inside (self : ArrayExecution) f (ip op : Z -> nat -> Z)
    m0 l :
  (forall i j ki ko a,
      In i l -> In j l ->
      (ki < input_amount (m_function self))%nat ->
      (ko < output_amount (m_function self))%nat ->
      in_region (ip i ki) (nth ki (m_input_sizes self) 0) a ->
      ~ in_region (op j ko) (nth ko (m_output_sizes self) 0) a) ->
  (forall i j k k' a,
      In i l -> In j l -> i <> j ->
      (k < output_amount (m_function self))%nat ->
      (k' < output_amount (m_function self))%nat ->
      in_region (op i k) (nth k (m_output_sizes self) 0) a ->
      ~ in_region (op j k') (nth k' (m_output_sizes self) 0) a) ->
  forall j a,
    In j l ->
    (exists k, (k < output_amount (m_function self))%nat /\
               in_region (op j k) (nth k (m_output_sizes self) 0) a) ->
    fold_left (fun m index => index_memory self f (ip index) (op index) m)
      l m0 a
    = index_memory self f (ip j) (op j) m0 a.
Proof.
  induction l as [|i l IH] using rev_ind; intros Hio Hoo j a Hj Hin;
    [destruct Hj|].
  rewrite fold_left_app. simpl.
  set (M := fold_left (fun m index =>
                         index_memory self f (ip index) (op index) m) l m0).
  assert (Hreads :
    map (fun k => mem_read M (ip i k) (nth k (m_input_sizes self) 0))
      (seq 0 (input_amount (m_function self)))
    = map (fun k => mem_read m0 (ip i k) (nth k (m_input_sizes self) 0))
        (seq 0 (input_amount (m_function self)))).
  { apply map_ext_in. intros k Hk. apply in_seq in Hk.
    apply mem_read_ext. intros b Hb. unfold M.
    apply fold_memory_outside. intros j' k' Hj' Hk'.
    apply (Hio i j' k k' b); auto; try lia; apply in_or_app; auto.
    right. left. reflexivity. }
  unfold index_memory at 1. rewrite Hreads.
  destruct (Z.eq_dec j i) as [->|Hne].
  - unfold index_memory. apply write_elements_inside. exact Hin.
  - assert (Hjl : In j l).
    { apply in_app_or in Hj. destruct Hj as [Hj|[Hj|[]]]; [exact Hj|].
      congruence. }
    rewrite write_elements_outside.
    + unfold M. apply IH; auto.
      * intros i' j' ki ko b Hi' Hj'. apply Hio; apply in_or_app; auto.
      * intros i' j' k k' b Hi' Hj'. apply Hoo; apply in_or_app; auto.
    + intros k Hk Hr. destruct Hin as (k0 & Hk0 & Hr0).
      apply (Hoo j i k0 k a); auto; apply in_or_app; auto.
      right. left. reflexivity.
Qed.

(** Memory after the indices depends only on which indices occur. *)
Lemma fold_memory_same_members (self : ArrayExecution) f
    (ip op : Z -> nat -> Z) m0 l l' :
  (forall x, In x l <-> In x l') ->
  (forall i j ki ko a,
      In i l -> In j l ->
      (ki < input_amount (m_function self))%nat ->
      (ko < output_amount (m_function self))%nat ->
      in_region (ip i ki) (nth ki (m_input_sizes self) 0) a ->
      ~ in_region (op j ko) (nth ko (m_output_sizes self) 0) a) ->
  (forall i j k k' a,
      In i l -> In j l -> i <> j ->
      (k < output_amount (m_function self))%nat ->
      (k' < output_amount (m_function self))%nat ->
      in_region (op i k) (nth k (m_output_sizes self) 0) a ->
      ~ in_region (op j k') (nth k' (m_output_sizes self) 0) a) ->
  forall a,
    fold_left (fun m index => index_memory self f (ip index) (op index) m)
      l m0 a
    = fold_left (fun m index => index_memory self f (ip index) (op index) m)
        l' m0 a.
Proof.
  intros Hsame Hio Hoo a.
  destruct (in_some_element_dec op (m_output_sizes self)
              (output_amount (m_function self)) l a)
    as [(j & k & Hj & Hk & Hr)|Hout].
  - rewrite (fold_memory_inside self f ip op m0 l Hio Hoo j a Hj)
      by (exists k; auto).
    symmetry. apply fold_memory_inside.
    + intros i' j' ki ko b Hi' Hj'. apply Hio; apply Hsame; assumption.
    + intros i' j' k0 k' b Hi' Hj'. apply Hoo; apply Hsame; assumption.
    + apply Hsame. exact Hj.
    + exists k. auto.
  - rewrite !fold_memory_outside; [reflexivity| |].
    + intros j k Hj Hk Hr. apply Hout. exists j, k.
      split; [apply Hsame; exact Hj | auto].
    + intros j k Hj Hk Hr. apply Hout. exists j, k. auto.
Qed.

(** ** Buffer counts of a compiled call *)

Lemma typed_buffers_loop_enough (sizes buffers_arg : list Z) n (w : World) :
  length sizes = n -> (n <= length buffers_arg)%nat ->
  for_range n []
    (fun i buffers =>
       bind (at_index sizes i) (fun element_size =>
       bind (CreateLoadAtIndex buffers_arg i) (fun buffer =>
       ret (buffers ++ [CastToPointerWithStride buffer element_size])))) w
  = ((Returned (strided_buffers buffers_arg sizes n), w)
     : Outcome (list StridedPointer) * World).
Proof.
  intros Hs Hb.
  destruct (@for_range_total ExecutionContext Failure _
    (fun i buffers =>
       bind (at_index sizes i) (fun element_size =>
       bind (CreateLoadAtIndex buffers_arg i) (fun buffer =>
       ret (buffers ++ [CastToPointerWithStride buffer element_size]))))
    (fun i acc w' => w' = w /\ acc = strided_buffers buffers_arg sizes i) n)
    with (acc := @nil StridedPointer) (w := w) as (acc & w' & Hrun & -> & ->).
  - intros i acc w1 Hi (-> & ->).
    erewrite bind_Returned by (apply at_index_nth with (d := 0); lia).
    erewrite bind_Returned
      by (apply CreateLoadAtIndex_nth with (d := 0); lia).
    eexists _, _. split; [reflexivity|]. split; [reflexivity|].
    unfold strided_buffers. rewrite seq_S, map_app. reflexivity.
  - split; reflexivity.
  - exact Hrun.
Qed.

Lemma typed_buffers_loop_short (sizes buffers_arg : list Z) n (w : World) :
  length sizes = n -> (length buffers_arg < n)%nat ->
  for_range n []
    (fun i buffers =>
       bind (at_index sizes i) (fun element_size =>
       bind (CreateLoadAtIndex buffers_arg i) (fun buffer =>
       ret (buffers ++ [CastToPointerWithStride buffer element_size])))) w
  = ((Undefined, w) : Outcome (list StridedPointer) * World).
Proof.
  intros Hs Hb.
  match goal with
  | |- ?run = _ => destruct run as [o w'] eqn:Hrun
  end.
  pose proof (@for_range_rule ExecutionContext Failure _
    (fun i buffers =>
       bind (at_index sizes i) (fun element_size =>
       bind (CreateLoadAtIndex buffers_arg i) (fun buffer =>
       ret (buffers ++ [CastToPointerWithStride buffer element_size]))))
    (fun i (_ : list StridedPointer) w1 =>
       w1 = w /\ (i <= length buffers_arg)%nat)
    (fun o w1 => o = Undefined /\ w1 = w) n) as R.
  assert (H : match o with
              | Returned _ => w' = w /\ (n <= length buffers_arg)%nat
              | _ => forget o = Undefined /\ w' = w
              end).
  { apply R with (acc := @nil StridedPointer) (w := w);
      [| split; [reflexivity | lia] | exact Hrun].
    intros i acc w1 o1 w1' Hi (-> & Hle).
    erewrite bind_Returned by (apply at_index_nth with (d := 0); lia).
    unfold bind, CreateLoadAtIndex.
    destruct (nth_error buffers_arg i) as [buffer|] eqn:Hnth.
    - unfold ret. intros E. inversion E; subst. split; [reflexivity|].
      assert (i < length buffers_arg)%nat; [|lia].
      apply nth_error_Some. rewrite Hnth. discriminate.
    - unfold stop. intros E. inversion E; subst. simpl. auto. }
  destruct o as [acc| |e|]; simpl in H; destruct H as [H1 H2];
    try discriminate H1; try lia.
  subst w'. reflexivity.
Qed.

Lemma strided_buffers_firstn buffers sizes n :
  strided_buffers (firstn n buffers) sizes n = strided_buffers buffers sizes n.
Proof.
  unfold strided_buffers. apply map_ext_in. intros k Hk. apply in_seq in Hk.
  rewrite nth_firstn. destruct (Nat.ltb_spec k n); [reflexivity | lia].
Qed.

(** X8.  The function a compiled strategy object holds loads exactly the
    first [input_amount] pointers of the input pointer array and the first
    [output_amount] pointers of the output pointer array: given at least
    that many, it behaves as on exactly those, so surplus buffers are
    ignored (where the boxed strategy stops by assertion). *)
Theorem X8_compiled_function_ignores_surplus_buffers
    (jit_fault : string -> option Failure) (function : Function)
    (w0 w0' : World) (self : LLVMArrayExecution) (compiled : CompiledLLVM)
    (count : Z) (indices input_buffers output_buffers : list Z) (w : World) :
  LLVMArrayExecution_new jit_fault function w0 = (Returned self, w0') ->
  m_compiled_function self = Some compiled ->
  (input_amount function <= length input_buffers)%nat ->
  (output_amount function <= length output_buffers)%nat ->
  function_ptr compiled count indices input_buffers output_buffers w
  = function_ptr compiled count indices
      (firstn (input_amount function) input_buffers)
      (firstn (output_amount function) output_buffers) w.
Proof.
  intros Hnew Hcompiled Hib Hob.
  apply LLVMArrayExecution_new_inv in Hnew.
  destruct Hnew
    as (Hfn & Hsz & Hii & Hoi & (b & native & Hb & Hbuild & Hptr) & _).
  rewrite Hptr in Hcompiled. inversion Hcompiled; subst compiled.
  cbn [function_ptr]. subst function.
  destruct (sizes_recorded_inv (base self) Hsz)
    as (in_infos & out_infos & Ei & Eo & Hmi & Hmo & His & Hos).
  unfold emitted_function.
  rewrite (bind_Returned _ _ _ _ _
             (typed_buffers_loop_enough (m_input_sizes (base self))
                input_buffers _ w His Hib)).
  assert (Hib' : (input_amount (m_function (base self))
                  <= length (firstn (input_amount (m_function (base self)))
                               input_buffers))%nat)
    by (rewrite length_firstn; lia).
  rewrite (bind_Returned _ _ _ _ _
             (typed_buffers_loop_enough (m_input_sizes (base self))
                _ _ w His Hib')).
  rewrite strided_buffers_firstn.
  rewrite (bind_Returned _ _ _ _ _
             (typed_buffers_loop_enough (m_output_sizes (base self))
                output_buffers _ w Hos Hob)).
  assert (Hob' : (output_amount (m_function (base self))
                  <= length (firstn (output_amount (m_function (base self)))
                               output_buffers))%nat)
    by (rewrite length_firstn; lia).
  rewrite (bind_Returned _ _ _ _ _
             (typed_buffers_loop_enough (m_output_sizes (base self))
                _ _ w Hos Hob')).
  rewrite strided_buffers_firstn. reflexivity.
Qed.

(** X9.  A call of a compiled strategy object with fewer input buffers or
    fewer output buffers than the descriptor has inputs or outputs runs into
    undefined behaviour while the emitted function loads the buffer
    pointers, before its loop: the compiled function has been invoked, no
    element has been read or written, whatever the indices. *)
Theorem X9_compiled_call_with_missing_buffers
    (jit_fault : string -> option Failure) (function : Function)
    (w0 w0' : World) (self : LLVMArrayExecution)
    (indices input_buffers output_buffers : list Z) (w : World) :
  LLVMArrayExecution_new jit_fault function w0 = (Returned self, w0') ->
  (length input_buffers < input_amount function)%nat \/
  (length output_buffers < output_amount function)%nat ->
  LLVMArrayExecution_call self indices input_buffers output_buffers w
  = (Undefined,
     {| memory := memory w; context := context w;
        llvm_contexts_held := llvm_contexts_held w;
        trace := trace w
          ++ [EvInvokeCompiled (Z.of_nat (length indices)) indices
                input_buffers output_buffers] |}).
Proof.
  intros Hnew Hshort.
  apply LLVMArrayExecution_new_inv in Hnew.
  destruct Hnew
    as (Hfn & Hsz & Hii & Hoi & (b & native & Hb & Hbuild & Hptr) & _).
  subst function.
  destruct (sizes_recorded_inv (base self) Hsz)
    as (in_infos & out_infos & Ei & Eo & Hmi & Hmo & His & Hos).
  unfold LLVMArrayExecution_call. rewrite Hptr. unfold body.
  unfold bind at 1. unfold ret at 1. cbn [function_ptr].
  unfold bind at 1. unfold emit at 1.
  unfold emitted_function.
  destruct (Nat.lt_ge_cases (length input_buffers)
              (input_amount (m_function (base self)))) as [Hi|Hi].
  - unfold bind at 1.
    change (get_input_buffers (base self) input_buffers)
      with (for_range (input_amount (m_function (base self))) []
              (fun i buffers =>
                 bind (at_index (m_input_sizes (base self)) i)
                   (fun element_size =>
                 bind (CreateLoadAtIndex input_buffers i) (fun buffer =>
                 ret (buffers
                      ++ [CastToPointerWithStride buffer element_size]))))
            : M (list StridedPointer)).
    rewrite (typed_buffers_loop_short (m_input_sizes (base self))
               input_buffers _ _ His Hi). reflexivity.
  - rewrite (bind_Returned _ _ _ _ _
               (typed_buffers_loop_enough (m_input_sizes (base self))
                  input_buffers _ _ His Hi)).
    destruct Hshort as [Hs|Hs]; [lia|].
    unfold bind at 1.
    change (get_output_buffers (base self) output_buffers)
      with (for_range (output_amount (m_function (base self))) []
              (fun i buffers =>
                 bind (at_index (m_output_sizes (base self)) i)
                   (fun element_size =>
                 bind (CreateLoadAtIndex output_buffers i) (fun buffer =>
                 ret (buffers
                      ++ [CastToPointerWithStride buffer element_size]))))
            : M (list StridedPointer)).
    rewrite (typed_buffers_loop_short (m_output_sizes (base self))
               output_buffers _ _ Hos Hs). reflexivity.
Qed.

Lemma fold_memory_twice (self : ArrayExecution) f
    (ip op : Z -> nat -> Z) m0 l :
  (forall i j ki ko a,
      In i l -> In j l ->
      (ki < input_amount (m_function self))%nat ->
      (ko < output_amount (m_function self))%nat ->
      in_region (ip i ki) (nth ki (m_input_sizes self) 0) a ->
      ~ in_region (op j ko) (nth ko (m_output_sizes self) 0) a) ->
  (forall i j k k' a,
      In i l -> In j l -> i <> j ->
      (k < output_amount (m_function self))%nat ->
      (k' < output_amount (m_function self))%nat ->
      in_region (op i k) (nth k (m_output_sizes self) 0) a ->
      ~ in_region (op j k') (nth k' (m_output_sizes self) 0) a) ->
  forall a,
    fold_left (fun m index => index_memory self f (ip index) (op index) m)
      l (fold_left
           (fun m index => index_memory self f (ip index) (op index) m) l m0)
      a
    = fold_left (fun m index => index_memory self f (ip index) (op index) m)
        l m0 a.
Proof.
  intros Hio Hoo a. rewrite <- fold_left_app.
  assert (Hmem : forall x, In x (l ++ l) <-> In x l).
  { intros x. rewrite in_app_iff. tauto. }
  apply fold_memory_same_members.
  - exact Hmem.
  - intros i j ki ko b Hi Hj. apply Hio; apply Hmem; assumption.
  - intros i j k k' b Hi Hj. apply Hoo; apply Hmem; assumption.
Qed.

End Further.

(** * Further concrete runs *)

Lemma X1_witness :
  (exists self,
     ArrayExecution_new Example.swap_fn Example.world0
     = (Returned self, Example.world0) /\
     m_function self = Example.swap_fn /\
     map (fun t => option_map size (ext_CPPTypeInfo t))
       (input_types Example.swap_fn) = map Some (m_input_sizes self) /\
     map (fun t => option_map size (ext_CPPTypeInfo t))
       (output_types Example.swap_fn) = map Some (m_output_sizes self)) /\
  ArrayExecution_new FurtherExample.unsized_fn Example.world0
  = (AssertionFailed, Example.world0).
Proof.
  split.
  - apply (proj1 (X1_base_constructor_outcome Example.swap_fn Example.world0)).
    repeat constructor; discriminate.
  - apply (proj2 (X1_base_constructor_outcome FurtherExample.unsized_fn
                    Example.world0)).
    apply Exists_cons_tl. apply Exists_cons_hd. reflexivity.
Defined.

Lemma X2_witness :
  LLVMArrayExecution_new Example.jit_ok Example.picky_fn Example.world0
  = (AssertionFailed, Example.world0) /\
  exists self,
    TupleCallArrayExecution_new Example.picky_fn Example.world0
    = (Returned self, Example.world0).
Proof.
  destruct (X2_constructors_assert_body_kind Example.jit_ok Example.picky_fn
              Example.world0) as (_ & Hllvm & Hboxed).
  - repeat constructor; discriminate.
  - split; [apply Hllvm; reflexivity | apply Hboxed; discriminate].
Defined.

Lemma X4_witness :
  TupleCallArrayExecution_call Example.swap_sizes [0; 2; 4] [1000; 1020] [2000]
    Example.world0 = (AssertionFailed, Example.world0) /\
  exists rest,
    trace (snd (TupleCallArrayExecution_call Example.swap_sizes [0; 2; 4]
                  [1000] [2000] Example.world0))
    = [EvAllocTuple InputFrame 1; EvAllocTuple OutputFrame 1] ++ rest.
Proof.
  split.
  - apply (proj1 (X4_boxed_call_checks_buffer_counts
                    Example.swap_fn Example.swap_sizes
                    Example.world0 Example.world0
                    [0; 2; 4] [1000; 1020] [2000] Example.world0 eq_refl)).
    left. discriminate.
  - apply (proj2 (X4_boxed_call_checks_buffer_counts
                    Example.swap_fn Example.swap_sizes
                    Example.world0 Example.world0
                    [0; 2; 4] [1000] [2000] Example.world0 eq_refl));
      reflexivity.
Defined.

Lemma X8_witness :
  let compiled :=
    {| function_ptr :=
         emitted_function Example.swap_sizes
           [{| llvm_type_name := "i32" |}]
           [{| llvm_type_name := "i32" |}]
           (fun values ctx => (Example.swap values, ctx)) |} in
  function_ptr compiled 3 [0; 2; 4] [1000; 1020] [2000; 2020; 2040]
    Example.world0
  = function_ptr compiled 3 [0; 2; 4]
      (firstn (input_amount Example.swap_fn) [1000; 1020])
      (firstn (output_amount Example.swap_fn) [2000; 2020; 2040])
      Example.world0.
Proof.
  intros compiled.
  refine (X8_compiled_function_ignores_surplus_buffers
            Example.jit_ok Example.swap_fn Example.world0
            (snd (LLVMArrayExecution_new Example.jit_ok Example.swap_fn
                    Example.world0))
            Example.swap_compiled compiled
            3 [0; 2; 4] [1000; 1020] [2000; 2020; 2040] Example.world0
            _ _ _ _).
  - reflexivity.
  - reflexivity.
  - cbv. lia.
  - cbv. lia.
Defined.

Lemma X9_witness :
  LLVMArrayExecution_call Example.swap_compiled [0; 2; 4] [1000] []
    Example.world0
  = (Undefined,
     {| memory := Example.memory0; context := 0%nat;
        llvm_contexts_held := 0%nat;
        trace := [EvInvokeCompiled 3 [0; 2; 4] [1000] []] |}).
Proof.
  apply (X9_compiled_call_with_missing_buffers
           Example.jit_ok Example.swap_fn Example.world0
           (snd (LLVMArrayExecution_new Example.jit_ok Example.swap_fn
                   Example.world0))
           Example.swap_compiled [0; 2; 4] [1000] [] Example.world0).
  - reflexivity.
  - right. cbv. lia.
Defined.

(** * Properties of array views *)

Section Views.

Context {ExecutionContext Failure : Type}.
Local Abbreviation M := (@M ExecutionContext Failure).
Local Abbreviation World := (@World ExecutionContext).
Local Abbreviation Outcome := (@Outcome Failure).
Local Abbreviation slice := (@ArrayRef.slice ExecutionContext Failure).
Local Abbreviation drop_front := (@ArrayRef.drop_front ExecutionContext Failure).
Local Abbreviation drop_back := (@ArrayRef.drop_back ExecutionContext Failure).
Local Abbreviation take_front := (@ArrayRef.take_front ExecutionContext Failure).
Local Abbreviation take_back := (@ArrayRef.take_back ExecutionContext Failure).
Local Abbreviation subscript := (@ArrayRef.subscript ExecutionContext Failure).
Local Abbreviation get := (@ArrayRef.get ExecutionContext Failure).
Local Abbreviation first := (@ArrayRef.first ExecutionContext Failure).
Local Abbreviation last := (@ArrayRef.last ExecutionContext Failure).
Local Abbreviation contains := (@ArrayRef.contains ExecutionContext Failure).
Local Abbreviation count := (@ArrayRef.count ExecutionContext Failure).

(** ** Arithmetic on [uint] *)

Lemma uint_add_exact a b :
  0 <= a + b < uint_modulus -> uint_add a b = a + b.
Proof. intros H. unfold uint_add. apply Z.mod_small. exact H. Qed.

Lemma uint_add_wraps a b :
  uint_modulus <= a + b < 2 * uint_modulus ->
  uint_add a b = a + b - uint_modulus.
Proof.
  intros H. unfold uint_add.
  assert (E : (a + b) mod uint_modulus
              = (a + b - uint_modulus) mod uint_modulus).
  { rewrite <- (Z.mod_add (a + b - uint_modulus) 1 uint_modulus)
      by (unfold uint_modulus; lia).
    f_equal. lia. }
  rewrite E. apply Z.mod_small. lia.
Qed.

Lemma uint_sub_exact a b :
  0 <= a - b < uint_modulus -> uint_sub a b = a - b.
Proof. intros H. unfold uint_sub. apply Z.mod_small. exact H. Qed.

(** ** Elements of a view *)

Lemma length_elements sizeof_T self m :
  length (elements sizeof_T self m) = Z.to_nat (ArrayRef.m_size self).
Proof. unfold elements. rewrite length_map, length_seq. reflexivity. Qed.

Lemma nth_error_elements sizeof_T self m i :
  (i < Z.to_nat (ArrayRef.m_size self))%nat ->
  nth_error (elements sizeof_T self m) i
  = Some (mem_read m (ArrayRef.m_start self + Z.of_nat i * sizeof_T) sizeof_T).
Proof.
  intros Hi. unfold elements.
  rewrite nth_error_map, nth_error_seq.
  destruct (Nat.ltb_spec i (Z.to_nat (ArrayRef.m_size self))); [|lia].
  reflexivity.
Qed.

Lemma elements_make sizeof_T start size m :
  elements sizeof_T (ArrayRef.make start size) m
  = map (fun i => mem_read m (start + Z.of_nat i * sizeof_T) sizeof_T)
      (seq 0 (Z.to_nat size)).
Proof. reflexivity. Qed.

Lemma map_seq_from {A} (f : nat -> A) a l :
  map f (seq a l) = map (fun i => f (a + i)%nat) (seq 0 l).
Proof.
  induction l as [|l IH]; [reflexivity|].
  rewrite !seq_S, !map_app, IH. reflexivity.
Qed.

Lemma map_seq_part {A} (f : nat -> A) a l k :
  (a + l <= k)%nat ->
  firstn l (skipn a (map f (seq 0 k)))
  = map (fun i => f (a + i)%nat) (seq 0 l).
Proof.
  intros H. replace k with (a + (l + (k - a - l)))%nat by lia.
  rewrite seq_app, map_app, skipn_app, length_map, length_seq.
  rewrite skipn_all2 by (rewrite length_map, length_seq; lia).
  rewrite Nat.sub_diag, skipn_O, app_nil_l.
  rewrite seq_app, map_app, firstn_app, length_map, length_seq.
  rewrite Nat.sub_diag, firstn_O, app_nil_r.
  rewrite firstn_all2 by (rewrite length_map, length_seq; lia).
  apply map_seq_from.
Qed.

Lemma elements_part sizeof_T self start length m :
  0 <= start -> 0 <= length -> start + length <= ArrayRef.m_size self ->
  elements sizeof_T
    (ArrayRef.make (ArrayRef.m_start self + start * sizeof_T) length) m
  = firstn (Z.to_nat length)
      (skipn (Z.to_nat start) (elements sizeof_T self m)).
Proof.
  intros Hs Hl Hb. unfold elements.
  cbn [ArrayRef.make ArrayRef.m_start ArrayRef.m_size].
  rewrite map_seq_part by lia.
  apply map_ext. intros i. f_equal.
  rewrite Nat2Z.inj_add, Z2Nat.id by lia. ring.
Qed.

(** ** Slices *)

Lemma slice_eq sizeof_T self start length (w : World) :
  slice sizeof_T self start length w
  = if uint_add start length <=? ArrayRef.size self
    then (Returned
            (ArrayRef.make (ArrayRef.m_start self + start * sizeof_T) length),
          w)
    else (AssertionFailed, w).
Proof.
  unfold ArrayRef.slice, bind, BLI_assert.
  destruct (uint_add start length <=? ArrayRef.size self); reflexivity.
Qed.

(** X12.  When [start + length] does not wrap around, [slice] returns
    exactly when the part lies within the view, and stops by assertion
    otherwise; the world stays as it is.  The view it returns has [length]
    elements, lies within the view sliced, and shows the elements
    [start], ..., [start + length - 1] of it. *)
Theorem X12_slice_without_wraparound
    (sizeof_T : Z) (self : ArrayRef.t) (start length : Z) (w : World) :
  0 <= sizeof_T -> is_uint start -> is_uint length ->
  start + length < uint_modulus ->
  (start + length <= ArrayRef.size self ->
   exists part,
     slice sizeof_T self start length w = (Returned part, w) /\
     ArrayRef.size part = length /\
     within sizeof_T part self /\
     elements sizeof_T part (memory w)
     = firstn (Z.to_nat length)
         (skipn (Z.to_nat start) (elements sizeof_T self (memory w)))) /\
  (ArrayRef.size self < start + length ->
   slice sizeof_T self start length w = (AssertionFailed, w)).
Proof.
  intros Hs (Hs0 & _) (Hl0 & _) Hsmall.
  rewrite slice_eq, uint_add_exact by lia. split; intros Hb.
  - destruct (Z.leb_spec (start + length) (ArrayRef.size self)); [|lia].
    eexists. split; [reflexivity|]. split; [reflexivity|]. split.
    + unfold within, ArrayRef.begin_, ArrayRef.end_, ArrayRef.size in *.
      cbn [ArrayRef.make ArrayRef.m_start ArrayRef.m_size]. nia.
    + apply elements_part; assumption.
  - destruct (Z.leb_spec (start + length) (ArrayRef.size self)); [lia|].
    reflexivity.
Qed.

(** X13.  The bound that [slice] asserts is computed in [uint]: when
    [start + length] wraps around to at most the size, the assertion holds
    although the part asked for is out of bounds, and [slice] returns a view
    that ends past the end of the view sliced. *)
Theorem X13_slice_bound_wraps_around
    (sizeof_T : Z) (self : ArrayRef.t) (start length : Z) (w : World) :
  0 < sizeof_T -> is_uint start -> is_uint length ->
  is_uint (ArrayRef.size self) ->
  uint_modulus <= start + length ->
  start + length - uint_modulus <= ArrayRef.size self ->
  exists part,
    slice sizeof_T self start length w = (Returned part, w) /\
    ArrayRef.size part = length /\
    ArrayRef.end_ sizeof_T self < ArrayRef.end_ sizeof_T part /\
    ~ within sizeof_T part self.
Proof.
  intros Hs (Hs0 & Hs1) (Hl0 & Hl1) (Hz0 & Hz1) Hwrap Hb.
  rewrite slice_eq, uint_add_wraps by lia.
  destruct (Z.leb_spec (start + length - uint_modulus) (ArrayRef.size self));
    [|lia].
  eexists. split; [reflexivity|]. split; [reflexivity|].
  assert (Hend : ArrayRef.end_ sizeof_T self
                 < ArrayRef.end_ sizeof_T
                     (ArrayRef.make (ArrayRef.m_start self + start * sizeof_T)
                        length)).
  { unfold ArrayRef.end_, ArrayRef.size in *.
    cbn [ArrayRef.make ArrayRef.m_start ArrayRef.m_size]. nia. }
  split; [exact Hend|]. unfold within. lia.
Qed.

(** ** Taking and dropping *)

Lemma elements_split sizeof_T self n m :
  0 <= n <= ArrayRef.m_size self ->
  elements sizeof_T (ArrayRef.make (ArrayRef.m_start self + 0 * sizeof_T) n) m
  ++ elements sizeof_T
       (ArrayRef.make (ArrayRef.m_start self + n * sizeof_T)
          (ArrayRef.m_size self - n)) m
  = elements sizeof_T self m.
Proof.
  intros Hn.
  rewrite !elements_part by lia.
  change (Z.to_nat 0) with 0%nat. rewrite skipn_O.
  rewrite (firstn_all2 (n := Z.to_nat (ArrayRef.m_size self - n)))
    by (rewrite length_skipn, length_elements; lia).
  apply firstn_skipn.
Qed.

(** X14.  For [n] up to the size of the view, [take_front(n)] and
    [drop_front(n)] return two adjoining views that split it after its
    first [n] elements, and [drop_back(n)] and [take_back(n)] two that split
    it before its last [n] elements: the elements of the two parts, one
    after the other, are the elements of the view.  For [n] above the size
    all four stop by assertion.  The world stays as it is. *)
Theorem X14_take_and_drop_split_the_view
    (sizeof_T : Z) (self : ArrayRef.t) (n : Z) (w : World) :
  is_uint n -> is_uint (ArrayRef.size self) ->
  (n <= ArrayRef.size self ->
   exists front back front' back',
     take_front sizeof_T self n w = (Returned front, w) /\
     drop_front sizeof_T self n w = (Returned back, w) /\
     drop_back sizeof_T self n w = (Returned front', w) /\
     take_back sizeof_T self n w = (Returned back', w) /\
     ArrayRef.size front = n /\ ArrayRef.size back' = n /\
     splits sizeof_T self front back /\
     splits sizeof_T self front' back' /\
     elements sizeof_T front (memory w) ++ elements sizeof_T back (memory w)
     = elements sizeof_T self (memory w) /\
     elements sizeof_T front' (memory w) ++ elements sizeof_T back' (memory w)
     = elements sizeof_T self (memory w)) /\
  (ArrayRef.size self < n ->
   take_front sizeof_T self n w = (AssertionFailed, w) /\
   drop_front sizeof_T self n w = (AssertionFailed, w) /\
   drop_back sizeof_T self n w = (AssertionFailed, w) /\
   take_back sizeof_T self n w = (AssertionFailed, w)).
Proof.
  intros (Hn0 & Hn1) (Hz0 & Hz1). split; intros Hb.
  - unfold ArrayRef.take_front, ArrayRef.drop_front, ArrayRef.drop_back,
      ArrayRef.take_back, bind, BLI_assert.
    destruct (Z.leb_spec n (ArrayRef.size self)); [|lia]. unfold ret at 1 2 3 4.
    rewrite !slice_eq, uint_sub_exact by lia.
    rewrite !uint_add_exact by lia.
    destruct (Z.leb_spec (0 + n) (ArrayRef.size self)); [|lia].
    destruct (Z.leb_spec (n + (ArrayRef.size self - n)) (ArrayRef.size self));
      [|lia].
    destruct (Z.leb_spec (0 + (ArrayRef.size self - n)) (ArrayRef.size self));
      [|lia].
    destruct (Z.leb_spec (ArrayRef.size self - n + n) (ArrayRef.size self));
      [|lia].
    eexists _, _, _, _.
    split; [reflexivity|]. split; [reflexivity|]. split; [reflexivity|].
    split; [reflexivity|]. split; [reflexivity|]. split; [reflexivity|].
    unfold ArrayRef.size in *.
    split; [|split; [|split]].
    + unfold splits, ArrayRef.begin_, ArrayRef.end_, ArrayRef.size.
      cbn [ArrayRef.make ArrayRef.m_start ArrayRef.m_size]. nia.
    + unfold splits, ArrayRef.begin_, ArrayRef.end_, ArrayRef.size.
      cbn [ArrayRef.make ArrayRef.m_start ArrayRef.m_size]. nia.
    + apply elements_split. lia.
    + pose proof (elements_split sizeof_T self (ArrayRef.m_size self - n)
                    (memory w)) as Hsplit.
      replace (ArrayRef.m_size self - (ArrayRef.m_size self - n)) with n
        in Hsplit by lia.
      apply Hsplit. lia.
  - unfold ArrayRef.take_front, ArrayRef.drop_front, ArrayRef.drop_back,
      ArrayRef.take_back, bind, BLI_assert.
    destruct (Z.leb_spec n (ArrayRef.size self)); [lia|].
    repeat split; reflexivity.
Qed.

(** ** Access by index *)

Lemma deref_eq sizeof_T p (w : World) :
  @ArrayRef.deref ExecutionContext Failure sizeof_T p w
  = (Returned (mem_read (memory w) p sizeof_T), w).
Proof. reflexivity. Qed.

Lemma element_address sizeof_T self index :
  0 <= index ->
  ArrayRef.m_start self + index * sizeof_T
  = ArrayRef.m_start self + Z.of_nat (Z.to_nat index) * sizeof_T.
Proof. intros H. rewrite Z2Nat.id by exact H. reflexivity. Qed.

(** X15.  [operator[]] on a view is the asserted lookup in the list of its
    elements, the reading of an [ArrayRef] that the array execution
    strategies are modelled with: inside the view it yields the element, at
    or past the size it stops by assertion; the world stays as it is. *)
Theorem X15_subscript_is_lookup_in_elements
    (sizeof_T : Z) (self : ArrayRef.t) (index : Z) (w : World) :
  0 <= index ->
  subscript sizeof_T self index w
  = @at_index ExecutionContext Failure Value
      (elements sizeof_T self (memory w)) (Z.to_nat index) w.
Proof.
  intros Hi. unfold ArrayRef.subscript, bind, BLI_assert, at_index.
  destruct (Z.ltb_spec index (ArrayRef.m_size self)) as [Hlt|Hge].
  - unfold ret at 1. rewrite deref_eq.
    rewrite nth_error_elements by lia.
    rewrite <- element_address by exact Hi. reflexivity.
  - unfold stop at 1.
    destruct (nth_error (elements sizeof_T self (memory w)) (Z.to_nat index))
      eqn:E; [|reflexivity].
    assert (Z.to_nat index < length (elements sizeof_T self (memory w)))%nat
      by (apply nth_error_Some; rewrite E; discriminate).
    rewrite length_elements in *. lia.
Qed.

(** X16.  [get] never fails and never changes the world.  For an index
    inside the view it returns what [operator[]] returns; for an index at or
    past the size, where [operator[]] stops by assertion, it returns the
    fallback. *)
Theorem X16_get_agrees_with_subscript
    (sizeof_T : Z) (self : ArrayRef.t) (index : Z) (fallback : Value)
    (w : World) :
  0 <= index ->
  get sizeof_T self index fallback w
  = (Returned (nth (Z.to_nat index) (elements sizeof_T self (memory w))
                 fallback), w) /\
  (index < ArrayRef.size self ->
   get sizeof_T self index fallback w = subscript sizeof_T self index w) /\
  (ArrayRef.size self <= index ->
   subscript sizeof_T self index w = (AssertionFailed, w) /\
   get sizeof_T self index fallback w = (Returned fallback, w)).
Proof.
  intros Hi. unfold ArrayRef.get, ArrayRef.subscript, ArrayRef.size, bind,
    BLI_assert.
  destruct (Z.ltb_spec index (ArrayRef.m_size self)) as [Hlt|Hge].
  - rewrite deref_eq. split; [|split; [reflexivity | lia]].
    rewrite (nth_error_nth _ _ _
               (nth_error_elements sizeof_T self (memory w) (Z.to_nat index)
                  ltac:(lia))).
    rewrite <- element_address by exact Hi. reflexivity.
  - split; [|split; [lia | split; reflexivity]].
    rewrite nth_overflow by (rewrite length_elements; lia). reflexivity.
Qed.

(** X17.  On a view that is not empty [first] returns the first and [last]
    the last of its elements; on an empty view both stop by assertion.  The
    world stays as it is. *)
Theorem X17_first_and_last
    (sizeof_T : Z) (self : ArrayRef.t) (w : World) :
  is_uint (ArrayRef.size self) ->
  (0 < ArrayRef.size self ->
   first sizeof_T self w
   = (Returned (hd [] (elements sizeof_T self (memory w))), w) /\
   last sizeof_T self w
   = (Returned (List.last (elements sizeof_T self (memory w)) []), w) /\
   first sizeof_T self w = subscript sizeof_T self 0 w /\
   last sizeof_T self w
   = subscript sizeof_T self (ArrayRef.size self - 1) w) /\
  (ArrayRef.size self = 0 ->
   first sizeof_T self w = (AssertionFailed, w) /\
   last sizeof_T self w = (AssertionFailed, w)).
Proof.
  intros (Hz0 & Hz1). unfold ArrayRef.size in *.
  unfold ArrayRef.first, ArrayRef.last, ArrayRef.subscript, bind, BLI_assert.
  split; intros Hsize.
  - destruct (Z.ltb_spec 0 (ArrayRef.m_size self)); [|lia].
    destruct (Z.ltb_spec (ArrayRef.m_size self - 1) (ArrayRef.m_size self));
      [|lia].
    unfold ret. rewrite !deref_eq, uint_sub_exact by lia.
    unfold elements.
    destruct (Z.to_nat (ArrayRef.m_size self)) as [|k] eqn:Ek; [lia|].
    split; [reflexivity|]. split; [|split; reflexivity].
    rewrite seq_S, map_app. simpl map at 2. rewrite last_last.
    replace (ArrayRef.m_size self - 1) with (Z.of_nat (0 + k)) by lia.
    reflexivity.
  - rewrite Hsize. split; reflexivity.
Qed.

(** ** Searching *)

Lemma contains_from_spec sizeof_T equal m it n value :
  ArrayRef.contains_from sizeof_T equal m it n value
  = existsb (fun e => equal e value)
      (map (fun i => mem_read m (it + Z.of_nat i * sizeof_T) sizeof_T)
         (seq 0 n)).
Proof.
  revert it. induction n as [|n IH]; intros it; [reflexivity|].
  cbn [ArrayRef.contains_from seq map existsb].
  replace (it + Z.of_nat 0 * sizeof_T) with it by lia.
  destruct (equal (mem_read m it sizeof_T) value); [reflexivity|].
  rewrite IH. cbn [orb]. rewrite (map_seq_from _ 1 n). f_equal.
  apply map_ext. intros i. f_equal. lia.
Qed.

Lemma count_from_spec sizeof_T equal m it n value counter :
  0 <= counter -> counter + Z.of_nat n < uint_modulus ->
  ArrayRef.count_from sizeof_T equal m it n value counter
  = counter
    + Z.of_nat
        (length
           (filter (fun e => equal e value)
              (map (fun i => mem_read m (it + Z.of_nat i * sizeof_T) sizeof_T)
                 (seq 0 n)))).
Proof.
  revert it counter. induction n as [|n IH]; intros it counter Hc Hn.
  - simpl. lia.
  - cbn [ArrayRef.count_from seq map filter].
    replace (it + Z.of_nat 0 * sizeof_T) with it by lia.
    rewrite (map_seq_from _ 1 n).
    assert (E : map (fun i => mem_read m
                                (it + Z.of_nat (1 + i) * sizeof_T) sizeof_T)
                  (seq 0 n)
                = map (fun i => mem_read m
                                  (it + sizeof_T + Z.of_nat i * sizeof_T)
                                  sizeof_T)
                    (seq 0 n)).
    { apply map_ext. intros i. f_equal. lia. }
    rewrite E.
    destruct (equal (mem_read m it sizeof_T) value).
    + rewrite uint_add_exact by lia. rewrite IH by lia.
      cbn [length]. lia.
    + rewrite IH by lia. lia.
Qed.

Lemma existsb_filter {A} (p : A -> bool) xs :
  existsb p xs = (0 <? Z.of_nat (length (filter p xs))).
Proof.
  induction xs as [|x xs IH]; [reflexivity|]. simpl.
  destruct (p x); simpl; [|exact IH].
  destruct (Z.ltb_spec 0 (Z.of_nat (S (length (filter p xs)))));
    [reflexivity | lia].
Qed.

(** X18.  [contains] tells whether some element of the view equals the
    value, and [count] returns how many do: the [uint] counter cannot wrap
    around, the two agree ([contains] says yes exactly when [count] is not
    zero), and neither changes the world. *)
Theorem X18_contains_and_count
    (sizeof_T : Z) (equal : Value -> Value -> bool) (self : ArrayRef.t)
    (value : Value) (w : World) :
  is_uint (ArrayRef.size self) ->
  let matching :=
    filter (fun e => equal e value) (elements sizeof_T self (memory w)) in
  contains sizeof_T equal self value w
  = (Returned (existsb (fun e => equal e value)
                 (elements sizeof_T self (memory w))), w) /\
  count sizeof_T equal self value w
  = (Returned (Z.of_nat (length matching)), w) /\
  existsb (fun e => equal e value) (elements sizeof_T self (memory w))
  = (0 <? Z.of_nat (length matching)) /\
  0 <= Z.of_nat (length matching) <= ArrayRef.size self.
Proof.
  intros (Hz0 & Hz1) matching. unfold ArrayRef.size in *.
  unfold ArrayRef.contains, ArrayRef.count, bind, get_memory, ret.
  rewrite contains_from_spec, count_from_spec by lia.
  split; [reflexivity|]. split; [reflexivity|].
  split; [apply existsb_filter|].
  split; [lia|].
  pose proof (filter_length_le (fun e => equal e value)
                (elements sizeof_T self (memory w))) as Hle.
  rewrite length_elements in Hle. subst matching. lia.
Qed.

(** ** Filling *)

Lemma element_bytes_full (v : Value) len :
  Z.of_nat (length v) = len -> element_bytes len v = v.
Proof.
  intros <-. unfold element_bytes. rewrite Nat2Z.id.
  induction v as [|b v IH]; [reflexivity|].
  cbn [length seq map nth]. f_equal.
  rewrite (map_seq_from _ 1 (length v)). exact IH.
Qed.

Lemma assign_eq sizeof_T p element (w : World) :
  @MutableArrayRef.assign ExecutionContext Failure sizeof_T p element w
  = (Returned tt,
     {| memory := mem_write (memory w) p sizeof_T element;
        context := context w;
        llvm_contexts_held := llvm_contexts_held w;
        trace := trace w |}).
Proof. reflexivity. Qed.

Lemma fill_n_spec sizeof_T element :
  Z.of_nat (length element) = sizeof_T ->
  forall n p (w : World),
  exists m',
    @MutableArrayRef.fill_n ExecutionContext Failure sizeof_T p n element w
    = (Returned tt,
       {| memory := m'; context := context w;
          llvm_contexts_held := llvm_contexts_held w; trace := trace w |}) /\
    (forall a, ~ in_region p (Z.of_nat n * sizeof_T) a -> m' a = memory w a) /\
    (forall i, (i < n)%nat ->
               mem_read m' (p + Z.of_nat i * sizeof_T) sizeof_T = element).
Proof.
  intros Hlen. induction n as [|n IH]; intros p w.
  - exists (memory w). split; [destruct w; reflexivity|].
    split; [reflexivity | intros i Hi; lia].
  - cbn [MutableArrayRef.fill_n]. unfold bind at 1. rewrite assign_eq.
    destruct (IH (p + sizeof_T)
                {| memory := mem_write (memory w) p sizeof_T element;
                   context := context w;
                   llvm_contexts_held := llvm_contexts_held w;
                   trace := trace w |}) as (m' & Hrun & Hout & Hin).
    cbn [memory context llvm_contexts_held trace] in *.
    exists m'. split; [exact Hrun|].
    assert (Hs : 0 <= sizeof_T) by lia.
    split.
    + intros a Ha. rewrite Hout.
      * apply mem_write_outside. unfold in_region in *. nia.
      * unfold in_region in *. nia.
    + intros i Hi. destruct i as [|i].
      * replace (p + Z.of_nat 0 * sizeof_T) with p by lia.
        rewrite (mem_read_ext m' (mem_write (memory w) p sizeof_T element)).
        -- rewrite mem_read_write_same. apply element_bytes_full. exact Hlen.
        -- intros a Ha. apply Hout. unfold in_region in *. nia.
      * replace (p + Z.of_nat (S i) * sizeof_T)
          with (p + sizeof_T + Z.of_nat i * sizeof_T) by lia.
        apply Hin. lia.
Qed.

(** X19.  [fill] with an element of the element type's size returns, and
    afterwards every element of the view is that element; the bytes of
    memory outside the view, the execution context and the trace are as
    before. *)
Theorem X19_fill_sets_every_element
    (sizeof_T : Z) (self : MutableArrayRef.t) (element : Value) (w : World) :
  Z.of_nat (length element) = sizeof_T ->
  exists w',
    @MutableArrayRef.fill ExecutionContext Failure sizeof_T self element w
    = (Returned tt, w') /\
    context w' = context w /\ trace w' = trace w /\
    elements sizeof_T (MutableArrayRef.to_ArrayRef self) (memory w')
    = repeat element (Z.to_nat (MutableArrayRef.size self)) /\
    (forall a,
        ~ in_region (MutableArrayRef.begin_ self)
            (MutableArrayRef.size self * sizeof_T) a ->
        memory w' a = memory w a).
Proof.
  intros Hlen. unfold MutableArrayRef.fill.
  destruct (fill_n_spec sizeof_T element Hlen
              (Z.to_nat (MutableArrayRef.m_size self))
              (MutableArrayRef.m_start self) w) as (m' & Hrun & Hout & Hin).
  eexists. split; [exact Hrun|]. cbn [memory context trace].
  split; [reflexivity|]. split; [reflexivity|]. split.
  - unfold elements, MutableArrayRef.to_ArrayRef, MutableArrayRef.data,
      MutableArrayRef.size.
    cbn [ArrayRef.make ArrayRef.m_start ArrayRef.m_size].
    assert (E : forall n k,
               (forall i, (i < k + n)%nat ->
                  mem_read m' (MutableArrayRef.m_start self
                               + Z.of_nat i * sizeof_T) sizeof_T = element) ->
               map (fun i => mem_read m' (MutableArrayRef.m_start self
                                          + Z.of_nat i * sizeof_T) sizeof_T)
                 (seq k n) = repeat element n).
    { induction n as [|n IHn]; intros k Hk; [reflexivity|].
      cbn [seq map repeat]. f_equal; [apply Hk; lia|].
      apply IHn. intros i Hi. apply Hk. lia. }
    apply E. exact Hin.
  - intros a Ha. apply Hout.
    unfold MutableArrayRef.begin_, MutableArrayRef.size, in_region in *.
    assert (0 <= sizeof_T) by lia.
    destruct (Z.le_gt_cases 0 (MutableArrayRef.m_size self)).
    + rewrite Z2Nat.id by assumption. exact Ha.
    + replace (Z.to_nat (MutableArrayRef.m_size self)) with 0%nat by lia.
      lia.
Qed.

Lemma assign_elements_outside sizeof_T start element indices m a :
  (forall i, In i indices ->
             ~ in_region (start + i * sizeof_T) sizeof_T a) ->
  assign_elements sizeof_T start element indices m a = m a.
Proof.
  unfold assign_elements. revert m.
  induction indices as [|i indices IH]; intros m H; [reflexivity|].
  cbn [fold_left]. rewrite IH by (intros j Hj; apply H; right; exact Hj).
  apply mem_write_outside. apply H. left. reflexivity.
Qed.

Lemma assign_elements_read sizeof_T start element indices m i :
  Z.of_nat (length element) = sizeof_T ->
  In i indices ->
  mem_read (assign_elements sizeof_T start element indices m)
    (start + i * sizeof_T) sizeof_T = element.
Proof.
  intros Hlen. unfold assign_elements.
  induction indices as [|x indices IH] using rev_ind; intros Hin;
    [contradiction|].
  rewrite fold_left_app. cbn [fold_left].
  destruct (Z.eq_dec i x) as [->|Hne].
  - rewrite mem_read_write_same. apply element_bytes_full. exact Hlen.
  - apply in_app_or in Hin.
    destruct Hin as [Hin|[Hx|[]]]; [|congruence].
    rewrite <- (IH Hin) at 2. apply mem_read_ext. intros a Ha.
    apply mem_write_outside. unfold in_region in *.
    assert (0 <= sizeof_T) by lia. nia.
Qed.

Lemma fill_indices_from_spec sizeof_T uint_of_bytes self element :
  forall n it (w : World),
  (forall j a,
      (j < n)%nat ->
      in_region
        (MutableArrayRef.m_start self
         + uint_of_bytes (mem_read (memory w) (it + Z.of_nat j * 4) 4)
           * sizeof_T) sizeof_T a ->
      ~ in_region it (Z.of_nat n * 4) a) ->
  @MutableArrayRef.fill_indices_from ExecutionContext Failure sizeof_T
    uint_of_bytes self it n element w
  = (Returned tt,
     {| memory :=
          assign_elements sizeof_T (MutableArrayRef.m_start self) element
            (map (fun j => uint_of_bytes
                             (mem_read (memory w) (it + Z.of_nat j * 4) 4))
               (seq 0 n))
            (memory w);
        context := context w;
        llvm_contexts_held := llvm_contexts_held w;
        trace := trace w |}).
Proof.
  induction n as [|n IH]; intros it w Hfree.
  - destruct w; reflexivity.
  - cbn [MutableArrayRef.fill_indices_from].
    unfold bind at 1. unfold get_memory at 1.
    unfold bind at 1. rewrite assign_eq.
    set (i0 := uint_of_bytes (mem_read (memory w) it 4)).
    set (m1 := mem_write (memory w)
                 (MutableArrayRef.m_start self + i0 * sizeof_T) sizeof_T
                 element).
    assert (Hkept : forall a, in_region it (Z.of_nat (S n) * 4) a ->
                              m1 a = memory w a).
    { intros a Ha. unfold m1. apply mem_write_outside. intros Hw.
      apply (Hfree 0%nat a); [lia| |exact Ha].
      replace (it + Z.of_nat 0 * 4) with it by lia. exact Hw. }
    assert (Hreads : forall j, (j < n)%nat ->
               mem_read m1 (it + 4 + Z.of_nat j * 4) 4
               = mem_read (memory w) (it + Z.of_nat (S j) * 4) 4).
    { intros j Hj.
      replace (it + Z.of_nat (S j) * 4) with (it + 4 + Z.of_nat j * 4) by lia.
      apply mem_read_ext. intros a Ha. apply Hkept.
      unfold in_region in *. lia. }
    rewrite IH; cbn [memory context llvm_contexts_held trace].
    + f_equal. f_equal.
      cbn [seq map]. unfold assign_elements. cbn [fold_left].
      replace (it + Z.of_nat 0 * 4) with it by lia. fold i0. fold m1.
      f_equal. rewrite (map_seq_from _ 1 n).
      apply map_ext_in. intros j Hj. apply in_seq in Hj.
      rewrite Hreads by lia. reflexivity.
    + intros j a Hj Hw Ha. rewrite Hreads in Hw by exact Hj.
      apply (Hfree (S j) a); [lia | exact Hw|].
      unfold in_region in *. lia.
Qed.

(** X20.  [fill_indices] reads the indices from memory one at a time, each
    just before it assigns.  When no element it assigns to overlaps the
    index buffer, it returns having assigned [element] to the element at
    every index of the buffer: each of them then reads as [element], and
    every byte outside them, the execution context and the trace are as
    before.  No index is checked against the size of the view: an index at
    or past the size is assigned to like any other. *)
Theorem X20_fill_indices_assigns_each_indexed_element
    (sizeof_T : Z) (uint_of_bytes : Value -> Z) (self : MutableArrayRef.t)
    (indices : ArrayRef.t) (element : Value) (w : World) :
  Z.of_nat (length element) = sizeof_T ->
  0 <= ArrayRef.size indices ->
  let positions := map uint_of_bytes (elements 4 indices (memory w)) in
  (forall i a,
      In i positions ->
      in_region (MutableArrayRef.m_start self + i * sizeof_T) sizeof_T a ->
      ~ in_region (ArrayRef.begin_ indices) (ArrayRef.size indices * 4) a) ->
  exists w',
    @MutableArrayRef.fill_indices ExecutionContext Failure sizeof_T
      uint_of_bytes self indices element w = (Returned tt, w') /\
    context w' = context w /\ trace w' = trace w /\
    (forall i,
        In i positions ->
        mem_read (memory w') (MutableArrayRef.m_start self + i * sizeof_T)
          sizeof_T = element) /\
    (forall a,
        (forall i, In i positions ->
                   ~ in_region (MutableArrayRef.m_start self + i * sizeof_T)
                       sizeof_T a) ->
        memory w' a = memory w a).
Proof.
  intros Hlen Hsize positions Hfree.
  unfold ArrayRef.size, ArrayRef.begin_ in *.
  assert (Hpos : positions
                 = map (fun j => uint_of_bytes
                                   (mem_read (memory w)
                                      (ArrayRef.m_start indices
                                       + Z.of_nat j * 4) 4))
                     (seq 0 (Z.to_nat (ArrayRef.m_size indices)))).
  { unfold positions, elements. rewrite map_map. reflexivity. }
  unfold MutableArrayRef.fill_indices, ArrayRef.begin_.
  rewrite fill_indices_from_spec.
  - eexists. split; [reflexivity|]. cbn [memory context trace].
    split; [reflexivity|]. split; [reflexivity|]. rewrite <- Hpos. split.
    + intros i Hi. apply assign_elements_read; assumption.
    + intros a Ha. apply assign_elements_outside. exact Ha.
  - intros j a Hj Hw. rewrite Z2Nat.id by exact Hsize.
    refine (Hfree _ a _ Hw).
    rewrite Hpos. apply in_map_iff. exists j. split; [reflexivity|].
    apply in_seq. lia.
Qed.

(** ** Mutable views and views *)

(** X21.  A [MutableArrayRef] behaves like the [ArrayRef] it converts to:
    the two have the same bounds, [operator[]] reads the same element or
    stops by the same assertion, and [slice], [drop_front], [drop_back],
    [take_front] and [take_back] commute with the conversion, outcome by
    outcome. *)
Theorem X21_mutable_view_behaves_like_its_view
    (sizeof_T : Z) (self : MutableArrayRef.t) (start length n index : Z)
    (w : World) :
  let view := MutableArrayRef.to_ArrayRef self in
  let converted (r : Outcome MutableArrayRef.t * World) :=
    (map_outcome MutableArrayRef.to_ArrayRef (fst r), snd r) in
  ArrayRef.begin_ view = MutableArrayRef.begin_ self /\
  ArrayRef.end_ sizeof_T view = MutableArrayRef.end_ sizeof_T self /\
  ArrayRef.size view = MutableArrayRef.size self /\
  subscript sizeof_T view index w
  = @MutableArrayRef.subscript ExecutionContext Failure sizeof_T self index w /\
  slice sizeof_T view start length w
  = converted (MutableArrayRef.slice sizeof_T self start length w) /\
  drop_front sizeof_T view n w
  = converted (MutableArrayRef.drop_front sizeof_T self n w) /\
  drop_back sizeof_T view n w
  = converted (MutableArrayRef.drop_back sizeof_T self n w) /\
  take_front sizeof_T view n w
  = converted (MutableArrayRef.take_front sizeof_T self n w) /\
  take_back sizeof_T view n w
  = converted (MutableArrayRef.take_back sizeof_T self n w).
Proof.
  intros view converted. subst view converted.
  assert (Hslice : forall a b,
             slice sizeof_T (MutableArrayRef.to_ArrayRef self) a b w
             = (map_outcome MutableArrayRef.to_ArrayRef
                  (fst (@MutableArrayRef.slice ExecutionContext Failure
                          sizeof_T self a b w)),
                snd (@MutableArrayRef.slice ExecutionContext Failure
                       sizeof_T self a b w))).
  { intros a b. unfold ArrayRef.slice, MutableArrayRef.slice, bind, BLI_assert.
    unfold ArrayRef.size, MutableArrayRef.to_ArrayRef, MutableArrayRef.size.
    cbn [ArrayRef.make ArrayRef.m_size ArrayRef.m_start].
    destruct (uint_add a b <=? MutableArrayRef.m_size self); reflexivity. }
  split; [reflexivity|]. split; [reflexivity|]. split; [reflexivity|].
  split.
  { unfold ArrayRef.subscript, MutableArrayRef.subscript, bind, BLI_assert.
    unfold MutableArrayRef.to_ArrayRef, MutableArrayRef.size.
    cbn [ArrayRef.make ArrayRef.m_size ArrayRef.m_start].
    destruct (index <? MutableArrayRef.m_size self); reflexivity. }
  split; [apply Hslice|].
  unfold ArrayRef.drop_front, ArrayRef.drop_back, ArrayRef.take_front,
    ArrayRef.take_back, MutableArrayRef.drop_front, MutableArrayRef.drop_back,
    MutableArrayRef.take_front, MutableArrayRef.take_back, bind, BLI_assert.
  change (ArrayRef.size (MutableArrayRef.to_ArrayRef self))
    with (MutableArrayRef.size self).
  destruct (n <=? MutableArrayRef.size self); unfold ret, stop;
    repeat split; try reflexivity; apply Hslice.
Qed.

(** ** Pointers into a view *)

(** X22.  For an element type of positive size, [contains_ptr] accepts the
    address of the element at position [k] of the underlying array exactly
    when [k] is a position of the view: the addresses of its elements, and
    neither the address one past its last element nor any before its
    first. *)
Theorem X22_contains_ptr_of_element_addresses
    (sizeof_T : Z) (self : ArrayRef.t) (k : Z) :
  0 < sizeof_T ->
  ArrayRef.contains_ptr sizeof_T self (ArrayRef.m_start self + k * sizeof_T)
  = (0 <=? k) && (k <? ArrayRef.size self).
Proof.
  intros Hs.
  unfold ArrayRef.contains_ptr, ArrayRef.begin_, ArrayRef.end_, ArrayRef.size.
  destruct (Z.leb_spec (ArrayRef.m_start self)
              (ArrayRef.m_start self + k * sizeof_T));
    destruct (Z.leb_spec 0 k); try nia;
    destruct (Z.ltb_spec (ArrayRef.m_start self + k * sizeof_T)
                (ArrayRef.m_start self + ArrayRef.m_size self * sizeof_T));
    destruct (Z.ltb_spec k (ArrayRef.m_size self)); try nia; reflexivity.
Qed.

End Views.

(** * Concrete runs on array views *)

Lemma X12_witness :
  (exists part,
     @ArrayRef.slice nat string 4 ArrayRefExample.five 1 3 Example.world0
     = (Returned part, Example.world0) /\
     ArrayRef.size part = 3 /\
     within 4 part ArrayRefExample.five /\
     elements 4 part Example.memory0
     = firstn 3 (skipn 1 (elements 4 ArrayRefExample.five Example.memory0))) /\
  @ArrayRef.slice nat string 4 ArrayRefExample.five 3 3 Example.world0
  = (AssertionFailed, Example.world0).
Proof.
  split.
  - apply (proj1 (@X12_slice_without_wraparound nat string 4
                    ArrayRefExample.five 1 3 Example.world0
                    ltac:(lia) ltac:(unfold is_uint, uint_modulus; lia)
                    ltac:(unfold is_uint, uint_modulus; lia)
                    ltac:(unfold uint_modulus; lia))).
    simpl. lia.
  - apply (proj2 (@X12_slice_without_wraparound nat string 4
                    ArrayRefExample.five 3 3 Example.world0
                    ltac:(lia) ltac:(unfold is_uint, uint_modulus; lia)
                    ltac:(unfold is_uint, uint_modulus; lia)
                    ltac:(unfold uint_modulus; lia))).
    simpl. lia.
Defined.

Lemma X13_witness :
  exists part,
    @ArrayRef.slice nat string 4 ArrayRefExample.five (2 ^ 32 - 1) 2
      Example.world0 = (Returned part, Example.world0) /\
    ArrayRef.size part = 2 /\
    ArrayRef.end_ 4 ArrayRefExample.five < ArrayRef.end_ 4 part /\
    ~ within 4 part ArrayRefExample.five.
Proof.
  apply (@X13_slice_bound_wraps_around nat string 4 ArrayRefExample.five
           (2 ^ 32 - 1) 2 Example.world0);
    unfold is_uint, uint_modulus; simpl; lia.
Defined.

Lemma X14_witness :
  exists front back front' back',
    @ArrayRef.take_front nat string 4 ArrayRefExample.five 2 Example.world0
    = (Returned front, Example.world0) /\
    @ArrayRef.drop_front nat string 4 ArrayRefExample.five 2 Example.world0
    = (Returned back, Example.world0) /\
    @ArrayRef.drop_back nat string 4 ArrayRefExample.five 2 Example.world0
    = (Returned front', Example.world0) /\
    @ArrayRef.take_back nat string 4 ArrayRefExample.five 2 Example.world0
    = (Returned back', Example.world0) /\
    ArrayRef.size front = 2 /\ ArrayRef.size back' = 2 /\
    splits 4 ArrayRefExample.five front back /\
    splits 4 ArrayRefExample.five front' back' /\
    elements 4 front Example.memory0 ++ elements 4 back Example.memory0
    = elements 4 ArrayRefExample.five Example.memory0 /\
    elements 4 front' Example.memory0 ++ elements 4 back' Example.memory0
    = elements 4 ArrayRefExample.five Example.memory0.
Proof.
  apply (proj1 (@X14_take_and_drop_split_the_view nat string 4
                  ArrayRefExample.five 2 Example.world0
                  ltac:(unfold is_uint, uint_modulus; lia)
                  ltac:(unfold is_uint, uint_modulus; simpl; lia))).
  simpl. lia.
Defined.

Lemma X15_witness :
  @ArrayRef.subscript nat string 4 ArrayRefExample.five 2 Example.world0
  = @at_index nat string Value
      (elements 4 ArrayRefExample.five (memory Example.world0))
      (Z.to_nat 2) Example.world0.
Proof.
  apply (@X15_subscript_is_lookup_in_elements nat string 4
           ArrayRefExample.five 2 Example.world0).
  lia.
Defined.

Lemma X16_witness :
  @ArrayRef.subscript nat string 4 ArrayRefExample.five 7 Example.world0
  = (AssertionFailed, Example.world0) /\
  @ArrayRef.get nat string 4 ArrayRefExample.five 7 [xff] Example.world0
  = (Returned [xff], Example.world0).
Proof.
  destruct (@X16_get_agrees_with_subscript nat string 4 ArrayRefExample.five
              7 [xff] Example.world0 ltac:(lia)) as (_ & _ & Hpast).
  apply Hpast. simpl. lia.
Defined.

Lemma X17_witness :
  @ArrayRef.first nat string 4 ArrayRefExample.five Example.world0
  = (Returned (hd [] (elements 4 ArrayRefExample.five
                        (memory Example.world0))), Example.world0) /\
  @ArrayRef.last nat string 4 ArrayRefExample.five Example.world0
  = (Returned (List.last (elements 4 ArrayRefExample.five
                            (memory Example.world0)) []), Example.world0).
Proof.
  destruct (@X17_first_and_last nat string 4 ArrayRefExample.five
              Example.world0
              ltac:(unfold is_uint, uint_modulus; simpl; lia))
    as (Hsome & _).
  destruct (Hsome ltac:(simpl; lia)) as (Hfirst & Hlast & _).
  split; [exact Hfirst | exact Hlast].
Defined.

Lemma X18_witness :
  @ArrayRef.contains nat string 4 ArrayRefExample.bytes_eq
    ArrayRefExample.five [x05; x06; x07; x08] Example.world0
  = (Returned
       (existsb (fun e => ArrayRefExample.bytes_eq e [x05; x06; x07; x08])
          (elements 4 ArrayRefExample.five (memory Example.world0))),
     Example.world0) /\
  @ArrayRef.count nat string 4 ArrayRefExample.bytes_eq
    ArrayRefExample.five [x05; x06; x07; x08] Example.world0
  = (Returned
       (Z.of_nat
          (length
             (filter
                (fun e => ArrayRefExample.bytes_eq e [x05; x06; x07; x08])
                (elements 4 ArrayRefExample.five (memory Example.world0))))),
     Example.world0).
Proof.
  destruct (@X18_contains_and_count nat string 4 ArrayRefExample.bytes_eq
              ArrayRefExample.five [x05; x06; x07; x08] Example.world0
              ltac:(unfold is_uint, uint_modulus; simpl; lia))
    as (Hcontains & Hcount & _).
  split; [exact Hcontains | exact Hcount].
Defined.

Lemma X19_witness :
  exists w',
    @MutableArrayRef.fill nat string 4 ArrayRefExample.five_mutable
      [xff; xfe; xfd; xfc] Example.world0 = (Returned tt, w') /\
    elements 4 (MutableArrayRef.to_ArrayRef ArrayRefExample.five_mutable)
      (memory w')
    = repeat [xff; xfe; xfd; xfc] 5.
Proof.
  destruct (@X19_fill_sets_every_element nat string 4
              ArrayRefExample.five_mutable [xff; xfe; xfd; xfc]
              Example.world0 eq_refl) as (w' & Hrun & _ & _ & Hall & _).
  exists w'. split; [exact Hrun | exact Hall].
Defined.

Lemma X20_witness :
  exists w',
    @MutableArrayRef.fill_indices nat string 4 ArrayRefExample.uint_of_bytes
      ArrayRefExample.five_mutable ArrayRefExample.indices_313
      [xff; xfe; xfd; xfc] ArrayRefExample.world_with_indices
    = (Returned tt, w') /\
    mem_read (memory w') (1000 + 3 * 4) 4 = [xff; xfe; xfd; xfc] /\
    mem_read (memory w') (1000 + 1 * 4) 4 = [xff; xfe; xfd; xfc] /\
    memory w' 1008 = ArrayRefExample.memory_with_indices 1008.
Proof.
  destruct (@X20_fill_indices_assigns_each_indexed_element nat string 4
              ArrayRefExample.uint_of_bytes ArrayRefExample.five_mutable
              ArrayRefExample.indices_313 [xff; xfe; xfd; xfc]
              ArrayRefExample.world_with_indices eq_refl)
    as (w' & Hrun & _ & _ & Hin & Hout).
  - simpl. lia.
  - intros i a Hi. vm_compute in Hi.
    destruct Hi as [<-|[<-|[<-|[]]]]; unfold in_region; simpl; lia.
  - exists w'. split; [exact Hrun|].
    split; [apply (Hin 3); vm_compute; auto|].
    split; [apply (Hin 1); vm_compute; auto|].
    apply Hout. intros i Hi. vm_compute in Hi.
    destruct Hi as [<-|[<-|[<-|[]]]]; unfold in_region; simpl; lia.
Defined.

Lemma X22_witness :
  ArrayRef.contains_ptr 4 ArrayRefExample.five
    (ArrayRef.m_start ArrayRefExample.five + 5 * 4)
  = (0 <=? 5) && (5 <? ArrayRef.size ArrayRefExample.five).
Proof.
  apply (X22_contains_ptr_of_element_addresses 4 ArrayRefExample.five 5).
  lia.
Defined.

(** * Properties of array execution on arrays in memory *)

Section ArraysInMemory.

Context {ExecutionContext Failure : Type}.
Local Abbreviation M := (@M ExecutionContext Failure).
Local Abbreviation World := (@World ExecutionContext).
Local Abbreviation Outcome := (@Outcome Failure).
Local Abbreviation Function := (@Function ExecutionContext Failure).
Local Abbreviation ArrayExecution := (@ArrayExecution ExecutionContext Failure).
Local Abbreviation LLVMArrayExecution :=
  (@LLVMArrayExecution ExecutionContext Failure).
Local Abbreviation TupleCallBody := (@TupleCallBody ExecutionContext Failure).

Variable layout : Layout.

(** ** Reading an array *)

Lemma nth_error_elements_cases sizeof_T view m i :
  nth_error (elements sizeof_T view m) i
  = if Z.of_nat i <? ArrayRef.m_size view
    then Some (mem_read m (ArrayRef.m_start view + Z.of_nat i * sizeof_T)
                 sizeof_T)
    else None.
Proof.
  destruct (Z.ltb_spec (Z.of_nat i) (ArrayRef.m_size view)) as [H|H].
  - apply nth_error_elements. lia.
  - apply nth_error_None. rewrite length_elements. lia.
Qed.

Lemma pointer_at_eq (buffers : ArrayRef.t) i (w : World) :
  @InMemory.pointer_at ExecutionContext Failure layout buffers i w
  = at_index (view_pointers layout buffers (memory w)) i w.
Proof.
  unfold InMemory.pointer_at, ArrayRef.subscript, at_index, view_pointers.
  rewrite nth_error_map, nth_error_elements_cases.
  unfold bind, BLI_assert.
  destruct (Z.of_nat i <? ArrayRef.m_size buffers); reflexivity.
Qed.

Lemma mutable_pointer_at_eq (buffers : MutableArrayRef.t) i (w : World) :
  @InMemory.mutable_pointer_at ExecutionContext Failure layout buffers i w
  = at_index (view_pointers layout (MutableArrayRef.to_ArrayRef buffers)
                (memory w)) i w.
Proof.
  unfold InMemory.mutable_pointer_at, MutableArrayRef.subscript, at_index,
    view_pointers.
  rewrite nth_error_map, nth_error_elements_cases.
  unfold bind, BLI_assert. cbn.
  unfold MutableArrayRef.size, MutableArrayRef.data.
  destruct (Z.of_nat i <? MutableArrayRef.m_size buffers); reflexivity.
Qed.

Lemma length_view_pointers view m :
  length (view_pointers layout view m) = Z.to_nat (ArrayRef.size view).
Proof. unfold view_pointers. rewrite length_map. apply length_elements. Qed.

Lemma length_view_uints view m :
  length (view_uints layout view m) = Z.to_nat (ArrayRef.size view).
Proof. unfold view_uints. rewrite length_map. apply length_elements. Qed.

(** Two memories that agree on an array show the same elements. *)
Lemma elements_agree sizeof_T view m m' :
  (forall a, in_view sizeof_T view a -> m' a = m a) ->
  elements sizeof_T view m' = elements sizeof_T view m.
Proof.
  intros H. unfold elements. apply map_ext_in. intros i Hi.
  apply in_seq in Hi. unfold mem_read. apply map_ext_in. intros j Hj.
  apply in_seq in Hj. apply H. unfold in_view, in_region, ArrayRef.begin_,
    ArrayRef.size. nia.
Qed.

Lemma view_pointers_agree view m m' :
  (forall a, in_view (sizeof_pointer layout) view a -> m' a = m a) ->
  view_pointers layout view m' = view_pointers layout view m.
Proof.
  intros H. unfold view_pointers. rewrite (elements_agree _ _ _ _ H).
  reflexivity.
Qed.

Lemma view_uints_agree view m m' :
  (forall a, in_view 4 view a -> m' a = m a) ->
  view_uints layout view m' = view_uints layout view m.
Proof.
  intros H. unfold view_uints. rewrite (elements_agree _ _ _ _ H).
  reflexivity.
Qed.

(** ** Loops that agree *)

Lemma for_each_agree {A S} (body1 body2 : A -> S -> M S)
    (P : S -> World -> Prop) xs :
  (forall x acc w, In x xs -> P acc w -> body1 x acc w = body2 x acc w) ->
  (forall x acc w acc' w',
      In x xs -> P acc w -> body2 x acc w = (Returned acc', w') ->
      P acc' w') ->
  forall acc w,
    P acc w -> for_each xs acc body1 w = for_each xs acc body2 w.
Proof.
  induction xs as [|x xs IH]; intros Hstep Hkeep acc w HP.
  - reflexivity.
  - cbn [for_each]. unfold bind.
    rewrite (Hstep x acc w (or_introl eq_refl) HP).
    destruct (body2 x acc w) as [[acc'| |e|] w'] eqn:E; try reflexivity.
    apply IH.
    + intros y acc0 w0 Hy. apply Hstep. right. exact Hy.
    + intros y acc0 w0 acc1 w1 Hy. apply Hkeep. right. exact Hy.
    + apply (Hkeep x acc w acc' w' (or_introl eq_refl) HP E).
Qed.


Lemma at_index_inv {A} (xs : list A) i (w : World) x w' :
  at_index xs i w = ((Returned x, w') : Outcome A * World) ->
  nth_error xs i = Some x /\ w' = w.
Proof.
  unfold at_index. destruct (nth_error xs i); intros H; inversion H; auto.
Qed.

(** ** The boxed strategy, one index *)

(** Copying the inputs in does not write to memory, so every buffer pointer
    it reads is the one the array showed when the loop began. *)
Lemma copy_inputs_on_view (self : ArrayExecution) input_buffers index fn_in
    (w : World) :
  InMemory.copy_inputs layout self input_buffers index fn_in w
  = copy_inputs self (view_pointers layout input_buffers (memory w)) index
      fn_in w.
Proof.
  unfold InMemory.copy_inputs, copy_inputs, for_range.
  apply (for_each_agree _ _ (fun _ w1 => memory w1 = memory w)).
  - intros i acc w1 _ Hm. unfold bind at 1 3.
    rewrite pointer_at_eq, Hm. reflexivity.
  - intros i acc w1 acc' w' _ Hm H.
    apply bind_inv_Returned in H. destruct H as (buffer & w2 & H1 & H).
    apply at_index_inv in H1. destruct H1 as [_ ->].
    apply bind_inv_Returned in H. destruct H as (element_size & w2 & H1 & H).
    apply at_index_inv in H1. destruct H1 as [_ ->].
    apply copy_in__dynamic_inv in H. destruct H as [H _]. congruence.
  - reflexivity.
Qed.

Lemma relocate_out__dynamic_keeps t slot dst (w : World) t' w' :
  relocate_out__dynamic t slot dst w
  = ((Returned t', w') : Outcome Tuple * World) ->
  tuple_meta t' = tuple_meta t /\
  exists info v,
    nth_error (tuple_meta t) slot = Some info /\
    memory w' = mem_write (memory w) dst (size info) v.
Proof.
  unfold relocate_out__dynamic, bind, at_index.
  destruct (nth_error (tuple_meta t) slot) as [info|]; [|discriminate].
  unfold ret at 1.
  destruct (nth_error (tuple_slots t) slot) as [[v|]|]; try discriminate.
  unfold ret, get_memory, put_memory, emit. simpl.
  intros H. inversion H; subst. split; [reflexivity|]. exists info, v. auto.
Qed.

(** Relocating the outputs of an index out reads every buffer pointer after
    the outputs before it have been written: as long as these do not lie on
    the array of buffer pointers, the pointers are those the array showed
    when the loop began. *)
Lemma relocate_outputs_on_view (self : ArrayExecution)
    (output_buffers : MutableArrayRef.t) index fn_out (w : World) :
  let buffers :=
    view_pointers layout (MutableArrayRef.to_ArrayRef output_buffers)
      (memory w) in
  map size (tuple_meta fn_out) = m_output_sizes self ->
  (forall k a,
      (k < output_amount (m_function self))%nat ->
      in_region (element_ptr buffers (m_output_sizes self) index k)
        (nth k (m_output_sizes self) 0) a ->
      ~ in_view (sizeof_pointer layout)
          (MutableArrayRef.to_ArrayRef output_buffers) a) ->
  InMemory.relocate_outputs layout self output_buffers index fn_out w
  = relocate_outputs self buffers index fn_out w.
Proof.
  intros buffers Hmeta Hkept.
  unfold InMemory.relocate_outputs, relocate_outputs, for_range.
  apply (for_each_agree _ _
           (fun acc w1 =>
              map size (tuple_meta acc) = m_output_sizes self /\
              forall a,
                in_view (sizeof_pointer layout)
                  (MutableArrayRef.to_ArrayRef output_buffers) a ->
                memory w1 a = memory w a)).
  - intros i acc w1 _ [_ Hm]. unfold bind at 1 3.
    rewrite mutable_pointer_at_eq, (view_pointers_agree _ _ _ Hm).
    reflexivity.
  - intros i acc w1 acc' w' Hi [Hsz Hm] H. apply in_seq in Hi.
    apply bind_inv_Returned in H. destruct H as (buffer & w2 & H1 & H).
    apply at_index_inv in H1. destruct H1 as [Hb ->].
    apply bind_inv_Returned in H. destruct H as (element_size & w2 & H1 & H).
    apply at_index_inv in H1. destruct H1 as [Hs ->].
    apply relocate_out__dynamic_keeps in H.
    destruct H as (Hmeta' & info & v & Hinfo & Hmem).
    split; [congruence|].
    intros a Ha. rewrite Hmem, mem_write_outside; [apply Hm; exact Ha|].
    intros Hr. apply (Hkept i a); [lia| |exact Ha].
    unfold element_ptr. rewrite (nth_error_nth _ _ _ Hb).
    rewrite (nth_error_nth _ _ _ Hs).
    replace element_size with (size info) in *; [exact Hr|].
    rewrite <- Hsz in Hs. rewrite nth_error_map, Hinfo in Hs.
    inversion Hs. reflexivity.
  - split; [exact Hmeta | reflexivity].
Qed.

Lemma TupleCallBody_call_keeps (b : TupleCallBody) fn_in fn_out (w : World)
    frames w' :
  TupleCallBody_call b fn_in fn_out w = (Returned frames, w') ->
  memory w' = memory w /\
  tuple_meta (fst frames) = tuple_meta fn_in /\
  tuple_meta (snd frames) = tuple_meta fn_out.
Proof.
  rewrite TupleCallBody_call_eq.
  destruct (tuple_call b fn_in fn_out (context w)); intros H;
    inversion H; subst; auto.
Qed.

Lemma copy_inputs_keeps (self : ArrayExecution) input_buffers index fn_in
    (w : World) fn_in' w' :
  copy_inputs self input_buffers index fn_in w = (Returned fn_in', w') ->
  memory w' = memory w /\ tuple_meta fn_in' = tuple_meta fn_in.
Proof.
  unfold copy_inputs. intros H.
  apply (@for_range_rule ExecutionContext Failure _ _
           (fun _ acc w1 =>
              memory w1 = memory w /\ tuple_meta acc = tuple_meta fn_in)
           (fun _ _ => True)) in H.
  - exact H.
  - intros i acc w1 o w2 _ [Hm Ht] Hb.
    destruct o as [acc'| |e|]; auto.
    apply bind_inv_Returned in Hb. destruct Hb as (buffer & w3 & H1 & Hb).
    apply at_index_inv in H1. destruct H1 as [_ ->].
    apply bind_inv_Returned in Hb. destruct Hb as (es & w3 & H1 & Hb).
    apply at_index_inv in H1. destruct H1 as [_ ->].
    apply copy_in__dynamic_inv in Hb.
    destruct Hb as (Hm' & info & _ & ->). split; [congruence | exact Ht].
  - auto.
Qed.

(** One index: what the code does on the arrays in memory is what the
    definition on lists does on the buffer pointers the two arrays show
    when the index begins. *)
Lemma tuple_call_index_on_view (self : ArrayExecution) (b : TupleCallBody)
    input_buffers (output_buffers : MutableArrayRef.t) index fn_in fn_out
    (w : World) :
  let inputs := view_pointers layout input_buffers (memory w) in
  let outputs :=
    view_pointers layout (MutableArrayRef.to_ArrayRef output_buffers)
      (memory w) in
  map size (tuple_meta fn_out) = m_output_sizes self ->
  (forall k a,
      (k < output_amount (m_function self))%nat ->
      in_region (element_ptr outputs (m_output_sizes self) index k)
        (nth k (m_output_sizes self) 0) a ->
      ~ in_view (sizeof_pointer layout)
          (MutableArrayRef.to_ArrayRef output_buffers) a) ->
  InMemory.tuple_call_index layout self b input_buffers output_buffers index
    (fn_in, fn_out) w
  = tuple_call_index self b inputs outputs index (fn_in, fn_out) w.
Proof.
  intros inputs outputs Hmeta Hkept.
  unfold InMemory.tuple_call_index, tuple_call_index.
  unfold bind at 1 4. rewrite copy_inputs_on_view. fold inputs.
  destruct (copy_inputs self inputs index fn_in w) as [[fn_in1| |e|] w1] eqn:E1;
    try reflexivity.
  apply copy_inputs_keeps in E1. destruct E1 as [Hm1 _].
  unfold bind at 1 3.
  destruct (TupleCallBody_call b fn_in1 fn_out w1)
    as [[[fn_in2 fn_out2]| |e|] w2] eqn:E2; try reflexivity.
  apply TupleCallBody_call_keeps in E2. destruct E2 as (Hm2 & _ & Ht2).
  cbn [snd] in Ht2.
  unfold bind at 1 2.
  rewrite relocate_outputs_on_view.
  - rewrite Hm2, Hm1. reflexivity.
  - congruence.
  - rewrite Hm2, Hm1. exact Hkept.
Qed.


(** ** The boxed strategy, the whole call *)

(** The indices a view shows from position [j] on, [n] of them. *)
Lemma view_uints_from view m :
  view_uints layout view m
  = map (fun i => uint_of_bytes layout
                    (mem_read m (ArrayRef.m_start view + Z.of_nat i * 4) 4))
      (seq 0 (Z.to_nat (ArrayRef.size view))).
Proof. unfold view_uints, elements. rewrite map_map. reflexivity. Qed.

(** What one index leaves: the frames keep their types, and memory changes
    inside the output elements of the index only. *)
Lemma tuple_call_index_keeps (self : ArrayExecution) (b : TupleCallBody)
    inputs outputs index frames (w : World) frames' w' :
  length inputs = input_amount (m_function self) ->
  length (m_input_sizes self) = input_amount (m_function self) ->
  length outputs = output_amount (m_function self) ->
  length (m_output_sizes self) = output_amount (m_function self) ->
  map size (tuple_meta (fst frames)) = m_input_sizes self ->
  map size (tuple_meta (snd frames)) = m_output_sizes self ->
  tuple_call_index self b inputs outputs index frames w
  = (Returned frames', w') ->
  map size (tuple_meta (fst frames')) = m_input_sizes self /\
  map size (tuple_meta (snd frames')) = m_output_sizes self /\
  forall a,
    (forall k, (k < output_amount (m_function self))%nat ->
               ~ in_region (element_ptr outputs (m_output_sizes self) index k)
                   (nth k (m_output_sizes self) 0) a) ->
    memory w' a = memory w a.
Proof.
  intros Hib His Hob Hos Hmi Hmo Hstep. destruct frames as [fn_in fn_out].
  assert (Hloop : for_each [index] (fn_in, fn_out)
                    (tuple_call_index self b inputs outputs) w
                  = (Returned frames', w')).
  { cbn [for_each]. unfold bind. rewrite Hstep. reflexivity. }
  apply tuple_loop_spec in Hloop; auto.
  destruct Hloop as (_ & Hframe & Hm1 & Hm2 & _).
  split; [exact Hm1|]. split; [exact Hm2|].
  intros a Ha. apply Hframe. intros (index' & k & [<-|[]] & Hk & Hr).
  apply (Ha k Hk Hr).
Qed.

(** The loop over the index array: as long as no output element of the
    indices still to come lies on one of the three arrays, every index and
    every buffer pointer read is the one the arrays showed in [m0]. *)
Lemma tuple_loop_on_view (self : ArrayExecution) (b : TupleCallBody)
    indices_view input_buffers (output_buffers : MutableArrayRef.t)
    (m0 : Memory) :
  let inputs := view_pointers layout input_buffers m0 in
  let outputs :=
    view_pointers layout (MutableArrayRef.to_ArrayRef output_buffers) m0 in
  let out_ptr := element_ptr outputs (m_output_sizes self) in
  let n_out := output_amount (m_function self) in
  length inputs = input_amount (m_function self) ->
  length (m_input_sizes self) = input_amount (m_function self) ->
  length outputs = n_out ->
  length (m_output_sizes self) = n_out ->
  forall n j frames (w : World),
    let rest :=
      map (fun i => uint_of_bytes layout
                      (mem_read m0 (ArrayRef.m_start indices_view
                                    + Z.of_nat i * 4) 4))
        (seq j n) in
    (j + n <= Z.to_nat (ArrayRef.size indices_view))%nat ->
    map size (tuple_meta (fst frames)) = m_input_sizes self ->
    map size (tuple_meta (snd frames)) = m_output_sizes self ->
    (forall a,
        in_view 4 indices_view a \/
        in_view (sizeof_pointer layout) input_buffers a \/
        in_view (sizeof_pointer layout)
          (MutableArrayRef.to_ArrayRef output_buffers) a ->
        memory w a = m0 a) ->
    indices_kept indices_view out_ptr (m_output_sizes self) n_out rest ->
    pointers_kept layout input_buffers output_buffers out_ptr
      (m_output_sizes self) n_out rest ->
    InMemory.for_each_index layout
      (ArrayRef.begin_ indices_view + 4 * Z.of_nat j) n frames
      (InMemory.tuple_call_index layout self b input_buffers output_buffers) w
    = for_each rest frames (tuple_call_index self b inputs outputs) w.
Proof.
  intros inputs outputs out_ptr n_out Hib His Hob Hos.
  induction n as [|n IH]; intros j frames w rest Hj Hmi Hmo Hm Hik Hpk.
  - reflexivity.
  - subst rest. cbn [seq map InMemory.for_each_index for_each].
    unfold bind at 1. rewrite deref_eq.
    assert (Hread : mem_read (memory w)
                      (ArrayRef.begin_ indices_view + 4 * Z.of_nat j) 4
                    = mem_read m0 (ArrayRef.m_start indices_view
                                   + Z.of_nat j * 4) 4).
    { replace (ArrayRef.begin_ indices_view + 4 * Z.of_nat j)
        with (ArrayRef.m_start indices_view + Z.of_nat j * 4)
        by (unfold ArrayRef.begin_; lia).
      apply mem_read_ext. intros a Ha. apply Hm. left.
      unfold in_view, in_region, ArrayRef.begin_ in *. lia. }
    rewrite Hread.
    set (index := uint_of_bytes layout
                    (mem_read m0 (ArrayRef.m_start indices_view
                                  + Z.of_nat j * 4) 4)) in *.
    assert (Hin : view_pointers layout input_buffers (memory w) = inputs).
    { apply view_pointers_agree. intros a Ha. apply Hm. auto. }
    assert (Hout : view_pointers layout
                     (MutableArrayRef.to_ArrayRef output_buffers) (memory w)
                   = outputs).
    { apply view_pointers_agree. intros a Ha. apply Hm. auto. }
    destruct frames as [fn_in fn_out]. cbn [fst snd] in Hmi, Hmo.
    unfold bind at 1 2.
    rewrite tuple_call_index_on_view; [rewrite Hin, Hout| exact Hmo |].
    + destruct (tuple_call_index self b inputs outputs index (fn_in, fn_out) w)
        as [[frames'| |e|] w'] eqn:E; try reflexivity.
      apply tuple_call_index_keeps in E; auto.
      destruct E as (Hmi' & Hmo' & Hframe).
      replace (ArrayRef.begin_ indices_view + 4 * Z.of_nat j + 4)
        with (ArrayRef.begin_ indices_view + 4 * Z.of_nat (S j)) by lia.
      apply IH; auto.
      * lia.
      * intros a Ha. rewrite Hframe; [apply Hm; exact Ha|].
        intros k Hk Hr.
        destruct Ha as [Ha|Ha].
        -- apply (Hik index k a (or_introl eq_refl) Hk Hr Ha).
        -- destruct (Hpk index k a (or_introl eq_refl) Hk Hr) as [H1 H2].
           destruct Ha; contradiction.
      * intros i k a Hi. apply Hik. right. exact Hi.
      * intros i k a Hi. apply Hpk. right. exact Hi.
    + rewrite Hout. intros k a Hk Hr.
      apply (Hpk index k a (or_introl eq_refl) Hk Hr).
Qed.

Lemma InMemory_call_arity (self : ArrayExecution) indices_view input_buffers
    (output_buffers : MutableArrayRef.t) (w : World) :
  ArrayRef.size input_buffers <> Z.of_nat (input_amount (m_function self)) \/
  MutableArrayRef.size output_buffers
    <> Z.of_nat (output_amount (m_function self)) ->
  InMemory.TupleCallArrayExecution_call layout self indices_view input_buffers
    output_buffers w
  = (AssertionFailed, w).
Proof.
  intros H. unfold InMemory.TupleCallArrayExecution_call.
  destruct (Z.eqb_spec (Z.of_nat (input_amount (m_function self)))
              (ArrayRef.size input_buffers)) as [Hi|Hi].
  - destruct (Z.eqb_spec (Z.of_nat (output_amount (m_function self)))
                (MutableArrayRef.size output_buffers)) as [Ho|Ho].
    + destruct H as [H|H]; congruence.
    + reflexivity.
  - reflexivity.
Qed.

(** After its assertions [call] allocates the two frames, once, and runs
    the loop over the index array on them. *)
Lemma InMemory_call_unfold (self : ArrayExecution)
    (b : TupleCallBody) in_infos out_infos indices_view input_buffers
    (output_buffers : MutableArrayRef.t) :
  all_extensions ext_CPPTypeInfo (input_types (m_function self))
    = Some in_infos ->
  all_extensions ext_CPPTypeInfo (output_types (m_function self))
    = Some out_infos ->
  body_TupleCall (m_function self) = Some b ->
  ArrayRef.size input_buffers = Z.of_nat (input_amount (m_function self)) ->
  MutableArrayRef.size output_buffers
  = Z.of_nat (output_amount (m_function self)) ->
  forall (w : World),
    InMemory.TupleCallArrayExecution_call layout self indices_view
      input_buffers output_buffers w
    = bind (InMemory.for_each_index layout (ArrayRef.begin_ indices_view)
              (Z.to_nat (ArrayRef.size indices_view))
              ({| tuple_meta := in_infos;
                  tuple_slots := repeat None (input_amount (m_function self)) |},
               {| tuple_meta := out_infos;
                  tuple_slots := repeat None (output_amount (m_function self)) |})
              (InMemory.tuple_call_index layout self b input_buffers
                 output_buffers))
           (fun _ => ret tt)
           {| memory := memory w; context := context w;
              llvm_contexts_held := llvm_contexts_held w;
              trace := trace w
                ++ [EvAllocTuple InputFrame (input_amount (m_function self));
                    EvAllocTuple OutputFrame (output_amount (m_function self))] |}.
Proof.
  intros Ei Eo Hb Hib Hob w.
  unfold InMemory.TupleCallArrayExecution_call.
  rewrite <- Hib, <- Hob, !Z.eqb_refl. simpl BLI_assert.
  rewrite Hb. unfold body.
  unfold bind at 1. unfold ret at 1.
  unfold bind at 1. unfold ret at 1.
  unfold bind at 1. unfold ret at 1.
  unfold bind at 1. rewrite alloc_tuple_eq, Ei.
  unfold bind at 1. rewrite alloc_tuple_eq, Eo. simpl.
  rewrite <- app_assoc. reflexivity.
Qed.

(** The whole call: with a size table as the constructor records it, views
    whose sizes are not negative and no output element of the indices on
    one of the three arrays, [call] on the arrays in memory is [call] on
    the lists the arrays show when it begins. *)
Lemma TupleCallArrayExecution_call_on_view (self : ArrayExecution)
    indices_view input_buffers (output_buffers : MutableArrayRef.t)
    (w : World) :
  let indices := view_uints layout indices_view (memory w) in
  let inputs := view_pointers layout input_buffers (memory w) in
  let outputs :=
    view_pointers layout (MutableArrayRef.to_ArrayRef output_buffers)
      (memory w) in
  let out_ptr := element_ptr outputs (m_output_sizes self) in
  sizes_recorded self ->
  0 <= ArrayRef.size input_buffers ->
  0 <= MutableArrayRef.size output_buffers ->
  indices_kept indices_view out_ptr (m_output_sizes self)
    (output_amount (m_function self)) indices ->
  pointers_kept layout input_buffers output_buffers out_ptr
    (m_output_sizes self) (output_amount (m_function self)) indices ->
  InMemory.TupleCallArrayExecution_call layout self indices_view input_buffers
    output_buffers w
  = TupleCallArrayExecution_call self indices inputs outputs w.
Proof.
  intros indices inputs outputs out_ptr Hsz Hi0 Ho0 Hik Hpk.
  destruct (sizes_recorded_inv self Hsz)
    as (in_infos & out_infos & Ei & Eo & Hmi & Hmo & His & Hos).
  assert (Hli : length inputs = Z.to_nat (ArrayRef.size input_buffers))
    by apply length_view_pointers.
  assert (Hlo : length outputs
                = Z.to_nat (MutableArrayRef.size output_buffers))
    by apply length_view_pointers.
  destruct (Z.eq_dec (ArrayRef.size input_buffers)
              (Z.of_nat (input_amount (m_function self)))) as [Hib|Hib];
    [destruct (Z.eq_dec (MutableArrayRef.size output_buffers)
                 (Z.of_nat (output_amount (m_function self)))) as [Hob|Hob]|].
  - destruct (body_TupleCall (m_function self)) as [b|] eqn:Hb.
    + rewrite (InMemory_call_unfold self b in_infos out_infos _ _ _
                 Ei Eo Hb Hib Hob).
      rewrite (TupleCallArrayExecution_call_unfold self b in_infos out_infos
                 inputs outputs Ei Eo Hb) by lia.
      unfold bind.
      replace (ArrayRef.begin_ indices_view)
        with (ArrayRef.begin_ indices_view + 4 * Z.of_nat 0) by lia.
      unfold indices in *. rewrite view_uints_from in *.
      rewrite (tuple_loop_on_view self b indices_view input_buffers
                 output_buffers (memory w)); auto; try lia;
        fold inputs; fold outputs; try lia.
    + unfold InMemory.TupleCallArrayExecution_call,
        TupleCallArrayExecution_call.
      rewrite <- Hib, <- Hob, !Z.eqb_refl.
      replace (input_amount (m_function self)) with (length inputs) by lia.
      replace (output_amount (m_function self)) with (length outputs) by lia.
      rewrite !Nat.eqb_refl. rewrite Hb. reflexivity.
  - rewrite InMemory_call_arity by auto.
    rewrite TupleCallArrayExecution_call_arity; [reflexivity|].
    right. lia.
  - rewrite InMemory_call_arity by auto.
    rewrite TupleCallArrayExecution_call_arity; [reflexivity|].
    left. lia.
Qed.


(** ** The emitted function *)

Lemma bind_agree {A B} (c1 c2 : M A) (k1 k2 : A -> M B) (w : World) :
  c1 w = c2 w ->
  (forall a w', c2 w = (Returned a, w') -> k1 a w' = k2 a w') ->
  bind c1 k1 w = bind c2 k2 w.
Proof.
  intros Hc Hk. unfold bind. rewrite Hc.
  destruct (c2 w) as [[a| |e|] w'] eqn:E; try reflexivity.
  apply Hk. reflexivity.
Qed.

Lemma CreateLoadAtIndex_inv (array : list Z) i (w : World) x w' :
  CreateLoadAtIndex array i w = ((Returned x, w') : Outcome Z * World) ->
  nth_error array i = Some x /\ w' = w.
Proof.
  unfold CreateLoadAtIndex. destruct (nth_error array i); intros H;
    inversion H; auto.
Qed.

Lemma InMemory_CreateLoadAtIndex_eq sizeof_T of_bytes array i (w : World) :
  InMemory.CreateLoadAtIndex sizeof_T of_bytes array i w
  = ((Returned (of_bytes (mem_read (memory w)
                            (array + Z.of_nat i * sizeof_T) sizeof_T)), w)
     : Outcome Z * World).
Proof. reflexivity. Qed.

Lemma nth_error_view_pointers view m i :
  (Z.of_nat i < ArrayRef.size view) ->
  nth_error (view_pointers layout view m) i
  = Some (pointer_of_bytes layout
            (mem_read m (ArrayRef.begin_ view
                         + Z.of_nat i * sizeof_pointer layout)
               (sizeof_pointer layout))).
Proof.
  intros H. unfold view_pointers.
  rewrite nth_error_map, nth_error_elements_cases.
  unfold ArrayRef.size in H.
  destruct (Z.ltb_spec (Z.of_nat i) (ArrayRef.m_size view)); [|lia].
  reflexivity.
Qed.

Lemma nth_error_view_uints view m i :
  (Z.of_nat i < ArrayRef.size view) ->
  nth_error (view_uints layout view m) i
  = Some (uint_of_bytes layout
            (mem_read m (ArrayRef.begin_ view + Z.of_nat i * 4) 4)).
Proof.
  intros H. unfold view_uints.
  rewrite nth_error_map, nth_error_elements_cases.
  unfold ArrayRef.size in H.
  destruct (Z.ltb_spec (Z.of_nat i) (ArrayRef.m_size view)); [|lia].
  reflexivity.
Qed.

(** The loop shared by [get_input_buffers] and [get_output_buffers]: the
    buffer pointers are loaded from the array before anything is stored. *)
Lemma typed_buffers_on_view (sizes : list Z) view n (w : World) :
  Z.of_nat n <= ArrayRef.size view ->
  for_range n []
    (fun i buffers =>
       bind (at_index sizes i) (fun element_size =>
       bind (InMemory.CreateLoadAtIndex (sizeof_pointer layout)
               (pointer_of_bytes layout) (ArrayRef.begin_ view) i)
         (fun buffer =>
       ret (buffers ++ [CastToPointerWithStride buffer element_size])))) w
  = (for_range n []
       (fun i buffers =>
          bind (at_index sizes i) (fun element_size =>
          bind (CreateLoadAtIndex (view_pointers layout view (memory w)) i)
            (fun buffer =>
          ret (buffers ++ [CastToPointerWithStride buffer element_size])))) w
     : Outcome (list StridedPointer) * World).
Proof.
  intros Hn. unfold for_range.
  apply (for_each_agree _ _ (fun _ w1 => w1 = w)).
  - intros i acc w1 Hi ->. apply in_seq in Hi.
    apply bind_agree; [reflexivity|]. intros element_size w' H.
    apply at_index_inv in H. destruct H as [_ ->].
    unfold bind at 1 2. rewrite InMemory_CreateLoadAtIndex_eq.
    unfold CreateLoadAtIndex.
    rewrite nth_error_view_pointers by lia. reflexivity.
  - intros i acc w1 acc' w' _ -> H.
    apply bind_inv_Returned in H. destruct H as (es & w2 & H1 & H).
    apply at_index_inv in H1. destruct H1 as [_ ->].
    apply bind_inv_Returned in H. destruct H as (buffer & w2 & H1 & H).
    apply CreateLoadAtIndex_inv in H1. destruct H1 as [_ ->].
    inversion H. reflexivity.
  - reflexivity.
Qed.

Section Typed.

Variable type_ir : LLVMTypeInfo -> TypeIR.

(** For a type of plain bytes the load is the byte copy. *)
Lemma build_load_ir__copy_plain infos sizes i info (addr : StridedPointer)
    (w : World) :
  plain_types type_ir infos sizes ->
  nth_error infos i = Some info ->
  stride addr = nth i sizes 0 ->
  @InMemory.build_load_ir__copy ExecutionContext Failure type_ir info i addr w
  = build_load_ir__copy info i addr w.
Proof.
  intros Hplain Hinfo Hstride.
  unfold InMemory.build_load_ir__copy, build_load_ir__copy.
  unfold bind, get_memory, emit, ret. cbn.
  destruct (Hplain i info (memory w) (address addr) [] Hinfo) as [-> _].
  rewrite Hstride. reflexivity.
Qed.

Lemma build_store_ir__relocate_plain infos sizes i info value
    (addr : StridedPointer) (w : World) :
  plain_types type_ir infos sizes ->
  nth_error infos i = Some info ->
  stride addr = nth i sizes 0 ->
  @InMemory.build_store_ir__relocate ExecutionContext Failure type_ir info i
    value addr w
  = build_store_ir__relocate info i value addr w.
Proof.
  intros Hplain Hinfo Hstride.
  unfold InMemory.build_store_ir__relocate, build_store_ir__relocate.
  unfold bind, get_memory, put_memory, emit, ret. cbn.
  destruct (Hplain i info (memory w) (address addr) value Hinfo) as [_ ->].
  rewrite Hstride. reflexivity.
Qed.

Lemma get_input_values_plain (self : ArrayExecution) infos buffers index
    (w : World) :
  plain_types type_ir infos (m_input_sizes self) ->
  (forall i p, nth_error buffers i = Some p ->
               stride p = nth i (m_input_sizes self) 0) ->
  InMemory.get_input_values type_ir self infos buffers index w
  = get_input_values self infos buffers index w.
Proof.
  intros Hplain Hstride.
  unfold InMemory.get_input_values, get_input_values, for_range.
  apply (for_each_agree _ _ (fun _ _ => True)); auto.
  intros i acc w1 _ _.
  apply bind_agree; [reflexivity|]. intros buffer w2 H.
  apply at_index_inv in H. destruct H as [Hb ->].
  apply bind_agree; [reflexivity|]. intros info w2 H.
  apply at_index_inv in H. destruct H as [Hi ->].
  apply bind_agree; [|reflexivity].
  apply (build_load_ir__copy_plain infos (m_input_sizes self)); auto.
  cbn. apply Hstride. exact Hb.
Qed.

Lemma store_output_values_plain (self : ArrayExecution) infos buffers index
    results (w : World) :
  plain_types type_ir infos (m_output_sizes self) ->
  (forall i p, nth_error buffers i = Some p ->
               stride p = nth i (m_output_sizes self) 0) ->
  InMemory.store_output_values type_ir self infos buffers index results w
  = store_output_values self infos buffers index results w.
Proof.
  intros Hplain Hstride.
  unfold InMemory.store_output_values, store_output_values, for_range.
  apply (for_each_agree _ _ (fun _ _ => True)); auto.
  intros i acc w1 _ _.
  apply bind_agree; [reflexivity|]. intros buffer w2 H.
  apply at_index_inv in H. destruct H as [Hb ->].
  apply bind_agree; [reflexivity|]. intros value w2 _.
  apply bind_agree; [reflexivity|]. intros info w3 H.
  apply at_index_inv in H. destruct H as [Hi ->].
  apply (build_store_ir__relocate_plain infos (m_output_sizes self)); auto.
  cbn. apply Hstride. exact Hb.
Qed.

Lemma stride_strided_buffers buffers sizes n i p :
  nth_error (strided_buffers buffers sizes n) i = Some p ->
  stride p = nth i sizes 0.
Proof.
  unfold strided_buffers. rewrite nth_error_map, nth_error_seq.
  destruct (Nat.ltb i n); intros H; inversion H. reflexivity.
Qed.

(** The emitted function: with types of plain bytes, as many buffer
    pointers as the function has inputs and outputs and no output element
    of the indices on the index array, the emitted function on the three
    addresses is the definition on the lists the arrays show when it
    begins. *)
Lemma emitted_function_on_view (self : ArrayExecution) in_infos out_infos
    (native : NativeBody) indices_view input_buffers
    (output_buffers : MutableArrayRef.t) (w : World) :
  let indices := view_uints layout indices_view (memory w) in
  let inputs := view_pointers layout input_buffers (memory w) in
  let outputs :=
    view_pointers layout (MutableArrayRef.to_ArrayRef output_buffers)
      (memory w) in
  ArrayRef.size input_buffers = Z.of_nat (input_amount (m_function self)) ->
  MutableArrayRef.size output_buffers
  = Z.of_nat (output_amount (m_function self)) ->
  length (m_input_sizes self) = input_amount (m_function self) ->
  length (m_output_sizes self) = output_amount (m_function self) ->
  length in_infos = input_amount (m_function self) ->
  length out_infos = output_amount (m_function self) ->
  (forall values ctx,
      length (fst (native values ctx)) = output_amount (m_function self)) ->
  plain_types type_ir in_infos (m_input_sizes self) ->
  plain_types type_ir out_infos (m_output_sizes self) ->
  indices_kept indices_view (spec_element_ptr outputs (m_output_sizes self))
    (m_output_sizes self) (output_amount (m_function self)) indices ->
  InMemory.emitted_function layout type_ir self in_infos out_infos native
    (ArrayRef.size indices_view) (ArrayRef.begin_ indices_view)
    (ArrayRef.begin_ input_buffers) (MutableArrayRef.begin_ output_buffers) w
  = emitted_function self in_infos out_infos native
      (ArrayRef.size indices_view) indices inputs outputs w.
Proof.
  intros indices inputs outputs Hib Hob His Hos Hii Hoi Hty Hpi Hpo Hkept.
  assert (Hli : length inputs = input_amount (m_function self)).
  { unfold inputs. rewrite length_view_pointers. lia. }
  assert (Hlo : length outputs = output_amount (m_function self)).
  { unfold outputs. rewrite length_view_pointers. cbn.
    unfold MutableArrayRef.size in Hob. unfold MutableArrayRef.size. lia. }
  unfold InMemory.emitted_function, emitted_function.
  apply bind_agree.
  { unfold InMemory.get_input_buffers, get_input_buffers.
    apply typed_buffers_on_view. lia. }
  intros ibs w1 H1.
  rewrite get_input_buffers_spec in H1 by assumption.
  inversion H1; subst ibs w1. clear H1.
  apply bind_agree.
  { unfold InMemory.get_output_buffers, get_output_buffers.
    apply (typed_buffers_on_view (m_output_sizes self)
             (MutableArrayRef.to_ArrayRef output_buffers)).
    cbn. unfold MutableArrayRef.size in *. lia. }
  intros obs w1 H1.
  rewrite get_output_buffers_spec in H1 by assumption.
  inversion H1; subst obs w1. clear H1.
  unfold CreateNIterationsLoop, for_range.
  apply (for_each_agree _ _
           (fun _ w1 => forall a, in_view 4 indices_view a ->
                                  memory w1 a = memory w a)).
  - intros i [] w1 Hi Hm. apply in_seq in Hi.
    unfold InMemory.loop_body, loop_body.
    apply bind_agree.
    { rewrite InMemory_CreateLoadAtIndex_eq. unfold CreateLoadAtIndex.
      unfold indices. rewrite nth_error_view_uints by lia.
      unfold ret. f_equal. f_equal. f_equal. apply mem_read_ext.
      intros a Ha. apply Hm. unfold in_view, in_region in *. lia. }
    intros index w2 H. apply CreateLoadAtIndex_inv in H.
    destruct H as [_ ->].
    apply bind_agree.
    { apply get_input_values_plain; [exact Hpi|].
      intros k p. apply stride_strided_buffers. }
    intros values w2 _.
    apply bind_agree; [reflexivity|]. intros result w3 _.
    apply store_output_values_plain; [exact Hpo|].
    intros k p. apply stride_strided_buffers.
  - intros i [] w1 [] w' Hi Hm H. apply in_seq in Hi.
    unfold loop_body in H.
    assert (Hnth : nth_error indices i = Some (nth i indices 0)).
    { apply nth_error_nth'. unfold indices. rewrite length_view_uints. lia. }
    erewrite bind_Returned in H
      by (apply CreateLoadAtIndex_nth with (d := 0);
          unfold indices; rewrite length_view_uints; lia).
    rewrite (bind_Returned _ _ _ _ _
               (get_input_values_spec self in_infos inputs
                  (nth i indices 0) w1 Hii)) in H.
    unfold bind at 1 in H. rewrite CreateCall_eq in H.
    rewrite store_output_values_spec in H by (auto; apply Hty).
    inversion H; subst w'. cbn [memory].
    intros a Ha. rewrite write_elements_outside; [apply Hm; exact Ha|].
    intros k Hk Hr.
    apply (Hkept (nth i indices 0) k a); auto.
    apply nth_error_In with (n := i). exact Hnth.
  - auto.
Qed.

End Typed.

(** ** Construction of the compiled strategy *)

Section Compiled.

Variable type_ir : LLVMTypeInfo -> TypeIR.
Variable jit_fault : string -> option Failure.

Local Abbreviation InMemory_LLVMArrayExecution :=
  (@InMemory.LLVMArrayExecution ExecutionContext Failure).

(** [compile], path by path. *)
Lemma InMemory_compile_eq (self : InMemory_LLVMArrayExecution) (w : World) :
  let fn := m_function (InMemory.base self) in
  let module := (name fn ++ " (Array Execution)")%string in
  let world held events :=
    {| memory := memory w; context := context w;
       llvm_contexts_held := held;
       trace := trace w ++ events |} in
  InMemory.compile layout type_ir jit_fault self w
  = match body_LLVMBuildIR fn
      return Outcome InMemory_LLVMArrayExecution * World with
    | None =>
        (Undefined,
         world (S (llvm_contexts_held w)) [EvAquireContext; EvNewModule module])
    | Some b =>
        match build_function b with
        | BuildFailed e =>
            (Raised e,
             world (S (llvm_contexts_held w))
               [EvAquireContext; EvNewModule module; EvCreateFunction module;
                EvBuildBody (name fn)])
        | Built native =>
            match jit_fault module with
            | Some e =>
                (Raised e,
                 world (S (llvm_contexts_held w))
                   [EvAquireContext; EvNewModule module;
                    EvCreateFunction module; EvBuildBody (name fn);
                    EvFromIR module])
            | None =>
                (Returned
                   {| InMemory.base := InMemory.base self;
                      InMemory.m_input_type_infos :=
                        InMemory.m_input_type_infos self;
                      InMemory.m_output_type_infos :=
                        InMemory.m_output_type_infos self;
                      InMemory.m_compiled_function :=
                        Some {| InMemory.function_ptr :=
                                  InMemory.emitted_function layout type_ir
                                    (InMemory.base self)
                                    (InMemory.m_input_type_infos self)
                                    (InMemory.m_output_type_infos self)
                                    native |} |},
                 world (llvm_contexts_held w)
                   [EvAquireContext; EvNewModule module;
                    EvCreateFunction module; EvBuildBody (name fn);
                    EvFromIR module; EvReleaseContext])
            end
        end
    end.
Proof.
  intros fn m world. unfold world. clear world.
  unfold InMemory.compile. fold fn. fold m. clearbody m.
  unfold aquire_llvm_context, new_Module, InMemory.build_function_ir,
    LLVMBuildIRBody_build_function, InMemory.CompiledLLVM_FromIR,
    release_llvm_context, body.
  fold fn.
  destruct (body_LLVMBuildIR fn) as [b|].
  - destruct (build_function b) as [native|e] eqn:Hb.
    + destruct (jit_fault m) as [e|] eqn:Hj;
        unfold bind, put_held, emit, ret, stop; simpl; rewrite Hb, Hj; simpl;
        rewrite <- ?app_assoc; reflexivity.
    + unfold bind, put_held, emit, ret, stop. simpl. rewrite Hb. simpl.
      rewrite <- ?app_assoc. reflexivity.
  - unfold bind, put_held, emit, ret, stop. simpl.
    rewrite <- ?app_assoc. reflexivity.
Qed.

(** What the constructor of the compiled strategy establishes: the size
    table, the type infos, and the one function emitted and compiled while
    constructing. *)
Lemma InMemory_LLVMArrayExecution_new_inv (function : Function) (w : World)
    self w' :
  InMemory.LLVMArrayExecution_new layout type_ir jit_fault function w
  = (Returned self, w') ->
  let module := (name function ++ " (Array Execution)")%string in
  m_function (InMemory.base self) = function /\
  sizes_recorded (InMemory.base self) /\
  all_extensions ext_LLVMTypeInfo (input_types function)
    = Some (InMemory.m_input_type_infos self) /\
  all_extensions ext_LLVMTypeInfo (output_types function)
    = Some (InMemory.m_output_type_infos self) /\
  (exists b native,
      body_LLVMBuildIR function = Some b /\
      build_function b = Built native /\
      jit_fault module = None /\
      InMemory.m_compiled_function self
      = Some {| InMemory.function_ptr :=
                  InMemory.emitted_function layout type_ir
                    (InMemory.base self) (InMemory.m_input_type_infos self)
                    (InMemory.m_output_type_infos self) native |}) /\
  w' = {| memory := memory w; context := context w;
          llvm_contexts_held := llvm_contexts_held w;
          trace := trace w ++
            [EvAquireContext; EvNewModule module; EvCreateFunction module;
             EvBuildBody (name function); EvFromIR module;
             EvReleaseContext] |}.
Proof.
  unfold InMemory.LLVMArrayExecution_new. intros H.
  apply bind_inv_Returned in H. destruct H as (self0 & w1 & Hnew & H).
  apply ArrayExecution_new_inv in Hnew. destruct Hnew as (-> & Hfn & Hsz).
  unfold bind at 1 in H. unfold BLI_assert in H. rewrite Hfn in H.
  destruct (has_body (body_LLVMBuildIR function)) eqn:Hb; simpl in H;
    [|discriminate].
  unfold bind at 1 in H. rewrite extensions_LLVMTypeInfo_eq in H.
  destruct (all_extensions ext_LLVMTypeInfo (input_types function))
    as [ins|] eqn:Hin; [|discriminate].
  unfold bind at 1 in H. rewrite extensions_LLVMTypeInfo_eq in H.
  destruct (all_extensions ext_LLVMTypeInfo (output_types function))
    as [outs|] eqn:Hout; [|discriminate].
  rewrite InMemory_compile_eq in H. simpl in H. rewrite Hfn in H.
  destruct (body_LLVMBuildIR function) as [b|] eqn:Hbody; [|discriminate].
  destruct (build_function b) as [native|e] eqn:Hbuild; [|discriminate].
  destruct (jit_fault (name function ++ " (Array Execution)")%string)
    eqn:Hjit; [discriminate|].
  inversion H; subst self w'. simpl. repeat split; auto;
    try apply Hsz.
  exists b, native. auto.
Qed.

(** The emitted function logs nothing but element loads, calls of the
    body's function and element stores, however it ends. *)
Lemma logs_only_InMemory_emitted_function (self : ArrayExecution)
    in_infos out_infos (native : NativeBody) count indices input_buffers
    output_buffers :
  logs_only is_emitted_event
    (InMemory.emitted_function layout type_ir self in_infos out_infos native
       count indices input_buffers output_buffers).
Proof.
  assert (Hload : forall sizeof_T of_bytes array i,
             logs_only is_emitted_event
               (InMemory.CreateLoadAtIndex sizeof_T of_bytes array i : M Z)).
  { intros sizeof_T of_bytes array i. unfold InMemory.CreateLoadAtIndex.
    apply logs_only_bind; [|intros bytes; apply logs_only_ret].
    unfold ArrayRef.deref.
    apply logs_only_bind; [apply logs_only_get_memory|]. intros m.
    apply logs_only_ret. }
  assert (Hbuffers : forall sizes array n,
             logs_only is_emitted_event
               (for_range n []
                  (fun i buffers =>
                     bind (at_index sizes i) (fun element_size =>
                     bind (InMemory.CreateLoadAtIndex (sizeof_pointer layout)
                             (pointer_of_bytes layout) array i)
                       (fun buffer =>
                     ret (buffers
                          ++ [CastToPointerWithStride buffer element_size]))))
                : M (list StridedPointer))).
  { intros sizes array n. apply logs_only_for_each. intros i acc.
    apply logs_only_bind; [apply logs_only_at_index|]. intros sz.
    apply logs_only_bind; [apply Hload|]. intros buffer.
    apply logs_only_ret. }
  unfold InMemory.emitted_function.
  apply logs_only_bind; [apply Hbuffers|]. intros ibs.
  apply logs_only_bind; [apply Hbuffers|]. intros obs.
  unfold CreateNIterationsLoop. apply logs_only_for_each. intros i [].
  unfold InMemory.loop_body.
  apply logs_only_bind; [apply Hload|]. intros index.
  apply logs_only_bind.
  { unfold InMemory.get_input_values. apply logs_only_for_each. intros k acc.
    apply logs_only_bind; [apply logs_only_at_index|]. intros buffer.
    apply logs_only_bind; [apply logs_only_at_index|]. intros info.
    apply logs_only_bind; [|intros v; apply logs_only_ret].
    unfold InMemory.build_load_ir__copy.
    apply logs_only_bind; [apply logs_only_get_memory|]. intros m.
    apply logs_only_bind; [apply logs_only_emit; reflexivity|]. intros _.
    apply logs_only_ret. }
  intros values.
  apply logs_only_bind.
  { unfold CreateCall.
    apply logs_only_bind; [apply logs_only_get_context|]. intros ctx.
    destruct (native values ctx) as [result ctx'].
    apply logs_only_bind; [apply logs_only_put_context|]. intros _.
    apply logs_only_bind; [apply logs_only_emit; reflexivity|]. intros _.
    apply logs_only_ret. }
  intros result.
  unfold InMemory.store_output_values. apply logs_only_for_each. intros k [].
  apply logs_only_bind; [apply logs_only_at_index|]. intros buffer.
  apply logs_only_bind.
  { unfold CreateExtractValue. destruct (nth_error result k);
      [apply logs_only_ret | apply logs_only_stop]. }
  intros v.
  apply logs_only_bind; [apply logs_only_at_index|]. intros info.
  unfold InMemory.build_store_ir__relocate.
  apply logs_only_bind; [apply logs_only_get_memory|]. intros m.
  apply logs_only_bind; [apply logs_only_put_memory|]. intros _.
  apply logs_only_emit. reflexivity.
Qed.

(** ** Construction and invocation of the compiled strategy *)

(** C6.  When the constructor of the compiled strategy returns, it has
    generated and compiled code, once: between acquiring and releasing the
    LLVM context it created one module, had [build_function_ir] emit one
    function into it (the body's function built once) and had
    [CompiledLLVM::FromIR] compile that function.  The function has the
    five-parameter signature: it takes the count and the addresses of the
    index array and of the two arrays of buffer pointers, the context
    pointer being that of the world.  The object keeps the compiled
    function, and it is the function that [build_function_ir] emitted for
    the function the body built.  Every later [call] is that function
    applied, once, to [indices.size()], [indices.begin()],
    [input_buffers.begin()] and [output_buffers.begin()]: it logs the one
    invocation and after it only what the emitted code logs (element loads,
    calls of the body's function, element stores), no event of code
    generation or compilation, however the call ends. *)
Theorem C6_compiled_at_construction_invoked_once
    (function : Function) (w0 w0' : World)
    (self : InMemory_LLVMArrayExecution) :
  InMemory.LLVMArrayExecution_new layout type_ir jit_fault function w0
  = (Returned self, w0') ->
  let module := (name function ++ " (Array Execution)")%string in
  let uncompiled :=
    {| InMemory.base := InMemory.base self;
       InMemory.m_input_type_infos := InMemory.m_input_type_infos self;
       InMemory.m_output_type_infos := InMemory.m_output_type_infos self;
       InMemory.m_compiled_function := None |} in
  trace w0'
  = trace w0
    ++ [EvAquireContext; EvNewModule module; EvCreateFunction module;
        EvBuildBody (name function); EvFromIR module; EvReleaseContext] /\
  exists b native emitted compiled,
    body_LLVMBuildIR function = Some b /\
    build_function b = Built native /\
    emitted
    = InMemory.emitted_function layout type_ir (InMemory.base self)
        (InMemory.m_input_type_infos self)
        (InMemory.m_output_type_infos self) native /\
    InMemory.build_function_ir layout type_ir uncompiled module
      (world_at_build_function_ir function w0)
    = (Returned emitted, world_at_FromIR function w0) /\
    fst (InMemory.CompiledLLVM_FromIR jit_fault module emitted
           (world_at_FromIR function w0))
    = Returned compiled /\
    InMemory.function_ptr compiled = emitted /\
    InMemory.m_compiled_function self = Some compiled /\
    forall (indices input_buffers : ArrayRef.t)
           (output_buffers : MutableArrayRef.t) (w : World),
      let size := ArrayRef.size indices in
      let indices_ptr := ArrayRef.begin_ indices in
      let inputs_ptr := ArrayRef.begin_ input_buffers in
      let outputs_ptr := MutableArrayRef.begin_ output_buffers in
      InMemory.LLVMArrayExecution_call self indices input_buffers
        output_buffers w
      = emitted size indices_ptr inputs_ptr outputs_ptr
          {| memory := memory w; context := context w;
             llvm_contexts_held := llvm_contexts_held w;
             trace := trace w
               ++ [EvInvokeNative size indices_ptr inputs_ptr outputs_ptr] |}
      /\
      exists l,
        trace (snd (InMemory.LLVMArrayExecution_call self indices
                      input_buffers output_buffers w))
        = trace w
          ++ EvInvokeNative size indices_ptr inputs_ptr outputs_ptr :: l /\
        forallb is_emitted_event l = true /\
        forall e, In e l -> is_construction_event e = false.
Proof.
  intros Hnew module uncompiled.
  apply InMemory_LLVMArrayExecution_new_inv in Hnew.
  destruct Hnew
    as (Hfn & _ & _ & _ & (b & native & Hb & Hbuild & Hjit & Hptr) & ->).
  split; [reflexivity|].
  exists b, native. eexists. eexists.
  split; [exact Hb|]. split; [exact Hbuild|]. split; [reflexivity|].
  split.
  { unfold InMemory.build_function_ir, uncompiled. cbn [InMemory.base
      InMemory.m_input_type_infos InMemory.m_output_type_infos].
    rewrite Hfn, Hb. unfold body, LLVMBuildIRBody_build_function.
    unfold bind, emit, ret, world_at_build_function_ir, world_at_FromIR.
    cbn. rewrite Hbuild. cbn. rewrite <- !app_assoc. reflexivity. }
  split.
  { unfold InMemory.CompiledLLVM_FromIR, module. unfold bind at 1.
    unfold emit at 1. rewrite Hjit. reflexivity. }
  split; [reflexivity|]. split; [exact Hptr|].
  intros indices input_buffers output_buffers w size indices_ptr inputs_ptr
    outputs_ptr.
  assert (Hcall :
    InMemory.LLVMArrayExecution_call self indices input_buffers
      output_buffers w
    = InMemory.emitted_function layout type_ir (InMemory.base self)
        (InMemory.m_input_type_infos self)
        (InMemory.m_output_type_infos self) native
        size indices_ptr inputs_ptr outputs_ptr
        {| memory := memory w; context := context w;
           llvm_contexts_held := llvm_contexts_held w;
           trace := trace w
             ++ [EvInvokeNative size indices_ptr inputs_ptr outputs_ptr] |}).
  { unfold InMemory.LLVMArrayExecution_call. rewrite Hptr. reflexivity. }
  split; [exact Hcall|].
  rewrite Hcall.
  match goal with
  | |- context [snd (?c ?wa)] =>
      destruct (c wa) as [o w'] eqn:Hrun
  end.
  apply logs_only_InMemory_emitted_function in Hrun.
  destruct Hrun as (l & Htrace & Hok).
  exists l. cbn [snd]. rewrite Htrace. cbn [trace].
  rewrite <- app_assoc. split; [reflexivity|]. split; [exact Hok|].
  intros e He. rewrite forallb_forall in Hok. specialize (Hok e He).
  destruct e; try discriminate Hok; reflexivity.
Qed.

End Compiled.

(** ** Structure of a boxed call *)




Lemma bind_assoc {A B C} (c : M A) (k1 : A -> M B) (k2 : B -> M C)
    (w : World) :
  bind (bind c k1) k2 w = bind c (fun a => bind (k1 a) k2) w.
Proof.
  unfold bind. destruct (c w) as [[a| |e|] w1]; reflexivity.
Qed.

(** The loop over the index array reads the index at position [j] when the
    [j] indices before it have been processed, and processes it on the
    frames they left. *)
Lemma for_each_index_split {S} (body : Z -> S -> M S) j :
  forall remaining it acc (w : World),
    InMemory.for_each_index layout it (j + Datatypes.S remaining) acc body w
    = bind (InMemory.for_each_index layout it j acc body)
        (fun acc1 =>
           bind (ArrayRef.deref 4 (it + 4 * Z.of_nat j))
             (fun bytes =>
                bind (body (uint_of_bytes layout bytes) acc1)
                  (fun acc2 =>
                     InMemory.for_each_index layout
                       (it + 4 * Z.of_nat (Datatypes.S j)) remaining acc2
                       body))) w.
Proof.
  induction j as [|j IH]; intros remaining it acc w.
  - cbn [Nat.add InMemory.for_each_index]. unfold bind at 3.
    unfold ret at 1.
    replace (it + 4 * Z.of_nat 0) with it by lia.
    replace (it + 4 * Z.of_nat 1) with (it + 4) by lia.
    reflexivity.
  - cbn [Nat.add InMemory.for_each_index].
    rewrite bind_assoc. apply bind_agree; [reflexivity|]. intros bytes w1 _.
    rewrite bind_assoc. apply bind_agree; [reflexivity|]. intros acc1 w2 _.
    rewrite IH.
    replace (it + 4 + 4 * Z.of_nat j) with (it + 4 * Z.of_nat (Datatypes.S j))
      by lia.
    replace (it + 4 + 4 * Z.of_nat (Datatypes.S j))
      with (it + 4 * Z.of_nat (Datatypes.S (Datatypes.S j))) by lia.
    reflexivity.
Qed.


(** ** Order of processing *)

(** A call that got past its assertions had matching buffer counts. *)
Lemma InMemory_call_arity_inv (self : ArrayExecution) indices_view
    input_buffers (output_buffers : MutableArrayRef.t) (w : World) o w' :
  InMemory.TupleCallArrayExecution_call layout self indices_view input_buffers
    output_buffers w = (o, w') ->
  forget o <> AssertionFailed ->
  ArrayRef.size input_buffers = Z.of_nat (input_amount (m_function self)) /\
  MutableArrayRef.size output_buffers
  = Z.of_nat (output_amount (m_function self)).
Proof.
  intros Hcall Ho.
  destruct (Z.eq_dec (ArrayRef.size input_buffers)
              (Z.of_nat (input_amount (m_function self)))) as [Hib|Hib];
    [destruct (Z.eq_dec (MutableArrayRef.size output_buffers)
                 (Z.of_nat (output_amount (m_function self)))) as [Hob|Hob]|];
    auto;
    rewrite InMemory_call_arity in Hcall by auto;
    inversion Hcall; subst; contradiction Ho; reflexivity.
Qed.

Lemma app_eq_length {A} (xs xs' ys ys' : list A) :
  length xs = length xs' -> xs ++ ys = xs' ++ ys' -> xs = xs' /\ ys = ys'.
Proof.
  revert xs'. induction xs as [|x xs IH]; intros [|x' xs'] Hl H;
    try discriminate Hl.
  - auto.
  - simpl in H. inversion H; subst. destruct (IH xs') as [-> ->]; auto.
Qed.

(** The loop over the index array when it returns, with no output element
    of the indices still to come on the index array or on the array of
    output buffer pointers: every index read is the one the index array
    showed in [m0], every output is written where the output pointers of
    [m0] say, and the inputs of an index are read where the input
    pointers say when its turn comes. *)
Lemma InMemory_tuple_loop_returned (self : ArrayExecution)
    (b : TupleCallBody) indices_view input_buffers
    (output_buffers : MutableArrayRef.t) (m0 : Memory) :
  let outputs :=
    view_pointers layout (MutableArrayRef.to_ArrayRef output_buffers) m0 in
  let out_ptr := element_ptr outputs (m_output_sizes self) in
  let n_out := output_amount (m_function self) in
  let block :=
    fun ic : Z * (list Z * (list (option Value) * list (option Value))) =>
      tuple_call_events self (fst (snd ic)) outputs (fst ic)
        (snd (snd ic)) in
  ArrayRef.size input_buffers = Z.of_nat (input_amount (m_function self)) ->
  length (m_input_sizes self) = input_amount (m_function self) ->
  length outputs = n_out ->
  length (m_output_sizes self) = n_out ->
  forall n j frames (w : World) frames' w',
    let rest :=
      map (fun i => uint_of_bytes layout
                      (mem_read m0 (ArrayRef.m_start indices_view
                                    + Z.of_nat i * 4) 4))
        (seq j n) in
    (j + n <= Z.to_nat (ArrayRef.size indices_view))%nat ->
    map size (tuple_meta (fst frames)) = m_input_sizes self ->
    map size (tuple_meta (snd frames)) = m_output_sizes self ->
    (forall a,
        in_view 4 indices_view a \/
        in_view (sizeof_pointer layout)
          (MutableArrayRef.to_ArrayRef output_buffers) a ->
        memory w a = m0 a) ->
    indices_kept indices_view out_ptr (m_output_sizes self) n_out rest ->
    output_pointers_kept layout output_buffers out_ptr (m_output_sizes self)
      n_out rest ->
    InMemory.for_each_index layout
      (ArrayRef.begin_ indices_view + 4 * Z.of_nat j) n frames
      (InMemory.tuple_call_index layout self b input_buffers output_buffers) w
    = (Returned frames', w') ->
    map size (tuple_meta (fst frames')) = m_input_sizes self /\
    map size (tuple_meta (snd frames')) = m_output_sizes self /\
    (forall a,
        in_view 4 indices_view a \/
        in_view (sizeof_pointer layout)
          (MutableArrayRef.to_ArrayRef output_buffers) a ->
        memory w' a = m0 a) /\
    (forall a, ~ in_output_element self outputs rest a ->
               memory w' a = memory w a) /\
    exists calls,
      length calls = length rest /\
      trace w' = trace w ++ flat_map block (combine rest calls).
Proof.
  intros outputs out_ptr n_out block Hib His Hob Hos.
  induction n as [|n IH];
    intros j frames w frames' w' rest Hj Hmi Hmo Hm Hik Hpk Hrun.
  - cbn in Hrun. inversion Hrun; subst frames' w'.
    split; [exact Hmi|]. split; [exact Hmo|]. split; [exact Hm|].
    split; [reflexivity|]. exists []. split; [reflexivity|].
    simpl. rewrite app_nil_r. reflexivity.
  - subst rest. cbn [seq map InMemory.for_each_index] in *.
    unfold bind at 1 in Hrun. rewrite deref_eq in Hrun.
    assert (Hread : mem_read (memory w)
                      (ArrayRef.begin_ indices_view + 4 * Z.of_nat j) 4
                    = mem_read m0 (ArrayRef.m_start indices_view
                                   + Z.of_nat j * 4) 4).
    { replace (ArrayRef.begin_ indices_view + 4 * Z.of_nat j)
        with (ArrayRef.m_start indices_view + Z.of_nat j * 4)
        by (unfold ArrayRef.begin_; lia).
      apply mem_read_ext. intros a Ha. apply Hm. left.
      unfold in_view, in_region, ArrayRef.begin_ in *. lia. }
    rewrite Hread in Hrun.
    set (index := uint_of_bytes layout
                    (mem_read m0 (ArrayRef.m_start indices_view
                                  + Z.of_nat j * 4) 4)) in *.
    set (inputs := view_pointers layout input_buffers (memory w)).
    assert (Hli : length inputs = input_amount (m_function self)).
    { unfold inputs. rewrite length_view_pointers. lia. }
    assert (Hout : view_pointers layout
                     (MutableArrayRef.to_ArrayRef output_buffers) (memory w)
                   = outputs).
    { apply view_pointers_agree. intros a Ha. apply Hm. auto. }
    destruct frames as [fn_in fn_out]. cbn [fst snd] in Hmi, Hmo.
    apply bind_inv_Returned in Hrun.
    destruct Hrun as (frames1 & w1 & Hstep & Hrest).
    rewrite tuple_call_index_on_view in Hstep; [| exact Hmo |].
    2:{ rewrite Hout. intros k a Hk Hr.
        apply (Hpk index k a (or_introl eq_refl) Hk Hr). }
    rewrite Hout in Hstep. fold inputs in Hstep.
    assert (Hloop : for_each [index] (fn_in, fn_out)
                      (tuple_call_index self b inputs outputs) w
                    = (Returned frames1, w1)).
    { cbn [for_each]. unfold bind. rewrite Hstep. reflexivity. }
    apply tuple_loop_spec in Hloop; auto.
    destruct Hloop as (_ & Hframe1 & Hmi1 & Hmo1 & calls1 & Hlen1 & Htrace1).
    destruct calls1 as [|call [|c calls1]]; try discriminate Hlen1.
    cbn [combine flat_map fst snd] in Htrace1. rewrite app_nil_r in Htrace1.
    assert (Hm1 : forall a,
               in_view 4 indices_view a \/
               in_view (sizeof_pointer layout)
                 (MutableArrayRef.to_ArrayRef output_buffers) a ->
               memory w1 a = m0 a).
    { intros a Ha. rewrite Hframe1; [apply Hm; exact Ha|].
      intros (index' & k & [<-|[]] & Hk & Hr).
      destruct Ha as [Ha|Ha].
      - apply (Hik index k a (or_introl eq_refl) Hk Hr Ha).
      - apply (Hpk index k a (or_introl eq_refl) Hk Hr Ha). }
    replace (ArrayRef.begin_ indices_view + 4 * Z.of_nat j + 4)
      with (ArrayRef.begin_ indices_view + 4 * Z.of_nat (S j)) in Hrest
      by lia.
    apply IH in Hrest; auto; try lia.
    2:{ intros i k a Hi. apply Hik. right. exact Hi. }
    2:{ intros i k a Hi. apply Hpk. right. exact Hi. }
    destruct Hrest as (Hmi' & Hmo' & Hm' & Hframe' & calls & Hlen & Htrace).
    split; [exact Hmi'|]. split; [exact Hmo'|]. split; [exact Hm'|]. split.
    + intros a Ha. rewrite Hframe'.
      * apply Hframe1. intros (index' & k & [<-|[]] & Hk & Hr). apply Ha.
        exists index, k. split; [left; reflexivity | auto].
      * intros (index' & k & Hin & Hk & Hr). apply Ha.
        exists index', k. split; [right; exact Hin | auto].
    + exists ((inputs, call) :: calls). split.
      * simpl. rewrite Hlen. reflexivity.
      * rewrite Htrace, Htrace1. cbn [combine flat_map].
        unfold block at 2. cbn [fst snd]. rewrite <- app_assoc.
        reflexivity.
Qed.

(** C10 (amended).  For a boxed strategy object given by its constructor,
    on an index array none of whose output elements lies on the index
    array or on the array of output buffer pointers: a call that returns
    has processed the indices the array showed when the call began, in the
    order of the array, first to last, each occurrence once.  After the
    two frame allocations its trace is one block per element of the index
    array (one read per input, at the input pointers of that moment, one
    call of the body, one write per output at the element the output
    pointer and the index address), so a repeated index is processed once
    per occurrence.  An output element of an occurrence that no later
    write overlaps holds, when the call returns, the value the body left
    for that occurrence: of several occurrences of an index the last one
    stays. *)
Theorem C10_indices_in_order_last_write_stays
    (function : Function) (self : ArrayExecution) (w0 w0' : World)
    (pre : list Z) (index : Z) (post : list Z)
    (indices input_buffers : ArrayRef.t)
    (output_buffers : MutableArrayRef.t) (w w' : World) :
  let outputs :=
    view_pointers layout (MutableArrayRef.to_ArrayRef output_buffers)
      (memory w) in
  let out_sizes := m_output_sizes self in
  let n_out := output_amount (m_function self) in
  TupleCallArrayExecution_new function w0 = (Returned self, w0') ->
  view_uints layout indices (memory w) = pre ++ index :: post ->
  indices_kept indices (element_ptr outputs out_sizes) out_sizes n_out
    (pre ++ index :: post) ->
  output_pointers_kept layout output_buffers (element_ptr outputs out_sizes)
    out_sizes n_out (pre ++ index :: post) ->
  InMemory.TupleCallArrayExecution_call layout self indices input_buffers
    output_buffers w = (Returned tt, w') ->
  let block :=
    fun ic : Z * (list Z * (list (option Value) * list (option Value))) =>
      tuple_call_events self (fst (snd ic)) outputs (fst ic)
        (snd (snd ic)) in
  let out_ptr := element_ptr outputs out_sizes index in
  exists calls_pre inputs args results calls_post,
    length calls_pre = length pre /\
    length calls_post = length post /\
    trace w' = trace w
      ++ [EvAllocTuple InputFrame (input_amount (m_function self));
          EvAllocTuple OutputFrame n_out]
      ++ flat_map block (combine pre calls_pre)
      ++ block (index, (inputs, (args, results)))
      ++ flat_map block (combine post calls_post) /\
    forall k,
      (k < n_out)%nat ->
      (forall a,
          in_region (out_ptr k) (nth k out_sizes 0) a ->
          ~ in_output_element self outputs post a /\
          forall k', (k < k' < n_out)%nat ->
                     ~ in_region (out_ptr k') (nth k' out_sizes 0) a) ->
      mem_read (memory w') (out_ptr k) (nth k out_sizes 0)
      = element_bytes (nth k out_sizes 0) (nth k (tuple_values results) []).
Proof.
  intros outputs out_sizes n_out Hnew Hview Hik Hpk Hcall block out_ptr.
  apply TupleCallArrayExecution_new_inv in Hnew.
  destruct Hnew as (_ & Hfn & Hsz & Hhas).
  destruct (sizes_recorded_inv self Hsz)
    as (in_infos & out_infos & Ei & Eo & Hmi & Hmo & His & Hos).
  destruct (InMemory_call_arity_inv _ _ _ _ _ _ _ Hcall) as [Hib Hob];
    [discriminate|].
  rewrite <- Hfn in Hhas.
  destruct (body_TupleCall (m_function self)) as [b|] eqn:Hb; [|discriminate].
  rewrite (InMemory_call_unfold self b in_infos out_infos _ _ _
             Ei Eo Hb Hib Hob) in Hcall.
  apply bind_inv_Returned in Hcall.
  destruct Hcall as (frames & w3 & Hloop & Hret).
  inversion Hret; subst w3. clear Hret.
  assert (Hlo : length outputs = n_out).
  { unfold outputs. rewrite length_view_pointers. cbn.
    unfold MutableArrayRef.size in *. unfold n_out. lia. }
  (* the three parts of the index array *)
  assert (Hsize : Z.to_nat (ArrayRef.size indices)
                  = (length pre + S (length post))%nat).
  { rewrite <- (length_view_uints indices (memory w)), Hview.
    rewrite length_app. reflexivity. }
  rewrite view_uints_from, Hsize, seq_app, map_app in Hview.
  apply app_eq_length in Hview; [|rewrite length_map, length_seq; reflexivity].
  destruct Hview as [Epre Erest]. cbn [seq map Nat.add] in Erest.
  injection Erest as Eindex Epost.
  (* the loop, split at the index *)
  rewrite Hsize, for_each_index_split in Hloop.
  apply bind_inv_Returned in Hloop.
  destruct Hloop as ([fn_in fn_out] & w1 & Hpre & Hrest).
  apply bind_inv_Returned in Hrest.
  destruct Hrest as (bytes & w1' & Hbytes & Hrest).
  rewrite deref_eq in Hbytes. inversion Hbytes; subst bytes w1'. clear Hbytes.
  apply bind_inv_Returned in Hrest.
  destruct Hrest as ([fn_in2 fn_out2] & w2 & Hstep & Hpost).
  (* the indices before *)
  replace (ArrayRef.begin_ indices)
    with (ArrayRef.begin_ indices + 4 * Z.of_nat 0) in Hpre by lia.
  apply (InMemory_tuple_loop_returned self b indices input_buffers
           output_buffers (memory w)) in Hpre; auto; try lia.
  2:{ rewrite Epre. intros i k a Hi. apply Hik. apply in_or_app. auto. }
  2:{ rewrite Epre. intros i k a Hi. apply Hpk. apply in_or_app. auto. }
  fold outputs in Hpre. rewrite Epre in Hpre. cbn [fst snd trace memory] in Hpre.
  destruct Hpre as (Hmi1 & Hmo1 & Hm1 & _ & calls_pre & Hlen1 & Htrace1).
  (* the index *)
  assert (Hread : uint_of_bytes layout
                    (mem_read (memory w1)
                       (ArrayRef.begin_ indices
                        + 4 * Z.of_nat (length pre)) 4)
                  = index).
  { rewrite <- Eindex. f_equal.
    replace (ArrayRef.begin_ indices + 4 * Z.of_nat (length pre))
      with (ArrayRef.m_start indices + Z.of_nat (length pre) * 4)
      by (unfold ArrayRef.begin_; lia).
    rewrite ?Nat.add_0_l.
    apply mem_read_ext. intros a Ha. apply Hm1. left.
    unfold in_view, in_region, ArrayRef.begin_ in *. lia. }
  match type of Hstep with
  | context [mem_read (memory w1) ?p 4] =>
      change p
        with (ArrayRef.begin_ indices + 4 * Z.of_nat (length pre)) in Hstep
  end.
  rewrite Hread in Hstep.
  assert (Hout1 : view_pointers layout
                    (MutableArrayRef.to_ArrayRef output_buffers) (memory w1)
                  = outputs).
  { apply view_pointers_agree. intros a Ha. apply Hm1. auto. }
  set (inputs := view_pointers layout input_buffers (memory w1)).
  assert (Hli : length inputs = input_amount (m_function self)).
  { unfold inputs. rewrite length_view_pointers. lia. }
  rewrite tuple_call_index_on_view in Hstep; [| exact Hmo1 |].
  2:{ rewrite Hout1. intros k a Hk Hr.
      apply (Hpk index k a); auto. apply in_or_app. right. left.
      reflexivity. }
  rewrite Hout1 in Hstep. fold inputs in Hstep.
  destruct (tuple_call_index_spec self b inputs outputs index
              fn_in fn_out w1 _ _ Hli His Hlo Hos Hmi1 Hmo1 Hstep)
    as (args & _ & Hcase).
  destruct (tuple_call b {| tuple_meta := tuple_meta fn_in;
                            tuple_slots := args |} fn_out (context w1))
    as [in_slots out_slots ctx | e' ctx]; [|destruct Hcase; discriminate].
  destruct Hcase as (k0 & Hw2 & -> & -> & Hmeta2 & _).
  assert (Hmi2 : map size (tuple_meta {| tuple_meta := tuple_meta fn_in;
                                         tuple_slots := in_slots |})
                 = m_input_sizes self) by exact Hmi1.
  assert (Hmo2 : map size (tuple_meta fn_out2) = m_output_sizes self)
    by (rewrite Hmeta2; exact Hmo1).
  assert (Hm2 : forall a,
             in_view 4 indices a \/
             in_view (sizeof_pointer layout)
               (MutableArrayRef.to_ArrayRef output_buffers) a ->
             memory w2 a = memory w a).
  { intros a Ha. rewrite Hw2. cbn [memory].
    rewrite write_elements_outside; [apply Hm1; exact Ha|].
    intros k Hk Hr.
    assert (Hin : In index (pre ++ index :: post))
      by (apply in_or_app; right; left; reflexivity).
    destruct Ha as [Ha|Ha].
    - apply (Hik index k a Hin Hk Hr Ha).
    - apply (Hpk index k a Hin Hk Hr Ha). }
  (* the indices after *)
  match type of Hpost with
  | InMemory.for_each_index _ ?p _ _ _ _ = _ =>
      change p
        with (ArrayRef.begin_ indices
              + 4 * Z.of_nat (S (length pre))) in Hpost
  end.
  apply (fun Hi Hs Ho Hz =>
           InMemory_tuple_loop_returned self b indices input_buffers
             output_buffers (memory w) Hi Hs Ho Hz
             (length post) (S (length pre))) in Hpost; auto; try lia.
  2:{ rewrite Epost. intros i k a Hi. apply Hik. apply in_or_app.
      right. right. exact Hi. }
  2:{ rewrite Epost. intros i k a Hi. apply Hpk. apply in_or_app.
      right. right. exact Hi. }
  fold outputs in Hpost. rewrite Epost in Hpost.
  destruct Hpost as (_ & _ & _ & Hframe & calls_post & Hlen2 & Htrace2).
  exists calls_pre, inputs, args, out_slots, calls_post.
  split; [exact Hlen1|]. split; [exact Hlen2|]. split.
  - rewrite Htrace2, Hw2. cbn [trace]. rewrite Htrace1.
    unfold block, tuple_call_events. cbn [fst snd].
    rewrite <- !app_assoc. reflexivity.
  - intros k Hk Hfree.
    rewrite (mem_read_ext (memory w') (memory w2)).
    + rewrite Hw2. cbn [memory]. apply write_elements_read; [exact Hk|].
      intros a k' Ha Hk'. apply (Hfree a Ha). exact Hk'.
    + intros a Ha. apply Hframe. apply (Hfree a Ha).
Qed.

(** ** Buffer accesses *)

Lemma kept_without_wraparound (P : Z -> Prop) outputs sizes n indices :
  length sizes = n ->
  (forall index element_size,
      In index indices -> In element_size sizes ->
      0 <= index * element_size < uint_modulus) ->
  (forall index k a,
      In index indices -> (k < n)%nat ->
      in_region (spec_element_ptr outputs sizes index k) (nth k sizes 0) a ->
      ~ P a) ->
  forall index k a,
    In index indices -> (k < n)%nat ->
    in_region (element_ptr outputs sizes index k) (nth k sizes 0) a ->
    ~ P a.
Proof.
  intros Hlen Hwrap H index k a Hi Hk Hr.
  rewrite element_ptr_exact in Hr.
  - apply (H index k a Hi Hk Hr).
  - apply Hwrap; [exact Hi|]. apply nth_In. lia.
Qed.

Section Accesses.

Variable type_ir : LLVMTypeInfo -> TypeIR.

(** A call of the compiled strategy on arrays in memory, with matching
    buffer counts, types of plain bytes, a body that returns one value per
    output and no output element of the indices on the index array, is the
    emitted function of the definition on lists, run after the one
    invocation is logged. *)
Lemma InMemory_LLVMArrayExecution_call_on_view
    (jit_fault : string -> option Failure) (function : Function)
    (w0 w0' : World) (self : @InMemory.LLVMArrayExecution ExecutionContext Failure)
    indices_view input_buffers (output_buffers : MutableArrayRef.t)
    (w : World) :
  let indices := view_uints layout indices_view (memory w) in
  let inputs := view_pointers layout input_buffers (memory w) in
  let outputs :=
    view_pointers layout (MutableArrayRef.to_ArrayRef output_buffers)
      (memory w) in
  let base := InMemory.base self in
  InMemory.LLVMArrayExecution_new layout type_ir jit_fault function w0
  = (Returned self, w0') ->
  (forall b native values ctx,
      body_LLVMBuildIR function = Some b ->
      build_function b = Built native ->
      length (fst (native values ctx)) = output_amount function) ->
  ArrayRef.size input_buffers = Z.of_nat (input_amount function) ->
  MutableArrayRef.size output_buffers = Z.of_nat (output_amount function) ->
  plain_types type_ir (InMemory.m_input_type_infos self)
    (m_input_sizes base) ->
  plain_types type_ir (InMemory.m_output_type_infos self)
    (m_output_sizes base) ->
  indices_kept indices_view
    (spec_element_ptr outputs (m_output_sizes base)) (m_output_sizes base)
    (output_amount function) indices ->
  exists b native,
    body_LLVMBuildIR function = Some b /\
    build_function b = Built native /\
    InMemory.LLVMArrayExecution_call self indices_view input_buffers
      output_buffers w
    = emitted_function base (InMemory.m_input_type_infos self)
        (InMemory.m_output_type_infos self) native
        (ArrayRef.size indices_view) indices inputs outputs
        {| memory := memory w; context := context w;
           llvm_contexts_held := llvm_contexts_held w;
           trace := trace w
             ++ [EvInvokeNative (ArrayRef.size indices_view)
                   (ArrayRef.begin_ indices_view)
                   (ArrayRef.begin_ input_buffers)
                   (MutableArrayRef.begin_ output_buffers)] |}.
Proof.
  intros indices inputs outputs base Hnew Hty Hib Hob Hpi Hpo Hkept.
  apply InMemory_LLVMArrayExecution_new_inv in Hnew.
  destruct Hnew
    as (Hfn & Hsz & Hii & Hoi & (b & native & Hb & Hbuild & _ & Hptr) & _).
  destruct (sizes_recorded_inv _ Hsz)
    as (in_infos & out_infos & Ei & Eo & Hmi & Hmo & His & Hos).
  exists b, native. split; [exact Hb|]. split; [exact Hbuild|].
  unfold InMemory.LLVMArrayExecution_call. rewrite Hptr. unfold body.
  unfold bind at 1. unfold ret at 1. cbn [InMemory.function_ptr].
  unfold bind at 1. unfold emit at 1.
  fold base in Hfn, His, Hos |- *. rewrite <- Hfn in *.
  rewrite emitted_function_on_view; auto.
  - apply (all_extensions_length _ _ _ Hii).
  - apply (all_extensions_length _ _ _ Hoi).
  - intros values ctx. apply (Hty b native); assumption.
Qed.

(** C2 (amended).  For a boxed strategy object given by its constructor
    the size table is the positional element sizes of the descriptor's
    types.
    On an index array in which no product [index * element size] reaches
    [2^32] and none of whose output elements lies on the index array or
    on the two arrays of buffer pointers: the buffer accesses of a call
    that returns are, for each index in order, one read of the element at
    byte offset [index * input_size[k]] of every input buffer [k] and then
    one write of the element at byte offset [index * output_size[k]] of
    every output buffer [k], and nothing else; a call that stops early has
    made a prefix of these accesses; memory outside the output elements of
    the indices is unchanged.  With no indices a call with matching buffer
    counts returns, makes no access and leaves memory as it was.  A call
    of the compiled strategy built from the same descriptor, with matching
    buffer counts, types of plain bytes and a body that returns one value
    per output, returns with exactly these accesses on every index array
    none of whose output elements lies on the index array, whatever the
    products. *)
Theorem C2_element_accesses_without_wraparound_or_overlap
    (function : Function) (self : ArrayExecution) (w0 w0' : World)
    (indices_view input_buffers : ArrayRef.t)
    (output_buffers : MutableArrayRef.t) (w : World) :
  let indices := view_uints layout indices_view (memory w) in
  let inputs := view_pointers layout input_buffers (memory w) in
  let outputs :=
    view_pointers layout (MutableArrayRef.to_ArrayRef output_buffers)
      (memory w) in
  let out_sizes := m_output_sizes self in
  let n_out := output_amount (m_function self) in
  let out_ptr := spec_element_ptr outputs out_sizes in
  let accesses_of_indices :=
    flat_map (spec_element_accesses self inputs outputs) indices in
  TupleCallArrayExecution_new function w0 = (Returned self, w0') ->
  is_view input_buffers ->
  is_view (MutableArrayRef.to_ArrayRef output_buffers) ->
  sizes_recorded self /\
  ((forall index element_size,
       In index indices ->
       In element_size (m_input_sizes self ++ out_sizes) ->
       0 <= index * element_size < uint_modulus) ->
   indices_kept indices_view out_ptr out_sizes n_out indices ->
   pointers_kept layout input_buffers output_buffers out_ptr out_sizes n_out
     indices ->
   forall o w',
     InMemory.TupleCallArrayExecution_call layout self indices_view
       input_buffers output_buffers w = (o, w') ->
     (exists l,
         accesses (trace w') = accesses (trace w) ++ l /\
         prefix l accesses_of_indices /\
         (o = Returned tt -> l = accesses_of_indices)) /\
     (forall a,
         (forall index k,
             In index indices -> (k < n_out)%nat ->
             ~ in_region (out_ptr index k) (nth k out_sizes 0) a) ->
         memory w' a = memory w a)) /\
  (indices = [] ->
   ArrayRef.size input_buffers = Z.of_nat (input_amount (m_function self)) ->
   MutableArrayRef.size output_buffers = Z.of_nat n_out ->
   exists w',
     InMemory.TupleCallArrayExecution_call layout self indices_view
       input_buffers output_buffers w = (Returned tt, w') /\
     memory w' = memory w /\
     accesses (trace w') = accesses (trace w)) /\
  (forall (jit_fault : string -> option Failure)
          (compiled : @InMemory.LLVMArrayExecution ExecutionContext Failure)
          (wc wc' : World),
      InMemory.LLVMArrayExecution_new layout type_ir jit_fault function wc
      = (Returned compiled, wc') ->
      (forall b native values ctx,
          body_LLVMBuildIR function = Some b ->
          build_function b = Built native ->
          length (fst (native values ctx)) = output_amount function) ->
      ArrayRef.size input_buffers = Z.of_nat (input_amount function) ->
      MutableArrayRef.size output_buffers
      = Z.of_nat (output_amount function) ->
      plain_types type_ir (InMemory.m_input_type_infos compiled)
        (m_input_sizes self) ->
      plain_types type_ir (InMemory.m_output_type_infos compiled)
        out_sizes ->
      indices_kept indices_view out_ptr out_sizes n_out indices ->
      exists w',
        InMemory.LLVMArrayExecution_call compiled indices_view input_buffers
          output_buffers w = (Returned tt, w') /\
        accesses (trace w') = accesses (trace w) ++ accesses_of_indices).
Proof.
  intros indices inputs outputs out_sizes n_out out_ptr accesses_of_indices
    Hnew Hvi Hvo.
  pose proof (TupleCallArrayExecution_new_inv _ _ _ _ Hnew)
    as (_ & Hfn & Hsz & _).
  destruct (sizes_recorded_inv _ Hsz)
    as (in_infos & out_infos & Ei & Eo & Hmi & Hmo & His & Hos).
  assert (Hvi0 : 0 <= ArrayRef.size input_buffers) by (destruct Hvi; auto).
  assert (Hvo0 : 0 <= MutableArrayRef.size output_buffers)
    by (destruct Hvo; auto).
  split; [exact Hsz|]. split; [|split].
  - intros Hwrap Hik Hpk o w' Hcall.
    assert (Hwrap_out : forall index element_size,
               In index indices -> In element_size out_sizes ->
               0 <= index * element_size < uint_modulus).
    { intros index element_size Hi Hs. apply Hwrap; [exact Hi|].
      apply in_or_app. right. exact Hs. }
    rewrite TupleCallArrayExecution_call_on_view in Hcall; auto.
    + fold indices inputs outputs in Hcall.
      destruct (element_accesses_on_lists function self w0 w0' indices
                  inputs outputs w o w' Hnew Hwrap Hcall)
        as (_ & Hacc & Hframe & _).
      split; [exact Hacc | exact Hframe].
    + fold outputs indices. intros index k a.
      apply (kept_without_wraparound (in_view 4 indices_view) outputs
               out_sizes n_out indices Hos Hwrap_out Hik).
    + fold outputs indices. intros index k a Hi Hk Hr. split.
      * apply (kept_without_wraparound
                 (in_view (sizeof_pointer layout) input_buffers)
                 outputs out_sizes n_out indices Hos Hwrap_out)
          with (index := index) (k := k); auto.
        intros i' k' a' Hi' Hk' Hr'. apply (Hpk i' k' a' Hi' Hk' Hr').
      * apply (kept_without_wraparound
                 (in_view (sizeof_pointer layout)
                    (MutableArrayRef.to_ArrayRef output_buffers))
                 outputs out_sizes n_out indices Hos Hwrap_out)
          with (index := index) (k := k); auto.
        intros i' k' a' Hi' Hk' Hr'. apply (Hpk i' k' a' Hi' Hk' Hr').
  - intros Hnil Hib Hob.
    destruct (InMemory.TupleCallArrayExecution_call layout self indices_view
                input_buffers output_buffers w) as [o w'] eqn:Hcall.
    rewrite TupleCallArrayExecution_call_on_view in Hcall; auto.
    + fold indices inputs outputs in Hcall.
      destruct (element_accesses_on_lists function self w0 w0' indices
                  inputs outputs w o w' Hnew) as (_ & _ & _ & Hempty & _).
      * rewrite Hnil. intros index element_size [].
      * exact Hcall.
      * destruct Hempty as (-> & Hm & Ha); auto.
        -- unfold inputs. rewrite length_view_pointers. lia.
        -- unfold outputs. rewrite length_view_pointers. cbn.
           unfold MutableArrayRef.size in *. fold n_out. lia.
        -- exists w'. auto.
    + fold outputs indices. rewrite Hnil. intros index k a [].
    + fold outputs indices. rewrite Hnil. intros index k a [].
  - intros jit_fault compiled wc wc' Hcompiled Hty Hib Hob Hpi Hpo Hkept.
    pose proof (InMemory_LLVMArrayExecution_new_inv type_ir jit_fault
                  _ _ _ _ Hcompiled)
      as (Hfn' & Hsz' & Hii & Hoi & _).
    assert (Hbase : InMemory.base compiled = self).
    { apply same_size_table; [exact Hsz' | exact Hsz | congruence]. }
    assert (Hsi : m_input_sizes (InMemory.base compiled) = m_input_sizes self)
      by (rewrite Hbase; reflexivity).
    assert (Hso : m_output_sizes (InMemory.base compiled) = out_sizes)
      by (rewrite Hbase; reflexivity).
    destruct (InMemory_LLVMArrayExecution_call_on_view jit_fault function
                wc wc' compiled indices_view input_buffers output_buffers w
                Hcompiled Hty Hib Hob)
      as (b & native & Hb & Hbuild & Hcall).
    + rewrite Hsi. exact Hpi.
    + rewrite Hso. exact Hpo.
    + rewrite Hso. unfold n_out in Hkept. rewrite Hfn in Hkept.
      exact Hkept.
    + rewrite Hcall. fold indices inputs outputs.
      match goal with
      | |- context [emitted_function ?s ?ii ?oi ?nf ?c ?ix ?ib ?ob ?wa] =>
          destruct (emitted_function_spec s ii oi nf c ix ib ob wa)
            as (w' & Hrun & _ & (calls & Hlen & Htrace) & _)
      end.
      * unfold inputs. rewrite length_view_pointers, Hfn'. lia.
      * rewrite Hsi, Hfn', <- Hfn. exact His.
      * unfold outputs. rewrite length_view_pointers, Hfn'. cbn.
        unfold MutableArrayRef.size in *. lia.
      * rewrite Hso, Hfn', <- Hfn. exact Hos.
      * rewrite Hfn'. apply (all_extensions_length _ _ _ Hii).
      * rewrite Hfn'. apply (all_extensions_length _ _ _ Hoi).
      * intros values ctx. rewrite Hfn'. apply (Hty b native); assumption.
      * unfold indices. rewrite length_view_uints. lia.
      * exists w'. split; [exact Hrun|].
        assert (Hall : Z.to_nat (ArrayRef.size indices_view) = length indices)
          by (unfold indices; rewrite length_view_uints; reflexivity).
        rewrite Hall in Hlen. rewrite Hall, firstn_all in Htrace.
        rewrite Htrace. cbn [trace]. rewrite !accesses_app. simpl.
        rewrite accesses_native_blocks by exact Hlen.
        rewrite app_nil_r. unfold accesses_of_indices.
        f_equal. apply flat_map_agree. intros index _.
        unfold spec_element_accesses. rewrite Hsi, Hso, Hfn', <- Hfn.
        reflexivity.
Qed.

End Accesses.

(** ** Pure bodies *)

(** The boxed strategy with a pure body, on arrays none of whose output
    elements lies on them: the call returns, and memory is what processing
    the indices in order gives. *)
Lemma InMemory_TupleCallArrayExecution_call_pure (self : ArrayExecution)
    (b : TupleCallBody) (f : list Value -> list Value)
    indices_view input_buffers (output_buffers : MutableArrayRef.t)
    (w : World) :
  let indices := view_uints layout indices_view (memory w) in
  let inputs := view_pointers layout input_buffers (memory w) in
  let outputs :=
    view_pointers layout (MutableArrayRef.to_ArrayRef output_buffers)
      (memory w) in
  let out_ptr := element_ptr outputs (m_output_sizes self) in
  sizes_recorded self ->
  body_TupleCall (m_function self) = Some b ->
  TupleCallBody_computes b f ->
  (forall values, length (f values) = output_amount (m_function self)) ->
  ArrayRef.size input_buffers = Z.of_nat (input_amount (m_function self)) ->
  MutableArrayRef.size output_buffers
  = Z.of_nat (output_amount (m_function self)) ->
  indices_kept indices_view out_ptr (m_output_sizes self)
    (output_amount (m_function self)) indices ->
  pointers_kept layout input_buffers output_buffers out_ptr
    (m_output_sizes self) (output_amount (m_function self)) indices ->
  exists w',
    InMemory.TupleCallArrayExecution_call layout self indices_view
      input_buffers output_buffers w = (Returned tt, w') /\
    memory w' = boxed_memory self f inputs outputs indices (memory w) /\
    context w' = context w.
Proof.
  intros indices inputs outputs out_ptr Hsz Hb Hcomp Hf Hib Hob Hik Hpk.
  rewrite TupleCallArrayExecution_call_on_view; auto; try lia.
  apply (TupleCallArrayExecution_call_pure self b f); auto.
  - unfold inputs. rewrite length_view_pointers. lia.
  - unfold outputs. rewrite length_view_pointers. cbn.
    unfold MutableArrayRef.size in *. lia.
Qed.

(** Processing indices leaves an array alone that none of their output
    elements lies on. *)
Lemma fold_memory_keeps_view (self : ArrayExecution) f
    (ip op : Z -> nat -> Z) sizeof_T view l m0 :
  (forall index k a,
      In index l -> (k < output_amount (m_function self))%nat ->
      in_region (op index k) (nth k (m_output_sizes self) 0) a ->
      ~ in_view sizeof_T view a) ->
  forall a,
    in_view sizeof_T view a ->
    fold_left (fun m index => index_memory self f (ip index) (op index) m)
      l m0 a
    = m0 a.
Proof.
  intros H a Ha. apply fold_memory_outside.
  intros j k Hj Hk Hr. apply (H j k a Hj Hk Hr Ha).
Qed.

Section PureCompiled.

Variable type_ir : LLVMTypeInfo -> TypeIR.
Variable jit_fault : string -> option Failure.

(** The compiled strategy with a pure body and types of plain bytes, on an
    index array none of whose output elements lies on it: the call
    returns, and memory is what processing the indices in order gives. *)
Lemma InMemory_LLVMArrayExecution_call_pure (function : Function)
    (f : list Value -> list Value) (w0 w0' : World)
    (self : @InMemory.LLVMArrayExecution ExecutionContext Failure)
    indices_view input_buffers (output_buffers : MutableArrayRef.t)
    (w : World) :
  let indices := view_uints layout indices_view (memory w) in
  let inputs := view_pointers layout input_buffers (memory w) in
  let outputs :=
    view_pointers layout (MutableArrayRef.to_ArrayRef output_buffers)
      (memory w) in
  let base := InMemory.base self in
  InMemory.LLVMArrayExecution_new layout type_ir jit_fault function w0
  = (Returned self, w0') ->
  (forall b, body_LLVMBuildIR function = Some b ->
             LLVMBuildIRBody_computes b f) ->
  (forall values, length (f values) = output_amount function) ->
  ArrayRef.size input_buffers = Z.of_nat (input_amount function) ->
  MutableArrayRef.size output_buffers = Z.of_nat (output_amount function) ->
  plain_types type_ir (InMemory.m_input_type_infos self)
    (m_input_sizes base) ->
  plain_types type_ir (InMemory.m_output_type_infos self)
    (m_output_sizes base) ->
  indices_kept indices_view
    (spec_element_ptr outputs (m_output_sizes base)) (m_output_sizes base)
    (output_amount function) indices ->
  exists w',
    InMemory.LLVMArrayExecution_call self indices_view input_buffers
      output_buffers w = (Returned tt, w') /\
    memory w' = compiled_memory base f inputs outputs indices (memory w) /\
    context w' = context w.
Proof.
  intros indices inputs outputs base Hnew Hcl Hf Hib Hob Hpi Hpo Hkept.
  pose proof (InMemory_LLVMArrayExecution_new_inv type_ir jit_fault
                _ _ _ _ Hnew)
    as (Hfn & Hsz & Hii & Hoi & _).
  destruct (sizes_recorded_inv _ Hsz)
    as (in_infos & out_infos & Ei & Eo & Hmi & Hmo & His & Hos).
  assert (Hty : forall b native values ctx,
             body_LLVMBuildIR function = Some b ->
             build_function b = Built native ->
             length (fst (native values ctx)) = output_amount function).
  { intros b native values ctx Hb Hbuild.
    destruct (Hcl b Hb) as (native' & Hbuild' & Hnative).
    rewrite Hbuild in Hbuild'. inversion Hbuild'; subst native'.
    rewrite Hnative. apply Hf. }
  destruct (InMemory_LLVMArrayExecution_call_on_view type_ir jit_fault
              function w0 w0' self indices_view input_buffers output_buffers
              w Hnew Hty Hib Hob Hpi Hpo Hkept)
    as (b & native & Hb & Hbuild & Hcall).
  destruct (Hcl b Hb) as (native' & Hbuild' & Hnative).
  rewrite Hbuild in Hbuild'. inversion Hbuild'; subst native'.
  rewrite Hcall. fold indices inputs outputs base.
  fold base in Hfn, His, Hos.
  match goal with
  | |- context [emitted_function ?s ?ii ?oi ?nf ?c ?ix ?ib ?ob ?wa] =>
      destruct (emitted_function_spec s ii oi nf c ix ib ob wa)
        as (w' & Hrun & _ & _ & Hpure)
  end.
  - unfold inputs. rewrite length_view_pointers, Hfn. lia.
  - exact His.
  - unfold outputs. rewrite length_view_pointers, Hfn. cbn.
    unfold MutableArrayRef.size in *. lia.
  - exact Hos.
  - rewrite Hfn. apply (all_extensions_length _ _ _ Hii).
  - rewrite Hfn. apply (all_extensions_length _ _ _ Hoi).
  - intros values ctx. rewrite Hfn. apply (Hty b native); assumption.
  - unfold indices. rewrite length_view_uints. lia.
  - exists w'. split; [exact Hrun|].
    destruct (Hpure f Hnative) as [Hm Hc].
    assert (Hall : Z.to_nat (ArrayRef.size indices_view) = length indices)
      by (unfold indices; rewrite length_view_uints; reflexivity).
    rewrite Hall, firstn_all in Hm. auto.
Qed.

End PureCompiled.

(** ** Calling again *)

(** X10.  For the boxed strategy with a pure body and matching buffer
    counts, on arrays in memory: when no output element of the indices
    lies on the index array or on the two arrays of buffer pointers, no
    output element of the indices overlaps an input element of the
    indices, and the output elements of different indices do not overlap,
    a second call with the same arguments returns and leaves every byte of
    memory as the first call left it. *)
Theorem X10_boxed_call_again_changes_nothing
    (function : Function) (f : list Value -> list Value)
    (self : ArrayExecution) (w0 w0' : World)
    (indices_view input_buffers : ArrayRef.t)
    (output_buffers : MutableArrayRef.t) (w : World) :
  let indices := view_uints layout indices_view (memory w) in
  let inputs := view_pointers layout input_buffers (memory w) in
  let outputs :=
    view_pointers layout (MutableArrayRef.to_ArrayRef output_buffers)
      (memory w) in
  let in_ptr := element_ptr inputs (m_input_sizes self) in
  let out_ptr := element_ptr outputs (m_output_sizes self) in
  TupleCallArrayExecution_new function w0 = (Returned self, w0') ->
  (forall b, body_TupleCall function = Some b -> TupleCallBody_computes b f) ->
  (forall values, length (f values) = output_amount function) ->
  ArrayRef.size input_buffers = Z.of_nat (input_amount function) ->
  MutableArrayRef.size output_buffers = Z.of_nat (output_amount function) ->
  indices_kept indices_view out_ptr (m_output_sizes self)
    (output_amount function) indices ->
  pointers_kept layout input_buffers output_buffers out_ptr
    (m_output_sizes self) (output_amount function) indices ->
  (forall i j ki ko a,
      In i indices -> In j indices ->
      (ki < input_amount function)%nat -> (ko < output_amount function)%nat ->
      in_region (in_ptr i ki) (nth ki (m_input_sizes self) 0) a ->
      ~ in_region (out_ptr j ko) (nth ko (m_output_sizes self) 0) a) ->
  (forall i j k k' a,
      In i indices -> In j indices -> i <> j ->
      (k < output_amount function)%nat -> (k' < output_amount function)%nat ->
      in_region (out_ptr i k) (nth k (m_output_sizes self) 0) a ->
      ~ in_region (out_ptr j k') (nth k' (m_output_sizes self) 0) a) ->
  exists w1 w2,
    InMemory.TupleCallArrayExecution_call layout self indices_view
      input_buffers output_buffers w = (Returned tt, w1) /\
    InMemory.TupleCallArrayExecution_call layout self indices_view
      input_buffers output_buffers w1 = (Returned tt, w2) /\
    forall a, memory w2 a = memory w1 a.
Proof.
  intros indices inputs outputs in_ptr out_ptr Hnew Hcb Hf Hib Hob Hik Hpk
    Hio Hoo.
  apply TupleCallArrayExecution_new_inv in Hnew.
  destruct Hnew as (_ & Hfn & Hsz & Hhas). subst function.
  destruct (body_TupleCall (m_function self)) as [bt|] eqn:Hbt;
    [|discriminate].
  destruct (InMemory_TupleCallArrayExecution_call_pure self bt f indices_view
              input_buffers output_buffers w)
    as (w1 & Hrun1 & Hm1 & _); auto.
  fold indices inputs outputs in Hm1.
  assert (Ei : view_uints layout indices_view (memory w1) = indices).
  { apply view_uints_agree. intros a Ha. rewrite Hm1.
    apply (fold_memory_keeps_view self f _ _ 4 indices_view); [|exact Ha].
    exact Hik. }
  assert (Eib : view_pointers layout input_buffers (memory w1) = inputs).
  { apply view_pointers_agree. intros a Ha. rewrite Hm1.
    apply (fold_memory_keeps_view self f _ _ (sizeof_pointer layout)
             input_buffers); [|exact Ha].
    intros index k a' Hi Hk Hr. apply (Hpk index k a' Hi Hk Hr). }
  assert (Eob : view_pointers layout
                  (MutableArrayRef.to_ArrayRef output_buffers) (memory w1)
                = outputs).
  { apply view_pointers_agree. intros a Ha. rewrite Hm1.
    apply (fold_memory_keeps_view self f _ _ (sizeof_pointer layout)
             (MutableArrayRef.to_ArrayRef output_buffers)); [|exact Ha].
    intros index k a' Hi Hk Hr. apply (Hpk index k a' Hi Hk Hr). }
  destruct (InMemory_TupleCallArrayExecution_call_pure self bt f indices_view
              input_buffers output_buffers w1)
    as (w2 & Hrun2 & Hm2 & _); auto.
  { rewrite Ei, Eob. exact Hik. }
  { rewrite Ei, Eob. exact Hpk. }
  rewrite Ei, Eib, Eob in Hm2.
  exists w1, w2. split; [exact Hrun1|]. split; [exact Hrun2|].
  intros a. rewrite Hm2, Hm1. unfold boxed_memory.
  apply (fold_memory_twice self f
           (element_ptr inputs (m_input_sizes self))
           (element_ptr outputs (m_output_sizes self)));
    assumption.
Qed.

(** ** Order and repetition of indices *)

(** X6.  For the boxed strategy with a pure body and matching buffer
    counts, on two index arrays in the same memory that show the same
    indices, in whatever order and however often: when no output element
    of the indices lies on one of the two index arrays or on the two
    arrays of buffer pointers, no output element of the indices overlaps
    an input element of the indices, and the output elements of different
    indices do not overlap, the calls on the two index arrays return and
    leave the same memory. *)
Theorem X6_boxed_result_depends_on_index_set
    (function : Function) (f : list Value -> list Value)
    (self : ArrayExecution) (w0 w0' : World)
    (indices_view indices_view' input_buffers : ArrayRef.t)
    (output_buffers : MutableArrayRef.t) (w : World) :
  let indices := view_uints layout indices_view (memory w) in
  let indices' := view_uints layout indices_view' (memory w) in
  let inputs := view_pointers layout input_buffers (memory w) in
  let outputs :=
    view_pointers layout (MutableArrayRef.to_ArrayRef output_buffers)
      (memory w) in
  let in_ptr := element_ptr inputs (m_input_sizes self) in
  let out_ptr := element_ptr outputs (m_output_sizes self) in
  TupleCallArrayExecution_new function w0 = (Returned self, w0') ->
  (forall b, body_TupleCall function = Some b -> TupleCallBody_computes b f) ->
  (forall values, length (f values) = output_amount function) ->
  ArrayRef.size input_buffers = Z.of_nat (input_amount function) ->
  MutableArrayRef.size output_buffers = Z.of_nat (output_amount function) ->
  (forall x, In x indices <-> In x indices') ->
  indices_kept indices_view out_ptr (m_output_sizes self)
    (output_amount function) indices ->
  indices_kept indices_view' out_ptr (m_output_sizes self)
    (output_amount function) indices ->
  pointers_kept layout input_buffers output_buffers out_ptr
    (m_output_sizes self) (output_amount function) indices ->
  (forall i j ki ko a,
      In i indices -> In j indices ->
      (ki < input_amount function)%nat -> (ko < output_amount function)%nat ->
      in_region (in_ptr i ki) (nth ki (m_input_sizes self) 0) a ->
      ~ in_region (out_ptr j ko) (nth ko (m_output_sizes self) 0) a) ->
  (forall i j k k' a,
      In i indices -> In j indices -> i <> j ->
      (k < output_amount function)%nat -> (k' < output_amount function)%nat ->
      in_region (out_ptr i k) (nth k (m_output_sizes self) 0) a ->
      ~ in_region (out_ptr j k') (nth k' (m_output_sizes self) 0) a) ->
  exists w1 w2,
    InMemory.TupleCallArrayExecution_call layout self indices_view
      input_buffers output_buffers w = (Returned tt, w1) /\
    InMemory.TupleCallArrayExecution_call layout self indices_view'
      input_buffers output_buffers w = (Returned tt, w2) /\
    forall a, memory w1 a = memory w2 a.
Proof.
  intros indices indices' inputs outputs in_ptr out_ptr Hnew Hcb Hf Hib Hob
    Hsame Hik Hik' Hpk Hio Hoo.
  apply TupleCallArrayExecution_new_inv in Hnew.
  destruct Hnew as (_ & Hfn & Hsz & Hhas). subst function.
  destruct (body_TupleCall (m_function self)) as [bt|] eqn:Hbt;
    [|discriminate].
  destruct (InMemory_TupleCallArrayExecution_call_pure self bt f indices_view
              input_buffers output_buffers w)
    as (w1 & Hrun1 & Hm1 & _); auto.
  destruct (InMemory_TupleCallArrayExecution_call_pure self bt f indices_view'
              input_buffers output_buffers w)
    as (w2 & Hrun2 & Hm2 & _); auto.
  { intros index k a Hi. apply Hik'. apply Hsame. exact Hi. }
  { intros index k a Hi. apply Hpk. apply Hsame. exact Hi. }
  exists w1, w2. split; [exact Hrun1|]. split; [exact Hrun2|].
  intros a. rewrite Hm1, Hm2. unfold boxed_memory.
  apply (fold_memory_same_members self f
           (element_ptr inputs (m_input_sizes self))
           (element_ptr outputs (m_output_sizes self)));
    assumption.
Qed.

Section CompiledFurther.

Variable type_ir : LLVMTypeInfo -> TypeIR.
Variable jit_fault : string -> option Failure.

(** X7.  The same for the compiled strategy, whose elements are those
    of the strided pointers and whose buffer pointers are loaded once:
    with a pure body that returns one value per output, types of plain
    bytes, matching buffer counts, no output element of the indices on one
    of the two index arrays and elements that do not overlap, the calls on
    two index arrays that show the same indices return and leave the same
    memory. *)
Theorem X7_compiled_result_depends_on_index_set
    (function : Function) (f : list Value -> list Value)
    (self : @InMemory.LLVMArrayExecution ExecutionContext Failure)
    (w0 w0' : World)
    (indices_view indices_view' input_buffers : ArrayRef.t)
    (output_buffers : MutableArrayRef.t) (w : World) :
  let indices := view_uints layout indices_view (memory w) in
  let indices' := view_uints layout indices_view' (memory w) in
  let inputs := view_pointers layout input_buffers (memory w) in
  let outputs :=
    view_pointers layout (MutableArrayRef.to_ArrayRef output_buffers)
      (memory w) in
  let in_sizes := m_input_sizes (InMemory.base self) in
  let out_sizes := m_output_sizes (InMemory.base self) in
  let in_ptr := spec_element_ptr inputs in_sizes in
  let out_ptr := spec_element_ptr outputs out_sizes in
  InMemory.LLVMArrayExecution_new layout type_ir jit_fault function w0
  = (Returned self, w0') ->
  (forall b, body_LLVMBuildIR function = Some b ->
             LLVMBuildIRBody_computes b f) ->
  (forall values, length (f values) = output_amount function) ->
  ArrayRef.size input_buffers = Z.of_nat (input_amount function) ->
  MutableArrayRef.size output_buffers = Z.of_nat (output_amount function) ->
  plain_types type_ir (InMemory.m_input_type_infos self) in_sizes ->
  plain_types type_ir (InMemory.m_output_type_infos self) out_sizes ->
  (forall x, In x indices <-> In x indices') ->
  indices_kept indices_view out_ptr out_sizes (output_amount function)
    indices ->
  indices_kept indices_view' out_ptr out_sizes (output_amount function)
    indices ->
  (forall i j ki ko a,
      In i indices -> In j indices ->
      (ki < input_amount function)%nat -> (ko < output_amount function)%nat ->
      in_region (in_ptr i ki) (nth ki in_sizes 0) a ->
      ~ in_region (out_ptr j ko) (nth ko out_sizes 0) a) ->
  (forall i j k k' a,
      In i indices -> In j indices -> i <> j ->
      (k < output_amount function)%nat -> (k' < output_amount function)%nat ->
      in_region (out_ptr i k) (nth k out_sizes 0) a ->
      ~ in_region (out_ptr j k') (nth k' out_sizes 0) a) ->
  exists w1 w2,
    InMemory.LLVMArrayExecution_call self indices_view input_buffers
      output_buffers w = (Returned tt, w1) /\
    InMemory.LLVMArrayExecution_call self indices_view' input_buffers
      output_buffers w = (Returned tt, w2) /\
    forall a, memory w1 a = memory w2 a.
Proof.
  intros indices indices' inputs outputs in_sizes out_sizes in_ptr out_ptr
    Hnew Hcl Hf Hib Hob Hpi Hpo Hsame Hik Hik' Hio Hoo.
  pose proof (InMemory_LLVMArrayExecution_new_inv type_ir jit_fault
                _ _ _ _ Hnew) as (Hfn & _).
  destruct (InMemory_LLVMArrayExecution_call_pure type_ir jit_fault function
              f w0 w0' self indices_view input_buffers output_buffers w)
    as (w1 & Hrun1 & Hm1 & _); auto.
  destruct (InMemory_LLVMArrayExecution_call_pure type_ir jit_fault function
              f w0 w0' self indices_view' input_buffers output_buffers w)
    as (w2 & Hrun2 & Hm2 & _); auto.
  { intros index k a Hi. apply Hik'. apply Hsame. exact Hi. }
  exists w1, w2. split; [exact Hrun1|]. split; [exact Hrun2|].
  intros a. rewrite Hm1, Hm2. unfold compiled_memory.
  apply (fold_memory_same_members (InMemory.base self) f
           (spec_element_ptr inputs in_sizes)
           (spec_element_ptr outputs out_sizes));
    rewrite ?Hfn; assumption.
Qed.

(** X11.  The same for the compiled strategy: with a pure body that
    returns one value per output, types of plain bytes, matching buffer
    counts, no output element of the indices on the index array or on the
    two arrays of buffer pointers and elements that do not overlap, a
    second call with the same arguments returns and leaves every byte of
    memory as the first call left it. *)
Theorem X11_compiled_call_again_changes_nothing
    (function : Function) (f : list Value -> list Value)
    (self : @InMemory.LLVMArrayExecution ExecutionContext Failure)
    (w0 w0' : World)
    (indices_view input_buffers : ArrayRef.t)
    (output_buffers : MutableArrayRef.t) (w : World) :
  let indices := view_uints layout indices_view (memory w) in
  let inputs := view_pointers layout input_buffers (memory w) in
  let outputs :=
    view_pointers layout (MutableArrayRef.to_ArrayRef output_buffers)
      (memory w) in
  let in_sizes := m_input_sizes (InMemory.base self) in
  let out_sizes := m_output_sizes (InMemory.base self) in
  let in_ptr := spec_element_ptr inputs in_sizes in
  let out_ptr := spec_element_ptr outputs out_sizes in
  InMemory.LLVMArrayExecution_new layout type_ir jit_fault function w0
  = (Returned self, w0') ->
  (forall b, body_LLVMBuildIR function = Some b ->
             LLVMBuildIRBody_computes b f) ->
  (forall values, length (f values) = output_amount function) ->
  ArrayRef.size input_buffers = Z.of_nat (input_amount function) ->
  MutableArrayRef.size output_buffers = Z.of_nat (output_amount function) ->
  plain_types type_ir (InMemory.m_input_type_infos self) in_sizes ->
  plain_types type_ir (InMemory.m_output_type_infos self) out_sizes ->
  indices_kept indices_view out_ptr out_sizes (output_amount function)
    indices ->
  pointers_kept layout input_buffers output_buffers out_ptr out_sizes
    (output_amount function) indices ->
  (forall i j ki ko a,
      In i indices -> In j indices ->
      (ki < input_amount function)%nat -> (ko < output_amount function)%nat ->
      in_region (in_ptr i ki) (nth ki in_sizes 0) a ->
      ~ in_region (out_ptr j ko) (nth ko out_sizes 0) a) ->
  (forall i j k k' a,
      In i indices -> In j indices -> i <> j ->
      (k < output_amount function)%nat -> (k' < output_amount function)%nat ->
      in_region (out_ptr i k) (nth k out_sizes 0) a ->
      ~ in_region (out_ptr j k') (nth k' out_sizes 0) a) ->
  exists w1 w2,
    InMemory.LLVMArrayExecution_call self indices_view input_buffers
      output_buffers w = (Returned tt, w1) /\
    InMemory.LLVMArrayExecution_call self indices_view input_buffers
      output_buffers w1 = (Returned tt, w2) /\
    forall a, memory w2 a = memory w1 a.
Proof.
  intros indices inputs outputs in_sizes out_sizes in_ptr out_ptr
    Hnew Hcl Hf Hib Hob Hpi Hpo Hik Hpk Hio Hoo.
  pose proof (InMemory_LLVMArrayExecution_new_inv type_ir jit_fault
                _ _ _ _ Hnew) as (Hfn & _).
  destruct (InMemory_LLVMArrayExecution_call_pure type_ir jit_fault function
              f w0 w0' self indices_view input_buffers output_buffers w)
    as (w1 & Hrun1 & Hm1 & _); auto.
  fold indices inputs outputs in Hm1.
  assert (Ei : view_uints layout indices_view (memory w1) = indices).
  { apply view_uints_agree. intros a Ha. rewrite Hm1.
    apply (fold_memory_keeps_view (InMemory.base self) f _ _ 4 indices_view);
      [|exact Ha].
    rewrite Hfn. exact Hik. }
  assert (Eib : view_pointers layout input_buffers (memory w1) = inputs).
  { apply view_pointers_agree. intros a Ha. rewrite Hm1.
    apply (fold_memory_keeps_view (InMemory.base self) f _ _
             (sizeof_pointer layout) input_buffers); [|exact Ha].
    rewrite Hfn. intros index k a' Hi Hk Hr. apply (Hpk index k a' Hi Hk Hr). }
  assert (Eob : view_pointers layout
                  (MutableArrayRef.to_ArrayRef output_buffers) (memory w1)
                = outputs).
  { apply view_pointers_agree. intros a Ha. rewrite Hm1.
    apply (fold_memory_keeps_view (InMemory.base self) f _ _
             (sizeof_pointer layout)
             (MutableArrayRef.to_ArrayRef output_buffers)); [|exact Ha].
    rewrite Hfn. intros index k a' Hi Hk Hr. apply (Hpk index k a' Hi Hk Hr). }
  destruct (InMemory_LLVMArrayExecution_call_pure type_ir jit_fault function
              f w0 w0' self indices_view input_buffers output_buffers w1)
    as (w2 & Hrun2 & Hm2 & _); auto.
  { rewrite Ei, Eob. exact Hik. }
  rewrite Ei, Eib, Eob in Hm2.
  exists w1, w2. split; [exact Hrun1|]. split; [exact Hrun2|].
  intros a. rewrite Hm2, Hm1. unfold compiled_memory.
  apply (fold_memory_twice (InMemory.base self) f
           (spec_element_ptr inputs in_sizes)
           (spec_element_ptr outputs out_sizes));
    rewrite ?Hfn; assumption.
Qed.

End CompiledFurther.

(** ** Calls compose *)

Lemma view_uints_splits whole front back m :
  splits 4 whole front back ->
  0 <= ArrayRef.size front -> 0 <= ArrayRef.size back ->
  view_uints layout whole m
  = view_uints layout front m ++ view_uints layout back m.
Proof.
  intros (Hb & Hfb & He & Hs) Hf0 Hb0.
  unfold view_uints. rewrite <- map_app. f_equal.
  rewrite <- (elements_split 4 whole (ArrayRef.size front) m)
    by (unfold ArrayRef.size in *; lia).
  destruct whole as [ws wn], front as [fs fn], back as [bs bn].
  unfold ArrayRef.begin_, ArrayRef.end_, ArrayRef.size, ArrayRef.make in *.
  cbn [ArrayRef.m_start ArrayRef.m_size] in *.
  f_equal; f_equal; f_equal; lia.
Qed.

Lemma in_view_splits whole front back a :
  splits 4 whole front back ->
  0 <= ArrayRef.size front -> 0 <= ArrayRef.size back ->
  in_view 4 front a \/ in_view 4 back a -> in_view 4 whole a.
Proof.
  intros (Hb & Hfb & He & Hs) Hf0 Hb0.
  unfold in_view, in_region, ArrayRef.begin_, ArrayRef.end_, ArrayRef.size
    in *.
  lia.
Qed.

Section CompiledCompose.

Variable type_ir : LLVMTypeInfo -> TypeIR.
Variable jit_fault : string -> option Failure.

(** X5.  For both strategies built from a descriptor with a pure body
    and matching buffer counts, on arrays in memory none of whose output
    elements lies on the index array or on the two arrays of buffer
    pointers (and, for the compiled strategy, with types of plain bytes):
    when the index array is split in a front and a back part, a call on
    the front part followed by a call on the back part returns in both
    steps and leaves the memory that one call on the whole index array
    leaves. *)
Theorem X5_call_on_split_index_array
    (function : Function) (f : list Value -> list Value)
    (boxed : ArrayExecution)
    (compiled : @InMemory.LLVMArrayExecution ExecutionContext Failure)
    (wb wb' wc wc' : World)
    (whole front back input_buffers : ArrayRef.t)
    (output_buffers : MutableArrayRef.t) (w : World) :
  let indices := view_uints layout whole (memory w) in
  let outputs :=
    view_pointers layout (MutableArrayRef.to_ArrayRef output_buffers)
      (memory w) in
  let out_sizes := m_output_sizes boxed in
  let n_out := output_amount function in
  TupleCallArrayExecution_new function wb = (Returned boxed, wb') ->
  InMemory.LLVMArrayExecution_new layout type_ir jit_fault function wc
  = (Returned compiled, wc') ->
  (forall b, body_TupleCall function = Some b -> TupleCallBody_computes b f) ->
  (forall b, body_LLVMBuildIR function = Some b ->
             LLVMBuildIRBody_computes b f) ->
  (forall values, length (f values) = output_amount function) ->
  ArrayRef.size input_buffers = Z.of_nat (input_amount function) ->
  MutableArrayRef.size output_buffers = Z.of_nat (output_amount function) ->
  splits 4 whole front back ->
  0 <= ArrayRef.size front -> 0 <= ArrayRef.size back ->
  (indices_kept whole (element_ptr outputs out_sizes) out_sizes n_out
     indices ->
   pointers_kept layout input_buffers output_buffers
     (element_ptr outputs out_sizes) out_sizes n_out indices ->
   exists w1 w2 w12,
     InMemory.TupleCallArrayExecution_call layout boxed front input_buffers
       output_buffers w = (Returned tt, w1) /\
     InMemory.TupleCallArrayExecution_call layout boxed back input_buffers
       output_buffers w1 = (Returned tt, w2) /\
     InMemory.TupleCallArrayExecution_call layout boxed whole input_buffers
       output_buffers w = (Returned tt, w12) /\
     memory w12 = memory w2) /\
  (plain_types type_ir (InMemory.m_input_type_infos compiled)
     (m_input_sizes boxed) ->
   plain_types type_ir (InMemory.m_output_type_infos compiled) out_sizes ->
   indices_kept whole (spec_element_ptr outputs out_sizes) out_sizes n_out
     indices ->
   pointers_kept layout input_buffers output_buffers
     (spec_element_ptr outputs out_sizes) out_sizes n_out indices ->
   exists w1 w2 w12,
     InMemory.LLVMArrayExecution_call compiled front input_buffers
       output_buffers w = (Returned tt, w1) /\
     InMemory.LLVMArrayExecution_call compiled back input_buffers
       output_buffers w1 = (Returned tt, w2) /\
     InMemory.LLVMArrayExecution_call compiled whole input_buffers
       output_buffers w = (Returned tt, w12) /\
     memory w12 = memory w2).
Proof.
  intros indices outputs out_sizes n_out Hboxed Hcompiled Hcb Hcl Hf Hib Hob
    Hsplit Hf0 Hb0.
  set (inputs := view_pointers layout input_buffers (memory w)).
  pose proof (view_uints_splits whole front back (memory w) Hsplit Hf0 Hb0)
    as Happ.
  fold indices in Happ.
  set (fl := view_uints layout front (memory w)) in *.
  set (bl := view_uints layout back (memory w)) in *.
  assert (Hfl : forall x, In x fl -> In x indices).
  { intros x Hx. rewrite Happ. apply in_or_app. auto. }
  assert (Hbl : forall x, In x bl -> In x indices).
  { intros x Hx. rewrite Happ. apply in_or_app. auto. }
  assert (Hfw : forall a, in_view 4 front a -> in_view 4 whole a).
  { intros a Ha. apply (in_view_splits whole front back); auto. }
  assert (Hbw : forall a, in_view 4 back a -> in_view 4 whole a).
  { intros a Ha. apply (in_view_splits whole front back); auto. }
  pose proof (TupleCallArrayExecution_new_inv _ _ _ _ Hboxed)
    as (_ & Hfn & Hsz & Hhas).
  pose proof (InMemory_LLVMArrayExecution_new_inv type_ir jit_fault
                _ _ _ _ Hcompiled) as (Hfn' & Hsz' & _).
  assert (Hbase : InMemory.base compiled = boxed).
  { apply same_size_table; [exact Hsz' | exact Hsz | congruence]. }
  split.
  - intros Hik Hpk. subst function.
    destruct (body_TupleCall (m_function boxed)) as [bt|] eqn:Hbt;
      [|discriminate].
    destruct (InMemory_TupleCallArrayExecution_call_pure boxed bt f front
                input_buffers output_buffers w)
      as (w1 & Hrun1 & Hm1 & _); auto.
    { intros index k a Hi Hk Hr Ha.
      apply (Hik index k a (Hfl _ Hi) Hk Hr (Hfw _ Ha)). }
    { intros index k a Hi. apply Hpk. apply Hfl. exact Hi. }
    fold fl inputs outputs in Hm1.
    assert (Ei : view_uints layout back (memory w1) = bl).
    { apply view_uints_agree. intros a Ha. rewrite Hm1.
      apply (fold_memory_keeps_view boxed f _ _ 4 back); [|exact Ha].
      intros index k a' Hi Hk Hr Ha'.
      apply (Hik index k a' (Hfl _ Hi) Hk Hr (Hbw _ Ha')). }
    assert (Eib : view_pointers layout input_buffers (memory w1) = inputs).
    { apply view_pointers_agree. intros a Ha. rewrite Hm1.
      apply (fold_memory_keeps_view boxed f _ _ (sizeof_pointer layout)
               input_buffers); [|exact Ha].
      intros index k a' Hi Hk Hr.
      apply (Hpk index k a' (Hfl _ Hi) Hk Hr). }
    assert (Eob : view_pointers layout
                    (MutableArrayRef.to_ArrayRef output_buffers) (memory w1)
                  = outputs).
    { apply view_pointers_agree. intros a Ha. rewrite Hm1.
      apply (fold_memory_keeps_view boxed f _ _ (sizeof_pointer layout)
               (MutableArrayRef.to_ArrayRef output_buffers)); [|exact Ha].
      intros index k a' Hi Hk Hr.
      apply (Hpk index k a' (Hfl _ Hi) Hk Hr). }
    destruct (InMemory_TupleCallArrayExecution_call_pure boxed bt f back
                input_buffers output_buffers w1)
      as (w2 & Hrun2 & Hm2 & _); auto.
    { rewrite Ei, Eob. intros index k a Hi Hk Hr Ha.
      apply (Hik index k a (Hbl _ Hi) Hk Hr (Hbw _ Ha)). }
    { rewrite Ei, Eob. intros index k a Hi. apply Hpk. apply Hbl. exact Hi. }
    rewrite Ei, Eib, Eob in Hm2.
    destruct (InMemory_TupleCallArrayExecution_call_pure boxed bt f whole
                input_buffers output_buffers w)
      as (w12 & Hrun12 & Hm12 & _); auto.
    fold indices inputs outputs in Hm12.
    exists w1, w2, w12. repeat split; auto.
    rewrite Hm12, Hm2, Hm1, Happ. unfold boxed_memory. apply fold_left_app.
  - intros Hpi Hpo Hik Hpk. subst boxed. unfold out_sizes, n_out in *.
    destruct (InMemory_LLVMArrayExecution_call_pure type_ir jit_fault function
                f wc wc' compiled front input_buffers output_buffers w)
      as (w1 & Hrun1 & Hm1 & _); auto.
    { intros index k a Hi Hk Hr Ha.
      apply (Hik index k a (Hfl _ Hi) Hk Hr (Hfw _ Ha)). }
    fold fl inputs outputs in Hm1.
    assert (Ei : view_uints layout back (memory w1) = bl).
    { apply view_uints_agree. intros a Ha. rewrite Hm1.
      apply (fold_memory_keeps_view (InMemory.base compiled) f _ _ 4 back);
        [|exact Ha].
      rewrite Hfn'. intros index k a' Hi Hk Hr Ha'.
      apply (Hik index k a' (Hfl _ Hi) Hk Hr (Hbw _ Ha')). }
    assert (Eib : view_pointers layout input_buffers (memory w1) = inputs).
    { apply view_pointers_agree. intros a Ha. rewrite Hm1.
      apply (fold_memory_keeps_view (InMemory.base compiled) f _ _
               (sizeof_pointer layout) input_buffers); [|exact Ha].
      rewrite Hfn'. intros index k a' Hi Hk Hr.
      apply (Hpk index k a' (Hfl _ Hi) Hk Hr). }
    assert (Eob : view_pointers layout
                    (MutableArrayRef.to_ArrayRef output_buffers) (memory w1)
                  = outputs).
    { apply view_pointers_agree. intros a Ha. rewrite Hm1.
      apply (fold_memory_keeps_view (InMemory.base compiled) f _ _
               (sizeof_pointer layout)
               (MutableArrayRef.to_ArrayRef output_buffers)); [|exact Ha].
      rewrite Hfn'. intros index k a' Hi Hk Hr.
      apply (Hpk index k a' (Hfl _ Hi) Hk Hr). }
    destruct (InMemory_LLVMArrayExecution_call_pure type_ir jit_fault function
                f wc wc' compiled back input_buffers output_buffers w1)
      as (w2 & Hrun2 & Hm2 & _); auto.
    { rewrite Ei, Eob. intros index k a Hi Hk Hr Ha.
      apply (Hik index k a (Hbl _ Hi) Hk Hr (Hbw _ Ha)). }
    rewrite Ei, Eib, Eob in Hm2.
    destruct (InMemory_LLVMArrayExecution_call_pure type_ir jit_fault function
                f wc wc' compiled whole input_buffers output_buffers w)
      as (w12 & Hrun12 & Hm12 & _); auto.
    fold indices inputs outputs in Hm12.
    exists w1, w2, w12. repeat split; auto.
    rewrite Hm12, Hm2, Hm1, Happ. unfold compiled_memory.
    apply fold_left_app.
Qed.

(** ** Equivalence of the two strategies *)

(** X28.  For a descriptor whose boxed body and compilable body are
    the same pure function (one value per output) and whose types are
    loaded and stored as plain bytes of their size: on arrays in memory
    with matching buffer counts, an index array in which no product
    [index * element size] reaches [2^32] and none of whose output
    elements lies on the index array or on the two arrays of buffer
    pointers, the boxed and the compiled strategy built from the
    descriptor, run from the same world, both return and leave the same
    memory. *)
Theorem X28_strategies_agree_without_wraparound_or_overlap
    (function : Function) (f : list Value -> list Value)
    (boxed : ArrayExecution)
    (compiled : @InMemory.LLVMArrayExecution ExecutionContext Failure)
    (wb wb' wc wc' : World)
    (indices_view input_buffers : ArrayRef.t)
    (output_buffers : MutableArrayRef.t) (w : World) :
  let indices := view_uints layout indices_view (memory w) in
  let outputs :=
    view_pointers layout (MutableArrayRef.to_ArrayRef output_buffers)
      (memory w) in
  let out_sizes := m_output_sizes boxed in
  let n_out := output_amount function in
  TupleCallArrayExecution_new function wb = (Returned boxed, wb') ->
  InMemory.LLVMArrayExecution_new layout type_ir jit_fault function wc
  = (Returned compiled, wc') ->
  (forall b, body_TupleCall function = Some b -> TupleCallBody_computes b f) ->
  (forall b, body_LLVMBuildIR function = Some b ->
             LLVMBuildIRBody_computes b f) ->
  (forall values, length (f values) = output_amount function) ->
  ArrayRef.size input_buffers = Z.of_nat (input_amount function) ->
  MutableArrayRef.size output_buffers = Z.of_nat (output_amount function) ->
  plain_types type_ir (InMemory.m_input_type_infos compiled)
    (m_input_sizes boxed) ->
  plain_types type_ir (InMemory.m_output_type_infos compiled) out_sizes ->
  (forall index element_size,
      In index indices ->
      In element_size (m_input_sizes boxed ++ out_sizes) ->
      0 <= index * element_size < uint_modulus) ->
  indices_kept indices_view (spec_element_ptr outputs out_sizes) out_sizes
    n_out indices ->
  pointers_kept layout input_buffers output_buffers
    (spec_element_ptr outputs out_sizes) out_sizes n_out indices ->
  exists w1 w2,
    InMemory.TupleCallArrayExecution_call layout boxed indices_view
      input_buffers output_buffers w = (Returned tt, w1) /\
    InMemory.LLVMArrayExecution_call compiled indices_view input_buffers
      output_buffers w = (Returned tt, w2) /\
    memory w1 = memory w2.
Proof.
  intros indices outputs out_sizes n_out Hboxed Hcompiled Hcb Hcl Hf Hib Hob
    Hpi Hpo Hwrap Hik Hpk.
  set (inputs := view_pointers layout input_buffers (memory w)).
  pose proof (TupleCallArrayExecution_new_inv _ _ _ _ Hboxed)
    as (_ & Hfn & Hsz & Hhas).
  pose proof (InMemory_LLVMArrayExecution_new_inv type_ir jit_fault
                _ _ _ _ Hcompiled) as (Hfn' & Hsz' & _).
  assert (Hbase : InMemory.base compiled = boxed).
  { apply same_size_table; [exact Hsz' | exact Hsz | congruence]. }
  destruct (sizes_recorded_inv _ Hsz)
    as (in_infos & out_infos & Ei & Eo & Hmi & Hmo & His & Hos).
  assert (Hwrap_out : forall index element_size,
             In index indices -> In element_size out_sizes ->
             0 <= index * element_size < uint_modulus).
  { intros index element_size Hi Hs. apply Hwrap; [exact Hi|].
    apply in_or_app. right. exact Hs. }
  destruct (InMemory_LLVMArrayExecution_call_pure type_ir jit_fault function
              f wc wc' compiled indices_view input_buffers output_buffers w)
    as (w2 & Hrun2 & Hm2 & _); auto; try (rewrite Hbase; assumption).
  fold indices inputs outputs in Hm2. rewrite Hbase in Hm2.
  subst function.
  destruct (body_TupleCall (m_function boxed)) as [bt|] eqn:Hbt;
    [|discriminate].
  destruct (InMemory_TupleCallArrayExecution_call_pure boxed bt f indices_view
              input_buffers output_buffers w)
    as (w1 & Hrun1 & Hm1 & _); auto.
  { fold outputs indices. intros index k a.
    apply (kept_without_wraparound (in_view 4 indices_view) outputs
             out_sizes n_out indices Hos Hwrap_out Hik). }
  { fold outputs indices. intros index k a Hi Hk Hr. split.
    - apply (kept_without_wraparound
               (in_view (sizeof_pointer layout) input_buffers)
               outputs out_sizes n_out indices Hos Hwrap_out)
        with (index := index) (k := k); auto.
      intros i' k' a' Hi' Hk' Hr'. apply (Hpk i' k' a' Hi' Hk' Hr').
    - apply (kept_without_wraparound
               (in_view (sizeof_pointer layout)
                  (MutableArrayRef.to_ArrayRef output_buffers))
               outputs out_sizes n_out indices Hos Hwrap_out)
        with (index := index) (k := k); auto.
      intros i' k' a' Hi' Hk' Hr'. apply (Hpk i' k' a' Hi' Hk' Hr'). }
  fold indices inputs outputs in Hm1.
  exists w1, w2. split; [exact Hrun1|]. split; [exact Hrun2|].
  rewrite Hm1, Hm2. apply boxed_memory_exact; auto.
Qed.

End CompiledCompose.

End ArraysInMemory.

(** * Concrete runs on arrays in memory *)

(** What the three arrays show in the memories of the runs below. *)
Lemma example_indices_024 :
  view_uints InMemoryExample.layout (InMemoryExample.indices_view 3)
    (memory (InMemoryExample.world_of [0; 2; 4] 1000 2000))
  = [0; 2; 4].
Proof. vm_compute. reflexivity. Qed.

Lemma example_inputs_024 :
  view_pointers InMemoryExample.layout InMemoryExample.input_buffers
    (memory (InMemoryExample.world_of [0; 2; 4] 1000 2000))
  = [1000].
Proof. vm_compute. reflexivity. Qed.

Lemma example_outputs_024 :
  view_pointers InMemoryExample.layout
    (MutableArrayRef.to_ArrayRef InMemoryExample.output_buffers)
    (memory (InMemoryExample.world_of [0; 2; 4] 1000 2000))
  = [2000].
Proof. vm_compute. reflexivity. Qed.

Lemma example_indices_220 :
  view_uints InMemoryExample.layout (InMemoryExample.indices_view 3)
    (memory (InMemoryExample.world_of [2; 2; 0] 1000 2000))
  = [2] ++ 2 :: [0].
Proof. vm_compute. reflexivity. Qed.

Lemma example_outputs_220 :
  view_pointers InMemoryExample.layout
    (MutableArrayRef.to_ArrayRef InMemoryExample.output_buffers)
    (memory (InMemoryExample.world_of [2; 2; 0] 1000 2000))
  = [2000].
Proof. vm_compute. reflexivity. Qed.

Lemma example_indices_022 :
  view_uints InMemoryExample.layout (InMemoryExample.indices_view 3)
    (memory (InMemoryExample.world_of [0; 2; 2; 2; 0] 1000 2000))
  = [0; 2; 2].
Proof. vm_compute. reflexivity. Qed.

Lemma example_indices_20 :
  view_uints InMemoryExample.layout (ArrayRef.make 3012 2)
    (memory (InMemoryExample.world_of [0; 2; 2; 2; 0] 1000 2000))
  = [2; 0].
Proof. vm_compute. reflexivity. Qed.

Lemma example_inputs_02220 :
  view_pointers InMemoryExample.layout InMemoryExample.input_buffers
    (memory (InMemoryExample.world_of [0; 2; 2; 2; 0] 1000 2000))
  = [1000].
Proof. vm_compute. reflexivity. Qed.

Lemma example_outputs_02220 :
  view_pointers InMemoryExample.layout
    (MutableArrayRef.to_ArrayRef InMemoryExample.output_buffers)
    (memory (InMemoryExample.world_of [0; 2; 2; 2; 0] 1000 2000))
  = [2000].
Proof. vm_compute. reflexivity. Qed.

Lemma example_plain_types :
  plain_types InMemoryExample.type_ir [{| llvm_type_name := "i32" |}] [4].
Proof.
  intros k info m p v H. destruct k as [|k]; [|destruct k; discriminate].
  split; reflexivity.
Qed.

(** Output elements that end below 3000 lie on none of the arrays, which
    begin at 3000 or above. *)
Lemma example_indices_kept (view : ArrayRef.t) (ptr : Z -> nat -> Z)
    (indices : list Z) :
  3000 <= ArrayRef.begin_ view ->
  (forall index, In index indices -> ptr index 0%nat + 4 <= 3000) ->
  indices_kept view ptr [4] 1 indices.
Proof.
  intros Hview Hptr index k a Hi Hk Hr.
  assert (k = 0%nat) by lia. subst k. specialize (Hptr index Hi).
  unfold in_view, in_region in *. cbn [nth] in Hr. lia.
Qed.

Lemma example_pointers_kept (ptr : Z -> nat -> Z) (indices : list Z) :
  (forall index, In index indices -> ptr index 0%nat + 4 <= 3000) ->
  pointers_kept InMemoryExample.layout InMemoryExample.input_buffers
    InMemoryExample.output_buffers ptr [4] 1 indices.
Proof.
  intros Hptr index k a Hi Hk Hr.
  assert (k = 0%nat) by lia. subst k. specialize (Hptr index Hi).
  unfold in_view, in_region, ArrayRef.begin_, ArrayRef.size in *.
  cbn [InMemoryExample.layout sizeof_pointer InMemoryExample.input_buffers
       InMemoryExample.output_buffers MutableArrayRef.to_ArrayRef
       MutableArrayRef.data MutableArrayRef.size MutableArrayRef.make
       MutableArrayRef.m_start MutableArrayRef.m_size
       ArrayRef.make ArrayRef.m_start ArrayRef.m_size nth] in *.
  lia.
Qed.

Lemma example_output_pointers_kept (ptr : Z -> nat -> Z) (indices : list Z) :
  (forall index, In index indices -> ptr index 0%nat + 4 <= 3000) ->
  output_pointers_kept InMemoryExample.layout InMemoryExample.output_buffers
    ptr [4] 1 indices.
Proof.
  intros Hptr index k a Hi Hk Hr.
  apply (example_pointers_kept ptr indices Hptr index k a Hi Hk Hr).
Qed.

Ltac below_arrays :=
  let index := fresh "index" in
  let Hi := fresh "Hi" in
  intros index Hi; simpl in Hi;
  repeat (destruct Hi as [<-|Hi]; [vm_compute; discriminate|]);
  contradiction.

Ltac one_slot Hk k :=
  cbv in Hk; assert (k = 0%nat) by lia; subst k.

Ltac concrete_regions :=
  unfold in_region;
  cbv [element_ptr spec_element_ptr Example.swap_sizes
       InMemoryExample.swap_compiled InMemory.base m_input_sizes
       m_output_sizes nth POINTER_OFFSET uint_mul uint_modulus];
  simpl; lia.

Lemma C2_witness :
  let w := InMemoryExample.world_of [0; 2; 4] 1000 2000 in
  let run :=
    InMemory.TupleCallArrayExecution_call InMemoryExample.layout
      Example.swap_sizes (InMemoryExample.indices_view 3)
      InMemoryExample.input_buffers InMemoryExample.output_buffers w in
  accesses (trace (snd run))
  = [EvRead 0 1000 4; EvWrite 0 2000 4;
     EvRead 0 1008 4; EvWrite 0 2008 4;
     EvRead 0 1016 4; EvWrite 0 2016 4] /\
  memory (snd run) 2004 = memory w 2004.
Proof.
  cbv zeta.
  destruct (C2_element_accesses_without_wraparound_or_overlap
              InMemoryExample.layout InMemoryExample.type_ir
              Example.swap_fn Example.swap_sizes Example.world0 Example.world0
              (InMemoryExample.indices_view 3) InMemoryExample.input_buffers
              InMemoryExample.output_buffers
              (InMemoryExample.world_of [0; 2; 4] 1000 2000))
    as (_ & Hboxed & _).
  - reflexivity.
  - unfold is_view, is_uint, uint_modulus. simpl. lia.
  - unfold is_view, is_uint, uint_modulus. simpl. lia.
  - rewrite example_indices_024, example_inputs_024, example_outputs_024
      in Hboxed.
    destruct (Hboxed
                ltac:(intros index element_size Hi Hs;
                      unfold uint_modulus;
                      destruct Hs as [<-|[<-|[]]];
                      destruct Hi as [<-|[<-|[<-|[]]]]; lia)
                ltac:(apply example_indices_kept;
                      [simpl; lia | below_arrays])
                ltac:(apply example_pointers_kept; below_arrays)
                _ _ (surjective_pairing _))
      as ((l & Hacc & _ & Hl) & Hframe).
    split.
    + rewrite Hacc, Hl; [|vm_compute; reflexivity]. reflexivity.
    + apply Hframe. intros index k Hi Hk. one_slot Hk k.
      destruct Hi as [<-|[<-|[<-|[]]]]; concrete_regions.
Defined.

(** C2, as stated, fails in four ways.  At index [2^30] with 4-byte
    elements the boxed strategy reads and writes at byte offset 0, not at
    byte offset [2^30 * 4].  When the output element of an index lies on
    the index array (the output buffer at 2984, so that output element 5
    is [indices[1]]), the index array [5; 3] is processed as 5 and then 0:
    the elements of index 0 are accessed, which is not in the index
    sequence, and those of index 3 are not; the compiled strategy, which
    loads the indices from the same array, does the same.  When it lies on
    the array of input buffer pointers (the output buffer at 3996, so that
    output element 1 is the low half of [input_buffers[0]]), the input of
    the next index is read at the address the write left there, not inside
    the input buffer.  When it lies on the array of output buffer pointers
    (the output buffer at 4004), the output of the next index is written
    at the address the write left there, not inside the output buffer. *)
Lemma C2_counterexample :
  let boxed := fun n w =>
    InMemory.TupleCallArrayExecution_call InMemoryExample.layout
      Example.swap_sizes (InMemoryExample.indices_view n)
      InMemoryExample.input_buffers InMemoryExample.output_buffers w in
  let shown := fun n (w : @World nat) =>
    (view_uints InMemoryExample.layout (InMemoryExample.indices_view n)
       (memory w),
     view_pointers InMemoryExample.layout InMemoryExample.input_buffers
       (memory w),
     view_pointers InMemoryExample.layout
       (MutableArrayRef.to_ArrayRef InMemoryExample.output_buffers)
       (memory w)) in
  let compiled := fun n w =>
    InMemory.LLVMArrayExecution_call InMemoryExample.swap_compiled
      (InMemoryExample.indices_view n)
      InMemoryExample.input_buffers InMemoryExample.output_buffers w in
  let far := InMemoryExample.world_of [2 ^ 30] 1000 (2 ^ 33) in
  let on_indices := InMemoryExample.world_of [5; 3] 1000 2984 in
  let on_inputs := InMemoryExample.world_of [1; 0] 1000 3996 in
  let on_outputs := InMemoryExample.world_of [1; 0] 1000 4004 in
  TupleCallArrayExecution_new Example.swap_fn Example.world0
    = (Returned Example.swap_sizes, Example.world0) /\
  fst (InMemory.LLVMArrayExecution_new InMemoryExample.layout
         InMemoryExample.type_ir Example.jit_ok Example.swap_fn
         Example.world0)
    = Returned InMemoryExample.swap_compiled /\
  (shown 1 far = ([2 ^ 30], [1000], [2 ^ 33]) /\
   fst (boxed 1 far) = Returned tt /\
   accesses (trace (snd (boxed 1 far)))
   = [EvRead 0 1000 4; EvWrite 0 (2 ^ 33) 4] /\
   accesses (trace (snd (boxed 1 far)))
   <> flat_map (spec_element_accesses Example.swap_sizes [1000] [2 ^ 33])
        [2 ^ 30]) /\
  (shown 2 on_indices = ([5; 3], [1000], [2984]) /\
   fst (boxed 2 on_indices) = Returned tt /\
   accesses (trace (snd (boxed 2 on_indices)))
   = [EvRead 0 1020 4; EvWrite 0 3004 4; EvRead 0 1000 4; EvWrite 0 2984 4] /\
   accesses (trace (snd (boxed 2 on_indices)))
   <> flat_map (spec_element_accesses Example.swap_sizes [1000] [2984])
        [5; 3] /\
   fst (compiled 2 on_indices) = Returned tt /\
   accesses (trace (snd (compiled 2 on_indices)))
   = [EvRead 0 1020 4; EvWrite 0 3004 4; EvRead 0 1000 4; EvWrite 0 2984 4]) /\
  (shown 2 on_inputs = ([1; 0], [1000], [3996]) /\
   fst (boxed 2 on_inputs) = Returned tt /\
   accesses (trace (snd (boxed 2 on_inputs)))
   = [EvRead 0 1004 4; EvWrite 0 4000 4;
      EvRead 0 84281096 4; EvWrite 0 3996 4] /\
   accesses (trace (snd (boxed 2 on_inputs)))
   <> flat_map (spec_element_accesses Example.swap_sizes [1000] [3996])
        [1; 0]) /\
  (shown 2 on_outputs = ([1; 0], [1000], [4004]) /\
   fst (boxed 2 on_outputs) = Returned tt /\
   accesses (trace (snd (boxed 2 on_outputs)))
   = [EvRead 0 1004 4; EvWrite 0 4008 4;
      EvRead 0 1000 4; EvWrite 0 84281096 4] /\
   accesses (trace (snd (boxed 2 on_outputs)))
   <> flat_map (spec_element_accesses Example.swap_sizes [1000] [4004])
        [1; 0]).
Proof.
  cbv zeta. split; [reflexivity|]. split; [reflexivity|].
  repeat split; try (vm_compute; reflexivity); vm_compute; discriminate.
Qed.

(** C1.  The two strategies do not compute the same element addresses:
    the boxed strategy multiplies index and element size as [uint]s, so
    the byte offset wraps at [2^32]; the strided pointers of the compiled
    strategy do not wrap.  With the descriptor [Swap] (one 4-byte input,
    one 4-byte output, both bodies reverse the bytes), the index array
    [2^30], the input buffer at 1000 and the output buffer at [2^33], both
    strategies return; the boxed one reads input element 0 and writes
    output element 0, the compiled one reads and writes the elements at
    byte offset [2^32]; the first byte of the output buffer differs. *)
Theorem C1_boxed_offset_wraps_where_compiled_does_not :
  let w := InMemoryExample.world_of [2 ^ 30] 1000 (2 ^ 33) in
  let boxed_run :=
    InMemory.TupleCallArrayExecution_call InMemoryExample.layout
      Example.swap_sizes (InMemoryExample.indices_view 1)
      InMemoryExample.input_buffers InMemoryExample.output_buffers w in
  let compiled_run :=
    InMemory.LLVMArrayExecution_call InMemoryExample.swap_compiled
      (InMemoryExample.indices_view 1)
      InMemoryExample.input_buffers InMemoryExample.output_buffers w in
  TupleCallArrayExecution_new Example.swap_fn Example.world0
    = (Returned Example.swap_sizes, Example.world0) /\
  fst (InMemory.LLVMArrayExecution_new InMemoryExample.layout
         InMemoryExample.type_ir Example.jit_ok Example.swap_fn
         Example.world0)
    = Returned InMemoryExample.swap_compiled /\
  view_uints InMemoryExample.layout (InMemoryExample.indices_view 1)
    (memory w) = [2 ^ 30] /\
  view_pointers InMemoryExample.layout InMemoryExample.input_buffers
    (memory w) = [1000] /\
  view_pointers InMemoryExample.layout
    (MutableArrayRef.to_ArrayRef InMemoryExample.output_buffers) (memory w)
    = [2 ^ 33] /\
  fst boxed_run = Returned tt /\
  fst compiled_run = Returned tt /\
  accesses (trace (snd boxed_run)) = [EvRead 0 1000 4; EvWrite 0 (2 ^ 33) 4] /\
  accesses (trace (snd compiled_run))
  = [EvRead 0 (1000 + 2 ^ 32) 4; EvWrite 0 (2 ^ 33 + 2 ^ 32) 4] /\
  memory (snd boxed_run) (2 ^ 33) = x04 /\
  memory (snd compiled_run) (2 ^ 33) = x00.
Proof.
  cbv zeta. split; [reflexivity|]. split; [reflexivity|].
  repeat split; vm_compute; reflexivity.
Qed.


Lemma C10_witness :
  mem_read
    (memory
       (snd (InMemory.TupleCallArrayExecution_call InMemoryExample.layout
               Example.swap_sizes (InMemoryExample.indices_view 3)
               InMemoryExample.input_buffers InMemoryExample.output_buffers
               (InMemoryExample.world_of [2; 2; 0] 1000 2000))))
    2008 4
  = [x0c; x0b; x0a; x09].
Proof.
  pose proof (C10_indices_in_order_last_write_stays
                InMemoryExample.layout
                Example.swap_fn Example.swap_sizes
                Example.world0 Example.world0
                [2] 2 [0]
                (InMemoryExample.indices_view 3)
                InMemoryExample.input_buffers InMemoryExample.output_buffers
                (InMemoryExample.world_of [2; 2; 0] 1000 2000)
                (snd (InMemory.TupleCallArrayExecution_call
                        InMemoryExample.layout Example.swap_sizes
                        (InMemoryExample.indices_view 3)
                        InMemoryExample.input_buffers
                        InMemoryExample.output_buffers
                        (InMemoryExample.world_of [2; 2; 0] 1000 2000))))
    as T.
  cbv zeta in T. rewrite example_outputs_220 in T.
  destruct T
    as (calls_pre & inputs & args & results & calls_post
        & Hl1 & Hl2 & Htrace & Hlast).
  - reflexivity.
  - exact example_indices_220.
  - apply example_indices_kept; [simpl; lia | below_arrays].
  - apply example_output_pointers_kept; below_arrays.
  - vm_compute. reflexivity.
  - destruct calls_pre as [|c1 [|c2 calls_pre]]; try discriminate Hl1.
    destruct calls_post as [|c3 [|c4 calls_post]]; try discriminate Hl2.
    assert (Hres : results = [Some [x0c; x0b; x0a; x09]]).
    { vm_compute in Htrace. inversion Htrace. reflexivity. }
    specialize (Hlast 0%nat). subst results.
    change (mem_read
              (memory
                 (snd (InMemory.TupleCallArrayExecution_call
                         InMemoryExample.layout Example.swap_sizes
                         (InMemoryExample.indices_view 3)
                         InMemoryExample.input_buffers
                         InMemoryExample.output_buffers
                         (InMemoryExample.world_of [2; 2; 0] 1000 2000))))
              2008 4 = element_bytes 4 [x0c; x0b; x0a; x09]).
    apply Hlast.
    + cbv. lia.
    + intros a Ha. change (in_region 2008 4 a) in Ha.
      unfold in_region in Ha. split.
      * intros (index & k & Hin & Hk & Hreg).
        destruct Hin as [<-|[]]. one_slot Hk k.
        change (in_region 2000 4 a) in Hreg. unfold in_region in Hreg. lia.
      * intros k' Hk'. cbv in Hk'. lia.
Defined.

(** C10, as stated, fails in two ways.  When the output element of an
    index lies on the index array (the output buffer at 2984, so that
    output element 5 is [indices[1]]), the call that begins on the index
    array [5; 3] processes 5 and then 0, not 5 and then 3.  When it lies
    on the array of output buffer pointers (the output buffer at 4004, so
    that output element 1 is the low half of [output_buffers[0]]), the
    call on the index array [1; 0; 1] writes the output of the first
    occurrence of 1 into element 1 of the output buffer and the outputs of
    the later indices where the pointer left by that write says: element 1
    of the output buffer is left with the output of the first occurrence,
    [ec 03 00 00], not with that of the last one, [01 02 03 04]. *)
Lemma C10_counterexample :
  let boxed := fun n w =>
    InMemory.TupleCallArrayExecution_call InMemoryExample.layout
      Example.swap_sizes (InMemoryExample.indices_view n)
      InMemoryExample.input_buffers InMemoryExample.output_buffers w in
  let shown := fun n (w : @World nat) =>
    (view_uints InMemoryExample.layout (InMemoryExample.indices_view n)
       (memory w),
     view_pointers InMemoryExample.layout InMemoryExample.input_buffers
       (memory w),
     view_pointers InMemoryExample.layout
       (MutableArrayRef.to_ArrayRef InMemoryExample.output_buffers)
       (memory w)) in
  let block := fun index call =>
    tuple_call_events Example.swap_sizes [1000] [2984] index call in
  let on_indices := InMemoryExample.world_of [5; 3] 1000 2984 in
  let on_outputs : @World nat :=
    {| memory :=
         InMemoryExample.store_array 4 1000 [67305985; 3959619584]
           (InMemoryExample.memory_of [1; 0; 1] 1000 4004);
       context := 0%nat; llvm_contexts_held := 0%nat; trace := [] |} in
  TupleCallArrayExecution_new Example.swap_fn Example.world0
    = (Returned Example.swap_sizes, Example.world0) /\
  (shown 2 on_indices = ([5; 3], [1000], [2984]) /\
   fst (boxed 2 on_indices) = Returned tt /\
   trace (snd (boxed 2 on_indices))
   = [EvAllocTuple InputFrame 1; EvAllocTuple OutputFrame 1]
     ++ block 5 ([Some [x00; x00; x00; x00]], [Some [x00; x00; x00; x00]])
     ++ block 0 ([Some [x01; x02; x03; x04]], [Some [x04; x03; x02; x01]]) /\
   view_uints InMemoryExample.layout (InMemoryExample.indices_view 2)
     (memory (snd (boxed 2 on_indices))) = [5; 0] /\
   forall call5 call3,
     trace (snd (boxed 2 on_indices))
     <> [EvAllocTuple InputFrame 1; EvAllocTuple OutputFrame 1]
        ++ block 5 call5 ++ block 3 call3) /\
  (shown 3 on_outputs = ([1; 0; 1], [1000], [4004]) /\
   mem_read (memory on_outputs) 1000 8
   = [x01; x02; x03; x04; x00; x00; x03; xec] /\
   fst (boxed 3 on_outputs) = Returned tt /\
   trace (snd (boxed 3 on_outputs))
   = [EvAllocTuple InputFrame 1; EvAllocTuple OutputFrame 1;
      EvRead 0 1004 4;
      EvBodyCall [Some [x00; x00; x03; xec]] [Some [xec; x03; x00; x00]];
      EvWrite 0 4008 4;
      EvRead 0 1000 4;
      EvBodyCall [Some [x01; x02; x03; x04]] [Some [x04; x03; x02; x01]];
      EvWrite 0 1004 4;
      EvRead 0 1004 4;
      EvBodyCall [Some [x04; x03; x02; x01]] [Some [x01; x02; x03; x04]];
      EvWrite 0 1008 4] /\
   mem_read (memory (snd (boxed 3 on_outputs))) (4004 + 1 * 4) 4
   = [xec; x03; x00; x00]).
Proof.
  cbv zeta. split; [reflexivity|]. split.
  - split; [vm_compute; reflexivity|]. split; [vm_compute; reflexivity|].
    split; [vm_compute; reflexivity|]. split; [vm_compute; reflexivity|].
    intros call5 call3 H. vm_compute in H. inversion H.
  - repeat split; vm_compute; reflexivity.
Qed.

Lemma C6_witness :
  trace (snd (InMemory.LLVMArrayExecution_new InMemoryExample.layout
                InMemoryExample.type_ir Example.jit_ok Example.swap_fn
                Example.world0))
  = [EvAquireContext; EvNewModule "Swap (Array Execution)";
     EvCreateFunction "Swap (Array Execution)"; EvBuildBody "Swap";
     EvFromIR "Swap (Array Execution)"; EvReleaseContext] /\
  InMemory.m_compiled_function InMemoryExample.swap_compiled
  = Some {| InMemory.function_ptr :=
              InMemory.emitted_function InMemoryExample.layout
                InMemoryExample.type_ir Example.swap_sizes
                [{| llvm_type_name := "i32" |}]
                [{| llvm_type_name := "i32" |}]
                (fun values ctx => (Example.swap values, ctx)) |}.
Proof.
  destruct (C6_compiled_at_construction_invoked_once
              InMemoryExample.layout InMemoryExample.type_ir Example.jit_ok
              Example.swap_fn Example.world0
              (snd (InMemory.LLVMArrayExecution_new InMemoryExample.layout
                      InMemoryExample.type_ir Example.jit_ok Example.swap_fn
                      Example.world0))
              InMemoryExample.swap_compiled)
    as (Htrace & b & native & emitted & compiled & Hb & Hbuild & Hemitted
        & _ & _ & Hptr & Hkept & _).
  - reflexivity.
  - split; [exact Htrace|].
    rewrite Hkept. f_equal. destruct compiled as [function_ptr].
    cbn [InMemory.function_ptr] in Hptr. rewrite Hptr, Hemitted.
    inversion Hb; subst b. inversion Hbuild; subst native. reflexivity.
Defined.

Ltac swap_bodies :=
  match goal with
  | |- forall b, body_TupleCall _ = Some b -> TupleCallBody_computes b _ =>
      let b := fresh "b" in
      let H := fresh "H" in
      intros b H; inversion H; intros fn_in fn_out ctx; reflexivity
  | |- forall b, body_LLVMBuildIR _ = Some b ->
                 LLVMBuildIRBody_computes b _ =>
      let b := fresh "b" in
      let H := fresh "H" in
      intros b H; inversion H; eexists; split; [reflexivity|];
      intros values ctx; reflexivity
  end.

Lemma X5_witness :
  let w := InMemoryExample.world_of [0; 2; 4] 1000 2000 in
  (exists w1 w2 w12,
      InMemory.TupleCallArrayExecution_call InMemoryExample.layout
        Example.swap_sizes (ArrayRef.make 3000 2)
        InMemoryExample.input_buffers InMemoryExample.output_buffers w
      = (Returned tt, w1) /\
      InMemory.TupleCallArrayExecution_call InMemoryExample.layout
        Example.swap_sizes (ArrayRef.make 3008 1)
        InMemoryExample.input_buffers InMemoryExample.output_buffers w1
      = (Returned tt, w2) /\
      InMemory.TupleCallArrayExecution_call InMemoryExample.layout
        Example.swap_sizes (InMemoryExample.indices_view 3)
        InMemoryExample.input_buffers InMemoryExample.output_buffers w
      = (Returned tt, w12) /\
      memory w12 = memory w2) /\
  (exists w1 w2 w12,
      InMemory.LLVMArrayExecution_call InMemoryExample.swap_compiled
        (ArrayRef.make 3000 2)
        InMemoryExample.input_buffers InMemoryExample.output_buffers w
      = (Returned tt, w1) /\
      InMemory.LLVMArrayExecution_call InMemoryExample.swap_compiled
        (ArrayRef.make 3008 1)
        InMemoryExample.input_buffers InMemoryExample.output_buffers w1
      = (Returned tt, w2) /\
      InMemory.LLVMArrayExecution_call InMemoryExample.swap_compiled
        (InMemoryExample.indices_view 3)
        InMemoryExample.input_buffers InMemoryExample.output_buffers w
      = (Returned tt, w12) /\
      memory w12 = memory w2).
Proof.
  cbv zeta.
  pose proof (X5_call_on_split_index_array
                InMemoryExample.layout InMemoryExample.type_ir Example.jit_ok
                Example.swap_fn Example.swap
                Example.swap_sizes InMemoryExample.swap_compiled
                Example.world0 Example.world0 Example.world0
                (snd (InMemory.LLVMArrayExecution_new InMemoryExample.layout
                        InMemoryExample.type_ir Example.jit_ok
                        Example.swap_fn Example.world0))
                (InMemoryExample.indices_view 3)
                (ArrayRef.make 3000 2) (ArrayRef.make 3008 1)
                InMemoryExample.input_buffers InMemoryExample.output_buffers
                (InMemoryExample.world_of [0; 2; 4] 1000 2000)) as T.
  cbv zeta in T. rewrite example_indices_024, example_outputs_024 in T.
  destruct T as [Hboxed Hcompiled].
  - reflexivity.
  - reflexivity.
  - swap_bodies.
  - swap_bodies.
  - intros values. reflexivity.
  - reflexivity.
  - reflexivity.
  - unfold splits, ArrayRef.begin_, ArrayRef.end_, ArrayRef.size. simpl. lia.
  - simpl. lia.
  - simpl. lia.
  - split.
    + apply Hboxed.
      * apply example_indices_kept; [simpl; lia | below_arrays].
      * apply example_pointers_kept; below_arrays.
    + apply Hcompiled.
      * exact example_plain_types.
      * exact example_plain_types.
      * apply example_indices_kept; [simpl; lia | below_arrays].
      * apply example_pointers_kept; below_arrays.
Defined.

Lemma X6_witness :
  let w := InMemoryExample.world_of [0; 2; 2; 2; 0] 1000 2000 in
  exists w1 w2,
    InMemory.TupleCallArrayExecution_call InMemoryExample.layout
      Example.swap_sizes (InMemoryExample.indices_view 3)
      InMemoryExample.input_buffers InMemoryExample.output_buffers w
    = (Returned tt, w1) /\
    InMemory.TupleCallArrayExecution_call InMemoryExample.layout
      Example.swap_sizes (ArrayRef.make 3012 2)
      InMemoryExample.input_buffers InMemoryExample.output_buffers w
    = (Returned tt, w2) /\
    forall a, memory w1 a = memory w2 a.
Proof.
  cbv zeta.
  pose proof (X6_boxed_result_depends_on_index_set
                InMemoryExample.layout
                Example.swap_fn Example.swap Example.swap_sizes
                Example.world0 Example.world0
                (InMemoryExample.indices_view 3) (ArrayRef.make 3012 2)
                InMemoryExample.input_buffers InMemoryExample.output_buffers
                (InMemoryExample.world_of [0; 2; 2; 2; 0] 1000 2000)) as T.
  cbv zeta in T.
  rewrite example_indices_022, example_indices_20, example_inputs_02220,
    example_outputs_02220 in T.
  apply T; clear T.
  - reflexivity.
  - swap_bodies.
  - intros values. reflexivity.
  - reflexivity.
  - reflexivity.
  - intros x. simpl. tauto.
  - apply example_indices_kept; [simpl; lia | below_arrays].
  - apply example_indices_kept; [simpl; lia | below_arrays].
  - apply example_pointers_kept; below_arrays.
  - intros i j ki ko a Hi Hj Hki Hko. one_slot Hki ki. one_slot Hko ko.
    destruct Hi as [<-|[<-|[<-|[]]]]; destruct Hj as [<-|[<-|[<-|[]]]];
      concrete_regions.
  - intros i j k k' a Hi Hj Hne Hk Hk'. one_slot Hk k. one_slot Hk' k'.
    destruct Hi as [<-|[<-|[<-|[]]]]; destruct Hj as [<-|[<-|[<-|[]]]];
      try (contradiction Hne; reflexivity); concrete_regions.
Defined.

Lemma X7_witness :
  let w := InMemoryExample.world_of [0; 2; 2; 2; 0] 1000 2000 in
  exists w1 w2,
    InMemory.LLVMArrayExecution_call InMemoryExample.swap_compiled
      (InMemoryExample.indices_view 3)
      InMemoryExample.input_buffers InMemoryExample.output_buffers w
    = (Returned tt, w1) /\
    InMemory.LLVMArrayExecution_call InMemoryExample.swap_compiled
      (ArrayRef.make 3012 2)
      InMemoryExample.input_buffers InMemoryExample.output_buffers w
    = (Returned tt, w2) /\
    forall a, memory w1 a = memory w2 a.
Proof.
  cbv zeta.
  pose proof (X7_compiled_result_depends_on_index_set
                InMemoryExample.layout InMemoryExample.type_ir Example.jit_ok
                Example.swap_fn Example.swap InMemoryExample.swap_compiled
                Example.world0
                (snd (InMemory.LLVMArrayExecution_new InMemoryExample.layout
                        InMemoryExample.type_ir Example.jit_ok
                        Example.swap_fn Example.world0))
                (InMemoryExample.indices_view 3) (ArrayRef.make 3012 2)
                InMemoryExample.input_buffers InMemoryExample.output_buffers
                (InMemoryExample.world_of [0; 2; 2; 2; 0] 1000 2000)) as T.
  cbv zeta in T.
  rewrite example_indices_022, example_indices_20, example_inputs_02220,
    example_outputs_02220 in T.
  apply T; clear T.
  - reflexivity.
  - swap_bodies.
  - intros values. reflexivity.
  - reflexivity.
  - reflexivity.
  - exact example_plain_types.
  - exact example_plain_types.
  - intros x. simpl. tauto.
  - apply example_indices_kept; [simpl; lia | below_arrays].
  - apply example_indices_kept; [simpl; lia | below_arrays].
  - intros i j ki ko a Hi Hj Hki Hko. one_slot Hki ki. one_slot Hko ko.
    destruct Hi as [<-|[<-|[<-|[]]]]; destruct Hj as [<-|[<-|[<-|[]]]];
      concrete_regions.
  - intros i j k k' a Hi Hj Hne Hk Hk'. one_slot Hk k. one_slot Hk' k'.
    destruct Hi as [<-|[<-|[<-|[]]]]; destruct Hj as [<-|[<-|[<-|[]]]];
      try (contradiction Hne; reflexivity); concrete_regions.
Defined.

Lemma X10_witness :
  exists w1 w2,
    InMemory.TupleCallArrayExecution_call InMemoryExample.layout
      Example.swap_sizes (InMemoryExample.indices_view 3)
      InMemoryExample.input_buffers InMemoryExample.output_buffers
      (InMemoryExample.world_of [0; 2; 4] 1000 2000)
    = (Returned tt, w1) /\
    InMemory.TupleCallArrayExecution_call InMemoryExample.layout
      Example.swap_sizes (InMemoryExample.indices_view 3)
      InMemoryExample.input_buffers InMemoryExample.output_buffers w1
    = (Returned tt, w2) /\
    forall a, memory w2 a = memory w1 a.
Proof.
  pose proof (X10_boxed_call_again_changes_nothing
                InMemoryExample.layout
                Example.swap_fn Example.swap Example.swap_sizes
                Example.world0 Example.world0
                (InMemoryExample.indices_view 3)
                InMemoryExample.input_buffers InMemoryExample.output_buffers
                (InMemoryExample.world_of [0; 2; 4] 1000 2000)) as T.
  cbv zeta in T.
  rewrite example_indices_024, example_inputs_024, example_outputs_024 in T.
  apply T; clear T.
  - reflexivity.
  - swap_bodies.
  - intros values. reflexivity.
  - reflexivity.
  - reflexivity.
  - apply example_indices_kept; [simpl; lia | below_arrays].
  - apply example_pointers_kept; below_arrays.
  - intros i j ki ko a Hi Hj Hki Hko. one_slot Hki ki. one_slot Hko ko.
    destruct Hi as [<-|[<-|[<-|[]]]]; destruct Hj as [<-|[<-|[<-|[]]]];
      concrete_regions.
  - intros i j k k' a Hi Hj Hne Hk Hk'. one_slot Hk k. one_slot Hk' k'.
    destruct Hi as [<-|[<-|[<-|[]]]]; destruct Hj as [<-|[<-|[<-|[]]]];
      try (contradiction Hne; reflexivity); concrete_regions.
Defined.

Lemma X11_witness :
  exists w1 w2,
    InMemory.LLVMArrayExecution_call InMemoryExample.swap_compiled
      (InMemoryExample.indices_view 3)
      InMemoryExample.input_buffers InMemoryExample.output_buffers
      (InMemoryExample.world_of [0; 2; 4] 1000 2000)
    = (Returned tt, w1) /\
    InMemory.LLVMArrayExecution_call InMemoryExample.swap_compiled
      (InMemoryExample.indices_view 3)
      InMemoryExample.input_buffers InMemoryExample.output_buffers w1
    = (Returned tt, w2) /\
    forall a, memory w2 a = memory w1 a.
Proof.
  pose proof (X11_compiled_call_again_changes_nothing
                InMemoryExample.layout InMemoryExample.type_ir Example.jit_ok
                Example.swap_fn Example.swap InMemoryExample.swap_compiled
                Example.world0
                (snd (InMemory.LLVMArrayExecution_new InMemoryExample.layout
                        InMemoryExample.type_ir Example.jit_ok
                        Example.swap_fn Example.world0))
                (InMemoryExample.indices_view 3)
                InMemoryExample.input_buffers InMemoryExample.output_buffers
                (InMemoryExample.world_of [0; 2; 4] 1000 2000)) as T.
  cbv zeta in T.
  rewrite example_indices_024, example_inputs_024, example_outputs_024 in T.
  apply T; clear T.
  - reflexivity.
  - swap_bodies.
  - intros values. reflexivity.
  - reflexivity.
  - reflexivity.
  - exact example_plain_types.
  - exact example_plain_types.
  - apply example_indices_kept; [simpl; lia | below_arrays].
  - apply example_pointers_kept; below_arrays.
  - intros i j ki ko a Hi Hj Hki Hko. one_slot Hki ki. one_slot Hko ko.
    destruct Hi as [<-|[<-|[<-|[]]]]; destruct Hj as [<-|[<-|[<-|[]]]];
      concrete_regions.
  - intros i j k k' a Hi Hj Hne Hk Hk'. one_slot Hk k. one_slot Hk' k'.
    destruct Hi as [<-|[<-|[<-|[]]]]; destruct Hj as [<-|[<-|[<-|[]]]];
      try (contradiction Hne; reflexivity); concrete_regions.
Defined.

Lemma X28_witness :
  exists w1 w2,
    InMemory.TupleCallArrayExecution_call InMemoryExample.layout
      Example.swap_sizes (InMemoryExample.indices_view 3)
      InMemoryExample.input_buffers InMemoryExample.output_buffers
      (InMemoryExample.world_of [0; 2; 4] 1000 2000)
    = (Returned tt, w1) /\
    InMemory.LLVMArrayExecution_call InMemoryExample.swap_compiled
      (InMemoryExample.indices_view 3)
      InMemoryExample.input_buffers InMemoryExample.output_buffers
      (InMemoryExample.world_of [0; 2; 4] 1000 2000)
    = (Returned tt, w2) /\
    memory w1 = memory w2.
Proof.
  pose proof (X28_strategies_agree_without_wraparound_or_overlap
                InMemoryExample.layout InMemoryExample.type_ir Example.jit_ok
                Example.swap_fn Example.swap
                Example.swap_sizes InMemoryExample.swap_compiled
                Example.world0 Example.world0 Example.world0
                (snd (InMemory.LLVMArrayExecution_new InMemoryExample.layout
                        InMemoryExample.type_ir Example.jit_ok
                        Example.swap_fn Example.world0))
                (InMemoryExample.indices_view 3)
                InMemoryExample.input_buffers InMemoryExample.output_buffers
                (InMemoryExample.world_of [0; 2; 4] 1000 2000)) as T.
  cbv zeta in T.
  rewrite example_indices_024, example_outputs_024 in T.
  apply T; clear T.
  - reflexivity.
  - reflexivity.
  - swap_bodies.
  - swap_bodies.
  - intros values. reflexivity.
  - reflexivity.
  - reflexivity.
  - exact example_plain_types.
  - exact example_plain_types.
  - unfold uint_modulus. simpl. intros index element_size Hi Hs.
    destruct Hs as [<-|[<-|[]]]; destruct Hi as [<-|[<-|[<-|[]]]]; lia.
  - apply example_indices_kept; [simpl; lia | below_arrays].
  - apply example_pointers_kept; below_arrays.
Defined.

(** * Properties of the colouring API *)

Section Colours.

Import DrawArmature.

(** ** Shading *)

Lemma int_add_in_range a b :
  INT_MIN <= a + b <= INT_MAX -> int_add a b = Some (a + b).
Proof.
  intros H. unfold int_add.
  destruct (Z.leb_spec INT_MIN (a + b)); [|lia].
  destruct (Z.leb_spec (a + b) INT_MAX); [|lia]. reflexivity.
Qed.

Lemma int_add_overflow a b : INT_MAX < a + b -> int_add a b = None.
Proof.
  intros H. unfold int_add.
  destruct (Z.leb_spec (a + b) INT_MAX); [lia|].
  rewrite andb_false_r. reflexivity.
Qed.

Lemma to_uchar_CLAMP r : to_uchar (CLAMP r 0 255) = limited r.
Proof.
  unfold to_uchar, CLAMP, limited.
  destruct (Z.ltb_spec r 0); [rewrite Z.mod_small by lia; lia|].
  destruct (Z.ltb_spec 255 r); rewrite Z.mod_small by lia; lia.
Qed.

Lemma cp_shade_color3ub_spec cp0 cp1 cp2 offset :
  is_uchar3 (cp0, cp1, cp2) ->
  INT_MIN <= offset <= INT_MAX - 255 ->
  cp_shade_color3ub (cp0, cp1, cp2) offset
  = Some (limited (offset + cp0), limited (offset + cp1),
          limited (offset + cp2)).
Proof.
  intros (H0 & H1 & H2) Ho. unfold is_uchar in *. unfold cp_shade_color3ub.
  rewrite !int_add_in_range by lia. rewrite !to_uchar_CLAMP. reflexivity.
Qed.

Lemma is_uchar_limited x : is_uchar (limited x).
Proof. unfold is_uchar, limited. lia. Qed.

(** X23.  [cp_shade_color3ub] adds the offset to each of the three
    channels and limits the sum to 0..255: for every offset from [INT_MIN]
    to [INT_MAX - 255] it is defined, the three results fit an
    [unsigned char], so that nothing is lost when they are stored back, and
    the offset 0 changes nothing.  An offset so large that the first sum
    exceeds [INT_MAX] is undefined behaviour. *)
Theorem X23_cp_shade_color3ub_limits_each_channel
    (cp0 cp1 cp2 offset : Z) :
  is_uchar3 (cp0, cp1, cp2) ->
  INT_MIN <= offset <= INT_MAX ->
  (offset <= INT_MAX - 255 ->
   cp_shade_color3ub (cp0, cp1, cp2) offset
   = Some (limited (offset + cp0), limited (offset + cp1),
           limited (offset + cp2)) /\
   is_uchar3 (limited (offset + cp0), limited (offset + cp1),
              limited (offset + cp2)) /\
   (offset = 0 ->
    cp_shade_color3ub (cp0, cp1, cp2) offset = Some (cp0, cp1, cp2))) /\
  (INT_MAX < offset + cp0 -> cp_shade_color3ub (cp0, cp1, cp2) offset = None).
Proof.
  intros Hcp Ho. split.
  - intros Hmax. rewrite cp_shade_color3ub_spec by (auto; lia).
    split; [reflexivity|]. split.
    + repeat split; apply is_uchar_limited.
    + intros ->. destruct Hcp as (H0 & H1 & H2).
      unfold is_uchar, limited in *. repeat f_equal; lia.
  - intros Hover. unfold cp_shade_color3ub.
    rewrite int_add_overflow by exact Hover. reflexivity.
Qed.

(** X24.  Two shadings in the same direction add up: for offsets [a] and
    [b] that are both darkening or both brightening, shading by [a] and then
    by [b] gives what shading by [a + b] gives. *)
Theorem X24_cp_shade_color3ub_same_direction_adds_up
    (cp0 cp1 cp2 a b : Z) :
  is_uchar3 (cp0, cp1, cp2) ->
  (0 <= a /\ 0 <= b) \/ (a <= 0 /\ b <= 0) ->
  INT_MIN <= a + b <= INT_MAX - 255 ->
  exists once,
    cp_shade_color3ub (cp0, cp1, cp2) a = Some once /\
    cp_shade_color3ub once b = cp_shade_color3ub (cp0, cp1, cp2) (a + b).
Proof.
  intros Hcp Hdir Hsum.
  assert (Hrange : INT_MIN <= 0 <= INT_MAX - 255)
    by (unfold INT_MIN, INT_MAX; lia).
  eexists. split.
  - apply cp_shade_color3ub_spec; [exact Hcp | lia].
  - rewrite !cp_shade_color3ub_spec; try lia; try exact Hcp.
    + destruct Hcp as (H0 & H1 & H2). unfold is_uchar, limited in *.
      apply f_equal. apply f_equal2; [apply f_equal2|]; lia.
    + repeat split; apply is_uchar_limited.
Qed.

(** ** Choosing the colour of a bone *)

Ltac case_analysis :=
  repeat match goal with
         | |- context [if ?b then _ else _] => destruct b
         | |- context [match ?b with true => _ | false => _ end] => destruct b
         | H : context [if ?b then _ else _] |- _ => destruct b
         end.

(** X25.  With a colour set whose channels are [unsigned char]s, or with
    none, [set_pchan_gpuCurrentColor] is defined for every colour code and
    all flags (the shadings it asks for never overflow); it makes at most
    one colour call, and every channel it hands to the GPU is from 0 to
    255. *)
Theorem X25_set_pchan_gpuCurrentColor_sets_at_most_one_color
    (k : Masks) (bcolor : option ThemeWireColor)
    (colCode boneflag constflag : Z) :
  is_color_set bcolor ->
  exists calls result,
    set_pchan_gpuCurrentColor k bcolor colCode boneflag constflag
    = Some (calls, result) /\
    (length calls <= 1)%nat /\
    Forall (fun call => Forall is_uchar (channels call)) calls.
Proof.
  intros Hset.
  assert (Hrange : forall offset, -255 <= offset <= 255 ->
                                  INT_MIN <= offset <= INT_MAX - 255)
    by (unfold INT_MIN, INT_MAX; lia).
  unfold set_pchan_gpuCurrentColor, constraint_color, current_color3ubv.
  destruct bcolor as [[[[s0 s1] s2] [[e0 e1] e2] [[a0 a1] a2] fl]|];
    cbn [solid select active flag] in *.
  - destruct Hset as (Hs & He & Ha).
    rewrite !(cp_shade_color3ub_spec a0 a1 a2) by (auto; apply Hrange; lia).
    rewrite !(cp_shade_color3ub_spec e0 e1 e2) by (auto; apply Hrange; lia).
    rewrite !(cp_shade_color3ub_spec s0 s1 s2) by (auto; apply Hrange; lia).
    destruct Hs as (? & ? & ?), He as (? & ? & ?), Ha as (? & ? & ?).
    case_analysis; eexists _, _; (split; [reflexivity|]);
      (split; [simpl; lia|]);
      repeat (apply Forall_cons || apply Forall_nil); cbn [channels];
      repeat (apply Forall_cons || apply Forall_nil);
      try apply is_uchar_limited; try assumption; unfold is_uchar; lia.
  - case_analysis; eexists _, _; (split; [reflexivity|]);
      (split; [simpl; lia|]);
      repeat (apply Forall_cons || apply Forall_nil); cbn [channels];
      repeat (apply Forall_cons || apply Forall_nil);
      unfold is_uchar; lia.
Qed.

Lemma current_color3ubv_inv cp result calls result' :
  current_color3ubv cp result = Some (calls, result') ->
  result' = result /\ length calls = 1%nat.
Proof.
  unfold current_color3ubv. destruct cp; [|discriminate].
  intros H. inversion H. split; reflexivity.
Qed.

Lemma length_constraint_color k constflag color otherwise :
  length (constraint_color k constflag color otherwise)
  = if constraint_bits k constflag then 1%nat else length otherwise.
Proof.
  unfold constraint_color, constraint_bits.
  destruct (has constflag (PCHAN_HAS_TARGET k));
    destruct (has constflag (PCHAN_HAS_IK k));
    destruct (has constflag (PCHAN_HAS_SPLINEIK k));
    destruct (has constflag (PCHAN_HAS_CONST k)); reflexivity.
Qed.

(** X26.  What [set_pchan_gpuCurrentColor] returns, and whether it has set
    a colour.  It returns true for the codes NORMAL, SOLID, SPHEREBONE_BASE
    and LINEBONE, and for CONSTS when constraint colours are not suppressed
    by the colour set; it returns false otherwise.  It sets a colour for
    every named code but CONSTS, and for CONSTS when it returns true and one
    of the four constraint bits is set.  So for SPHEREBONE_END it sets a
    colour and returns false, and for CONSTS without a constraint bit it
    returns true and has set none. *)
Theorem X26_set_pchan_gpuCurrentColor_result
    (k : Masks) (bcolor : option ThemeWireColor)
    (colCode boneflag constflag : Z)
    (calls : list ColorCall) (result : bool) :
  set_pchan_gpuCurrentColor k bcolor colCode boneflag constflag
  = Some (calls, result) ->
  result
  = ((colCode =? PCHAN_COLOR_NORMAL) || (colCode =? PCHAN_COLOR_SOLID)
     || (colCode =? PCHAN_COLOR_SPHEREBONE_BASE)
     || (colCode =? PCHAN_COLOR_LINEBONE)
     || ((colCode =? PCHAN_COLOR_CONSTS) && constraint_colors_shown k bcolor))
  /\
  length calls
  = (if (colCode =? PCHAN_COLOR_NORMAL) || (colCode =? PCHAN_COLOR_SOLID)
        || (colCode =? PCHAN_COLOR_SPHEREBONE_BASE)
        || (colCode =? PCHAN_COLOR_SPHEREBONE_END)
        || (colCode =? PCHAN_COLOR_LINEBONE)
        || ((colCode =? PCHAN_COLOR_CONSTS)
            && constraint_colors_shown k bcolor
            && constraint_bits k constflag)
     then 1%nat else 0%nat).
Proof.
  unfold set_pchan_gpuCurrentColor.
  destruct (Z.eqb_spec colCode PCHAN_COLOR_NORMAL) as [->|_].
  { intros H. cbn.
    destruct bcolor as [c|]; case_analysis;
      first [apply current_color3ubv_inv in H; destruct H as (-> & ->)
            | inversion H];
      split; reflexivity. }
  destruct (Z.eqb_spec colCode PCHAN_COLOR_SOLID) as [->|_].
  { intros H. cbn. destruct bcolor as [c|]; inversion H; split; reflexivity. }
  destruct (Z.eqb_spec colCode PCHAN_COLOR_CONSTS) as [->|_].
  { fold (constraint_colors_shown k bcolor). intros H. cbn.
    destruct (constraint_colors_shown k bcolor); inversion H; cbn;
      [|split; reflexivity].
    rewrite length_constraint_color. split; [reflexivity|].
    destruct (constraint_bits k constflag); reflexivity. }
  destruct (Z.eqb_spec colCode PCHAN_COLOR_SPHEREBONE_BASE) as [->|_].
  { intros H. cbn.
    destruct bcolor as [c|]; case_analysis;
      first [apply current_color3ubv_inv in H; destruct H as (-> & ->)
            | inversion H];
      split; reflexivity. }
  destruct (Z.eqb_spec colCode PCHAN_COLOR_SPHEREBONE_END) as [->|_].
  { intros H. cbn.
    destruct bcolor as [c|]; case_analysis;
      first [apply current_color3ubv_inv in H; destruct H as (-> & ->)
            | inversion H];
      split; reflexivity. }
  destruct (Z.eqb_spec colCode PCHAN_COLOR_LINEBONE) as [->|_].
  { fold (constraint_colors_shown k bcolor). intros H. cbn.
    destruct (negb (constflag =? 0) && constraint_colors_shown k bcolor).
    - inversion H. rewrite length_constraint_color.
      split; [reflexivity|].
      destruct (constraint_bits k constflag); reflexivity.
    - destruct bcolor as [c|]; [destruct (solid c) as [[c0 c1] c2]|];
        inversion H; split; reflexivity. }
  intros H. inversion H. split; reflexivity.
Qed.

(** X27.  What the colour of a bone depends on.  Of the bone flags,
    [set_pchan_gpuCurrentColor] and [set_ebone_gpuCurrentColor] read
    nothing but [BONE_DRAW_ACTIVE] and [BONE_SELECTED]; for the codes SOLID,
    CONSTS and LINEBONE the bone flags are not read at all, and for every
    code but CONSTS and LINEBONE the constraint flags are not read.
    [set_ebone_gpuCurrentColor] always makes exactly one colour call. *)
Theorem X27_flags_read_by_the_colouring
    (k : Masks) (bcolor : option ThemeWireColor)
    (colCode boneflag boneflag' constflag constflag' : Z) :
  (has boneflag (BONE_DRAW_ACTIVE k) = has boneflag' (BONE_DRAW_ACTIVE k) ->
   has boneflag (BONE_SELECTED k) = has boneflag' (BONE_SELECTED k) ->
   set_pchan_gpuCurrentColor k bcolor colCode boneflag constflag
   = set_pchan_gpuCurrentColor k bcolor colCode boneflag' constflag /\
   set_ebone_gpuCurrentColor k boneflag
   = set_ebone_gpuCurrentColor k boneflag') /\
  (colCode = PCHAN_COLOR_SOLID \/ colCode = PCHAN_COLOR_CONSTS \/
   colCode = PCHAN_COLOR_LINEBONE ->
   set_pchan_gpuCurrentColor k bcolor colCode boneflag constflag
   = set_pchan_gpuCurrentColor k bcolor colCode boneflag' constflag) /\
  (colCode <> PCHAN_COLOR_CONSTS -> colCode <> PCHAN_COLOR_LINEBONE ->
   set_pchan_gpuCurrentColor k bcolor colCode boneflag constflag
   = set_pchan_gpuCurrentColor k bcolor colCode boneflag constflag') /\
  length (set_ebone_gpuCurrentColor k boneflag) = 1%nat.
Proof.
  split; [|split; [|split]].
  - intros Ha Hs. unfold set_pchan_gpuCurrentColor, set_ebone_gpuCurrentColor.
    rewrite Ha, Hs. split; reflexivity.
  - intros [-> | [-> | ->]]; reflexivity.
  - intros H2 H5. unfold set_pchan_gpuCurrentColor.
    destruct (Z.eqb_spec colCode PCHAN_COLOR_CONSTS); [contradiction|].
    destruct (Z.eqb_spec colCode PCHAN_COLOR_LINEBONE); [contradiction|].
    reflexivity.
  - unfold set_ebone_gpuCurrentColor.
    destruct (has boneflag (BONE_DRAW_ACTIVE k));
      destruct (has boneflag (BONE_SELECTED k)); reflexivity.
Qed.

End Colours.

(** * Concrete runs of the colouring API *)

Lemma X23_witness :
  DrawArmature.cp_shade_color3ub (247, 10, 10) (-80)
  = Some (DrawArmature.limited (-80 + 247), DrawArmature.limited (-80 + 10),
          DrawArmature.limited (-80 + 10)) /\
  DrawArmature.cp_shade_color3ub (247, 10, 10) (2 ^ 31 - 200) = None.
Proof.
  assert (Hcp : DrawArmature.is_uchar3 (247, 10, 10))
    by (unfold DrawArmature.is_uchar3, DrawArmature.is_uchar; lia).
  split.
  - apply (proj1 (X23_cp_shade_color3ub_limits_each_channel 247 10 10 (-80)
                    Hcp ltac:(unfold DrawArmature.INT_MIN,
                                DrawArmature.INT_MAX; lia))).
    unfold DrawArmature.INT_MAX. lia.
  - apply (proj2 (X23_cp_shade_color3ub_limits_each_channel 247 10 10
                    (2 ^ 31 - 200)
                    Hcp ltac:(unfold DrawArmature.INT_MIN,
                                DrawArmature.INT_MAX; lia))).
    unfold DrawArmature.INT_MAX. lia.
Defined.

Lemma X24_witness :
  exists once,
    DrawArmature.cp_shade_color3ub (154, 0, 0) (-30) = Some once /\
    DrawArmature.cp_shade_color3ub once (-50)
    = DrawArmature.cp_shade_color3ub (154, 0, 0) (-30 + -50).
Proof.
  apply (X24_cp_shade_color3ub_same_direction_adds_up 154 0 0 (-30) (-50)).
  - unfold DrawArmature.is_uchar3, DrawArmature.is_uchar. lia.
  - right. lia.
  - unfold DrawArmature.INT_MIN, DrawArmature.INT_MAX. lia.
Defined.

Lemma X25_witness :
  exists calls result,
    DrawArmature.set_pchan_gpuCurrentColor DrawArmature.example_masks
      (Some DrawArmature.example_colors)
      DrawArmature.PCHAN_COLOR_NORMAL 2 0 = Some (calls, result) /\
    (length calls <= 1)%nat /\
    Forall (fun call => Forall DrawArmature.is_uchar
                          (DrawArmature.channels call)) calls.
Proof.
  apply (X25_set_pchan_gpuCurrentColor_sets_at_most_one_color
           DrawArmature.example_masks (Some DrawArmature.example_colors)
           DrawArmature.PCHAN_COLOR_NORMAL 2 0).
  unfold DrawArmature.is_color_set, DrawArmature.is_uchar3,
    DrawArmature.is_uchar. simpl. lia.
Defined.

Lemma X26_witness :
  false
  = ((DrawArmature.PCHAN_COLOR_SPHEREBONE_END
      =? DrawArmature.PCHAN_COLOR_NORMAL)
     || (DrawArmature.PCHAN_COLOR_SPHEREBONE_END
         =? DrawArmature.PCHAN_COLOR_SOLID)
     || (DrawArmature.PCHAN_COLOR_SPHEREBONE_END
         =? DrawArmature.PCHAN_COLOR_SPHEREBONE_BASE)
     || (DrawArmature.PCHAN_COLOR_SPHEREBONE_END
         =? DrawArmature.PCHAN_COLOR_LINEBONE)
     || ((DrawArmature.PCHAN_COLOR_SPHEREBONE_END
          =? DrawArmature.PCHAN_COLOR_CONSTS)
         && DrawArmature.constraint_colors_shown DrawArmature.example_masks
              (Some DrawArmature.example_colors))) /\
  length [DrawArmature.gpuCurrentColor3ubv (255, 20, 20)]
  = (if (DrawArmature.PCHAN_COLOR_SPHEREBONE_END
         =? DrawArmature.PCHAN_COLOR_NORMAL)
        || (DrawArmature.PCHAN_COLOR_SPHEREBONE_END
            =? DrawArmature.PCHAN_COLOR_SOLID)
        || (DrawArmature.PCHAN_COLOR_SPHEREBONE_END
            =? DrawArmature.PCHAN_COLOR_SPHEREBONE_BASE)
        || (DrawArmature.PCHAN_COLOR_SPHEREBONE_END
            =? DrawArmature.PCHAN_COLOR_SPHEREBONE_END)
        || (DrawArmature.PCHAN_COLOR_SPHEREBONE_END
            =? DrawArmature.PCHAN_COLOR_LINEBONE)
        || ((DrawArmature.PCHAN_COLOR_SPHEREBONE_END
             =? DrawArmature.PCHAN_COLOR_CONSTS)
            && DrawArmature.constraint_colors_shown DrawArmature.example_masks
                 (Some DrawArmature.example_colors)
            && DrawArmature.constraint_bits DrawArmature.example_masks 0)
     then 1%nat else 0%nat).
Proof.
  apply (X26_set_pchan_gpuCurrentColor_result
           DrawArmature.example_masks (Some DrawArmature.example_colors)
           DrawArmature.PCHAN_COLOR_SPHEREBONE_END 2 0
           [DrawArmature.gpuCurrentColor3ubv (255, 20, 20)] false).
  reflexivity.
Defined.

Lemma X27_witness :
  DrawArmature.set_pchan_gpuCurrentColor DrawArmature.example_masks
    (Some DrawArmature.example_colors) DrawArmature.PCHAN_COLOR_NORMAL 2 0
  = DrawArmature.set_pchan_gpuCurrentColor DrawArmature.example_masks
      (Some DrawArmature.example_colors) DrawArmature.PCHAN_COLOR_NORMAL 6 0
  /\
  DrawArmature.set_ebone_gpuCurrentColor DrawArmature.example_masks 2
  = DrawArmature.set_ebone_gpuCurrentColor DrawArmature.example_masks 6.
Proof.
  apply (proj1 (X27_flags_read_by_the_colouring
                  DrawArmature.example_masks
                  (Some DrawArmature.example_colors)
                  DrawArmature.PCHAN_COLOR_NORMAL 2 6 0 0)); reflexivity.
Defined.
